(** * SKIRT9 core: worker pool, flux recorder and Voronoi mesh snapshot

    A shallow embedding of three pieces of the SKIRT9 radiative transfer
    code and the properties established about them:

    - [Parallel]             (SKIRT/core/Parallel.cpp): the chunk dispenser
      of the worker pool and the handling of exceptions thrown by the body;
    - [FluxRecorder]         (FluxRecorder.cpp): channel allocation,
      detection, the per-history statistics, calibration and output;
    - [VoronoiMeshSnapshot]  (VoronoiMeshSnapshot.cpp): site filtering,
      mass import, search trees, point location, densities, random
      positions and the ray walk.

    Conventions.  A [size_t] is a [Z] reduced modulo [2^64]; an [int] is a
    [Z].  A [double] is a rational number [Q] with exact arithmetic; the
    places where IEEE arithmetic would produce an infinity or a NaN are
    written out.  An access outside the bounds of an array, and a division
    of integers by zero, are undefined behaviour in the source and are
    [None] in the embedding. *)

From Stdlib Require Import ZArith List Lia Bool Arith.
From Stdlib Require Import QArith Qround Qabs Lqa.
From Stdlib Require Import Permutation Sorted.
Import ListNotations.

Local Open Scope Z_scope.

(** ** Generic helpers shared by the three modules *)

(** [size_t] arithmetic: every result is reduced modulo [2^64]. *)
Definition SIZE_MOD : Z := 2 ^ 64.
Definition size_t (x : Z) : Z := x mod SIZE_MOD.

(** [int] arithmetic: the largest [int], and the [int] that holds an
    arithmetic result [x], which is [x] itself when an [int] can hold it and
    [x] reduced modulo [2^32] into the range of [int] otherwise (an
    overflow of [int] arithmetic is formally undefined; this is the value
    that two's complement hardware produces). *)
Definition INT_MAX : Z := 2 ^ 31 - 1.
Definition int_of (x : Z) : Z := (x + 2 ^ 31) mod 2 ^ 32 - 2 ^ 31.

(** The option monad used for code that may run into undefined behaviour. *)
Definition obind {A B : Type} (o : option A) (f : A -> option B) : option B :=
  match o with
  | Some a => f a
  | None => None
  end.

Notation "x <- c1 ;; c2" := (obind c1 (fun x => c2))
  (at level 61, c1 at next level, right associativity).

(** ** The worker pool: [Parallel::call] and [Parallel::doWork] *)

Module Parallel.

(** The shared data members that the chunk dispenser reads and writes. *)
Record Shared : Type := mkShared {
  _threadCount : Z;
  _numChunks : Z;
  _chunkSize : Z;
  _maxIndex : Z;
  _next : Z
}.

(** The critical section of [Parallel::call]: determine the chunk size and
    the number of chunks, and reset the loop variable.  [_threadCount * 8]
    is computed on [int] and converted to [size_t]; the division
    [_maxIndex / _numChunks] is undefined when [_numChunks] is zero. *)
Definition call_init (threadCount maxIndex : Z) (useChunksOfSizeOne : bool)
  : option Shared :=
  let numChunks := if useChunksOfSizeOne then maxIndex
                   else size_t (threadCount * 8) in
  if numChunks =? 0 then None
  else
    let chunkSize := maxIndex / numChunks in
    let numChunks' := if size_t (numChunks * chunkSize) <? maxIndex
                      then size_t (numChunks + 1) else numChunks in
    Some (mkShared threadCount numChunks' chunkSize maxIndex 0).

(** The arguments with which the body is executed for a chunk index. *)
Definition chunkArgs (s : Shared) (chunkIndex : Z) : Z * Z :=
  (size_t (chunkIndex * _chunkSize s),
   Z.min (_chunkSize s)
         (size_t (_maxIndex s - size_t (chunkIndex * _chunkSize s)))).

(** One turn of the loop of [Parallel::doWork]: the chunk index is taken
    and incremented atomically; [None] is the [break]. *)
Definition fetch (s : Shared) : Shared * option (Z * Z) :=
  let chunkIndex := _next s in
  let s' := mkShared (_threadCount s) (_numChunks s) (_chunkSize s)
                     (_maxIndex s) (size_t (chunkIndex + 1)) in
  if chunkIndex >=? _numChunks s then (s', None)
  else (s', Some (chunkArgs s chunkIndex)).

(** The pool while a call is running: the shared members, the threads that
    are still in their work loop, and the invocations of the body so far,
    each with the index of the thread that made it. *)
Record Pool : Type := mkPool {
  shared : Shared;
  working : list nat;
  invoked : list (nat * (Z * Z))
}.

Definition start (s : Shared) : Pool :=
  mkPool s (seq 0 (Z.to_nat (_threadCount s))) [].

(** Thread [t] performs one turn of its work loop (a thread that has left
    the loop does nothing until the next call). *)
Definition turn (p : Pool) (t : nat) : Pool :=
  if existsb (Nat.eqb t) (working p) then
    match fetch (shared p) with
    | (s', Some args) => mkPool s' (working p) (invoked p ++ [(t, args)])
    | (s', None) =>
        mkPool s' (filter (fun u => negb (Nat.eqb t u)) (working p)) (invoked p)
    end
  else p.

(** A schedule is the order in which the threads take their turns. *)
Definition run (schedule : list nat) (p : Pool) : Pool :=
  fold_left turn schedule p.

(** The call returns when no thread is in its work loop any more. *)
Definition finished (p : Pool) : bool :=
  match working p with [] => true | _ => false end.

(** The chunks in the order of their chunk index. *)
Definition dispensed (s : Shared) : list (Z * Z) :=
  map (fun i => chunkArgs s (Z.of_nat i)) (seq 0 (Z.to_nat (_numChunks s))).

(** Index [i] is visited by the invocation [(first, count)]. *)
Definition visits (i : Z) (c : Z * Z) : bool :=
  (fst c <=? i) && (i <? fst c + snd c).

Definition timesVisited (i : Z) (cs : list (Z * Z)) : nat :=
  length (filter (visits i) cs).

Definition totalCount (cs : list (Z * Z)) : Z :=
  fold_right (fun c acc => snd c + acc) 0 cs.

(** A round-robin schedule of [rounds] rounds over [n] threads. *)
Definition roundRobin (n rounds : nat) : list nat :=
  concat (repeat (seq 0 n) rounds).

(** *** Properties of the dispenser *)

Lemma size_t_small (x : Z) : 0 <= x < SIZE_MOD -> size_t x = x.
Proof. intros H. unfold size_t. now apply Z.mod_small. Qed.

Lemma run_app (a b : list nat) (p : Pool) : run (a ++ b) p = run b (run a p).
Proof. unfold run. now rewrite fold_left_app. Qed.

Lemma seq_snoc (n : nat) : seq 0 (S n) = seq 0 n ++ [n].
Proof. now rewrite seq_S. Qed.

(** What is known about a pool at any moment of a call: the loop variable
    counts the turns taken, and the body has been invoked for the chunk
    indices below it, in order. *)
Record consistent (s0 : Shared) (p : Pool) : Prop := mkConsistent {
  cons_chunks : _numChunks (shared p) = _numChunks s0;
  cons_size : _chunkSize (shared p) = _chunkSize s0;
  cons_max : _maxIndex (shared p) = _maxIndex s0;
  cons_bound : 0 <= _next (shared p)
               <= _numChunks s0 + (Z.of_nat (Z.to_nat (_threadCount s0))
                                   - Z.of_nat (length (working p)));
  cons_log : map snd (invoked p)
             = map (fun i => chunkArgs s0 (Z.of_nat i))
                   (seq 0 (Z.to_nat (Z.min (_next (shared p)) (_numChunks s0))));
  cons_left : (length (working p) < Z.to_nat (_threadCount s0))%nat ->
              _numChunks s0 <= _next (shared p);
  cons_len : (length (working p) <= Z.to_nat (_threadCount s0))%nat
}.

Lemma filter_remove_length (t : nat) (l : list nat) :
  existsb (Nat.eqb t) l = true ->
  (length (filter (fun u => negb (Nat.eqb t u)) l) < length l)%nat.
Proof.
  induction l as [|a l IH]; simpl; [discriminate|].
  destruct (Nat.eqb t a) eqn:E; simpl; intros H.
  - pose proof (filter_length_le (fun u => negb (Nat.eqb t u)) l). lia.
  - specialize (IH H). lia.
Qed.

Lemma consistent_start (s : Shared) :
  _next s = 0 -> 0 <= _numChunks s -> consistent s (start s).
Proof.
  intros Hn Hc. constructor; simpl; try reflexivity.
  - rewrite Hn, length_seq. lia.
  - rewrite Hn. now rewrite Z.min_l by lia.
  - rewrite length_seq. lia.
  - rewrite length_seq. lia.
Qed.

Lemma consistent_turn (s0 : Shared) (p : Pool) (t : nat) :
  0 <= _numChunks s0 ->
  _numChunks s0 + Z.of_nat (Z.to_nat (_threadCount s0)) < SIZE_MOD ->
  consistent s0 p -> consistent s0 (turn p t).
Proof.
  intros Hc Hsmall [H1 H2 H3 H4 H5 H6 H7]. unfold turn.
  destruct (existsb (Nat.eqb t) (working p)) eqn:Ew;
    [|now constructor].
  assert (Hpos : (0 < length (working p))%nat).
  { destruct (working p); [discriminate | simpl; lia]. }
  unfold fetch.
  destruct (_next (shared p) >=? _numChunks (shared p)) eqn:Eg.
  - apply Z.geb_le in Eg. rewrite H1 in Eg.
    pose proof (filter_remove_length t (working p) Ew) as Hlt.
    constructor; simpl; try assumption.
    + rewrite size_t_small by lia. lia.
    + rewrite size_t_small by lia.
      rewrite H5. now rewrite !Z.min_r by lia.
    + intros _. rewrite size_t_small by lia. lia.
    + lia.
  - assert (Eg' : _next (shared p) < _numChunks s0).
    { rewrite <- H1.
      destruct (Z.ltb_spec (_next (shared p)) (_numChunks (shared p)))
        as [|Hge]; [assumption|].
      apply Z.geb_le in Hge. congruence. }
    constructor; simpl; try assumption.
    + rewrite size_t_small by lia. lia.
    + rewrite size_t_small by lia.
      rewrite map_app, H5. simpl.
      rewrite Z.min_l by lia. rewrite Z.min_l by lia.
      replace (Z.to_nat (_next (shared p) + 1))
        with (S (Z.to_nat (_next (shared p)))) by lia.
      rewrite seq_snoc, map_app. simpl.
      rewrite Z2Nat.id by lia.
      unfold chunkArgs. now rewrite H2, H3.
    + intros Hl. specialize (H6 Hl). lia.
Qed.

Lemma consistent_run (s0 : Shared) (schedule : list nat) (p : Pool) :
  0 <= _numChunks s0 ->
  _numChunks s0 + Z.of_nat (Z.to_nat (_threadCount s0)) < SIZE_MOD ->
  consistent s0 p -> consistent s0 (run schedule p).
Proof.
  intros Hc Hs. revert p.
  induction schedule as [|t sch IH]; intros p Hp; [exact Hp|].
  change (run (t :: sch) p) with (run sch (turn p t)).
  apply IH. now apply consistent_turn.
Qed.

(** Whatever the order in which the threads take their turns, a call that
    has returned has executed the body exactly for the dispensed chunks,
    in the order of the chunk index. *)
Lemma finished_run_dispensed (s : Shared) (schedule : list nat) :
  _next s = 0 -> 0 <= _numChunks s -> 1 <= _threadCount s ->
  _numChunks s + _threadCount s < SIZE_MOD ->
  finished (run schedule (start s)) = true ->
  map snd (invoked (run schedule (start s))) = dispensed s.
Proof.
  intros Hn Hc Ht Hs Hf.
  assert (Hs' : _numChunks s + Z.of_nat (Z.to_nat (_threadCount s)) < SIZE_MOD)
    by (rewrite Z2Nat.id by lia; exact Hs).
  pose proof (consistent_run s schedule (start s) Hc Hs'
                (consistent_start s Hn Hc)) as [H1 H2 H3 H4 H5 H6 H7].
  unfold finished in Hf.
  destruct (working (run schedule (start s))) eqn:Ew; [|discriminate].
  simpl in H6. rewrite H5. unfold dispensed.
  rewrite Z.min_r; [reflexivity|]. apply H6. lia.
Qed.

(** A call always returns: some order of turns empties the work loops. *)
Lemma some_schedule_finishes (s0 : Shared) :
  0 <= _numChunks s0 ->
  _numChunks s0 + Z.of_nat (Z.to_nat (_threadCount s0)) < SIZE_MOD ->
  forall (n : nat) (p : Pool),
    consistent s0 p ->
    (Z.to_nat (_numChunks s0 - _next (shared p)) + length (working p) <= n)%nat ->
    exists schedule, finished (run schedule p) = true.
Proof.
  intros Hc Hs. induction n as [|n IH]; intros p Hp Hn.
  - exists []. unfold run, finished. simpl.
    destruct (working p); [reflexivity | simpl in Hn; lia].
  - destruct (working p) as [|t w] eqn:Ew.
    + exists []. unfold run, finished. simpl. now rewrite Ew.
    + pose proof (consistent_turn s0 p t Hc Hs Hp) as Hp'.
      destruct (IH (turn p t) Hp') as [sch Hsch].
      * destruct Hp as [H1 H2 H3 H4 H5 H6 H7].
        unfold turn. rewrite Ew. simpl existsb. rewrite Nat.eqb_refl.
        simpl orb. cbv iota. unfold fetch.
        destruct (_next (shared p) >=? _numChunks (shared p)) eqn:Eg; simpl.
        -- rewrite Nat.eqb_refl. simpl.
           pose proof (filter_length_le (fun u => negb (Nat.eqb t u)) w).
           simpl in Hn.
           apply Z.geb_le in Eg. rewrite H1 in Eg.
           rewrite Ew in H4. simpl length in H4.
           rewrite size_t_small by lia. lia.
        -- assert (Eg' : _next (shared p) < _numChunks s0).
           { rewrite <- H1.
             destruct (Z.ltb_spec (_next (shared p)) (_numChunks (shared p)))
               as [|Hge]; [assumption|].
             apply Z.geb_le in Hge. congruence. }
           simpl in Hn. rewrite Ew in H4. simpl length in H4.
           rewrite size_t_small by lia. lia.
      * exists (t :: sch). exact Hsch.
Qed.

Lemma totalCount_app (a b : list (Z * Z)) :
  totalCount (a ++ b) = totalCount a + totalCount b.
Proof.
  induction a as [|c a IH]; simpl; [reflexivity|]. rewrite IH. lia.
Qed.

Lemma timesVisited_beyond (i : Z) (cs : list (Z * Z)) :
  Forall (fun c => fst c + snd c <= i) cs -> timesVisited i cs = 0%nat.
Proof.
  unfold timesVisited. induction 1 as [|c cs Hc _ IH]; [reflexivity|].
  simpl. unfold visits at 1.
  destruct (Z.ltb_spec i (fst c + snd c)) as [Hlt|_]; [lia|].
  rewrite andb_false_r. exact IH.
Qed.

(** A chunk that ends within the range has the full chunk size. *)
Lemma chunkArgs_full (s : Shared) (j : Z) :
  0 <= j -> 0 <= _chunkSize s ->
  (j + 1) * _chunkSize s <= _maxIndex s < SIZE_MOD ->
  chunkArgs s j = (j * _chunkSize s, _chunkSize s).
Proof.
  intros Hj Hc Hm. unfold chunkArgs.
  assert (H0 : 0 <= j * _chunkSize s) by nia.
  rewrite (size_t_small (j * _chunkSize s)) by nia.
  rewrite size_t_small by nia.
  f_equal. apply Z.min_l. nia.
Qed.

(** A chunk that starts within the range is cut off at the end of the
    range. *)
Lemma chunkArgs_last (s : Shared) (j : Z) :
  0 <= j * _chunkSize s <= _maxIndex s -> _maxIndex s < SIZE_MOD ->
  chunkArgs s j
  = (j * _chunkSize s, Z.min (_chunkSize s) (_maxIndex s - j * _chunkSize s)).
Proof.
  intros Hj Hm. unfold chunkArgs.
  rewrite (size_t_small (j * _chunkSize s)) by lia.
  rewrite size_t_small by lia. reflexivity.
Qed.

(** The first [n] chunks, when they all end within the range. *)
Lemma full_chunks (s : Shared) (n : nat) :
  0 <= _chunkSize s ->
  Z.of_nat n * _chunkSize s <= _maxIndex s < SIZE_MOD ->
  totalCount (map (fun i => chunkArgs s (Z.of_nat i)) (seq 0 n))
  = Z.of_nat n * _chunkSize s /\
  Forall (fun c => fst c + snd c <= Z.of_nat n * _chunkSize s)
         (map (fun i => chunkArgs s (Z.of_nat i)) (seq 0 n)).
Proof.
  intros Hc. induction n as [|n IH]; intros Hm.
  - split; [reflexivity | constructor].
  - destruct IH as [Ht Hall]; [nia|].
    rewrite seq_snoc, map_app, totalCount_app. cbn [map].
    rewrite chunkArgs_full by nia.
    split.
    + rewrite Ht. cbn [totalCount fold_right snd]. nia.
    + apply Forall_app. split.
      * eapply Forall_impl; [|exact Hall]. cbn beta. intros c H. nia.
      * constructor; [cbn [fst snd]; nia | constructor].
Qed.

(** What [call] sets up for chunks of the default size. *)
Lemma call_init_default (threadCount N : Z) :
  1 <= threadCount < 2 ^ 28 -> 0 <= N < SIZE_MOD ->
  call_init threadCount N false
  = Some (mkShared threadCount
                   (if 0 <? N mod (8 * threadCount)
                    then 8 * threadCount + 1 else 8 * threadCount)
                   (N / (8 * threadCount)) N 0).
Proof.
  intros Ht HN.
  assert (Hpow : 2 ^ 28 = 268435456) by reflexivity.
  assert (Hmod : SIZE_MOD = 18446744073709551616) by reflexivity.
  unfold call_init.
  replace (threadCount * 8) with (8 * threadCount) by lia.
  rewrite (size_t_small (8 * threadCount)) by lia.
  destruct (Z.eqb_spec (8 * threadCount) 0) as [E|_]; [lia|].
  pose proof (Z.div_mod N (8 * threadCount) ltac:(lia)) as Hdm.
  pose proof (Z.mod_pos_bound N (8 * threadCount) ltac:(lia)) as Hr.
  assert (Hq : 0 <= N / (8 * threadCount)) by (apply Z.div_pos; lia).
  rewrite (size_t_small (8 * threadCount * (N / (8 * threadCount)))) by nia.
  rewrite (size_t_small (8 * threadCount + 1)) by lia.
  f_equal. f_equal.
  destruct (Z.ltb_spec (8 * threadCount * (N / (8 * threadCount))) N);
    destruct (Z.ltb_spec 0 (N mod (8 * threadCount))); lia.
Qed.

(** The chunks dispensed for chunks of the default size: [8 * threadCount]
    chunks of [N / (8 * threadCount)] indices and, when the division leaves
    a remainder, one more chunk that is cut off at that size. *)
Lemma dispensed_default (threadCount N : Z) :
  1 <= threadCount < 2 ^ 28 -> 0 <= N < SIZE_MOD ->
  let K := 8 * threadCount in
  let s := mkShared threadCount (if 0 <? N mod K then K + 1 else K)
                    (N / K) N 0 in
  totalCount (dispensed s) = K * (N / K) + Z.min (N / K) (N mod K) /\
  Forall (fun c => fst c + snd c <= K * (N / K) + Z.min (N / K) (N mod K))
         (dispensed s).
Proof.
  intros Ht HN K s.
  assert (Hpow : 2 ^ 28 = 268435456) by reflexivity.
  assert (HK : 0 < K) by (unfold K; lia).
  pose proof (Z.div_mod N K ltac:(lia)) as Hdm.
  pose proof (Z.mod_pos_bound N K HK) as Hr.
  assert (Hc : 0 <= N / K) by (apply Z.div_pos; lia).
  assert (Hfull : Z.of_nat (Z.to_nat K) * _chunkSize s <= _maxIndex s < SIZE_MOD).
  { rewrite Z2Nat.id by lia. cbn [_chunkSize _maxIndex s]. nia. }
  destruct (full_chunks s (Z.to_nat K) Hc Hfull) as [Ht' Hall].
  rewrite Z2Nat.id in Ht', Hall by lia. cbn [_chunkSize s] in Ht', Hall.
  unfold dispensed. cbn [_numChunks s].
  destruct (Z.ltb_spec 0 (N mod K)) as [Hpos|Hzero].
  - replace (Z.to_nat (K + 1)) with (S (Z.to_nat K)) by lia.
    rewrite seq_snoc, map_app, totalCount_app. cbn [map].
    rewrite Z2Nat.id by lia.
    rewrite chunkArgs_last by (cbn [_chunkSize _maxIndex s]; nia).
    cbn [_chunkSize _maxIndex s].
    replace (N - K * (N / K)) with (N mod K) by lia.
    split.
    + rewrite Ht'. cbn [totalCount fold_right snd]. lia.
    + apply Forall_app. split.
      * eapply Forall_impl; [|exact Hall]. cbn beta. intros c H. lia.
      * constructor; [cbn [fst snd]; lia | constructor].
  - rewrite Z.min_r by lia. replace (N mod K) with 0 by lia.
    rewrite Z.add_0_r. split; assumption.
Qed.

(** C3 (the claim states the contract; the code misses it): for chunks of
    the default size, [call] divides [N] by [K = 8 * threadCount] rounding
    down and adds a single chunk for the remainder, cut off at the chunk
    size.  Whatever the order in which the threads fetch the chunks, the
    invocations of the body count [K * (N / K) + min (N / K) (N mod K)]
    indices in total and visit no index from that number on; so whenever
    the remainder [N mod K] exceeds the chunk size [N / K], the counts sum
    to less than [N] and the index [N - 1] is never visited: the chunks are
    not a partition of the range.  The call does return. *)
Theorem call_default_chunks_miss_remainder (threadCount N : Z) :
  1 <= threadCount < 2 ^ 28 -> 0 < N < SIZE_MOD ->
  let K := 8 * threadCount in
  exists s,
    call_init threadCount N false = Some s /\
    _chunkSize s = N / K /\
    _numChunks s = (if 0 <? N mod K then K + 1 else K) /\
    (exists schedule, finished (run schedule (start s)) = true) /\
    (forall schedule,
        finished (run schedule (start s)) = true ->
        let calls := map snd (invoked (run schedule (start s))) in
        totalCount calls = K * (N / K) + Z.min (N / K) (N mod K) /\
        (forall i, K * (N / K) + Z.min (N / K) (N mod K) <= i ->
                   timesVisited i calls = 0%nat) /\
        (N / K < N mod K ->
         totalCount calls < N /\ timesVisited (N - 1) calls = 0%nat)).
Proof.
  intros Ht HN K.
  assert (Hpow : 2 ^ 28 = 268435456) by reflexivity.
  assert (Hmod : SIZE_MOD = 18446744073709551616) by reflexivity.
  assert (HK : 0 < K) by (unfold K; lia).
  pose proof (Z.div_mod N K ltac:(lia)) as Hdm.
  pose proof (Z.mod_pos_bound N K HK) as Hr.
  set (s := mkShared threadCount (if 0 <? N mod K then K + 1 else K)
                     (N / K) N 0).
  assert (Hchunks : 0 <= _numChunks s <= K + 1)
    by (cbn [_numChunks s]; destruct (0 <? N mod K); lia).
  exists s. split; [apply call_init_default; lia|].
  split; [reflexivity|]. split; [reflexivity|]. split.
  - apply (some_schedule_finishes s)
      with (n := (Z.to_nat (_numChunks s) + Z.to_nat threadCount)%nat);
      cbn [_threadCount s]; try lia.
    + apply consistent_start; [reflexivity | exact (proj1 Hchunks)].
    + cbn [start shared working]. rewrite length_seq.
      change (_next s) with 0. change (_threadCount s) with threadCount.
      rewrite Z.sub_0_r. lia.
  - intros schedule Hf calls.
    assert (E : calls = dispensed s).
    { apply finished_run_dispensed; try assumption; try reflexivity;
        cbn [_threadCount s]; lia. }
    destruct (dispensed_default threadCount N Ht ltac:(lia)) as [Htot Hall].
    fold K in Htot, Hall. fold s in Htot, Hall.
    rewrite E. split; [exact Htot|]. split.
    + intros i Hi. apply timesVisited_beyond.
      eapply Forall_impl; [|exact Hall]. cbn beta. intros c H. lia.
    + intros Hlt. split; [rewrite Htot; lia|].
      apply timesVisited_beyond.
      eapply Forall_impl; [|exact Hall]. cbn beta. intros c H. lia.
Qed.

(** The scenario of the specification, 100 indices on a pool of 4 threads:
    33 chunks of size 3, which count 99 indices, and index 99 is never
    visited. *)
Lemma call_default_chunks_miss_remainder_witness :
  exists s,
    call_init 4 100 false = Some s /\
    _chunkSize s = 3 /\ _numChunks s = 33 /\
    finished (run (roundRobin 4 10) (start s)) = true /\
    (forall schedule,
        finished (run schedule (start s)) = true ->
        totalCount (map snd (invoked (run schedule (start s)))) = 99 /\
        timesVisited 99 (map snd (invoked (run schedule (start s)))) = 0%nat).
Proof.
  destruct (call_default_chunks_miss_remainder 4 100)
    as (s & Es & Hc & Hn & _ & Hall).
  - lia.
  - unfold SIZE_MOD. lia.
  - exists s. split; [exact Es|]. split; [exact Hc|]. split; [exact Hn|].
    vm_compute in Es. injection Es as <-.
    split; [vm_compute; reflexivity|].
    intros schedule Hf. destruct (Hall schedule Hf) as (Ht & _ & Hmiss).
    destruct Hmiss as [_ Hv]; [vm_compute; reflexivity|].
    split; [exact Ht | exact Hv].
Defined.

(** C6, as stated, fails: with 4 threads and chunks of the default size, a
    call over an empty range sets up 32 chunks and the body is invoked 32
    times, each time with first index 0 and count 0. *)
Lemma call_0_on_4_threads_invokes_body :
  exists s,
    call_init 4 0 false = Some s /\
    finished (run (roundRobin 4 9) (start s)) = true /\
    map snd (invoked (run (roundRobin 4 9) (start s))) = repeat (0, 0) 32 /\
    invoked (run (roundRobin 4 9) (start s)) <> [].
Proof.
  exists (mkShared 4 32 0 0 0). split; [reflexivity|].
  split; [vm_compute; reflexivity|].
  split; [vm_compute; reflexivity|].
  vm_compute. discriminate.
Qed.

Lemma dispensed_empty_range (n : nat) (s : Shared) :
  _chunkSize s = 0 -> _maxIndex s = 0 -> _numChunks s = Z.of_nat n ->
  dispensed s = repeat (0, 0) n.
Proof.
  intros Hs Hm Hn. unfold dispensed. rewrite Hn, Nat2Z.id.
  generalize 0%nat. clear Hn.
  induction n as [|k IH]; intros a; [reflexivity|].
  simpl. f_equal; [|apply IH].
  unfold chunkArgs. rewrite Hs, Hm, Z.mul_0_r. reflexivity.
Qed.

(** C6, amended: with chunks of the default size and at least one thread, a
    call over an empty range returns after the body has been invoked
    exactly 8 * threadCount times, each time with first index 0 and count
    0, whatever the order in which the threads take their turns. *)
Theorem call_0_invokes_body_on_empty_chunks (threadCount : Z) :
  1 <= threadCount < 2 ^ 28 ->
  exists s,
    call_init threadCount 0 false = Some s /\
    (exists schedule, finished (run schedule (start s)) = true) /\
    (forall schedule,
        finished (run schedule (start s)) = true ->
        map snd (invoked (run schedule (start s)))
        = repeat (0, 0) (Z.to_nat (8 * threadCount))).
Proof.
  intros Ht.
  assert (Hpow : 2 ^ 28 = 268435456) by reflexivity.
  assert (Hmod : SIZE_MOD = 18446744073709551616) by reflexivity.
  assert (Hc : size_t (threadCount * 8) = threadCount * 8)
    by (apply size_t_small; lia).
  exists (mkShared threadCount (threadCount * 8) 0 0 0).
  split; [|split].
  - unfold call_init. rewrite Hc.
    destruct (Z.eqb_spec (threadCount * 8) 0) as [E|_]; [lia|].
    rewrite Z.div_0_l by lia. rewrite Z.mul_0_r.
    reflexivity.
  - apply (some_schedule_finishes (mkShared threadCount (threadCount * 8) 0 0 0))
      with (n := (Z.to_nat (threadCount * 8) + Z.to_nat threadCount)%nat);
      simpl; try lia.
    + apply consistent_start; simpl; lia.
    + rewrite length_seq. lia.
  - intros schedule Hf.
    rewrite finished_run_dispensed
      by (try assumption; try reflexivity;
          cbn [_numChunks _threadCount _next]; lia).
    apply dispensed_empty_range; [reflexivity | reflexivity |].
    cbn [_numChunks]. lia.
Qed.

Lemma call_0_invokes_body_on_empty_chunks_witness :
  exists s,
    call_init 2 0 false = Some s /\
    (exists schedule, finished (run schedule (start s)) = true) /\
    (forall schedule,
        finished (run schedule (start s)) = true ->
        map snd (invoked (run schedule (start s)))
        = repeat (0, 0) (Z.to_nat (8 * 2))).
Proof.
  apply (call_0_invokes_body_on_empty_chunks 2). lia.
Defined.

(** *** Which indices the dispensed chunks visit *)

Lemma timesVisited_app (i : Z) (a b : list (Z * Z)) :
  timesVisited i (a ++ b) = (timesVisited i a + timesVisited i b)%nat.
Proof. unfold timesVisited. now rewrite filter_app, length_app. Qed.

(** Chunks of the full size laid end to end visit every index below their
    common end exactly once, and no other index. *)
Lemma timesVisited_full_chunks (c : Z) (n : nat) (i : Z) :
  0 <= c ->
  timesVisited i (map (fun j => (Z.of_nat j * c, c)) (seq 0 n))
  = if (0 <=? i) && (i <? Z.of_nat n * c) then 1%nat else 0%nat.
Proof.
  intros Hc. induction n as [|n IH].
  - cbn [seq map]. unfold timesVisited. cbn [filter length].
    destruct (Z.leb_spec 0 i); destruct (Z.ltb_spec i (Z.of_nat 0 * c));
      cbn [andb]; try reflexivity; lia.
  - rewrite seq_snoc, map_app, timesVisited_app, IH. cbn [map].
    unfold timesVisited at 1. cbn [filter]. unfold visits. cbn [fst snd].
    destruct (Z.leb_spec 0 i); destruct (Z.ltb_spec i (Z.of_nat n * c));
      destruct (Z.leb_spec (Z.of_nat n * c) i);
      destruct (Z.ltb_spec i (Z.of_nat n * c + c));
      destruct (Z.ltb_spec i (Z.of_nat (S n) * c));
      cbn [andb length]; try reflexivity; nia.
Qed.

Lemma full_chunks_args (s : Shared) (n : nat) :
  0 <= _chunkSize s ->
  Z.of_nat n * _chunkSize s <= _maxIndex s < SIZE_MOD ->
  map (fun j => chunkArgs s (Z.of_nat j)) (seq 0 n)
  = map (fun j => (Z.of_nat j * _chunkSize s, _chunkSize s)) (seq 0 n).
Proof.
  intros Hc Hm. apply map_ext_in. intros j Hj. apply in_seq in Hj.
  apply chunkArgs_full; [lia | assumption | nia].
Qed.

(** What [call] sets up for chunks of size one. *)
Lemma call_init_chunks_of_one (threadCount N : Z) :
  0 < N < SIZE_MOD ->
  call_init threadCount N true = Some (mkShared threadCount N 1 N 0).
Proof.
  intros HN. unfold call_init.
  destruct (Z.eqb_spec N 0) as [E|_]; [lia|].
  rewrite Z.div_same by lia. rewrite Z.mul_1_r.
  rewrite size_t_small by lia. rewrite Z.ltb_irrefl. reflexivity.
Qed.

(** X1: with chunks of size one and a range that is not empty, [call]
    executes the body for the chunks (0,1), (1,1), ..., (N-1,1), whatever
    the order in which the threads take their turns: the counts sum to [N],
    every index of the range is visited exactly once and no other index is
    visited.  The call returns. *)
Theorem call_chunks_of_one_partition (threadCount N : Z) :
  1 <= threadCount < 2 ^ 31 -> 0 < N < 2 ^ 63 ->
  exists s,
    call_init threadCount N true = Some s /\
    (exists schedule, finished (run schedule (start s)) = true) /\
    (forall schedule,
        finished (run schedule (start s)) = true ->
        let calls := map snd (invoked (run schedule (start s))) in
        calls = map (fun j => (Z.of_nat j, 1)) (seq 0 (Z.to_nat N)) /\
        totalCount calls = N /\
        forall i, timesVisited i calls
                  = if (0 <=? i) && (i <? N) then 1%nat else 0%nat).
Proof.
  intros Ht HN.
  assert (Hp31 : 2 ^ 31 = 2147483648) by reflexivity.
  assert (Hp63 : 2 ^ 63 = 9223372036854775808) by reflexivity.
  assert (Hmod : SIZE_MOD = 18446744073709551616) by reflexivity.
  set (s := mkShared threadCount N 1 N 0).
  assert (Hfull : Z.of_nat (Z.to_nat N) * _chunkSize s <= _maxIndex s < SIZE_MOD).
  { rewrite Z2Nat.id by lia. change (N * 1 <= N < SIZE_MOD). lia. }
  exists s. split; [apply call_init_chunks_of_one; lia|]. split.
  - apply (some_schedule_finishes s)
      with (n := (Z.to_nat N + Z.to_nat threadCount)%nat).
    + change (0 <= N). lia.
    + change (N + Z.of_nat (Z.to_nat threadCount) < SIZE_MOD). lia.
    + apply consistent_start; [reflexivity | change (0 <= N); lia].
    + cbn [start shared working]. rewrite length_seq.
      change (_next s) with 0. change (_threadCount s) with threadCount.
      change (_numChunks s) with N. rewrite Z.sub_0_r. lia.
  - intros schedule Hf calls.
    assert (E : calls = dispensed s).
    { apply finished_run_dispensed; try assumption; try reflexivity.
      - change (0 <= N). lia.
      - change (1 <= threadCount). lia.
      - change (N + threadCount < SIZE_MOD). lia. }
    assert (E' : calls = map (fun j => (Z.of_nat j * 1, 1)) (seq 0 (Z.to_nat N))).
    { rewrite E. unfold dispensed. change (_numChunks s) with N.
      apply (full_chunks_args s (Z.to_nat N)); [change (0 <= 1); lia | exact Hfull]. }
    split; [|split].
    + rewrite E'. apply map_ext. intros j. now rewrite Z.mul_1_r.
    + destruct (full_chunks s (Z.to_nat N)) as [Htot _];
        [change (0 <= 1); lia | exact Hfull|].
      rewrite E. unfold dispensed. change (_numChunks s) with N.
      rewrite Htot. rewrite Z2Nat.id by lia. change (N * 1 = N). lia.
    + intros i. rewrite E', timesVisited_full_chunks by lia.
      rewrite Z2Nat.id by lia. now rewrite Z.mul_1_r.
Qed.

Lemma call_chunks_of_one_partition_witness :
  exists s,
    call_init 3 5 true = Some s /\
    (forall schedule,
        finished (run schedule (start s)) = true ->
        map snd (invoked (run schedule (start s)))
        = [(0, 1); (1, 1); (2, 1); (3, 1); (4, 1)]).
Proof.
  destruct (call_chunks_of_one_partition 3 5) as (s & Es & _ & Hall);
    [lia | lia |].
  exists s. split; [exact Es|].
  intros schedule Hf. destruct (Hall schedule Hf) as (Hc & _). exact Hc.
Defined.

(** X2: with chunks of the default size, [K = 8 * threadCount] of them
    and one more for a remainder, the body is executed exactly once for
    every index below [K * (N / K) + min (N / K) (N mod K)] and never for
    another index, whatever the order of the turns: no index is processed
    twice and none outside the range.  So the chunks are a partition of
    the range whenever the remainder [N mod K] does not exceed the chunk
    size [N / K], in particular when [K] divides [N]. *)
Theorem call_default_chunks_visit_once (threadCount N : Z) :
  1 <= threadCount < 2 ^ 28 -> 0 < N < 2 ^ 63 ->
  let K := 8 * threadCount in
  let covered := K * (N / K) + Z.min (N / K) (N mod K) in
  exists s,
    call_init threadCount N false = Some s /\
    covered <= N /\
    forall schedule,
      finished (run schedule (start s)) = true ->
      let calls := map snd (invoked (run schedule (start s))) in
      (forall i, timesVisited i calls
                 = if (0 <=? i) && (i <? covered) then 1%nat else 0%nat) /\
      (N mod K <= N / K ->
       totalCount calls = N /\
       forall i, timesVisited i calls
                 = if (0 <=? i) && (i <? N) then 1%nat else 0%nat).
Proof.
  intros Ht HN K covered.
  assert (Hpow : 2 ^ 28 = 268435456) by reflexivity.
  assert (Hp63 : 2 ^ 63 = 9223372036854775808) by reflexivity.
  assert (Hmod : SIZE_MOD = 18446744073709551616) by reflexivity.
  assert (HK : 0 < K) by (unfold K; lia).
  pose proof (Z.div_mod N K ltac:(lia)) as Hdm.
  pose proof (Z.mod_pos_bound N K HK) as Hr.
  assert (Hq : 0 <= N / K) by (apply Z.div_pos; lia).
  set (s := mkShared threadCount (if 0 <? N mod K then K + 1 else K)
                     (N / K) N 0).
  assert (Hchunks : 0 <= _numChunks s <= K + 1)
    by (cbn [_numChunks s]; destruct (0 <? N mod K); lia).
  assert (Hfull : Z.of_nat (Z.to_nat K) * _chunkSize s <= _maxIndex s < SIZE_MOD).
  { rewrite Z2Nat.id by lia. change (K * (N / K) <= N < SIZE_MOD). nia. }
  exists s. split; [apply call_init_default; lia|].
  split; [unfold covered; lia|].
  intros schedule Hf calls.
  assert (E : calls = dispensed s).
  { apply finished_run_dispensed; try assumption; try reflexivity.
    - exact (proj1 Hchunks).
    - change (1 <= threadCount). lia.
    - change (_numChunks s + threadCount < SIZE_MOD). lia. }
  assert (Hvis : forall i, timesVisited i calls
                 = if (0 <=? i) && (i <? covered) then 1%nat else 0%nat).
  { intros i. rewrite E. unfold dispensed. cbn [_numChunks s].
    destruct (Z.ltb_spec 0 (N mod K)) as [Hpos|Hzero].
    - replace (Z.to_nat (K + 1)) with (S (Z.to_nat K)) by lia.
      rewrite seq_snoc, map_app, timesVisited_app.
      rewrite (full_chunks_args s (Z.to_nat K) Hq Hfull).
      change (_chunkSize s) with (N / K).
      rewrite timesVisited_full_chunks by assumption.
      cbn [map]. rewrite !Z2Nat.id by lia.
      rewrite chunkArgs_last
        by (change (0 <= K * (N / K) <= N) || change (N < SIZE_MOD); nia).
      change (_chunkSize s) with (N / K). change (_maxIndex s) with N.
      replace (N - K * (N / K)) with (N mod K) by lia.
      unfold timesVisited. cbn [filter]. unfold visits. cbn [fst snd].
      unfold covered.
      destruct (Z.leb_spec 0 i); destruct (Z.ltb_spec i (K * (N / K)));
        destruct (Z.leb_spec (K * (N / K)) i);
        destruct (Z.ltb_spec i (K * (N / K) + Z.min (N / K) (N mod K)));
        cbn [andb length Nat.add]; try reflexivity; lia.
    - rewrite (full_chunks_args s (Z.to_nat K) Hq Hfull).
      change (_chunkSize s) with (N / K).
      rewrite timesVisited_full_chunks by assumption.
      rewrite Z2Nat.id by lia. unfold covered.
      replace (Z.min (N / K) (N mod K)) with 0 by lia.
      now rewrite Z.add_0_r. }
  split; [exact Hvis|].
  intros Hle.
  assert (Hcov : covered = N) by (unfold covered; lia).
  split.
  - destruct (dispensed_default threadCount N Ht ltac:(lia)) as [Htot _].
    fold K in Htot. fold s in Htot. rewrite E, Htot. exact Hcov.
  - intros i. rewrite Hvis, Hcov. reflexivity.
Qed.

Lemma call_default_chunks_visit_once_witness :
  exists s,
    call_init 1 17 false = Some s /\
    (forall schedule,
        finished (run schedule (start s)) = true ->
        totalCount (map snd (invoked (run schedule (start s)))) = 17 /\
        timesVisited 16 (map snd (invoked (run schedule (start s)))) = 1%nat).
Proof.
  destruct (call_default_chunks_visit_once 1 17) as (s & Es & _ & Hall);
    [lia | lia |].
  exists s. split; [exact Es|].
  intros schedule Hf. destruct (Hall schedule Hf) as (Hv & Hp).
  destruct Hp as [Ht _]; [vm_compute; discriminate|].
  split; [exact Ht|]. exact (Hv 16).
Defined.

(** *** Exceptions thrown by the body *)

(** What one execution of the body does: it returns, it throws a
    [FatalError], or it throws something else. *)
Inductive Outcome (FatalError : Type) : Type :=
| Returns
| ThrowsFatalError (error : FatalError)
| ThrowsOther.
Arguments Returns {FatalError}.
Arguments ThrowsFatalError {FatalError} error.
Arguments ThrowsOther {FatalError}.

(** Where a thread is in [Parallel::doWork].  Every access to a shared
    data member is a step of its own: the atomic [_next++], the comparison
    with [_numChunks], the execution of the body, and the critical section
    of [Parallel::reportException]. *)
Inductive Phase (FatalError : Type) : Type :=
| AtFetch
| AtTest (chunkIndex : Z)
| AtBody (chunkIndex : Z)
| AtReport (exception : FatalError)
| Returned.
Arguments AtFetch {FatalError}.
Arguments AtTest {FatalError} chunkIndex.
Arguments AtBody {FatalError} chunkIndex.
Arguments AtReport {FatalError} exception.
Arguments Returned {FatalError}.

(** One execution of the body, as the log keeps it. *)
Record Invocation (FatalError : Type) : Type := mkInvocation {
  thread : nat;
  chunk : Z;
  args : Z * Z;
  outcome : Outcome FatalError
}.
Arguments mkInvocation {FatalError} thread chunk args outcome.
Arguments thread {FatalError} i.
Arguments chunk {FatalError} i.
Arguments args {FatalError} i.
Arguments outcome {FatalError} i.

(** The object while a call is running: the shared data members, the
    exception pointer, the phase of every thread (the parent thread has
    index zero) and the executions of the body so far. *)
Record Work (FatalError : Type) : Type := mkWork {
  members : Shared;
  _exception : option FatalError;
  phases : list (Phase FatalError);
  executed : list (Invocation FatalError)
}.
Arguments mkWork {FatalError} members _exception phases executed.
Arguments members {FatalError} w.
Arguments _exception {FatalError} w.
Arguments phases {FatalError} w.
Arguments executed {FatalError} w.

(** The result of [Parallel::call]. *)
Inductive Result (FatalError : Type) : Type :=
| Normal
| Rethrown (exception : FatalError).
Arguments Normal {FatalError}.
Arguments Rethrown {FatalError} exception.

Fixpoint setPhase {A : Type} (l : list A) (t : nat) (a : A) : list A :=
  match l, t with
  | [], _ => []
  | _ :: l', O => a :: l'
  | x :: l', S t' => x :: setPhase l' t' a
  end.

Section Exceptions.

(** The type of the exception objects, and the fresh exception that
    [doWork] creates for an exception that is not a [FatalError]. *)
Variable FatalError : Type.
Variable unhandled : FatalError.

(** The body: its outcome may depend on the number of executions that
    came before, and on its two arguments. *)
Variable target : nat -> Z -> Z -> Outcome FatalError.

(** The exception that a catch clause of [doWork] passes on. *)
Definition caught (o : Outcome FatalError) : option FatalError :=
  match o with
  | Returns => None
  | ThrowsFatalError error => Some error
  | ThrowsOther => Some unhandled
  end.

(** [Parallel::reportException]: only the first exception is stored, and
    storing it takes the remaining work away. *)
Definition reportException (w : Work FatalError) (exception : FatalError)
  : Work FatalError :=
  match _exception w with
  | Some _ => w
  | None =>
      let s := members w in
      mkWork (mkShared (_threadCount s) 0 (_chunkSize s) (_maxIndex s) (_next s))
             (Some exception) (phases w) (executed w)
  end.

Definition withPhase (w : Work FatalError) (t : nat) (p : Phase FatalError)
  : Work FatalError :=
  mkWork (members w) (_exception w) (setPhase (phases w) t p) (executed w).

(** Thread [t] performs its next step of [Parallel::doWork]. *)
Definition advance (w : Work FatalError) (t : nat) : Work FatalError :=
  match nth_error (phases w) t with
  | None => w
  | Some AtFetch =>
      let s := members w in
      withPhase
        (mkWork (mkShared (_threadCount s) (_numChunks s) (_chunkSize s)
                          (_maxIndex s) (size_t (_next s + 1)))
                (_exception w) (phases w) (executed w))
        t (AtTest (_next s))
  | Some (AtTest chunkIndex) =>
      if chunkIndex >=? _numChunks (members w)
      then withPhase w t Returned
      else withPhase w t (AtBody chunkIndex)
  | Some (AtBody chunkIndex) =>
      let a := chunkArgs (members w) chunkIndex in
      let o := target (length (executed w)) (fst a) (snd a) in
      withPhase
        (mkWork (members w) (_exception w) (phases w)
                (executed w ++ [mkInvocation t chunkIndex a o]))
        t (match caught o with
           | None => AtFetch
           | Some exception => AtReport exception
           end)
  | Some (AtReport exception) =>
      withPhase (reportException w exception) t Returned
  | Some Returned => w
  end.

(** The call begins with every thread at the head of its work loop and no
    exception stored. *)
Definition begin (s : Shared) : Work FatalError :=
  mkWork s None (repeat AtFetch (Z.to_nat (_threadCount s))) [].

Definition proceed (schedule : list nat) (w : Work FatalError)
  : Work FatalError :=
  fold_left advance schedule w.

Definition isReturned (p : Phase FatalError) : bool :=
  match p with Returned => true | _ => false end.

(** The call is over when [doWork] has returned in every thread; it then
    throws the stored exception, if there is one. *)
Definition call_result (w : Work FatalError) : option (Result FatalError) :=
  if forallb isReturned (phases w)
  then Some (match _exception w with
             | None => Normal
             | Some exception => Rethrown exception
             end)
  else None.

(** The number of threads that are executing the body. *)
Definition sumPhases (f : Phase FatalError -> Z) (l : list (Phase FatalError))
  : Z :=
  fold_right (fun p acc => f p + acc) 0 l.

Definition inBody (p : Phase FatalError) : Z :=
  match p with AtBody _ => 1 | _ => 0 end.

(** *** Lemmas on the phases *)

Lemma proceed_app (a b : list nat) (w : Work FatalError) :
  proceed (a ++ b) w = proceed b (proceed a w).
Proof. unfold proceed. now rewrite fold_left_app. Qed.

Lemma length_setPhase {A : Type} (l : list A) (t : nat) (a : A) :
  length (setPhase l t a) = length l.
Proof.
  revert t. induction l as [|x l IH]; intros [|t]; cbn [setPhase length];
    try reflexivity. now rewrite IH.
Qed.

Lemma In_setPhase {A : Type} (l : list A) (t : nat) (a q : A) :
  In q (setPhase l t a) -> q = a \/ In q l.
Proof.
  revert t. induction l as [|x l IH]; intros [|t]; cbn [setPhase In];
    try tauto.
  - intros [H|H]; auto.
  - intros [H|H]; auto. destruct (IH _ H); auto.
Qed.

Lemma In_setPhase_self {A : Type} (l : list A) (t : nat) (a b : A) :
  nth_error l t = Some b -> In a (setPhase l t a).
Proof.
  revert t. induction l as [|x l IH]; intros [|t]; cbn [setPhase nth_error In];
    try discriminate.
  - intros _. now left.
  - intros H. right. now apply IH.
Qed.

Lemma In_setPhase_other {A : Type} (l : list A) (t : nat) (a b q : A) :
  nth_error l t = Some b -> In q l -> q = b \/ In q (setPhase l t a).
Proof.
  revert t. induction l as [|x l IH]; intros [|t]; cbn [setPhase nth_error In];
    try discriminate.
  - intros [= ->] [H|H]; auto.
  - intros Hn [H|H]; auto. destruct (IH _ Hn H); auto.
Qed.

Lemma sumPhases_set (f : Phase FatalError -> Z) (l : list (Phase FatalError))
  (t : nat) (a b : Phase FatalError) :
  nth_error l t = Some b ->
  sumPhases f (setPhase l t a) = sumPhases f l - f b + f a.
Proof.
  revert t. induction l as [|x l IH]; intros [|t];
    cbn [setPhase nth_error sumPhases fold_right]; try discriminate.
  - intros [= ->]. lia.
  - intros H. fold (sumPhases f (setPhase l t a)). fold (sumPhases f l).
    rewrite (IH _ H). lia.
Qed.

Lemma sumPhases_bounds (f : Phase FatalError -> Z)
  (l : list (Phase FatalError)) :
  (forall p, 0 <= f p <= 1) -> 0 <= sumPhases f l <= Z.of_nat (length l).
Proof.
  intros Hf. induction l as [|x l IH]; cbn [sumPhases fold_right length].
  - lia.
  - fold (sumPhases f l). specialize (Hf x). lia.
Qed.

Lemma inBody_lt (l : list (Phase FatalError)) :
  In Returned l -> sumPhases inBody l < Z.of_nat (length l).
Proof.
  induction l as [|x l IH]; cbn [In sumPhases fold_right length]; [tauto|].
  fold (sumPhases inBody l).
  pose proof (sumPhases_bounds inBody l) as Hb.
  assert (Hi : forall p, 0 <= inBody p <= 1) by (intros []; cbn; lia).
  specialize (Hb Hi).
  intros [->|H].
  - cbn [inBody]. lia.
  - specialize (IH H). specialize (Hi x). lia.
Qed.

Lemma flat_map_setPhase {A B : Type} (f : A -> list B) (l : list A) (t : nat)
  (a b : A) :
  nth_error l t = Some b ->
  Permutation (f b ++ flat_map f (setPhase l t a)) (f a ++ flat_map f l).
Proof.
  revert t. induction l as [|x l IH]; intros [|t];
    cbn [setPhase nth_error flat_map]; try discriminate.
  - intros [= ->]. rewrite !app_assoc.
    apply Permutation_app_tail, Permutation_app_comm.
  - intros H. specialize (IH _ H).
    rewrite (Permutation_app_swap_app (f b)), IH.
    apply Permutation_app_swap_app.
Qed.

Lemma forallb_isReturned (l : list (Phase FatalError)) :
  forallb isReturned l = true ->
  forall p, In p l -> p = Returned.
Proof.
  rewrite forallb_forall. intros H p Hp. specialize (H p Hp).
  now destruct p.
Qed.

(** *** What holds at every moment of a call *)

(** The threads that have taken a chunk index that is not below the number
    of chunks, or have left the loop. *)
Definition over (N0 : Z) (p : Phase FatalError) : Z :=
  match p with
  | AtTest k => if N0 <=? k then 1 else 0
  | Returned => 1
  | _ => 0
  end.

(** The chunk indices that a thread has taken and not yet passed to the
    body. *)
Definition pending (N0 : Z) (p : Phase FatalError) : list Z :=
  match p with
  | AtTest k => if k <? N0 then [k] else []
  | AtBody k => [k]
  | _ => []
  end.

Record sound (s0 : Shared) (w : Work FatalError) : Prop := mkSound {
  so_size : _chunkSize (members w) = _chunkSize s0;
  so_max : _maxIndex (members w) = _maxIndex s0;
  so_threads : length (phases w) = Z.to_nat (_threadCount s0);
  so_chunks : _numChunks (members w)
              = match _exception w with
                | None => _numChunks s0
                | Some _ => 0
                end;
  so_next : 0 <= _next (members w)
            <= _numChunks s0 + sumPhases (over (_numChunks s0)) (phases w);
  so_tested : forall k, In (AtTest k) (phases w) \/ In (AtBody k) (phases w) ->
                        0 <= k < _next (members w);
  so_log : exists dropped,
      Permutation
        (map chunk (executed w)
         ++ flat_map (pending (_numChunks s0)) (phases w) ++ dropped)
        (map Z.of_nat
             (seq 0 (Z.to_nat (Z.min (_next (members w)) (_numChunks s0)))))
      /\ (_exception w = None -> dropped = []);
  so_args : Forall (fun i => args i = chunkArgs s0 (chunk i)) (executed w);
  so_returned : In Returned (phases w) -> _exception w = None ->
                _numChunks s0 <= _next (members w);
  so_stored : _exception w <> None -> In Returned (phases w);
  so_normal : _exception w = None ->
              (forall e, ~ In (AtReport e) (phases w)) ->
              Forall (fun i => outcome i = Returns) (executed w);
  so_thrown : forall e,
      In (AtReport e) (phases w) \/ _exception w = Some e ->
      exists i, In i (executed w) /\ caught (outcome i) = Some e
}.

Lemma sound_begin (s : Shared) :
  _next s = 0 -> 0 <= _numChunks s -> sound s (begin s).
Proof.
  intros Hn Hc.
  assert (Hrep : forall (q : Phase FatalError) n,
             In q (repeat AtFetch n) -> q = AtFetch)
    by (intros q n Hq; now apply repeat_spec in Hq).
  constructor; cbn [begin members _exception phases executed];
    try reflexivity.
  - now rewrite repeat_length.
  - rewrite Hn.
    pose proof (sumPhases_bounds (over (_numChunks s))
                  (repeat AtFetch (Z.to_nat (_threadCount s)))) as Hb.
    assert (Hi : forall p : Phase FatalError, 0 <= over (_numChunks s) p <= 1).
    { intros []; cbn; try lia. destruct (_ <=? _); lia. }
    specialize (Hb Hi). lia.
  - intros k [H|H]; apply Hrep in H; discriminate.
  - exists []. split; [|reflexivity].
    rewrite Hn, Z.min_l by lia. cbn [Z.to_nat seq map app].
    rewrite app_nil_r.
    induction (Z.to_nat (_threadCount s)) as [|n IH];
      cbn [repeat flat_map pending app]; [constructor | exact IH].
  - constructor.
  - intros H. apply Hrep in H. discriminate.
  - intros H. now contradiction H.
  - intros _ _. constructor.
  - intros e [H|H]; [apply Hrep in H|]; discriminate.
Qed.

Lemma chunkArgs_members (s0 s : Shared) (k : Z) :
  _chunkSize s = _chunkSize s0 -> _maxIndex s = _maxIndex s0 ->
  chunkArgs s k = chunkArgs s0 k.
Proof. intros H1 H2. unfold chunkArgs. now rewrite H1, H2. Qed.

Lemma over_bounds (N0 : Z) (p : Phase FatalError) : 0 <= over N0 p <= 1.
Proof. destruct p; cbn [over]; try lia. destruct (N0 <=? _); lia. Qed.

Lemma sumPhases_room (N0 : Z) (l : list (Phase FatalError)) (t : nat)
  (b : Phase FatalError) :
  nth_error l t = Some b ->
  sumPhases (over N0) l <= Z.of_nat (length l) - 1 + over N0 b.
Proof.
  intros H.
  pose proof (sumPhases_set (over N0) l t Returned b H) as E.
  pose proof (sumPhases_bounds (over N0) (setPhase l t Returned)
                (over_bounds N0)) as Hb.
  rewrite length_setPhase in Hb. cbn [over] in E. lia.
Qed.

Lemma seq_min_next (next N0 : Z) :
  0 <= next < N0 ->
  map Z.of_nat (seq 0 (Z.to_nat (Z.min (next + 1) N0)))
  = map Z.of_nat (seq 0 (Z.to_nat (Z.min next N0))) ++ [next].
Proof.
  intros H. rewrite !Z.min_l by lia.
  replace (Z.to_nat (next + 1)) with (S (Z.to_nat next)) by lia.
  rewrite seq_snoc, map_app. cbn [map]. now rewrite Z2Nat.id by lia.
Qed.

Lemma seq_min_over (next N0 : Z) :
  N0 <= next ->
  Z.min (next + 1) N0 = Z.min next N0.
Proof. lia. Qed.

Lemma perm_insert {A : Type} (a f d s : list A) (x : A) :
  Permutation (a ++ f ++ d) s -> Permutation (a ++ (x :: f) ++ d) (s ++ [x]).
Proof.
  intros H. cbn [app]. rewrite <- H.
  etransitivity; [symmetry; apply Permutation_middle|].
  apply Permutation_cons_append.
Qed.

Lemma perm_move {A : Type} (a p f d : list A) :
  Permutation (a ++ f ++ p ++ d) (a ++ (p ++ f) ++ d).
Proof.
  apply Permutation_app_head. rewrite !app_assoc.
  apply Permutation_app_tail, Permutation_app_comm.
Qed.

Lemma sound_advance (s0 : Shared) (w : Work FatalError) (t : nat) :
  0 <= _numChunks s0 ->
  _numChunks s0 + Z.of_nat (Z.to_nat (_threadCount s0)) < SIZE_MOD ->
  sound s0 w -> sound s0 (advance w t).
Proof.
  intros Hc Hsmall [Hsz Hmx Hth Hch Hnx Hts [dropped [Hperm Hdrop]] Har Hre Hst Hno Hthr].
  unfold advance.
  destruct (nth_error (phases w) t) as [[|k|k|e|]|] eqn:Et;
    try (constructor; try assumption; exists dropped; now split).
  - (* the atomic increment *)
    pose proof (sumPhases_room (_numChunks s0) _ _ _ Et) as Hroom.
    cbn [over] in Hroom. rewrite Hth in Hroom.
    pose proof (sumPhases_bounds _ (phases w) (over_bounds (_numChunks s0)))
      as Hsum.
    pose proof (sumPhases_set (over (_numChunks s0)) _ t
                  (AtTest (_next (members w))) _ Et) as Esum.
    cbn [over] in Esum.
    pose proof (flat_map_setPhase (pending (_numChunks s0)) _ t
                  (AtTest (_next (members w))) _ Et) as Pfm.
    cbn [pending app] in Pfm.
    constructor; cbn [withPhase members _exception phases executed
                      _chunkSize _maxIndex _numChunks _next];
      try assumption.
    + now rewrite length_setPhase.
    + rewrite size_t_small by lia. rewrite Esum.
      destruct (_numChunks s0 <=? _next (members w)) eqn:E;
        [apply Z.leb_le in E | apply Z.leb_gt in E]; lia.
    + rewrite size_t_small by lia.
      intros k [H|H]; apply In_setPhase in H; destruct H as [H|H].
      * injection H as ->. lia.
      * specialize (Hts k (or_introl H)). lia.
      * discriminate.
      * specialize (Hts k (or_intror H)). lia.
    + rewrite size_t_small by lia. exists dropped. split; [|exact Hdrop].
      rewrite Pfm.
      destruct (_next (members w) <? _numChunks s0) eqn:E;
        [apply Z.ltb_lt in E | apply Z.ltb_ge in E].
      * rewrite seq_min_next by lia. now apply perm_insert.
      * rewrite seq_min_over by lia. exact Hperm.
    + rewrite size_t_small by lia.
      intros H Hn. apply In_setPhase in H. destruct H as [H|H]; [discriminate|].
      specialize (Hre H Hn). lia.
    + intros Hn. specialize (Hst Hn).
      destruct (In_setPhase_other _ t (AtTest (_next (members w))) _ _ Et Hst)
        as [H|H]; [discriminate | exact H].
    + intros Hn Hrep. apply Hno; [exact Hn|].
      intros e He.
      destruct (In_setPhase_other _ t (AtTest (_next (members w))) _ _ Et He)
        as [H|H]; [discriminate | exact (Hrep e H)].
    + intros e [H|H]; apply Hthr; [|now right].
      apply In_setPhase in H. destruct H as [H|H]; [discriminate | now left].
  - (* the comparison with the number of chunks *)
    assert (Hin : In (AtTest k) (phases w)) by (eapply nth_error_In; exact Et).
    pose proof (Hts k (or_introl Hin)) as Hk.
    destruct (k >=? _numChunks (members w)) eqn:Eg.
    + apply Z.geb_le in Eg.
      pose proof (sumPhases_set (over (_numChunks s0)) _ t Returned _ Et)
        as Esum.
      pose proof (over_bounds (_numChunks s0) (AtTest k)) as Hov.
      cbn [over] in Esum |- *.
      pose proof (flat_map_setPhase (pending (_numChunks s0)) _ t
                    Returned _ Et) as Pfm.
      cbn [pending app] in Pfm.
      constructor; cbn [withPhase members _exception phases executed];
        try assumption.
      * now rewrite length_setPhase.
      * rewrite Esum. cbn [over] in Hov. lia.
      * intros k' [H|H]; apply In_setPhase in H; destruct H as [H|H];
          try discriminate; apply Hts; auto.
      * exists ((if k <? _numChunks s0 then [k] else []) ++ dropped).
        split.
        -- rewrite perm_move. now rewrite Pfm.
        -- intros Hn. rewrite (Hdrop Hn), app_nil_r.
           rewrite Hch, Hn in Eg.
           destruct (Z.ltb_spec k (_numChunks s0)); [lia | reflexivity].
      * intros _ Hn. rewrite Hch, Hn in Eg. lia.
      * intros _. eapply In_setPhase_self. exact Et.
      * intros Hn Hrep. apply Hno; [exact Hn|].
        intros e He.
        destruct (In_setPhase_other _ t Returned _ _ Et He)
          as [H|H]; [discriminate | exact (Hrep e H)].
      * intros e [H|H]; apply Hthr; [|now right].
        apply In_setPhase in H. destruct H as [H|H]; [discriminate | now left].
    + assert (Eg' : k < _numChunks (members w)).
      { destruct (Z.ltb_spec k (_numChunks (members w))) as [|Hge];
          [assumption|]. apply Z.geb_le in Hge. congruence. }
      assert (Hn : _exception w = None).
      { destruct (_exception w); [lia | reflexivity]. }
      rewrite Hch, Hn in Eg'.
      pose proof (sumPhases_set (over (_numChunks s0)) _ t (AtBody k) _ Et)
        as Esum.
      cbn [over] in Esum.
      destruct (Z.leb_spec (_numChunks s0) k) as [Hle|_]; [lia|].
      pose proof (flat_map_setPhase (pending (_numChunks s0)) _ t
                    (AtBody k) _ Et) as Pfm.
      cbn [pending] in Pfm.
      destruct (Z.ltb_spec k (_numChunks s0)) as [_|Hge]; [|lia].
      apply Permutation_app_inv_l in Pfm.
      constructor; cbn [withPhase members _exception phases executed];
        try assumption.
      * now rewrite length_setPhase.
      * rewrite Esum. lia.
      * intros k' [H|H]; apply In_setPhase in H; destruct H as [H|H];
          try discriminate; try (apply Hts; now auto).
        injection H as ->. exact Hk.
      * exists dropped. split; [|exact Hdrop]. now rewrite Pfm.
      * intros H. apply In_setPhase in H. destruct H as [H|H];
          [discriminate | now apply Hre].
      * intros Hn'. now contradiction Hn'.
      * intros _ Hrep. apply Hno; [exact Hn|].
        intros e He.
        destruct (In_setPhase_other _ t (AtBody k) _ _ Et He)
          as [H|H]; [discriminate | exact (Hrep e H)].
      * intros e [H|H]; apply Hthr; [|now right].
        apply In_setPhase in H. destruct H as [H|H]; [discriminate | now left].
  - (* the execution of the body *)
    assert (Hin : In (AtBody k) (phases w)) by (eapply nth_error_In; exact Et).
    set (a := chunkArgs (members w) k).
    set (o := target (length (executed w)) (fst a) (snd a)).
    set (q := match caught o with
              | Some exception => AtReport exception
              | None => AtFetch
              end).
    assert (Hq0 : over (_numChunks s0) q = 0) by (unfold q; now destruct (caught o)).
    assert (Hq1 : pending (_numChunks s0) q = []) by (unfold q; now destruct (caught o)).
    assert (Hq2 : q <> Returned) by (unfold q; now destruct (caught o)).
    assert (Hq3 : forall k', q <> AtTest k' /\ q <> AtBody k')
      by (unfold q; intros k'; now destruct (caught o)).
    pose proof (sumPhases_set (over (_numChunks s0)) _ t q _ Et) as Esum.
    cbn [over] in Esum.
    pose proof (flat_map_setPhase (pending (_numChunks s0)) _ t q _ Et) as Pfm.
    rewrite Hq1 in Pfm. cbn [pending app] in Pfm.
    constructor; cbn [withPhase members _exception phases executed];
      try assumption.
    + now rewrite length_setPhase.
    + rewrite Esum. lia.
    + intros k' [H|H]; apply In_setPhase in H; destruct H as [H|H];
        try (apply Hts; now auto); symmetry in H; now apply Hq3 in H.
    + exists dropped. split; [|exact Hdrop].
      rewrite map_app. cbn [map chunk]. rewrite <- app_assoc.
      rewrite (app_assoc [k]). now rewrite Pfm.
    + apply Forall_app. split; [exact Har|].
      constructor; [|constructor]. cbn [args chunk].
      now apply chunkArgs_members.
    + intros H. apply In_setPhase in H. destruct H as [H|H];
        [now symmetry in H | now apply Hre].
    + intros Hn. specialize (Hst Hn).
      destruct (In_setPhase_other _ t q _ _ Et Hst)
        as [H|H]; [discriminate | exact H].
    + intros Hn Hrep. apply Forall_app. split.
      * apply Hno; [exact Hn|]. intros e He.
        destruct (In_setPhase_other _ t q _ _ Et He)
          as [H|H]; [discriminate | exact (Hrep e H)].
      * constructor; [|constructor]. cbn [outcome].
        destruct (caught o) as [e|] eqn:Eo.
        -- exfalso. apply (Hrep e). eapply In_setPhase_self. exact Et.
        -- destruct o; [reflexivity | discriminate | discriminate].
    + intros e [H|H].
      * apply In_setPhase in H. destruct H as [H|H].
        -- exists (mkInvocation t k a o). split.
           ++ apply in_or_app. right. now left.
           ++ cbn [outcome]. unfold q in H.
              destruct (caught o); [now injection H as -> | discriminate].
        -- destruct (Hthr e (or_introl H)) as (i & Hi & Hc').
           exists i. split; [apply in_or_app; now left | exact Hc'].
      * destruct (Hthr e (or_intror H)) as (i & Hi & Hc').
        exists i. split; [apply in_or_app; now left | exact Hc'].
  - (* the critical section of reportException *)
    assert (Hin : In (AtReport e) (phases w)) by (eapply nth_error_In; exact Et).
    pose proof (sumPhases_set (over (_numChunks s0)) _ t Returned _ Et) as Esum.
    cbn [over] in Esum.
    pose proof (flat_map_setPhase (pending (_numChunks s0)) _ t Returned _ Et)
      as Pfm.
    cbn [pending app] in Pfm.
    unfold reportException.
    destruct (_exception w) as [e0|] eqn:Ee.
    + constructor; cbn [withPhase members _exception phases executed];
        try assumption.
      * now rewrite length_setPhase.
      * now rewrite Ee.
      * rewrite Esum. lia.
      * intros k' [H|H]; apply In_setPhase in H; destruct H as [H|H];
          try discriminate; apply Hts; auto.
      * exists dropped. split; [now rewrite Pfm|].
        rewrite Ee. discriminate.
      * rewrite Ee. discriminate.
      * intros _. eapply In_setPhase_self. exact Et.
      * rewrite Ee. discriminate.
      * rewrite Ee. intros e' [H|H]; apply Hthr; [|now right].
        apply In_setPhase in H. destruct H as [H|H]; [discriminate | now left].
    + constructor; cbn [withPhase members _exception phases executed
                        _chunkSize _maxIndex _numChunks _next];
        try assumption; try reflexivity.
      * now rewrite length_setPhase.
      * rewrite Esum. lia.
      * intros k' [H|H]; apply In_setPhase in H; destruct H as [H|H];
          try discriminate; apply Hts; auto.
      * exists dropped. split; [now rewrite Pfm | discriminate].
      * discriminate.
      * intros _. eapply In_setPhase_self. exact Et.
      * discriminate.
      * intros e' [H|H].
        -- apply In_setPhase in H. destruct H as [H|H]; [discriminate|].
           apply Hthr. now left.
        -- injection H as <-. apply Hthr. now left.
Qed.

Lemma sound_proceed (s0 : Shared) (schedule : list nat) (w : Work FatalError) :
  0 <= _numChunks s0 ->
  _numChunks s0 + Z.of_nat (Z.to_nat (_threadCount s0)) < SIZE_MOD ->
  sound s0 w -> sound s0 (proceed schedule w).
Proof.
  intros Hc Hs. revert w.
  induction schedule as [|t sch IH]; intros w Hw; [exact Hw|].
  change (proceed (t :: sch) w) with (proceed sch (advance w t)).
  apply IH. now apply sound_advance.
Qed.

(** *** Every step brings the end of the call nearer *)

Definition effort (N0 : Z) (p : Phase FatalError) : Z :=
  match p with
  | AtFetch => 2
  | AtTest k => if k <? N0 then 4 else 1
  | AtBody _ => 3
  | AtReport _ => 1
  | Returned => 0
  end.

Definition remaining (s0 : Shared) (w : Work FatalError) : Z :=
  4 * Z.max 0 (_numChunks s0 - _next (members w))
  + sumPhases (effort (_numChunks s0)) (phases w).

Lemma effort_nonneg (N0 : Z) (l : list (Phase FatalError)) :
  0 <= sumPhases (effort N0) l.
Proof.
  induction l as [|p l IH]; cbn [sumPhases fold_right]; [lia|].
  fold (sumPhases (effort N0) l).
  assert (0 <= effort N0 p)
    by (destruct p; cbn [effort]; try lia; destruct (_ <? _); lia).
  lia.
Qed.

Lemma advance_decreases (s0 : Shared) (w : Work FatalError) (t : nat)
  (p : Phase FatalError) :
  0 <= _numChunks s0 ->
  _numChunks s0 + Z.of_nat (Z.to_nat (_threadCount s0)) < SIZE_MOD ->
  sound s0 w ->
  nth_error (phases w) t = Some p -> isReturned p = false ->
  0 <= remaining s0 (advance w t) < remaining s0 w.
Proof.
  intros Hc Hsmall Hw Et Hp.
  split; [unfold remaining; pose proof (effort_nonneg (_numChunks s0)
            (phases (advance w t))); lia|].
  destruct Hw as [Hsz Hmx Hth Hch Hnx Hts _ _ _ _ _ _].
  unfold advance, remaining. rewrite Et.
  destruct p as [|k|k|e|]; [| | | |discriminate].
  - pose proof (sumPhases_room (_numChunks s0) _ _ _ Et) as Hroom.
    cbn [over] in Hroom. rewrite Hth in Hroom.
    cbn [withPhase members phases _next].
    rewrite (sumPhases_set _ _ t (AtTest (_next (members w))) _ Et).
    cbn [effort]. rewrite size_t_small by lia.
    destruct (Z.ltb_spec (_next (members w)) (_numChunks s0)); lia.
  - assert (Hin : In (AtTest k) (phases w)) by (eapply nth_error_In; exact Et).
    destruct (k >=? _numChunks (members w)) eqn:Eg;
      cbn [withPhase members phases].
    + rewrite (sumPhases_set _ _ t Returned _ Et). cbn [effort].
      destruct (k <? _numChunks s0); lia.
    + rewrite (sumPhases_set _ _ t (AtBody k) _ Et). cbn [effort].
      assert (Eg' : k < _numChunks (members w)).
      { destruct (Z.ltb_spec k (_numChunks (members w))) as [|Hge];
          [assumption|]. apply Z.geb_le in Hge. congruence. }
      rewrite Hch in Eg'.
      destruct (_exception w).
      * specialize (Hts k (or_introl Hin)). lia.
      * destruct (Z.ltb_spec k (_numChunks s0)); lia.
  - cbn [withPhase members phases].
    match goal with
    | |- context [setPhase _ _ ?q] =>
        rewrite (sumPhases_set _ _ t q _ Et);
        assert (Hq : effort (_numChunks s0) q <= 2)
          by (destruct (caught _); cbn [effort]; lia)
    end.
    cbn [effort] in Hq |- *. lia.
  - assert (Em : _next (members (reportException w e)) = _next (members w)).
    { unfold reportException. now destruct (_exception w). }
    assert (Ep : phases (reportException w e) = phases w).
    { unfold reportException. now destruct (_exception w). }
    cbn [withPhase members phases]. rewrite Em, Ep.
    rewrite (sumPhases_set _ _ t Returned _ Et). cbn [effort]. lia.
Qed.

Lemma forallb_false_nth {A : Type} (f : A -> bool) (l : list A) :
  forallb f l = false ->
  exists t p, nth_error l t = Some p /\ f p = false.
Proof.
  induction l as [|x l IH]; cbn [forallb]; [discriminate|].
  destruct (f x) eqn:E; cbn [andb].
  - intros H. destruct (IH H) as (t & p & Ht & Hp).
    exists (S t), p. now split.
  - intros _. exists O, x. now split.
Qed.

Lemma call_completes (s0 : Shared) :
  0 <= _numChunks s0 ->
  _numChunks s0 + Z.of_nat (Z.to_nat (_threadCount s0)) < SIZE_MOD ->
  forall (n : nat) (w : Work FatalError),
    sound s0 w -> remaining s0 w <= Z.of_nat n ->
    exists schedule, call_result (proceed schedule w) <> None.
Proof.
  intros Hc Hs. induction n as [|n IH]; intros w Hw Hn.
  - destruct (forallb isReturned (phases w)) eqn:Ef.
    + exists []. unfold call_result, proceed. cbn [fold_left].
      rewrite Ef. discriminate.
    + destruct (forallb_false_nth _ _ Ef) as (t & p & Ht & Hp).
      pose proof (advance_decreases s0 w t p Hc Hs Hw Ht Hp). lia.
  - destruct (forallb isReturned (phases w)) eqn:Ef.
    + exists []. unfold call_result, proceed. cbn [fold_left].
      rewrite Ef. discriminate.
    + destruct (forallb_false_nth _ _ Ef) as (t & p & Ht & Hp).
      pose proof (advance_decreases s0 w t p Hc Hs Hw Ht Hp) as Hd.
      destruct (IH (advance w t)) as [sch Hsch].
      * now apply sound_advance.
      * lia.
      * exists (t :: sch). exact Hsch.
Qed.

Lemma NoDup_indices (n : nat) : NoDup (map Z.of_nat (seq 0 n)).
Proof.
  apply Finite.Injective_map_NoDup; [|apply seq_NoDup].
  intros a b. apply Nat2Z.inj.
Qed.

Lemma In_indices (n : nat) (k : Z) :
  In k (map Z.of_nat (seq 0 n)) <-> 0 <= k < Z.of_nat n.
Proof.
  rewrite in_map_iff. split.
  - intros (j & <- & Hj). apply in_seq in Hj. lia.
  - intros H. exists (Z.to_nat k). split; [lia|]. apply in_seq. lia.
Qed.

Lemma dispensed_indices (s : Shared) :
  dispensed s
  = map (chunkArgs s) (map Z.of_nat (seq 0 (Z.to_nat (_numChunks s)))).
Proof. unfold dispensed. now rewrite map_map. Qed.

Lemma executed_args (s : Shared) (l : list (Invocation FatalError)) :
  Forall (fun i => args i = chunkArgs s (chunk i)) l ->
  map args l = map (chunkArgs s) (map chunk l).
Proof.
  induction 1 as [|i l Hi _ IH]; cbn [map]; [reflexivity|].
  now rewrite Hi, IH.
Qed.

Lemma nth_error_setPhase {A : Type} (l : list A) (t u : nat) (a q : A) :
  nth_error (setPhase l t a) u = Some q ->
  (u = t /\ q = a) \/ nth_error l u = Some q.
Proof.
  revert t u. induction l as [|x l IH]; intros [|t] [|u];
    cbn [setPhase nth_error]; try discriminate; auto.
  - intros [= <-]. now left.
  - intros H. destruct (IH _ _ H) as [[-> ->]|H']; auto.
Qed.

(** What holds from the moment [w1] at which an exception is stored. *)
Definition winding_down (e : FatalError) (w1 w : Work FatalError) : Prop :=
  _exception w = Some e /\
  (forall u k, nth_error (phases w) u = Some (AtBody k) ->
               nth_error (phases w1) u = Some (AtBody k)) /\
  exists more,
    executed w = executed w1 ++ more /\
    Forall (fun i => nth_error (phases w1) (thread i) = Some (AtBody (chunk i)))
           more /\
    Z.of_nat (length more) + sumPhases inBody (phases w)
    <= sumPhases inBody (phases w1).

Lemma winding_down_advance (s0 : Shared) (e : FatalError)
  (w1 w : Work FatalError) (t : nat) :
  sound s0 w -> winding_down e w1 w -> winding_down e w1 (advance w t).
Proof.
  intros [_ _ _ Hch _ Hts _ _ _ _ _ _] (He & Hb & more & Hex & Hall & Hlen).
  unfold advance.
  destruct (nth_error (phases w) t) as [[|k|k|e'|]|] eqn:Et;
    try (split; [exact He|]; split; [exact Hb|]; exists more; now repeat split).
  - split; [exact He|]. cbn [withPhase members _exception phases executed].
    split.
    + intros u k H. apply nth_error_setPhase in H.
      destruct H as [[_ H]|H]; [discriminate | now apply Hb].
    + exists more. split; [exact Hex|]. split; [exact Hall|].
      rewrite (sumPhases_set _ _ t _ _ Et). cbn [inBody]. lia.
  - assert (Hin : In (AtTest k) (phases w)) by (eapply nth_error_In; exact Et).
    specialize (Hts k (or_introl Hin)).
    rewrite Hch, He.
    destruct (Z.geb_spec k 0) as [_|Hneg]; [|lia].
    split; [exact He|]. cbn [withPhase members _exception phases executed].
    split.
    + intros u k' H. apply nth_error_setPhase in H.
      destruct H as [[_ H]|H]; [discriminate | now apply Hb].
    + exists more. split; [exact Hex|]. split; [exact Hall|].
      rewrite (sumPhases_set _ _ t _ _ Et). cbn [inBody]. lia.
  - set (a := chunkArgs (members w) k).
    set (o := target (length (executed w)) (fst a) (snd a)).
    set (q := match caught o with
              | Some exception => AtReport exception
              | None => AtFetch
              end).
    assert (Hq0 : inBody q = 0) by (unfold q; now destruct (caught o)).
    assert (Hq1 : forall k', q <> AtBody k')
      by (unfold q; intros k'; now destruct (caught o)).
    split; [exact He|]. cbn [withPhase members _exception phases executed].
    split.
    + intros u k' H. apply nth_error_setPhase in H.
      destruct H as [[_ H]|H]; [symmetry in H; now apply Hq1 in H | now apply Hb].
    + exists (more ++ [mkInvocation t k a o]).
      split; [now rewrite Hex, app_assoc|].
      split.
      * apply Forall_app. split; [exact Hall|].
        constructor; [|constructor]. cbn [thread chunk]. now apply Hb.
      * rewrite (sumPhases_set _ _ t _ _ Et), Hq0. cbn [inBody].
        rewrite length_app. cbn [length]. lia.
  - unfold reportException. rewrite He.
    split; [exact He|]. cbn [withPhase members _exception phases executed].
    split.
    + intros u k' H. apply nth_error_setPhase in H.
      destruct H as [[_ H]|H]; [discriminate | now apply Hb].
    + exists more. split; [exact Hex|]. split; [exact Hall|].
      rewrite (sumPhases_set _ _ t _ _ Et). cbn [inBody]. lia.
Qed.

Lemma winding_down_proceed (s0 : Shared) (e : FatalError)
  (w1 : Work FatalError) (schedule : list nat) (w : Work FatalError) :
  0 <= _numChunks s0 ->
  _numChunks s0 + Z.of_nat (Z.to_nat (_threadCount s0)) < SIZE_MOD ->
  sound s0 w -> winding_down e w1 w ->
  winding_down e w1 (proceed schedule w).
Proof.
  intros Hc Hs. revert w.
  induction schedule as [|t sch IH]; intros w Hw Hd; [exact Hd|].
  change (proceed (t :: sch) w) with (proceed sch (advance w t)).
  apply IH.
  - now apply sound_advance.
  - now apply (winding_down_advance s0).
Qed.

(** X19: an exception thrown by the body reaches the caller, and a call
    that returns normally has done all the work.  Whatever the order in
    which the threads take their steps, and whatever the body does: no
    chunk index is passed to the body twice, and every execution of the body
    is for a chunk index below the number of chunks, with the arguments of
    that chunk.  When the call returns normally, every execution of the body
    has returned and the body has been executed for every dispensed chunk,
    exactly once.  When the call throws, the exception is the one thrown by
    some execution of the body (a fresh exception if that one was not a
    [FatalError]).  And from every moment of the call there is a
    continuation in which the call completes. *)
Theorem call_rethrows_exception_of_body (s : Shared) :
  _next s = 0 -> 0 <= _numChunks s -> 1 <= _threadCount s ->
  _numChunks s + _threadCount s < SIZE_MOD ->
  (forall schedule,
     let w := proceed schedule (begin s) in
     NoDup (map chunk (executed w)) /\
     Forall (fun i => 0 <= chunk i < _numChunks s /\
                      args i = chunkArgs s (chunk i)) (executed w) /\
     (call_result w = Some Normal ->
      Forall (fun i => outcome i = Returns) (executed w) /\
      Permutation (map args (executed w)) (dispensed s)) /\
     (forall e, call_result w = Some (Rethrown e) ->
                exists i, In i (executed w) /\ caught (outcome i) = Some e)) /\
  (forall a, exists b, call_result (proceed (a ++ b) (begin s)) <> None).
Proof.
  intros Hn Hc Ht Hs.
  assert (Hs' : _numChunks s + Z.of_nat (Z.to_nat (_threadCount s)) < SIZE_MOD)
    by (rewrite Z2Nat.id by lia; exact Hs).
  split.
  - intros schedule w.
    pose proof (sound_proceed s schedule (begin s) Hc Hs' (sound_begin s Hn Hc))
      as [Hsz Hmx Hth Hch Hnx Hts [dropped [Hperm Hdrop]] Har Hre Hst Hno Hthr].
    fold w in Hsz, Hmx, Hth, Hch, Hnx, Hts, Hperm, Hdrop, Har, Hre, Hst, Hno, Hthr.
    split; [|split; [|split]].
    + pose proof (NoDup_indices
                    (Z.to_nat (Z.min (_next (members w)) (_numChunks s)))) as Hnd.
      rewrite <- Hperm in Hnd. now apply NoDup_app_remove_r in Hnd.
    + rewrite Forall_forall in Har |- *. intros i Hi.
      split; [|now apply Har].
      assert (Hk : In (chunk i)
                      (map Z.of_nat
                           (seq 0 (Z.to_nat (Z.min (_next (members w))
                                                   (_numChunks s)))))).
      { rewrite <- Hperm. apply in_or_app. left. now apply in_map. }
      apply In_indices in Hk. lia.
    + unfold call_result.
      destruct (forallb isReturned (phases w)) eqn:Ef; [|discriminate].
      destruct (_exception w) eqn:Ee; [discriminate|]. intros _.
      pose proof (forallb_isReturned _ Ef) as Hall.
      assert (Hret : In Returned (phases w)).
      { destruct (phases w) as [|p l] eqn:Ep.
        - cbn [length] in Hth. lia.
        - left. apply Hall. now left. }
      split.
      * apply Hno; [reflexivity|].
        intros e He. apply Hall in He. discriminate.
      * rewrite (executed_args s _ Har), dispensed_indices.
        apply Permutation_map.
        assert (Efm : flat_map (pending (_numChunks s)) (phases w) = []).
        { clear -Hall. induction (phases w) as [|p l IH]; [reflexivity|].
          cbn [flat_map]. rewrite (Hall p (or_introl eq_refl)).
          cbn [pending app]. apply IH. intros q Hq. apply Hall. now right. }
        rewrite Efm, (Hdrop eq_refl), !app_nil_r in Hperm.
        rewrite Hperm. specialize (Hre Hret eq_refl).
        now rewrite Z.min_r by lia.
    + intros e. unfold call_result.
      destruct (forallb isReturned (phases w)); [|discriminate].
      destruct (_exception w) as [e'|] eqn:Ee; [|discriminate].
      intros [= <-]. apply Hthr. now right.
  - intros a.
    pose proof (sound_proceed s a (begin s) Hc Hs' (sound_begin s Hn Hc)) as Hw.
    destruct (call_completes s Hc Hs'
                (Z.to_nat (remaining s (proceed a (begin s))))
                (proceed a (begin s)) Hw) as [b Hb]; [lia|].
    exists b. now rewrite proceed_app.
Qed.

(** X20: the first exception that is reported is the one that is kept, and
    it takes the remaining work away.  Once an exception is stored, it stays
    stored whatever is reported later, the number of chunks stays zero, and
    the body is executed only by threads that were about to execute it at
    that moment, for the chunk that they held: at most once for each of
    them, and there are fewer of them than there are threads. *)
Theorem exception_takes_remaining_work_away (s : Shared) (a b : list nat)
  (e : FatalError) :
  _next s = 0 -> 0 <= _numChunks s -> 1 <= _threadCount s ->
  _numChunks s + _threadCount s < SIZE_MOD ->
  _exception (proceed a (begin s)) = Some e ->
  let w1 := proceed a (begin s) in
  let w2 := proceed (a ++ b) (begin s) in
  _exception w2 = Some e /\
  _numChunks (members w2) = 0 /\
  exists more,
    executed w2 = executed w1 ++ more /\
    Forall (fun i => nth_error (phases w1) (thread i) = Some (AtBody (chunk i)))
           more /\
    Z.of_nat (length more) <= sumPhases inBody (phases w1) /\
    sumPhases inBody (phases w1) < _threadCount s.
Proof.
  intros Hn Hc Ht Hs He w1 w2.
  assert (Hs' : _numChunks s + Z.of_nat (Z.to_nat (_threadCount s)) < SIZE_MOD)
    by (rewrite Z2Nat.id by lia; exact Hs).
  pose proof (sound_proceed s a (begin s) Hc Hs' (sound_begin s Hn Hc)) as Hw1.
  fold w1 in Hw1, He.
  assert (Hd1 : winding_down e w1 w1).
  { split; [exact He|]. split; [auto|].
    exists []. split; [now rewrite app_nil_r|]. split; [constructor|].
    cbn [length]. lia. }
  pose proof (winding_down_proceed s e w1 b w1 Hc Hs' Hw1 Hd1)
    as (He2 & _ & more & Hex & Hall & Hlen).
  pose proof (sound_proceed s b w1 Hc Hs' Hw1) as Hw2.
  assert (E2 : proceed b w1 = w2) by (unfold w1, w2; now rewrite proceed_app).
  rewrite E2 in He2, Hex, Hlen, Hw2.
  split; [exact He2|]. split.
  - rewrite (so_chunks _ _ Hw2), He2. reflexivity.
  - exists more. split; [exact Hex|]. split; [exact Hall|].
    split.
    + pose proof (sumPhases_bounds inBody (phases w2)) as Hb.
      assert (Hi : forall p, 0 <= inBody p <= 1) by (intros []; cbn; lia).
      specialize (Hb Hi). lia.
    + pose proof (inBody_lt (phases w1)) as Hlt.
      rewrite (so_threads _ _ Hw1) in Hlt.
      rewrite Z2Nat.id in Hlt by lia. apply Hlt.
      apply (so_stored _ _ Hw1). rewrite He. discriminate.
Qed.

End Exceptions.

(** A body that throws a [FatalError] with code [code] for the chunk that
    begins at index [bad], and returns for every other chunk. *)
Definition throwing_body (bad code : Z) (n : nat) (first count : Z)
  : Outcome Z :=
  if first =? bad then ThrowsFatalError code else Returns.

Lemma call_rethrows_exception_of_body_witness :
  let s := mkShared 2 3 1 3 0 in
  let w := proceed Z 0 (throwing_body 1 7) (roundRobin 2 6) (begin Z s) in
  call_init 2 3 true = Some s /\
  call_result Z w = Some (Rethrown 7) /\
  exists i, In i (executed w) /\ caught Z 0 (outcome i) = Some 7.
Proof.
  intros s w. split; [reflexivity|]. split; [reflexivity|].
  destruct (call_rethrows_exception_of_body Z 0 (throwing_body 1 7) s)
    as [H _]; [reflexivity | cbn; lia | cbn; lia | reflexivity |].
  destruct (H (roundRobin 2 6)) as (_ & _ & _ & Hr).
  apply (Hr 7). reflexivity.
Defined.

Lemma exception_takes_remaining_work_away_witness :
  let s := mkShared 2 3 1 3 0 in
  let a := [0; 0; 1; 1; 1; 1]%nat in
  let b := [0; 0; 0]%nat in
  let w1 := proceed Z 0 (throwing_body 1 7) a (begin Z s) in
  let w2 := proceed Z 0 (throwing_body 1 7) (a ++ b) (begin Z s) in
  phases w1 = [AtBody 0; Returned] /\
  call_result Z w2 = Some (Rethrown 7) /\
  exists more,
    executed w2 = executed w1 ++ more /\
    Z.of_nat (length more) <= sumPhases Z (inBody Z) (phases w1).
Proof.
  intros s a b w1 w2. split; [reflexivity|]. split; [reflexivity|].
  destruct (exception_takes_remaining_work_away Z 0 (throwing_body 1 7) s a b 7)
    as (_ & _ & more & Hex & _ & Hlen & _);
    [reflexivity | cbn; lia | cbn; lia | reflexivity | reflexivity |].
  exists more. split; [exact Hex | exact Hlen].
Defined.

End Parallel.

(** ** Sorting as [std::sort] does with a strict comparison

    [std::sort] leaves the order of equivalent elements unspecified; the
    insertion sort below is one admissible outcome (it keeps them in their
    input order). *)

Fixpoint insert_by {A : Type} (lt : A -> A -> bool) (x : A) (l : list A)
  : list A :=
  match l with
  | [] => [x]
  | y :: l' => if lt y x then y :: insert_by lt x l' else x :: l
  end.

Definition sort_by {A : Type} (lt : A -> A -> bool) (l : list A) : list A :=
  fold_right (insert_by lt) [] l.

(** A list is ordered for a strict comparison [lt] when no element is
    strictly below an earlier one. *)
Definition ordered_by {A : Type} (lt : A -> A -> bool) (l : list A) : Prop :=
  StronglySorted (fun a b => lt b a = false) l.

Lemma insert_by_perm {A : Type} (lt : A -> A -> bool) (x : A) (l : list A) :
  Permutation (x :: l) (insert_by lt x l).
Proof.
  induction l as [|y l IH]; simpl; [reflexivity|].
  destruct (lt y x); [|reflexivity].
  rewrite perm_swap. now apply perm_skip.
Qed.

Lemma sort_by_perm {A : Type} (lt : A -> A -> bool) (l : list A) :
  Permutation l (sort_by lt l).
Proof.
  induction l as [|x l IH]; simpl; [reflexivity|].
  rewrite <- insert_by_perm. now apply perm_skip.
Qed.

Section SortOrdered.
Context {A : Type} (lt : A -> A -> bool).
Hypothesis lt_asym : forall a b, lt a b = true -> lt b a = false.
Hypothesis lt_trans_neg :
  forall a b c, lt b a = false -> lt c b = false -> lt c a = false.

Lemma insert_by_ordered (x : A) (l : list A) :
  ordered_by lt l -> ordered_by lt (insert_by lt x l).
Proof.
  unfold ordered_by. induction l as [|y l IH]; intros Hl; simpl.
  - constructor; constructor.
  - inversion Hl as [|? ? Hl' Hy]; subst.
    destruct (lt y x) eqn:E.
    + constructor; [now apply IH|].
      rewrite Forall_forall in *. intros z Hz.
      apply Permutation_in with (l' := x :: l) in Hz;
        [|symmetry; apply insert_by_perm].
      destruct Hz as [<-|Hz]; [now apply lt_asym | now apply Hy].
    + constructor; [assumption|].
      constructor; [assumption|].
      rewrite Forall_forall in *. intros z Hz.
      apply lt_trans_neg with (b := y); [assumption | now apply Hy].
Qed.

Lemma sort_by_ordered (l : list A) : ordered_by lt (sort_by lt l).
Proof.
  induction l as [|x l IH]; simpl; [constructor|].
  now apply insert_by_ordered.
Qed.
End SortOrdered.

(** ** Arrays of doubles with checked indexing *)

(** An [Array] is a sequence of doubles; [resize] sets the length and
    clears every element to zero. *)
Definition Array : Type := list Q.

Definition aresize (n : Z) : Array := repeat 0%Q (Z.to_nat n).

(** Reading and replacing the element at an index; the index is an [int] or
    a [size_t] of the source, and an index outside of the sequence is
    undefined behaviour. *)
Definition in_range {A : Type} (v : list A) (i : Z) : bool :=
  (0 <=? i) && (i <? Z.of_nat (length v)).

Definition vget {A : Type} (v : list A) (i : Z) : option A :=
  if in_range v i then nth_error v (Z.to_nat i) else None.

Fixpoint vset_nat {A : Type} (v : list A) (i : nat) (a : A) : option (list A) :=
  match v, i with
  | [], _ => None
  | _ :: v', O => Some (a :: v')
  | b :: v', S i' => option_map (cons b) (vset_nat v' i' a)
  end.

Definition vset {A : Type} (v : list A) (i : Z) (a : A) : option (list A) :=
  if in_range v i then vset_nat v (Z.to_nat i) a else None.

(** [LockFree::add(arrays[ch][i], value)]: the atomic addition, as one step
    of the thread that executes it. *)
Definition lockfree_add (arrays : list Array) (ch i : Z) (value : Q)
  : option (list Array) :=
  a <- vget arrays ch ;;
  x <- vget a i ;;
  a' <- vset a i (x + value)%Q ;;
  vset arrays ch a'.

(** The element of a family of arrays at a channel and a bin, for
    statements (zero where there is no such element). *)
Definition cell (arrays : list Array) (ch i : Z) : Q :=
  match vget arrays ch with
  | Some a => match vget a i with Some x => x | None => 0%Q end
  | None => 0%Q
  end.

Definition channelLength (arrays : list Array) (ch : Z) : Z :=
  match vget arrays ch with
  | Some a => Z.of_nat (length a)
  | None => 0
  end.

(** *** Properties of the checked indexing *)

Lemma vset_nat_some {A : Type} (v : list A) (i : nat) (a : A) :
  (i < length v)%nat -> exists v', vset_nat v i a = Some v'.
Proof.
  revert i. induction v as [|b v IH]; intros [|i] H; simpl in *; try lia.
  - eexists; reflexivity.
  - destruct (IH i) as [v' E]; [lia|]. rewrite E. eexists; reflexivity.
Qed.

Lemma vset_nat_spec {A : Type} (v v' : list A) (i : nat) (a : A) :
  vset_nat v i a = Some v' ->
  (i < length v)%nat /\ length v' = length v /\
  nth_error v' i = Some a /\
  forall j, j <> i -> nth_error v' j = nth_error v j.
Proof.
  revert v' i. induction v as [|b v IH]; intros v' [|i] H; simpl in *;
    try discriminate.
  - injection H as <-. simpl. repeat split; try lia.
    intros [|j] Hj; [congruence | reflexivity].
  - destruct (vset_nat v i a) as [w|] eqn:E; [|discriminate].
    injection H as <-. destruct (IH w i E) as (H1 & H2 & H3 & H4).
    simpl. repeat split; try lia; try assumption.
    intros [|j] Hj; [reflexivity|]. simpl. apply H4. congruence.
Qed.

Lemma in_range_spec {A : Type} (v : list A) (i : Z) :
  in_range v i = true <-> 0 <= i < Z.of_nat (length v).
Proof.
  unfold in_range. rewrite andb_true_iff, Z.leb_le, Z.ltb_lt. tauto.
Qed.

Lemma vget_some {A : Type} (v : list A) (i : Z) :
  0 <= i < Z.of_nat (length v) -> exists a, vget v i = Some a.
Proof.
  intros H. unfold vget. rewrite (proj2 (in_range_spec v i) H).
  destruct (nth_error v (Z.to_nat i)) eqn:E; [eexists; reflexivity|].
  apply nth_error_None in E. lia.
Qed.

Lemma vget_range {A : Type} (v : list A) (i : Z) (a : A) :
  vget v i = Some a -> 0 <= i < Z.of_nat (length v).
Proof.
  unfold vget. destruct (in_range v i) eqn:E; [|discriminate].
  intros _. now apply in_range_spec.
Qed.

Lemma vset_some {A : Type} (v : list A) (i : Z) (a : A) :
  0 <= i < Z.of_nat (length v) -> exists v', vset v i a = Some v'.
Proof.
  intros H. unfold vset. rewrite (proj2 (in_range_spec v i) H).
  apply vset_nat_some. lia.
Qed.

Lemma vset_spec {A : Type} (v v' : list A) (i : Z) (a : A) :
  vset v i a = Some v' ->
  0 <= i < Z.of_nat (length v) /\ length v' = length v /\
  vget v' i = Some a /\
  forall j, j <> i -> vget v' j = vget v j.
Proof.
  unfold vset, vget. destruct (in_range v i) eqn:Er; [|discriminate].
  apply in_range_spec in Er. intros E.
  apply vset_nat_spec in E. destruct E as (H1 & H2 & H3 & H4).
  repeat split; try lia; try assumption.
  - rewrite (proj2 (in_range_spec v' i)) by lia. exact H3.
  - intros j Hj. unfold in_range. rewrite H2.
    destruct ((0 <=? j) && (j <? Z.of_nat (length v))) eqn:Ej; [|reflexivity].
    apply andb_true_iff in Ej. rewrite Z.leb_le, Z.ltb_lt in Ej.
    apply H4. lia.
Qed.

Lemma lockfree_add_spec (arrays arrays' : list Array) (ch i : Z) (value : Q) :
  lockfree_add arrays ch i value = Some arrays' ->
  length arrays' = length arrays /\
  0 <= i < channelLength arrays ch /\
  cell arrays' ch i = (cell arrays ch i + value)%Q /\
  (forall ch' i', (ch', i') <> (ch, i) ->
                  cell arrays' ch' i' = cell arrays ch' i') /\
  (forall ch', channelLength arrays' ch' = channelLength arrays ch').
Proof.
  unfold lockfree_add, obind. intros H.
  destruct (vget arrays ch) as [a|] eqn:Ea; [|discriminate].
  destruct (vget a i) as [x|] eqn:Ex; [|discriminate].
  destruct (vset a i (x + value)%Q) as [a'|] eqn:Es; [|discriminate].
  apply vset_spec in H. destruct H as (R1 & L1 & G1 & O1).
  apply vset_spec in Es. destruct Es as (R2 & L2 & G2 & O2).
  split; [assumption|]. split.
  { unfold channelLength. rewrite Ea. apply vget_range in Ex. exact Ex. }
  split.
  { unfold cell. now rewrite G1, G2, Ea, Ex. }
  split.
  - intros ch' i' Hne. unfold cell.
    destruct (Z.eq_dec ch' ch) as [->|Hc].
    + rewrite G1, Ea. rewrite O2; [reflexivity|]. congruence.
    + now rewrite O1.
  - intros ch'. unfold channelLength.
    destruct (Z.eq_dec ch' ch) as [->|Hc].
    + rewrite G1, Ea. now rewrite L2.
    + now rewrite O1.
Qed.

Lemma lockfree_add_some (arrays : list Array) (ch i : Z) (value : Q) :
  0 <= i < channelLength arrays ch ->
  exists arrays', lockfree_add arrays ch i value = Some arrays'.
Proof.
  unfold channelLength, lockfree_add, obind. intros H.
  destruct (vget arrays ch) as [a|] eqn:Ea; [|lia].
  destruct (vget_some a i H) as [x Ex]. rewrite Ex.
  destruct (vset_some a i (x + value)%Q H) as [a' Es]. rewrite Es.
  apply vset_some. now apply vget_range in Ea.
Qed.

Lemma lockfree_add_none (arrays : list Array) (ch i : Z) (value : Q) :
  channelLength arrays ch <= i -> lockfree_add arrays ch i value = None.
Proof.
  intros H. destruct (lockfree_add arrays ch i value) eqn:E; [|reflexivity].
  apply lockfree_add_spec in E. lia.
Qed.

(** ** The flux recorder *)

Module FluxRecorder.

(** Indices for the detector arrays that need calibration. *)
Definition Total : Z := 0.
Definition Transparent : Z := 1.
Definition PrimaryDirect : Z := 2.
Definition PrimaryScattered : Z := 3.
Definition SecondaryDirect : Z := 4.
Definition SecondaryScattered : Z := 5.
Definition TotalQ : Z := 6.
Definition TotalU : Z := 7.
Definition TotalV : Z := 8.
Definition PrimaryScatteredLevel : Z := 9.

(** Number of detector arrays for statistics. *)
Definition numStatMoments : nat := 4.

(** A single contribution of a photon packet history to a statistics bin. *)
Record Contribution : Type := mkContribution {
  c_ell : Z;
  c_l : Z;
  c_w : Q
}.

(** [Contribution::operator<]: lexicographic on the wavelength index and
    the pixel index. *)
Definition contribution_lt (a b : Contribution) : bool :=
  (c_ell a <? c_ell b) || ((c_ell a =? c_ell b) && (c_l a <? c_l b)).

(** The contributions of the photon packet history a thread is handling. *)
Record ContributionList : Type := mkContributionList {
  _historyIndex : Z;
  _contributions : list Contribution
}.

Definition hasHistoryIndex (cl : ContributionList) (historyIndex : Z) : bool :=
  _historyIndex cl =? historyIndex.

Definition addContribution (cl : ContributionList) (ell l : Z) (w : Q)
  : ContributionList :=
  mkContributionList (_historyIndex cl)
                     (_contributions cl ++ [mkContribution ell l w]).

Definition reset (historyIndex : Z) : ContributionList :=
  mkContributionList historyIndex [].

Definition sorted_contributions (cl : ContributionList) : list Contribution :=
  sort_by contribution_lt (_contributions cl).

(** The wavelength grid, as far as the recorder consults it. *)
Record WavelengthGrid : Type := mkWavelengthGrid {
  numWavelengths : Z;
  ell : Q -> Z
}.

(** The photon packet, as far as the recorder consults it. *)
Record PhotonPacket : Type := mkPhotonPacket {
  lambda : Q;
  numScatt : Z;
  luminosity : Q;
  hasPrimaryOrigin : bool;
  stokesQ : Q;
  stokesU : Q;
  stokesV : Q;
  historyIndex : Z
}.

(** The data members of the recorder.  The thread-local contribution lists
    are kept per thread index, in the order in which the threads first
    asked for their list. *)
Record Recorder : Type := mkRecorder {
  _lambdagrid : WavelengthGrid;
  _hasMedium : bool;
  _hasMediumEmission : bool;
  _recordComponents : bool;
  _numScatteringLevels : Z;
  _recordPolarization : bool;
  _recordStatistics : bool;
  _includeFluxDensity : bool;
  _includeSurfaceBrightness : bool;
  _numPixelsX : Z;
  _numPixelsY : Z;
  _recordTotalOnly : bool;
  _numPixelsInFrame : Z;
  _sed : list Array;
  _ifu : list Array;
  _wsed : list Array;
  _wifu : list Array;
  _contributionLists : list (nat * ContributionList)
}.

Definition with_arrays (s : Recorder) (sed ifu wsed wifu : list Array)
  : Recorder :=
  mkRecorder (_lambdagrid s) (_hasMedium s) (_hasMediumEmission s)
             (_recordComponents s) (_numScatteringLevels s)
             (_recordPolarization s) (_recordStatistics s)
             (_includeFluxDensity s) (_includeSurfaceBrightness s)
             (_numPixelsX s) (_numPixelsY s) (_recordTotalOnly s)
             (_numPixelsInFrame s) sed ifu wsed wifu (_contributionLists s).

Definition with_lists (s : Recorder) (ls : list (nat * ContributionList))
  : Recorder :=
  mkRecorder (_lambdagrid s) (_hasMedium s) (_hasMediumEmission s)
             (_recordComponents s) (_numScatteringLevels s)
             (_recordPolarization s) (_recordStatistics s)
             (_includeFluxDensity s) (_includeSurfaceBrightness s)
             (_numPixelsX s) (_numPixelsY s) (_recordTotalOnly s)
             (_numPixelsInFrame s) (_sed s) (_ifu s) (_wsed s) (_wifu s) ls.

(** A recorder as the setters leave it, before [finalizeConfiguration]. *)
Definition configured (grid : WavelengthGrid) (hasMedium hasMediumEmission : bool)
  (recordComponents : bool) (numScatteringLevels : Z)
  (recordPolarization recordStatistics : bool)
  (includeFluxDensity includeSurfaceBrightness : bool)
  (numPixelsX numPixelsY : Z) : Recorder :=
  mkRecorder grid hasMedium hasMediumEmission recordComponents
             numScatteringLevels recordPolarization recordStatistics
             includeFluxDensity includeSurfaceBrightness numPixelsX numPixelsY
             false 0 [] [] [] [] [].

(** [vector::resize]: the first [n] elements are kept and empty arrays are
    appended up to length [n].  (For a negative [n], which the source
    converts to a [size_t] that no vector can hold, no array is left here,
    so that the first access that follows is undefined.) *)
Definition vresize (v : list Array) (n : Z) : list Array :=
  firstn (Z.to_nat n) v ++ repeat [] (Z.to_nat n - length v).

(** [arrays[ch].resize(len)]. *)
Definition resize_channel (arrays : list Array) (ch len : Z)
  : option (list Array) :=
  vset arrays ch (aresize len).

(** The loop over the scattering levels in [finalizeConfiguration]. *)
Fixpoint resize_levels (arrays : list Array) (i : Z) (count : nat) (len : Z)
  : option (list Array) :=
  match count with
  | O => Some arrays
  | S count' =>
      a <- resize_channel arrays (PrimaryScatteredLevel + i) len ;;
      resize_levels a (i + 1) count' len
  end.

(** The loop [for (int i=0; i!=_numScatteringLevels; ++i)] as a whole.
    With a negative number of levels the counter does not meet its bound:
    the body runs for every [i] from 0 to the largest [int], where [++i]
    is undefined. *)
Definition resize_all_levels (arrays : list Array) (numScatteringLevels len : Z)
  : option (list Array) :=
  if numScatteringLevels <? 0
  then obind (resize_levels arrays 0 (Z.to_nat (INT_MAX + 1)) len)
             (fun _ => None)
  else resize_levels arrays 0 (Z.to_nat numScatteringLevels) len.

(** The resizing of one family of detector arrays ([_sed] with [lenSED],
    [_ifu] with [lenIFU]; the source interleaves the two). *)
Definition allocate (s : Recorder) (recordTotalOnly : bool)
  (arrays : list Array) (len : Z) : option (list Array) :=
  let arrays := vresize arrays (PrimaryScatteredLevel + _numScatteringLevels s) in
  a <- (if recordTotalOnly then resize_channel arrays Total len
        else
          a <- resize_channel arrays Transparent len ;;
          a <- resize_channel a PrimaryDirect len ;;
          a <- resize_channel a PrimaryScattered len ;;
          a <- resize_all_levels a (_numScatteringLevels s) len ;;
          if _hasMediumEmission s then
            a <- resize_channel a SecondaryDirect len ;;
            resize_channel a SecondaryScattered len
          else Some a) ;;
  if _recordPolarization s then
    a <- resize_channel a TotalQ len ;;
    a <- resize_channel a TotalU len ;;
    resize_channel a TotalV len
  else Some a.

Definition allocate_statistics (s : Recorder) (arrays : list Array) (len : Z)
  : list Array :=
  if _recordStatistics s
  then map (fun _ => aresize len) (vresize arrays (Z.of_nat numStatMoments))
  else arrays.

(** [finalizeConfiguration].  The number of pixels in the frame is the
    product of two [int]s, converted to the [size_t] of the data member;
    the two lengths are [size_t]s, the second one a [size_t] product. *)
Definition finalizeConfiguration (s : Recorder) : option Recorder :=
  let numPixelsInFrame := size_t (int_of (_numPixelsX s * _numPixelsY s)) in
  let lenSED := if _includeFluxDensity s
                then size_t (numWavelengths (_lambdagrid s)) else 0 in
  let lenIFU := if _includeSurfaceBrightness s
                then size_t (numPixelsInFrame
                             * size_t (numWavelengths (_lambdagrid s)))
                else 0 in
  let recordTotalOnly := negb (_recordComponents s) || negb (_hasMedium s) in
  sed <- allocate s recordTotalOnly (_sed s) lenSED ;;
  ifu <- allocate s recordTotalOnly (_ifu s) lenIFU ;;
  Some (mkRecorder (_lambdagrid s) (_hasMedium s) (_hasMediumEmission s)
          (_recordComponents s) (_numScatteringLevels s)
          (_recordPolarization s) (_recordStatistics s)
          (_includeFluxDensity s) (_includeSurfaceBrightness s)
          (_numPixelsX s) (_numPixelsY s) recordTotalOnly numPixelsInFrame
          sed ifu
          (allocate_statistics s (_wsed s) lenSED)
          (allocate_statistics s (_wifu s) lenIFU)
          (_contributionLists s)).

(** The channels that [finalizeConfiguration] gives a length. *)
Definition channelAllocated (s : Recorder) (ch : Z) : bool :=
  let recordTotalOnly := negb (_recordComponents s) || negb (_hasMedium s) in
  if ch =? Total then recordTotalOnly
  else if (ch =? Transparent) || (ch =? PrimaryDirect) || (ch =? PrimaryScattered)
  then negb recordTotalOnly
  else if (ch =? SecondaryDirect) || (ch =? SecondaryScattered)
  then negb recordTotalOnly && _hasMediumEmission s
  else if (ch =? TotalQ) || (ch =? TotalU) || (ch =? TotalV)
  then _recordPolarization s
  else negb recordTotalOnly && (PrimaryScatteredLevel <=? ch)
       && (ch <? PrimaryScatteredLevel + _numScatteringLevels s).


(** The lengths that [finalizeConfiguration] computes for the two
    families, for a number of wavelengths and a number of pixels that an
    [int] holds. *)
Definition lenSED (s : Recorder) : Z :=
  if _includeFluxDensity s then numWavelengths (_lambdagrid s) else 0.
Definition lenIFU (s : Recorder) : Z :=
  if _includeSurfaceBrightness s
  then _numPixelsX s * _numPixelsY s * numWavelengths (_lambdagrid s) else 0.

(** The SED arrays have the lengths that [finalizeConfiguration] gave them. *)
Definition sed_ready (s : Recorder) : Prop :=
  forall ch, channelLength (_sed s) ch
             = if channelAllocated s ch then lenSED s else 0.

(** The thread-local contribution list of a thread: the one it obtained
    before, or a fresh one. *)
Fixpoint local (ls : list (nat * ContributionList)) (t : nat)
  : ContributionList :=
  match ls with
  | [] => reset 0
  | (u, cl) :: ls' => if Nat.eqb t u then cl else local ls' t
  end.

Fixpoint set_local (ls : list (nat * ContributionList)) (t : nat)
  (cl : ContributionList) : list (nat * ContributionList) :=
  match ls with
  | [] => [(t, cl)]
  | (u, cl') :: ls' =>
      if Nat.eqb t u then (u, cl) :: ls' else (u, cl') :: set_local ls' t cl
  end.

(** The inner loop of [recordContributions]: the powers [w^1 .. w^4] of the
    aggregated contribution are added to the statistics arrays [k = 0..3]
    at the given bin. *)
Fixpoint add_moments (count : nat) (k : Z) (arrays : list Array) (bin : Z)
  (w wn : Q) : option (list Array) :=
  match count with
  | O => Some arrays
  | S count' =>
      let wn' := (wn * w)%Q in
      a <- lockfree_add arrays k bin wn' ;;
      add_moments count' (k + 1) a bin w wn'
  end.

(** The outer loop of [recordContributions] over the sorted contributions:
    consecutive contributions to the same bin are summed, and the sum is
    recorded when the last contribution or a contribution to another bin
    follows. *)
Fixpoint fold_bins (same : Contribution -> Contribution -> bool)
  (bin : Contribution -> Z) (cs : list Contribution) (w : Q)
  (arrays : list Array) : option (list Array) :=
  match cs with
  | [] => Some arrays
  | c :: rest =>
      let w' := (w + c_w c)%Q in
      let closes := match rest with
                    | [] => true
                    | c' :: _ => negb (same c c')
                    end in
      if closes then
        a <- add_moments numStatMoments 0 arrays (bin c) w' 1%Q ;;
        fold_bins same bin rest 0%Q a
      else fold_bins same bin rest w' arrays
  end.

Definition same_ell (a b : Contribution) : bool := c_ell a =? c_ell b.
Definition same_ell_l (a b : Contribution) : bool :=
  (c_ell a =? c_ell b) && (c_l a =? c_l b).

(** The bin of a contribution in the statistics arrays: [ell] for SEDs, and
    [l + ell * _numPixelsInFrame] computed on [size_t] for IFUs. *)
Definition sed_bin (c : Contribution) : Z := c_ell c.
Definition ifu_bin (numPixelsInFrame : Z) (c : Contribution) : Z :=
  size_t (c_l c + c_ell c * numPixelsInFrame).

(** [recordContributions]: the list is sorted and folded into the
    statistics arrays.  (The source sorts the list in place; both callers
    reset the list right afterwards, so only the arrays are returned.) *)
Definition recordContributions (s : Recorder) (cl : ContributionList)
  : option Recorder :=
  let contributions := sorted_contributions cl in
  wsed <- (if _includeFluxDensity s
           then fold_bins same_ell sed_bin contributions 0%Q (_wsed s)
           else Some (_wsed s)) ;;
  wifu <- (if _includeSurfaceBrightness s
           then fold_bins same_ell_l (ifu_bin (_numPixelsInFrame s))
                          contributions 0%Q (_wifu s)
           else Some (_wifu s)) ;;
  Some (with_arrays s (_sed s) (_ifu s) wsed wifu).

(** [flush]: the dangling contributions of all threads are recorded and
    the lists are reset. *)
Fixpoint flush_lists (s : Recorder) (ls : list (nat * ContributionList))
  : option (Recorder * list (nat * ContributionList)) :=
  match ls with
  | [] => Some (s, [])
  | (t, cl) :: ls' =>
      s1 <- recordContributions s cl ;;
      r <- flush_lists s1 ls' ;;
      Some (fst r, (t, reset 0) :: snd r)
  end.

Definition flush (s : Recorder) : option Recorder :=
  r <- flush_lists s (_contributionLists s) ;;
  Some (with_lists (fst r) (snd r)).

Section Detect.

(** The exponential of the C library. *)
Variable exp : Q -> Q.

(** The recording of one detection in one family of detector arrays, at
    bin [bin] ([ell] for the SEDs, [lell] for the IFUs; the source writes
    the same case analysis out twice). *)
Definition record_flux (s : Recorder) (arrays : list Array)
  (pp : PhotonPacket) (bin : Z) (L Lext : Q) : option (list Array) :=
  a <- (if _recordTotalOnly s then lockfree_add arrays Total bin L
        else if hasPrimaryOrigin pp then
          if numScatt pp =? 0 then
            a <- lockfree_add arrays Transparent bin L ;;
            lockfree_add a PrimaryDirect bin Lext
          else
            a <- lockfree_add arrays PrimaryScattered bin Lext ;;
            if numScatt pp <=? _numScatteringLevels s
            then lockfree_add a (PrimaryScatteredLevel + numScatt pp - 1)
                              bin Lext
            else Some a
        else
          if numScatt pp =? 0
          then lockfree_add arrays SecondaryDirect bin Lext
          else lockfree_add arrays SecondaryScattered bin Lext) ;;
  if _recordPolarization s then
    a <- lockfree_add a TotalQ bin (Lext * stokesQ pp)%Q ;;
    a <- lockfree_add a TotalU bin (Lext * stokesU pp)%Q ;;
    lockfree_add a TotalV bin (Lext * stokesV pp)%Q
  else Some a.

(** [detect], executed by the thread with index [t]. *)
Definition detect (s : Recorder) (t : nat) (pp : PhotonPacket) (l : Z)
  (tau : Q) : option Recorder :=
  let ell := ell (_lambdagrid s) (lambda pp) in
  let L := luminosity pp in
  let Lext := (L * exp (- tau))%Q in
  sed <- (if _includeFluxDensity s
          then record_flux s (_sed s) pp ell L Lext
          else Some (_sed s)) ;;
  ifu <- (if _includeSurfaceBrightness s && (l >=? 0)
          then record_flux s (_ifu s) pp
                           (size_t (l + ell * _numPixelsInFrame s)) L Lext
          else Some (_ifu s)) ;;
  let s1 := with_arrays s sed ifu (_wsed s) (_wifu s) in
  if _recordStatistics s then
    let contributionList := local (_contributionLists s1) t in
    r <- (if negb (hasHistoryIndex contributionList (historyIndex pp))
          then
            s2 <- recordContributions s1 contributionList ;;
            Some (s2, reset (historyIndex pp))
          else Some (s1, contributionList)) ;;
    Some (with_lists (fst r)
            (set_local (_contributionLists (fst r)) t
                       (addContribution (snd r) ell l Lext)))
  else Some s1.

End Detect.

(** *** Channel allocation *)

Lemma channelLength_vresize_nil (n ch : Z) :
  channelLength (vresize [] n) ch = 0.
Proof.
  unfold channelLength, vresize, vget. rewrite firstn_nil. simpl.
  destruct (in_range _ ch); [|reflexivity].
  destruct (nth_error _ (Z.to_nat ch)) eqn:E; [|reflexivity].
  apply nth_error_In, repeat_spec in E. now subst.
Qed.

Lemma length_vresize_nil (n : Z) :
  0 <= n -> Z.of_nat (length (vresize [] n)) = n.
Proof.
  intros H. unfold vresize. rewrite firstn_nil. simpl.
  rewrite repeat_length. lia.
Qed.

Lemma resize_channel_spec (arrays : list Array) (c len : Z) (P : Z -> bool) :
  0 <= c < Z.of_nat (length arrays) -> 0 <= len ->
  (forall ch, channelLength arrays ch = if P ch then len else 0) ->
  exists a',
    resize_channel arrays c len = Some a' /\
    length a' = length arrays /\
    forall ch, channelLength a' ch = if (ch =? c) || P ch then len else 0.
Proof.
  intros Hc Hl HP. unfold resize_channel.
  destruct (vset_some arrays c (aresize len) Hc) as [a' E].
  exists a'. split; [assumption|].
  apply vset_spec in E. destruct E as (_ & L & G & O).
  split; [assumption|]. intros ch. unfold channelLength.
  destruct (Z.eqb_spec ch c) as [->|Hne]; simpl.
  - rewrite G. unfold aresize. rewrite repeat_length. lia.
  - rewrite O by assumption. apply HP.
Qed.

Lemma if_bool_ext (b c : bool) (len : Z) :
  b = c -> (if b then len else 0) = (if c then len else 0).
Proof. now intros ->. Qed.

Lemma resize_levels_spec (count : nat) :
  forall (arrays : list Array) (i len : Z) (P : Z -> bool),
    0 <= i ->
    PrimaryScatteredLevel + i + Z.of_nat count <= Z.of_nat (length arrays) ->
    0 <= len ->
    (forall ch, channelLength arrays ch = if P ch then len else 0) ->
    exists a',
      resize_levels arrays i count len = Some a' /\
      length a' = length arrays /\
      forall ch, channelLength a' ch
                 = if ((PrimaryScatteredLevel + i <=? ch)
                       && (ch <? PrimaryScatteredLevel + i + Z.of_nat count))
                      || P ch
                   then len else 0.
Proof.
  unfold PrimaryScatteredLevel.
  induction count as [|count IH]; intros arrays i len P Hi Hn Hl HP.
  - exists arrays. split; [reflexivity|]. split; [reflexivity|].
    intros ch. rewrite HP.
    replace ((9 + i <=? ch) && (ch <? 9 + i + Z.of_nat 0)) with false;
      [reflexivity|].
    symmetry. apply andb_false_iff.
    destruct (Z.leb_spec (9 + i) ch); [right; apply Z.ltb_ge; lia | now left].
  - destruct (resize_channel_spec arrays (9 + i) len P) as (a1 & E1 & L1 & C1);
      try assumption; try lia.
    destruct (IH a1 (i + 1) len (fun ch => (ch =? 9 + i) || P ch))
      as (a2 & E2 & L2 & C2); try assumption; try lia.
    exists a2. cbn [resize_levels]. unfold PrimaryScatteredLevel.
    rewrite E1. cbn [obind].
    split; [assumption|]. split; [congruence|].
    intros ch. rewrite C2. apply if_bool_ext.
    apply eq_true_iff_eq.
    rewrite !orb_true_iff, !andb_true_iff, !Z.leb_le, !Z.ltb_lt, Z.eqb_eq.
    intuition lia.
Qed.

Lemma resize_all_levels_nonneg (arrays : list Array) (n len : Z) :
  0 <= n ->
  resize_all_levels arrays n len = resize_levels arrays 0 (Z.to_nat n) len.
Proof.
  intros H. unfold resize_all_levels.
  destruct (Z.ltb_spec n 0); [lia | reflexivity].
Qed.

Lemma resize_all_levels_some (arrays a : list Array) (n len : Z) :
  resize_all_levels arrays n len = Some a ->
  0 <= n /\ resize_levels arrays 0 (Z.to_nat n) len = Some a.
Proof.
  unfold resize_all_levels, obind.
  destruct (Z.ltb_spec n 0); [|now split].
  destruct (resize_levels arrays 0 _ len); discriminate.
Qed.

Ltac resize_step arr c C a E L C' :=
  edestruct (resize_channel_spec arr c) as (a & E & L & C');
  [ | eassumption | exact C | ]; [lia | ].

Ltac resize_first n c len a E L C' :=
  destruct (resize_channel_spec (vresize [] n) c len (fun _ => false))
    as (a & E & L & C');
  [lia | eassumption | intros; apply channelLength_vresize_nil | ].

Lemma allocate_spec (s : Recorder) (len : Z) :
  0 <= _numScatteringLevels s -> 0 <= len ->
  exists a,
    allocate s (negb (_recordComponents s) || negb (_hasMedium s)) [] len
    = Some a /\
    Z.of_nat (length a) = PrimaryScatteredLevel + _numScatteringLevels s /\
    forall ch, channelLength a ch = if channelAllocated s ch then len else 0.
Proof.
  intros HS Hl. unfold allocate, channelAllocated.
  pose proof Hl as Hlen.
  set (n := PrimaryScatteredLevel + _numScatteringLevels s).
  set (rto := negb (_recordComponents s) || negb (_hasMedium s)).
  assert (Hn : Z.of_nat (length (vresize [] n)) = n)
    by (apply length_vresize_nil; unfold n, PrimaryScatteredLevel; lia).
  assert (H0 : forall ch, channelLength (vresize [] n) ch
                          = if (fun _ => false) ch then len else 0)
    by (intros; apply channelLength_vresize_nil).
  assert (Hmain : exists (a : list Array) (P : Z -> bool),
    (if rto then resize_channel (vresize [] n) Total len
     else
       a <- resize_channel (vresize [] n) Transparent len ;;
       a <- resize_channel a PrimaryDirect len ;;
       a <- resize_channel a PrimaryScattered len ;;
       a <- resize_all_levels a (_numScatteringLevels s) len ;;
       if _hasMediumEmission s then
         a <- resize_channel a SecondaryDirect len ;;
         resize_channel a SecondaryScattered len
       else Some a) = Some a /\
    Z.of_nat (length a) = n /\
    (forall ch, channelLength a ch = if P ch then len else 0) /\
    (forall ch, P ch =
       if ch =? Total then rto
       else if (ch =? Transparent) || (ch =? PrimaryDirect)
               || (ch =? PrimaryScattered) then negb rto
       else if (ch =? SecondaryDirect) || (ch =? SecondaryScattered)
       then negb rto && _hasMediumEmission s
       else if (ch =? TotalQ) || (ch =? TotalU) || (ch =? TotalV) then false
       else negb rto && (PrimaryScatteredLevel <=? ch)
            && (ch <? PrimaryScatteredLevel + _numScatteringLevels s))).
  { unfold n, Total, Transparent, PrimaryDirect, PrimaryScattered,
      SecondaryDirect, SecondaryScattered, TotalQ, TotalU, TotalV,
      PrimaryScatteredLevel in *.
    destruct rto.
    - resize_first (9 + _numScatteringLevels s) 0 len a1 E1 L1 C1.
      exists a1, (fun ch => (ch =? 0) || false).
      split; [assumption|]. split; [lia|]. split; [assumption|].
      intros ch.
      repeat match goal with
             | |- context [?a =? ?b] => destruct (Z.eqb_spec a b); try lia
             end; simpl; reflexivity.
    - resize_first (9 + _numScatteringLevels s) 1 len a1 E1 L1 C1.
      resize_step a1 2 C1 a2 E2 L2 C2.
      resize_step a2 3 C2 a3 E3 L3 C3.
      edestruct (resize_levels_spec (Z.to_nat (_numScatteringLevels s)) a3 0)
        as (a4 & E4 & L4 & C4);
        [ | | exact Hl | exact C3 | ];
        [lia | unfold PrimaryScatteredLevel; lia | ].
      unfold PrimaryScatteredLevel in *.
      rewrite E1; cbn [obind]. rewrite E2; cbn [obind]. rewrite E3; cbn [obind].
      rewrite resize_all_levels_nonneg by exact HS.
      rewrite E4; cbn [obind].
      destruct (_hasMediumEmission s).
      + resize_step a4 4 C4 a5 E5 L5 C5.
        resize_step a5 5 C5 a6 E6 L6 C6.
        rewrite E5; cbn [obind].
        eexists a6, _. split; [eassumption|]. split; [lia|].
        split; [exact C6|].
        intros ch. rewrite Z2Nat.id by lia.
        repeat match goal with
               | |- context [?a =? ?b] => destruct (Z.eqb_spec a b); try lia
               end; simpl; try reflexivity;
        destruct (Z.leb_spec 9 ch); simpl; try lia; try reflexivity.
        all: destruct (Z.leb_spec (9 + 0) ch); simpl; try lia; try reflexivity.
        all: rewrite ?orb_false_r; f_equal; lia.
      + eexists a4, _. split; [reflexivity|]. split; [lia|].
        split; [exact C4|].
        intros ch. rewrite Z2Nat.id by lia.
        repeat match goal with
               | |- context [?a =? ?b] => destruct (Z.eqb_spec a b); try lia
               end; simpl; try reflexivity;
        destruct (Z.leb_spec 9 ch); simpl; try lia; try reflexivity.
        all: destruct (Z.leb_spec (9 + 0) ch); simpl; try lia; try reflexivity.
        all: rewrite ?orb_false_r; f_equal; lia. }
  destruct Hmain as (a & P & Ea & La & Ca & HP).
  rewrite Ea. cbn [obind].
  unfold n, Total, Transparent, PrimaryDirect, PrimaryScattered,
    SecondaryDirect, SecondaryScattered, TotalQ, TotalU, TotalV,
    PrimaryScatteredLevel in *.
  destruct (_recordPolarization s).
  - resize_step a 6 Ca a1 E1 L1 C1.
    resize_step a1 7 C1 a2 E2 L2 C2.
    resize_step a2 8 C2 a3 E3 L3 C3.
    rewrite E1; cbn [obind]. rewrite E2; cbn [obind].
    exists a3. split; [assumption|]. split; [lia|].
    intros ch. rewrite C3. apply if_bool_ext. rewrite HP.
    repeat match goal with
           | |- context [?a =? ?b] => destruct (Z.eqb_spec a b); try lia
           end; simpl; reflexivity.
  - exists a. split; [reflexivity|]. split; [lia|].
    intros ch. rewrite Ca. apply if_bool_ext. rewrite HP.
    repeat match goal with
           | |- context [?a =? ?b] => destruct (Z.eqb_spec a b); try lia
           end; simpl; reflexivity.
Qed.

(** With components recorded, a negative number of scattering levels makes
    the allocation undefined. *)
Lemma allocate_negative_levels (s : Recorder) (arrays : list Array) (len : Z) :
  _numScatteringLevels s < 0 -> allocate s false arrays len = None.
Proof.
  intros H. unfold allocate, obind.
  destruct (resize_channel _ Transparent len); [|reflexivity].
  destruct (resize_channel _ PrimaryDirect len); [|reflexivity].
  destruct (resize_channel _ PrimaryScattered len) as [a|]; [|reflexivity].
  unfold resize_all_levels, obind.
  destruct (Z.ltb_spec (_numScatteringLevels s) 0); [|lia].
  destruct (resize_levels a 0 _ len); reflexivity.
Qed.

(** Without arrays, which is the case for
    [PrimaryScatteredLevel + _numScatteringLevels <= 0], the allocation is
    undefined. *)
Lemma allocate_no_arrays (s : Recorder) (recordTotalOnly : bool)
  (arrays : list Array) (len : Z) :
  PrimaryScatteredLevel + _numScatteringLevels s <= 0 ->
  allocate s recordTotalOnly arrays len = None.
Proof.
  intros H. unfold allocate, vresize.
  replace (Z.to_nat (PrimaryScatteredLevel + _numScatteringLevels s))
    with 0%nat by lia.
  cbn [firstn Nat.sub repeat app].
  destruct recordTotalOnly; reflexivity.
Qed.

Lemma int_of_small (x : Z) : - 2 ^ 31 <= x <= INT_MAX -> int_of x = x.
Proof.
  unfold int_of, INT_MAX. intros H. rewrite Z.mod_small by lia. lia.
Qed.

(** For a number of wavelengths and a number of pixels that an [int]
    holds, the values that [finalizeConfiguration] computes are the product
    [Nx * Ny] and the lengths [lenSED] and [lenIFU]. *)
Lemma finalizeConfiguration_in_range (s : Recorder) :
  0 <= numWavelengths (_lambdagrid s) <= INT_MAX ->
  0 <= _numPixelsX s * _numPixelsY s <= INT_MAX ->
  finalizeConfiguration s
  = (let recordTotalOnly := negb (_recordComponents s) || negb (_hasMedium s) in
     sed <- allocate s recordTotalOnly (_sed s) (lenSED s) ;;
     ifu <- allocate s recordTotalOnly (_ifu s) (lenIFU s) ;;
     Some (mkRecorder (_lambdagrid s) (_hasMedium s) (_hasMediumEmission s)
             (_recordComponents s) (_numScatteringLevels s)
             (_recordPolarization s) (_recordStatistics s)
             (_includeFluxDensity s) (_includeSurfaceBrightness s)
             (_numPixelsX s) (_numPixelsY s) recordTotalOnly
             (_numPixelsX s * _numPixelsY s)
             sed ifu
             (allocate_statistics s (_wsed s) (lenSED s))
             (allocate_statistics s (_wifu s) (lenIFU s))
             (_contributionLists s))).
Proof.
  intros HN HP. unfold finalizeConfiguration, lenSED, lenIFU.
  assert (Ep : size_t (int_of (_numPixelsX s * _numPixelsY s))
               = _numPixelsX s * _numPixelsY s).
  { rewrite int_of_small by (unfold INT_MAX in *; lia).
    apply Parallel.size_t_small. unfold SIZE_MOD, INT_MAX in *. lia. }
  assert (En : size_t (numWavelengths (_lambdagrid s))
               = numWavelengths (_lambdagrid s)).
  { apply Parallel.size_t_small. unfold SIZE_MOD, INT_MAX in *. lia. }
  assert (Ei : size_t (_numPixelsX s * _numPixelsY s
                       * numWavelengths (_lambdagrid s))
               = _numPixelsX s * _numPixelsY s * numWavelengths (_lambdagrid s)).
  { apply Parallel.size_t_small. unfold SIZE_MOD, INT_MAX in *. nia. }
  rewrite Ep, En, Ei. reflexivity.
Qed.

(** A frame of more pixels than an [int] holds: for 65536 x 65536 pixels
    the product of the two [int]s is 0, so that the arrays of the frame get
    no elements. *)
Lemma finalizeConfiguration_frame_beyond_int :
  let s0 := configured (mkWavelengthGrid 3 (fun _ => 0))
                       false false false 0 false false false true 65536 65536 in
  exists s,
    finalizeConfiguration s0 = Some s /\
    _numPixelsInFrame s = 0 /\ channelLength (_ifu s) Total = 0.
Proof.
  eexists. split; [reflexivity|]. split; reflexivity.
Qed.




Lemma finalizeConfiguration_sed_ready (s0 s : Recorder) :
  _sed s0 = [] -> _ifu s0 = [] ->
  0 <= _numScatteringLevels s0 ->
  0 <= numWavelengths (_lambdagrid s0) <= INT_MAX ->
  0 <= _numPixelsX s0 * _numPixelsY s0 <= INT_MAX ->
  finalizeConfiguration s0 = Some s -> sed_ready s.
Proof.
  intros Hsed Hifu HS HN HP E.
  assert (H1 : 0 <= lenSED s0) by (unfold lenSED; destruct _includeFluxDensity; lia).
  assert (H2 : 0 <= lenIFU s0)
    by (unfold lenIFU; destruct _includeSurfaceBrightness; nia).
  destruct (allocate_spec s0 (lenSED s0) HS H1) as (sed & Es & _ & Cs).
  destruct (allocate_spec s0 (lenIFU s0) HS H2) as (ifu & Ei & _).
  rewrite (finalizeConfiguration_in_range s0 HN HP) in E. cbv zeta in E.
  rewrite Hsed, Hifu in E.
  rewrite Es in E. cbn [obind] in E. rewrite Ei in E. cbn [obind] in E.
  injection E as <-. intros ch. exact (Cs ch).
Qed.

(** *** Detection *)

Ltac pair_neq :=
  let E := fresh "E" in
  intros E; apply (f_equal fst) in E; cbn [fst] in E; lia.

Definition isStokes (ch : Z) : bool := (TotalQ <=? ch) && (ch <=? TotalV).

Lemma polarization_keeps_other_channels (a0 a3 : list Array) (bin : Z)
  (q u v : Q) :
  (a <- lockfree_add a0 TotalQ bin q ;;
   a <- lockfree_add a TotalU bin u ;;
   lockfree_add a TotalV bin v) = Some a3 ->
  forall ch i, isStokes ch = false -> cell a3 ch i = cell a0 ch i.
Proof.
  unfold obind. intros H ch i Hch.
  destruct (lockfree_add a0 TotalQ bin q) as [a1|] eqn:E1; [|discriminate].
  destruct (lockfree_add a1 TotalU bin u) as [a2|] eqn:E2; [|discriminate].
  apply lockfree_add_spec in E1, E2, H.
  destruct E1 as (_ & _ & _ & O1 & _), E2 as (_ & _ & _ & O2 & _),
           H as (_ & _ & _ & O3 & _).
  unfold isStokes, TotalQ, TotalU, TotalV in *.
  assert (ch < 6 \/ 8 < ch) as Hr.
  { destruct (Z.leb_spec 6 ch), (Z.leb_spec ch 8); simpl in Hch;
      try discriminate; lia. }
  rewrite O3, O2, O1; try reflexivity; pair_neq.
Qed.

(** What [record_flux] does with a packet of primary origin when the
    components are recorded. *)
Lemma record_flux_primary (s : Recorder) (arrays arrays' : list Array)
  (pp : PhotonPacket) (bin : Z) (L Lext : Q) :
  _recordTotalOnly s = false -> hasPrimaryOrigin pp = true ->
  0 <= numScatt pp ->
  record_flux s arrays pp bin L Lext = Some arrays' ->
  (numScatt pp = 0 ->
   cell arrays' Transparent bin = (cell arrays Transparent bin + L)%Q /\
   cell arrays' PrimaryDirect bin = (cell arrays PrimaryDirect bin + Lext)%Q /\
   forall ch i, isStokes ch = false ->
                (ch, i) <> (Transparent, bin) ->
                (ch, i) <> (PrimaryDirect, bin) ->
                cell arrays' ch i = cell arrays ch i) /\
  (1 <= numScatt pp ->
   cell arrays' PrimaryScattered bin
   = (cell arrays PrimaryScattered bin + Lext)%Q /\
   (numScatt pp <= _numScatteringLevels s ->
    cell arrays' (PrimaryScatteredLevel + numScatt pp - 1) bin
    = (cell arrays (PrimaryScatteredLevel + numScatt pp - 1) bin + Lext)%Q) /\
   forall ch i, isStokes ch = false ->
                (ch, i) <> (PrimaryScattered, bin) ->
                ~ (numScatt pp <= _numScatteringLevels s /\
                   (ch, i) = (PrimaryScatteredLevel + numScatt pp - 1, bin)) ->
                cell arrays' ch i = cell arrays ch i).
Proof.
  intros Hrto Hprim Hn. unfold record_flux. rewrite Hrto, Hprim.
  set (pol := fun a : list Array =>
    if _recordPolarization s
    then a <- lockfree_add a TotalQ bin (Lext * stokesQ pp)%Q ;;
         a <- lockfree_add a TotalU bin (Lext * stokesU pp)%Q ;;
         lockfree_add a TotalV bin (Lext * stokesV pp)%Q
    else Some a).
  assert (Hpol : forall a a', pol a = Some a' ->
            forall ch i, isStokes ch = false -> cell a' ch i = cell a ch i).
  { intros a a' H ch i Hch. unfold pol in H.
    destruct (_recordPolarization s).
    - now apply (polarization_keeps_other_channels a a' bin _ _ _ H).
    - now injection H as <-. }
  unfold Transparent, PrimaryDirect, PrimaryScattered, PrimaryScatteredLevel.
  destruct (Z.eqb_spec (numScatt pp) 0) as [E0|E0]; unfold obind at 1; intros H.
  - split; [intros _|lia].
    unfold obind in H.
    destruct (lockfree_add arrays 1 bin L) as [a1|] eqn:E1; [|discriminate].
    destruct (lockfree_add a1 2 bin Lext) as [a2|] eqn:E2; [|discriminate].
    apply lockfree_add_spec in E1, E2.
    destruct E1 as (_ & _ & V1 & O1 & _), E2 as (_ & _ & V2 & O2 & _).
    pose proof (Hpol a2 arrays' H) as P.
    split; [|split].
    + rewrite P by reflexivity. rewrite O2 by congruence. exact V1.
    + rewrite P by reflexivity. rewrite V2. now rewrite O1 by congruence.
    + intros ch i Hs N1 N2. rewrite P by assumption.
      rewrite O2 by assumption. now apply O1.
  - split; [lia|intros _].
    unfold obind in H.
    destruct (lockfree_add arrays 3 bin Lext) as [a1|] eqn:E1; [|discriminate].
    apply lockfree_add_spec in E1. destruct E1 as (_ & _ & V1 & O1 & _).
    destruct (Z.leb_spec (numScatt pp) (_numScatteringLevels s)) as [Hle|Hgt].
    + destruct (lockfree_add a1 (9 + numScatt pp - 1) bin Lext) as [a2|] eqn:E2;
        [|discriminate].
      apply lockfree_add_spec in E2. destruct E2 as (_ & _ & V2 & O2 & _).
      pose proof (Hpol a2 arrays' H) as P.
      split; [|split].
      * rewrite P by reflexivity. rewrite O2; [exact V1|].
        pair_neq.
      * intros _. rewrite P.
        -- rewrite V2. rewrite O1; [reflexivity|]. pair_neq.
        -- unfold isStokes, TotalQ, TotalV. apply andb_false_iff. right.
           apply Z.leb_gt. lia.
      * intros ch i Hs N1 N2. rewrite P by assumption.
        rewrite O2; [now apply O1|]. intros E. apply N2. now split.
    + pose proof (Hpol a1 arrays' H) as P.
      split; [|split].
      * rewrite P by reflexivity. exact V1.
      * lia.
      * intros ch i Hs N1 N2. rewrite P by assumption. now apply O1.
Qed.

Lemma recordContributions_keeps_flux (s s' : Recorder) (cl : ContributionList) :
  recordContributions s cl = Some s' ->
  _sed s' = _sed s /\ _ifu s' = _ifu s /\
  _contributionLists s' = _contributionLists s.
Proof.
  unfold recordContributions, obind. intros H.
  destruct (if _includeFluxDensity s then _ else _); [|discriminate].
  destruct (if _includeSurfaceBrightness s then _ else _); [|discriminate].
  injection H as <-. repeat split.
Qed.

Lemma detect_sed (exp : Q -> Q) (s s' : Recorder) (t : nat)
  (pp : PhotonPacket) (l : Z) (tau : Q) :
  detect exp s t pp l tau = Some s' ->
  (if _includeFluxDensity s
   then record_flux s (_sed s) pp (ell (_lambdagrid s) (lambda pp))
                    (luminosity pp) (luminosity pp * exp (- tau))%Q
   else Some (_sed s)) = Some (_sed s').
Proof.
  unfold detect. intros H.
  destruct (if _includeFluxDensity s then _ else _) as [sed|]; [|discriminate].
  cbn [obind] in H.
  destruct (if _includeSurfaceBrightness s && (l >=? 0) then _ else _)
    as [ifu|]; [|discriminate].
  cbn [obind] in H. f_equal.
  destruct (_recordStatistics s); [|now injection H as <-].
  destruct (negb _) in H.
  - destruct (recordContributions _ _) as [s2|] eqn:E2 in H; [|discriminate].
    cbn [obind fst snd] in H. injection H as <-.
    apply recordContributions_keeps_flux in E2. cbn in *. symmetry. apply E2.
  - cbn [obind fst snd] in H. now injection H as <-.
Qed.

Lemma allocated_components (s : Recorder) :
  negb (_recordComponents s) || negb (_hasMedium s) = false ->
  channelAllocated s Transparent = true /\
  channelAllocated s PrimaryDirect = true /\
  channelAllocated s PrimaryScattered = true /\
  (forall n, 1 <= n <= _numScatteringLevels s ->
             channelAllocated s (PrimaryScatteredLevel + n - 1) = true).
Proof.
  intros H. unfold channelAllocated. rewrite H.
  repeat split. intros n Hn.
  unfold Total, Transparent, PrimaryDirect, PrimaryScattered, SecondaryDirect,
    SecondaryScattered, TotalQ, TotalU, TotalV, PrimaryScatteredLevel.
  repeat match goal with
         | |- context [?a =? ?b] => destruct (Z.eqb_spec a b); try lia
         end.
  cbn [orb negb andb].
  destruct (Z.leb_spec 9 (9 + n - 1)); [|lia].
  destruct (Z.ltb_spec (9 + n - 1) (9 + _numScatteringLevels s)); [|lia].
  reflexivity.
Qed.

Lemma allocated_stokes (s : Recorder) :
  channelAllocated s TotalQ = _recordPolarization s /\
  channelAllocated s TotalU = _recordPolarization s /\
  channelAllocated s TotalV = _recordPolarization s.
Proof. repeat split. Qed.

Ltac add_step E a :=
  match goal with
  | |- context [lockfree_add ?arr ?ch ?bin ?v] =>
      let Hs := fresh "Hs" in
      destruct (lockfree_add_some arr ch bin v) as [a E];
      [ | rewrite E; cbn [obind];
          pose proof (lockfree_add_spec _ _ _ _ _ E) as (_ & _ & _ & _ & Hs) ]
  end.

(** With the arrays of a family as [finalizeConfiguration] leaves them, the
    recording of a packet of primary origin at a bin of the family stays
    within the arrays. *)
Lemma record_flux_primary_defined (s : Recorder) (arrays : list Array)
  (pp : PhotonPacket) (bin len : Z) (L Lext : Q) :
  (forall ch, channelLength arrays ch
              = if channelAllocated s ch then len else 0) ->
  negb (_recordComponents s) || negb (_hasMedium s) = false ->
  _recordTotalOnly s = false -> hasPrimaryOrigin pp = true ->
  0 <= numScatt pp -> 0 <= bin < len ->
  exists arrays', record_flux s arrays pp bin L Lext = Some arrays'.
Proof.
  intros Hshape Hflag Hrto Hprim Hn Hbin.
  destruct (allocated_components s Hflag) as (A1 & A2 & A3 & A4).
  destruct (allocated_stokes s) as (B1 & B2 & B3).
  unfold record_flux. rewrite Hrto, Hprim.
  assert (Hpol : forall a, (forall ch, channelLength a ch = channelLength arrays ch) ->
    exists a', (if _recordPolarization s
                then a <- lockfree_add a TotalQ bin (Lext * stokesQ pp)%Q ;;
                     a <- lockfree_add a TotalU bin (Lext * stokesU pp)%Q ;;
                     lockfree_add a TotalV bin (Lext * stokesV pp)%Q
                else Some a) = Some a').
  { intros a Ha. destruct (_recordPolarization s) eqn:Ep;
      [|eexists; reflexivity].
    add_step E1 a1; [rewrite Ha, Hshape, B1; lia|].
    add_step E2 a2; [rewrite Hs, Ha, Hshape, B2; lia|].
    apply lockfree_add_some. rewrite Hs0, Hs, Ha, Hshape, B3. lia. }
  destruct (Z.eqb_spec (numScatt pp) 0) as [E0|E0].
  - add_step E1 a1; [rewrite Hshape, A1; lia|].
    add_step E2 a2; [rewrite Hs, Hshape, A2; lia|].
    apply Hpol. intros ch. now rewrite Hs0, Hs.
  - add_step E1 a1; [rewrite Hshape, A3; lia|].
    destruct (Z.leb_spec (numScatt pp) (_numScatteringLevels s)) as [Hle|Hgt].
    + add_step E2 a2; [rewrite Hs, Hshape, A4; lia|].
      apply Hpol. intros ch. now rewrite Hs0, Hs.
    + cbn [obind]. apply Hpol. intros ch. now rewrite Hs.
Qed.

(** C5: a detection of a packet of primary origin, with the SED output
    enabled and the components recorded ([recordTotalOnly] false).  With
    [L] the luminosity, [Lext = L * exp(-tau)], [n] the scatter count and
    [ell] the wavelength bin: when [n = 0], [L] is added to
    SED[Transparent][ell] and [Lext] to SED[PrimaryDirect][ell]; when
    [n >= 1], [Lext] is added to SED[PrimaryScattered][ell] and, exactly
    when [n <= S], to SED[PrimaryScatteredLevel + n - 1][ell]; every other
    element of a channel that is not a Stokes channel keeps its value.
    The detection stays within the SED arrays that [finalizeConfiguration]
    allocated whenever [ell] is a bin of the wavelength grid. *)
Theorem detect_primary_records_sed (exp : Q -> Q) (s : Recorder) (t : nat)
  (pp : PhotonPacket) (l : Z) (tau : Q) :
  _includeFluxDensity s = true ->
  _recordTotalOnly s = false ->
  hasPrimaryOrigin pp = true ->
  0 <= numScatt pp ->
  let bin := ell (_lambdagrid s) (lambda pp) in
  let L := luminosity pp in
  let Lext := (L * exp (- tau))%Q in
  let n := numScatt pp in
  (forall s', detect exp s t pp l tau = Some s' ->
     (n = 0 ->
      cell (_sed s') Transparent bin = (cell (_sed s) Transparent bin + L)%Q /\
      cell (_sed s') PrimaryDirect bin
      = (cell (_sed s) PrimaryDirect bin + Lext)%Q /\
      forall ch i, isStokes ch = false ->
                   (ch, i) <> (Transparent, bin) ->
                   (ch, i) <> (PrimaryDirect, bin) ->
                   cell (_sed s') ch i = cell (_sed s) ch i) /\
     (1 <= n ->
      cell (_sed s') PrimaryScattered bin
      = (cell (_sed s) PrimaryScattered bin + Lext)%Q /\
      (n <= _numScatteringLevels s ->
       cell (_sed s') (PrimaryScatteredLevel + n - 1) bin
       = (cell (_sed s) (PrimaryScatteredLevel + n - 1) bin + Lext)%Q) /\
      forall ch i, isStokes ch = false ->
                   (ch, i) <> (PrimaryScattered, bin) ->
                   ~ (n <= _numScatteringLevels s /\
                      (ch, i) = (PrimaryScatteredLevel + n - 1, bin)) ->
                   cell (_sed s') ch i = cell (_sed s) ch i)) /\
  (sed_ready s ->
   negb (_recordComponents s) || negb (_hasMedium s) = false ->
   0 <= bin < numWavelengths (_lambdagrid s) ->
   _includeSurfaceBrightness s = false -> _recordStatistics s = false ->
   exists s', detect exp s t pp l tau = Some s').
Proof.
  intros Hfd Hrto Hprim Hn bin L Lext n. split.
  - intros s' H. apply detect_sed in H. rewrite Hfd in H.
    now apply (record_flux_primary s (_sed s) (_sed s') pp bin L Lext).
  - intros Hready Hflag Hbin Hsb Hst.
    unfold sed_ready, lenSED in Hready. rewrite Hfd in Hready.
    destruct (record_flux_primary_defined s (_sed s) pp bin _ L Lext
                Hready Hflag Hrto Hprim Hn Hbin) as [sed E].
    unfold detect. rewrite Hfd, Hsb, Hst. fold bin. fold L. fold Lext.
    rewrite E. cbn [obind andb]. eexists; reflexivity.
Qed.

(** *** Examples used to exercise the statements *)

(** A stand-in for the exponential (its Taylor polynomial of degree 2). *)
Definition exp_poly (x : Q) : Q := (1 + x + x * x / 2)%Q.

(** A grid of four wavelength bins; the bin of a wavelength is its integer
    part. *)
Definition grid4 : WavelengthGrid := mkWavelengthGrid 4 Qfloor.

Definition finalized (s0 : Recorder) : Recorder :=
  match finalizeConfiguration s0 with
  | Some s => s
  | None => s0
  end.

(** Components and two scattering levels, SED only. *)
Definition sed_recorder : Recorder :=
  finalized (configured grid4 true false true 2 true false true false 0 0).

(** Components, statistics, SED and a frame of 2 x 2 pixels. *)
Definition full_recorder : Recorder :=
  finalized (configured grid4 true false true 2 false true true true 2 2).

(** Statistics and a frame of a single pixel, no SED. *)
Definition pixel_recorder : Recorder :=
  finalized (configured grid4 false false false 0 false true false true 1 1).

Definition packet (lam : Q) (n : Z) (L : Q) (history : Z) : PhotonPacket :=
  mkPhotonPacket lam n L true 0 0 0 history.

Lemma detect_primary_records_sed_witness :
  exists s',
    detect exp_poly sed_recorder 0 (packet 1 2 (3 # 1) 7) 0 0 = Some s' /\
    cell (_sed s') PrimaryScattered 1
    = (cell (_sed sed_recorder) PrimaryScattered 1 + 3 * exp_poly (- 0))%Q /\
    cell (_sed s') (PrimaryScatteredLevel + 2 - 1) 1
    = (cell (_sed sed_recorder) (PrimaryScatteredLevel + 2 - 1) 1
       + 3 * exp_poly (- 0))%Q.
Proof.
  destruct (detect_primary_records_sed exp_poly sed_recorder 0
              (packet 1 2 (3 # 1) 7) 0 0 eq_refl eq_refl eq_refl
              ltac:(simpl; lia)) as [Heff Hdef].
  destruct Hdef as [s' E]; try reflexivity.
  - apply (finalizeConfiguration_sed_ready
             (configured grid4 true false true 2 true false true false 0 0));
      try reflexivity; vm_compute; first [discriminate | split; discriminate].
  - vm_compute. split; [discriminate | reflexivity].
  - exists s'. split; [exact E|].
    destruct (Heff s' E) as [_ H1]. destruct H1 as (A & B & _);
      [simpl; lia|].
    split; [exact A | apply B; simpl; lia].
Defined.

(** *** Flushing *)

Lemma with_lists_same (s : Recorder) : with_lists s (_contributionLists s) = s.
Proof. now destruct s. Qed.

Lemma recordContributions_empty (s : Recorder) (historyIndex : Z) :
  recordContributions s (reset historyIndex) = Some s.
Proof.
  unfold recordContributions, sorted_contributions. simpl.
  destruct (_includeFluxDensity s), (_includeSurfaceBrightness s); simpl;
    now destruct s.
Qed.

Lemma flush_lists_resets (ls : list (nat * ContributionList)) :
  forall s s' ls',
    flush_lists s ls = Some (s', ls') ->
    ls' = map (fun p => (fst p, reset 0)) ls /\
    _contributionLists s' = _contributionLists s.
Proof.
  induction ls as [|[t cl] ls IH]; intros s s' ls' H; simpl in H.
  - injection H as <- <-. now split.
  - unfold obind in H.
    destruct (recordContributions s cl) as [s1|] eqn:E1; [|discriminate].
    destruct (flush_lists s1 ls) as [[s2 ls2]|] eqn:E2; [|discriminate].
    simpl in H. injection H as <- <-.
    destruct (IH _ _ _ E2) as [-> Hl].
    apply recordContributions_keeps_flux in E1.
    split; [reflexivity|]. rewrite Hl. apply E1.
Qed.

Lemma flush_lists_of_reset (ls : list (nat * ContributionList)) (s : Recorder) :
  flush_lists s (map (fun p => (fst p, reset 0)) ls)
  = Some (s, map (fun p => (fst p, reset 0)) ls).
Proof.
  induction ls as [|[t cl] ls IH]; simpl; [reflexivity|].
  rewrite recordContributions_empty. cbn [obind]. rewrite IH. reflexivity.
Qed.

(** C9: [flush] is idempotent: when a flush has folded and reset the
    contribution lists of all threads, a second flush changes nothing at
    all, so every SED, IFU and moment array keeps its value. *)
Theorem flush_idempotent (s s1 : Recorder) :
  flush s = Some s1 -> flush s1 = Some s1.
Proof.
  unfold flush. intros H. unfold obind in H.
  destruct (flush_lists s (_contributionLists s)) as [[s' ls']|] eqn:E;
    [|discriminate].
  simpl in H. injection H as <-.
  destruct (flush_lists_resets _ _ _ _ E) as [-> _].
  simpl _contributionLists.
  replace (flush_lists _ _)
    with (Some (with_lists s' (map (fun p => (fst p, reset 0))
                                   (_contributionLists s)),
                map (fun p : nat * ContributionList => (fst p, reset 0))
                    (_contributionLists s))).
  - simpl. f_equal.
  - symmetry. apply flush_lists_of_reset.
Qed.

(** Two detections of one history by thread 0 and one by thread 1, all in
    the frame. *)
Definition after_three_detections : option Recorder :=
  s1 <- detect exp_poly full_recorder 0 (packet 3 0 2 5) 3 0 ;;
  s2 <- detect exp_poly s1 0 (packet 3 1 2 5) 3 0 ;;
  detect exp_poly s2 1 (packet 1 0 1 6) 0 0.

Lemma flush_idempotent_witness :
  exists s s1,
    after_three_detections = Some s /\
    _contributionLists s <> map (fun p => (fst p, reset 0)) (_contributionLists s) /\
    flush s = Some s1 /\ flush s1 = Some s1.
Proof.
  destruct after_three_detections as [s|] eqn:Es; [|vm_compute in Es; discriminate].
  destruct (flush s) as [s1|] eqn:E1.
  - exists s, s1. split; [reflexivity|]. split.
    + vm_compute in Es. injection Es as <-. vm_compute. discriminate.
    + split; [exact E1|]. exact (flush_idempotent s s1 E1).
  - vm_compute in Es. injection Es as <-. vm_compute in E1. discriminate.
Defined.

(** *** Contributions of packets that miss the frame *)

Lemma local_set_local (ls : list (nat * ContributionList)) (t : nat)
  (cl : ContributionList) : local (set_local ls t cl) t = cl.
Proof.
  induction ls as [|[u cl'] ls IH]; simpl.
  - now rewrite Nat.eqb_refl.
  - destruct (Nat.eqb t u) eqn:E; simpl; rewrite E; [reflexivity | exact IH].
Qed.

Lemma detect_appends (exp : Q -> Q) (s s' : Recorder) (t : nat)
  (pp : PhotonPacket) (l : Z) (tau : Q) :
  _recordStatistics s = true ->
  detect exp s t pp l tau = Some s' ->
  exists hist before,
    local (_contributionLists s') t
    = mkContributionList hist
        (before ++ [mkContribution (ell (_lambdagrid s) (lambda pp)) l
                                   (luminosity pp * exp (- tau))%Q]).
Proof.
  intros Hst H. unfold detect in H. rewrite Hst in H. unfold obind in H.
  destruct (if _includeFluxDensity s then _ else _) as [sed|]; [|discriminate].
  destruct (if _includeSurfaceBrightness s && (l >=? 0) then _ else _)
    as [ifu|]; [|discriminate].
  destruct (if negb _ then _ else _) as [[s2 cl]|]; [|discriminate].
  injection H as <-. cbn [fst snd _contributionLists with_lists].
  rewrite local_set_local. unfold addContribution.
  eexists _, _. reflexivity.
Qed.

Lemma fold_out_of_bounds (s : Recorder) (hist : Z) (c : Contribution) :
  _includeSurfaceBrightness s = true ->
  0 <= _numPixelsInFrame s ->
  - 2 ^ 63 <= c_l c < 0 -> 0 <= c_ell c ->
  c_ell c * _numPixelsInFrame s < - c_l c ->
  (forall k, channelLength (_wifu s) k <= 2 ^ 63) ->
  ifu_bin (_numPixelsInFrame s) c
  = 2 ^ 64 + (c_l c + c_ell c * _numPixelsInFrame s) /\
  recordContributions s (mkContributionList hist [c]) = None.
Proof.
  intros Hsb Hn Hl He Hlt Hlen.
  assert (Hb : ifu_bin (_numPixelsInFrame s) c
               = 2 ^ 64 + (c_l c + c_ell c * _numPixelsInFrame s)).
  { unfold ifu_bin, size_t, SIZE_MOD.
    assert (0 <= c_ell c * _numPixelsInFrame s) by nia.
    assert (E63 : 2 ^ 63 = 9223372036854775808) by reflexivity.
    assert (E64 : 2 ^ 64 = 18446744073709551616) by reflexivity.
    rewrite E63 in *. rewrite E64.
    symmetry. apply Z.mod_unique with (q := -1); lia. }
  split; [exact Hb|].
  unfold recordContributions, sorted_contributions. cbn [_contributions].
  cbn [sort_by fold_right insert_by]. rewrite Hsb.
  destruct (if _includeFluxDensity s then _ else _); [|reflexivity].
  cbn [obind fold_bins numStatMoments add_moments].
  rewrite lockfree_add_none; [reflexivity|].
  rewrite Hb. specialize (Hlen 0).
  assert (0 <= c_ell c * _numPixelsInFrame s) by nia.
  assert (E63 : 2 ^ 63 = 9223372036854775808) by reflexivity.
  assert (E64 : 2 ^ 64 = 18446744073709551616) by reflexivity.
  rewrite E63 in *. rewrite E64. lia.
Qed.

(** C10, as stated, fails at the boundary [ell * Nx * Ny = |l|]: with a
    frame of a single pixel, a packet in wavelength bin 1 that misses the
    frame ([l = -1]) is folded at index [-1 + 1 * 1 = 0], which is not
    negative; the fold stays within the moment arrays and adds the
    contribution to the bin of wavelength 0. *)
Lemma missed_packet_folded_in_bounds :
  exists s1 s2,
    detect exp_poly pixel_recorder 0 (packet 1 0 1 6) (-1) 0 = Some s1 /\
    1 * (_numPixelsX pixel_recorder * _numPixelsY pixel_recorder) <= Z.abs (-1) /\
    ifu_bin (_numPixelsInFrame s1) (mkContribution 1 (-1) 1) = 0 /\
    flush s1 = Some s2 /\
    cell (_wifu pixel_recorder) 0 0 = 0%Q /\
    cell (_wifu s2) 0 0 = (2 # 2)%Q.
Proof.
  eexists. eexists. split; [vm_compute; reflexivity|].
  split; [vm_compute; discriminate|].
  split; [reflexivity|].
  split; [vm_compute; reflexivity|].
  split; reflexivity.
Qed.

(** C10, amended: when statistics are recorded, [detect] appends the
    contribution [(ell, l, Lext)] to the list of the calling thread for
    every [l], also for [l < 0]; the fold of a contribution indexes the IFU
    moment arrays at [l + ell * Nx * Ny], computed on [size_t], without a
    guard on [l]; whenever [l < 0] and [ell * Nx * Ny < |l|] that index is
    the negative number wrapped around, it lies beyond every moment array
    and the write is out of bounds; and this happens: after a detection
    with [l = -1] in wavelength bin 0, [flush] runs into it. *)
Theorem missed_packet_folded_out_of_bounds (exp : Q -> Q) :
  (forall s t pp l tau s',
      _recordStatistics s = true ->
      detect exp s t pp l tau = Some s' ->
      exists hist before,
        local (_contributionLists s') t
        = mkContributionList hist
            (before ++ [mkContribution (ell (_lambdagrid s) (lambda pp)) l
                                       (luminosity pp * exp (- tau))%Q])) /\
  (forall s hist c,
      _includeSurfaceBrightness s = true ->
      0 <= _numPixelsInFrame s ->
      - 2 ^ 63 <= c_l c < 0 -> 0 <= c_ell c ->
      c_ell c * _numPixelsInFrame s < - c_l c ->
      (forall k, channelLength (_wifu s) k <= 2 ^ 63) ->
      ifu_bin (_numPixelsInFrame s) c
      = 2 ^ 64 + (c_l c + c_ell c * _numPixelsInFrame s) /\
      recordContributions s (mkContributionList hist [c]) = None) /\
  (exists s1,
      _recordStatistics full_recorder = true /\
      _includeSurfaceBrightness full_recorder = true /\
      detect exp full_recorder 0 (packet 0 0 1 6) (-1) 0 = Some s1 /\
      flush s1 = None).
Proof.
  split; [|split].
  - intros s t pp l tau s'. apply detect_appends.
  - intros s hist c. apply fold_out_of_bounds.
  - eexists. split; [reflexivity|]. split; [reflexivity|].
    split; [vm_compute; reflexivity|]. vm_compute. reflexivity.
Qed.

(** The moment arrays of the example recorder are far shorter than the
    range of a signed index. *)
Lemma full_recorder_moments_small (k : Z) :
  channelLength (_wifu full_recorder) k <= 2 ^ 63.
Proof.
  assert (Hl : length (_wifu full_recorder) = 4%nat) by (vm_compute; reflexivity).
  unfold channelLength, vget, in_range. rewrite Hl.
  destruct ((0 <=? k) && _) eqn:Ek; [|discriminate].
  apply andb_true_iff in Ek. rewrite Z.leb_le, Z.ltb_lt in Ek.
  assert (k = 0 \/ k = 1 \/ k = 2 \/ k = 3) as [->|[->|[->| ->]]] by lia;
    vm_compute; discriminate.
Qed.

Lemma missed_packet_folded_out_of_bounds_witness :
  recordContributions full_recorder
    (mkContributionList 6 [mkContribution 0 (-1) 1]) = None.
Proof.
  destruct (missed_packet_folded_out_of_bounds exp_poly) as (_ & H & _).
  apply (H full_recorder 6 (mkContribution 0 (-1) 1)).
  - reflexivity.
  - vm_compute. discriminate.
  - vm_compute. split; [discriminate | reflexivity].
  - vm_compute. discriminate.
  - reflexivity.
  - exact full_recorder_moments_small.
Defined.

(** *** The two parts of a recording: flux channels and Stokes channels *)

Definition flux_part (s : Recorder) (arrays : list Array) (pp : PhotonPacket)
  (bin : Z) (L Lext : Q) : option (list Array) :=
  if _recordTotalOnly s then lockfree_add arrays Total bin L
  else if hasPrimaryOrigin pp then
    if numScatt pp =? 0 then
      a <- lockfree_add arrays Transparent bin L ;;
      lockfree_add a PrimaryDirect bin Lext
    else
      a <- lockfree_add arrays PrimaryScattered bin Lext ;;
      if numScatt pp <=? _numScatteringLevels s
      then lockfree_add a (PrimaryScatteredLevel + numScatt pp - 1) bin Lext
      else Some a
  else
    if numScatt pp =? 0
    then lockfree_add arrays SecondaryDirect bin Lext
    else lockfree_add arrays SecondaryScattered bin Lext.

Definition stokes_part (s : Recorder) (a : list Array) (pp : PhotonPacket)
  (bin : Z) (Lext : Q) : option (list Array) :=
  if _recordPolarization s then
    a <- lockfree_add a TotalQ bin (Lext * stokesQ pp)%Q ;;
    a <- lockfree_add a TotalU bin (Lext * stokesU pp)%Q ;;
    lockfree_add a TotalV bin (Lext * stokesV pp)%Q
  else Some a.

Lemma record_flux_parts (s : Recorder) (arrays : list Array)
  (pp : PhotonPacket) (bin : Z) (L Lext : Q) :
  record_flux s arrays pp bin L Lext
  = (a <- flux_part s arrays pp bin L Lext ;; stokes_part s a pp bin Lext).
Proof. reflexivity. Qed.

Lemma stokes_part_keeps_flux (s : Recorder) (a a' : list Array)
  (pp : PhotonPacket) (bin : Z) (Lext : Q) :
  stokes_part s a pp bin Lext = Some a' ->
  (forall ch i, isStokes ch = false -> cell a' ch i = cell a ch i) /\
  (forall ch, channelLength a' ch = channelLength a ch).
Proof.
  unfold stokes_part. destruct (_recordPolarization s);
    [|intros H; injection H as <-; now split].
  intros H. split.
  - now apply (polarization_keeps_other_channels a a' bin _ _ _ H).
  - unfold obind in H.
    destruct (lockfree_add a TotalQ bin _) as [a1|] eqn:E1; [|discriminate].
    destruct (lockfree_add a1 TotalU bin _) as [a2|] eqn:E2; [|discriminate].
    apply lockfree_add_spec in E1, E2, H.
    destruct E1 as (_ & _ & _ & _ & L1), E2 as (_ & _ & _ & _ & L2),
             H as (_ & _ & _ & _ & L3).
    intros ch. now rewrite L3, L2, L1.
Qed.

Lemma stokes_part_effect (s : Recorder) (a a' : list Array)
  (pp : PhotonPacket) (bin : Z) (Lext : Q) :
  stokes_part s a pp bin Lext = Some a' ->
  if _recordPolarization s then
    cell a' TotalQ bin = (cell a TotalQ bin + Lext * stokesQ pp)%Q /\
    cell a' TotalU bin = (cell a TotalU bin + Lext * stokesU pp)%Q /\
    cell a' TotalV bin = (cell a TotalV bin + Lext * stokesV pp)%Q /\
    forall ch i, isStokes ch = true -> i <> bin -> cell a' ch i = cell a ch i
  else a' = a.
Proof.
  unfold stokes_part. destruct (_recordPolarization s);
    [|intros H; now injection H as <-].
  unfold obind. intros H.
  destruct (lockfree_add a TotalQ bin _) as [a1|] eqn:E1; [|discriminate].
  destruct (lockfree_add a1 TotalU bin _) as [a2|] eqn:E2; [|discriminate].
  apply lockfree_add_spec in E1, E2, H.
  destruct E1 as (_ & _ & V1 & O1 & _), E2 as (_ & _ & V2 & O2 & _),
           H as (_ & _ & V3 & O3 & _).
  unfold TotalQ, TotalU, TotalV in *.
  split; [|split; [|split]].
  - rewrite O3 by pair_neq. rewrite O2 by pair_neq. exact V1.
  - rewrite O3 by pair_neq. rewrite V2. now rewrite O1 by pair_neq.
  - rewrite V3. rewrite O2 by pair_neq. now rewrite O1 by pair_neq.
  - intros ch i _ Hi.
    rewrite O3, O2, O1; try reflexivity; intros E; apply Hi; congruence.
Qed.

(** The flux part writes to no Stokes channel (the scatter count is not
    negative) and changes no length. *)
Lemma flux_part_keeps_stokes (s : Recorder) (arrays a : list Array)
  (pp : PhotonPacket) (bin : Z) (L Lext : Q) :
  0 <= numScatt pp ->
  flux_part s arrays pp bin L Lext = Some a ->
  (forall ch i, isStokes ch = true -> cell a ch i = cell arrays ch i) /\
  (forall ch, channelLength a ch = channelLength arrays ch).
Proof.
  intros Hn. unfold flux_part, isStokes.
  unfold Total, Transparent, PrimaryDirect, PrimaryScattered, SecondaryDirect,
    SecondaryScattered, TotalQ, TotalV, PrimaryScatteredLevel.
  assert (Hst : forall ch, (6 <=? ch) && (ch <=? 8) = true -> 6 <= ch <= 8).
  { intros ch H. apply andb_true_iff in H. rewrite !Z.leb_le in H. exact H. }
  destruct (_recordTotalOnly s).
  { intros H. apply lockfree_add_spec in H. destruct H as (_ & _ & _ & O & Ln).
    split; [|exact Ln]. intros ch i Hch. apply Hst in Hch.
    apply O. pair_neq. }
  destruct (hasPrimaryOrigin pp).
  - destruct (Z.eqb_spec (numScatt pp) 0) as [E0|E0]; unfold obind; intros H.
    + destruct (lockfree_add arrays 1 bin L) as [a1|] eqn:E1; [|discriminate].
      apply lockfree_add_spec in E1, H.
      destruct E1 as (_ & _ & _ & O1 & L1), H as (_ & _ & _ & O2 & L2).
      split; [|intros ch; now rewrite L2, L1].
      intros ch i Hch. apply Hst in Hch.
      rewrite O2 by pair_neq. apply O1. pair_neq.
    + destruct (lockfree_add arrays 3 bin Lext) as [a1|] eqn:E1; [|discriminate].
      apply lockfree_add_spec in E1. destruct E1 as (_ & _ & _ & O1 & L1).
      destruct (numScatt pp <=? _numScatteringLevels s).
      * apply lockfree_add_spec in H. destruct H as (_ & _ & _ & O2 & L2).
        split; [|intros ch; now rewrite L2, L1].
        intros ch i Hch. apply Hst in Hch.
        rewrite O2 by pair_neq. apply O1. pair_neq.
      * injection H as <-. split; [|exact L1].
        intros ch i Hch. apply Hst in Hch. apply O1. pair_neq.
  - destruct (numScatt pp =? 0); intros H; apply lockfree_add_spec in H;
      destruct H as (_ & _ & _ & O & Ln); (split; [|exact Ln]);
      intros ch i Hch; apply Hst in Hch; apply O; pair_neq.
Qed.

(** The channels of the family are those that [finalizeConfiguration]
    allocates, each with the length [len]. *)
Definition family_ready (s : Recorder) (arrays : list Array) (len : Z) : Prop :=
  forall ch, channelLength arrays ch = if channelAllocated s ch then len else 0.

Lemma stokes_part_defined (s : Recorder) (arrays a : list Array)
  (pp : PhotonPacket) (bin len : Z) (Lext : Q) :
  family_ready s arrays len ->
  (forall ch, channelLength a ch = channelLength arrays ch) ->
  0 <= bin < len ->
  exists a', stokes_part s a pp bin Lext = Some a'.
Proof.
  intros Hshape Ha Hbin. destruct (allocated_stokes s) as (B1 & B2 & B3).
  unfold stokes_part. destruct (_recordPolarization s) eqn:Ep;
    [|eexists; reflexivity].
  add_step E1 a1; [rewrite Ha, Hshape, B1; lia|].
  add_step E2 a2; [rewrite Hs, Ha, Hshape, B2; lia|].
  apply lockfree_add_some. rewrite Hs0, Hs, Ha, Hshape, B3. lia.
Qed.

(** A recording stays within the arrays of a family that is ready when
    the bin is a bin of the family; a packet of secondary origin is
    recorded in channels that exist only for a medium that emits. *)
Lemma record_flux_defined (s : Recorder) (arrays : list Array)
  (pp : PhotonPacket) (bin len : Z) (L Lext : Q) :
  family_ready s arrays len ->
  _recordTotalOnly s = negb (_recordComponents s) || negb (_hasMedium s) ->
  (hasPrimaryOrigin pp = false -> _recordTotalOnly s = false ->
   _hasMediumEmission s = true) ->
  0 <= numScatt pp -> 0 <= bin < len ->
  exists arrays', record_flux s arrays pp bin L Lext = Some arrays'.
Proof.
  intros Hshape Hflag Hsec Hn Hbin.
  destruct (_recordTotalOnly s) eqn:Hrto.
  - rewrite record_flux_parts. unfold flux_part. rewrite Hrto.
    add_step E1 a1.
    { rewrite Hshape. unfold channelAllocated. rewrite <- Hflag.
      cbn. lia. }
    apply (stokes_part_defined s arrays a1 pp bin len Lext Hshape);
      [exact Hs | exact Hbin].
  - destruct (hasPrimaryOrigin pp) eqn:Hprim.
    + apply (record_flux_primary_defined s arrays pp bin len L Lext);
        try assumption; now symmetry.
    + specialize (Hsec eq_refl eq_refl).
      rewrite record_flux_parts. unfold flux_part. rewrite Hrto, Hprim.
      assert (A4 : channelAllocated s SecondaryDirect = true)
        by (unfold channelAllocated; rewrite <- Hflag, Hsec; reflexivity).
      assert (A5 : channelAllocated s SecondaryScattered = true)
        by (unfold channelAllocated; rewrite <- Hflag, Hsec; reflexivity).
      destruct (numScatt pp =? 0).
      * add_step E1 a1; [rewrite Hshape, A4; lia|].
        apply (stokes_part_defined s arrays a1 pp bin len Lext Hshape);
          [exact Hs | exact Hbin].
      * add_step E1 a1; [rewrite Hshape, A5; lia|].
        apply (stokes_part_defined s arrays a1 pp bin len Lext Hshape);
          [exact Hs | exact Hbin].
Qed.

(** *** Detections in a recorder that is ready *)

(** The recorder as [finalizeConfiguration] leaves it: the flux arrays of
    both families have their lengths, and the two derived data members
    have their values. *)
Definition shapes_ready (s : Recorder) : Prop :=
  sed_ready s /\ family_ready s (_ifu s) (lenIFU s) /\
  _recordTotalOnly s = negb (_recordComponents s) || negb (_hasMedium s) /\
  _numPixelsInFrame s = _numPixelsX s * _numPixelsY s.

(** The frame has a size, and its bins can be numbered by a [size_t]. *)
Definition frame_fits (s : Recorder) : Prop :=
  0 <= _numPixelsX s * _numPixelsY s /\
  0 <= numWavelengths (_lambdagrid s) /\
  _numPixelsX s * _numPixelsY s * numWavelengths (_lambdagrid s) < SIZE_MOD.

(** A detection that the instrument can deliver: a wavelength bin of the
    grid, a pixel of the frame or a negative pixel index for a packet that
    misses the frame, and packets of secondary origin only when the medium
    emits. *)
Definition deliverable (s : Recorder) (pp : PhotonPacket) (l : Z) : Prop :=
  0 <= numScatt pp /\
  0 <= ell (_lambdagrid s) (lambda pp) < numWavelengths (_lambdagrid s) /\
  l < _numPixelsX s * _numPixelsY s /\
  (hasPrimaryOrigin pp = false -> _recordTotalOnly s = false ->
   _hasMediumEmission s = true).

Lemma detect_ifu (exp : Q -> Q) (s s' : Recorder) (t : nat)
  (pp : PhotonPacket) (l : Z) (tau : Q) :
  detect exp s t pp l tau = Some s' ->
  (if _includeSurfaceBrightness s && (l >=? 0)
   then record_flux s (_ifu s) pp
          (size_t (l + ell (_lambdagrid s) (lambda pp) * _numPixelsInFrame s))
          (luminosity pp) (luminosity pp * exp (- tau))%Q
   else Some (_ifu s)) = Some (_ifu s').
Proof.
  unfold detect. intros H.
  destruct (if _includeFluxDensity s then _ else _) as [sed|]; [|discriminate].
  cbn [obind] in H.
  destruct (if _includeSurfaceBrightness s && (l >=? 0) then _ else _)
    as [ifu|]; [|discriminate].
  cbn [obind] in H. f_equal.
  destruct (_recordStatistics s); [|now injection H as <-].
  destruct (negb _) in H.
  - destruct (recordContributions _ _) as [s2|] eqn:E2 in H; [|discriminate].
    cbn [obind fst snd] in H. injection H as <-.
    apply recordContributions_keeps_flux in E2. cbn in *. symmetry. apply E2.
  - cbn [obind fst snd] in H. now injection H as <-.
Qed.

Lemma frame_bin (npix nW bin l : Z) :
  0 <= npix -> npix * nW < SIZE_MOD -> 0 <= bin < nW -> 0 <= l < npix ->
  0 <= size_t (l + bin * npix) < npix * nW.
Proof.
  intros Hp Hfit Hb Hl.
  assert (0 <= l + bin * npix < npix * nW) by nia.
  unfold size_t. rewrite Z.mod_small; lia.
Qed.

(** The flux arrays of both families are recorded within their bounds. *)
Lemma detect_flux_defined (exp : Q -> Q) (s : Recorder) (pp : PhotonPacket)
  (l : Z) (tau : Q) :
  shapes_ready s -> frame_fits s -> deliverable s pp l ->
  exists sed ifu,
    (if _includeFluxDensity s
     then record_flux s (_sed s) pp (ell (_lambdagrid s) (lambda pp))
                      (luminosity pp) (luminosity pp * exp (- tau))%Q
     else Some (_sed s)) = Some sed /\
    (if _includeSurfaceBrightness s && (l >=? 0)
     then record_flux s (_ifu s) pp
            (size_t (l + ell (_lambdagrid s) (lambda pp) * _numPixelsInFrame s))
            (luminosity pp) (luminosity pp * exp (- tau))%Q
     else Some (_ifu s)) = Some ifu.
Proof.
  intros (Hsed & Hifu & Hflag & Hpix) (Hp & HnW & Hfit) (Hn & Hbin & Hl & Hsec).
  assert (Es : exists sed,
    (if _includeFluxDensity s
     then record_flux s (_sed s) pp (ell (_lambdagrid s) (lambda pp))
                      (luminosity pp) (luminosity pp * exp (- tau))%Q
     else Some (_sed s)) = Some sed).
  { destruct (_includeFluxDensity s) eqn:Ef; [|eexists; reflexivity].
    apply (record_flux_defined s (_sed s) pp _ (lenSED s)); try assumption.
    unfold lenSED. now rewrite Ef. }
  destruct Es as [sed Es]. exists sed.
  destruct (_includeSurfaceBrightness s) eqn:Eb; cbn [andb];
    [|eexists; split; [exact Es | reflexivity]].
  destruct (Z.geb_spec l 0) as [Hl0|Hl0];
    [|eexists; split; [exact Es | reflexivity]].
  destruct (record_flux_defined s (_ifu s) pp
              (size_t (l + ell (_lambdagrid s) (lambda pp) * _numPixelsInFrame s))
              (lenIFU s) (luminosity pp) (luminosity pp * exp (- tau))%Q)
    as [ifu Ei]; try assumption.
  - unfold lenIFU. rewrite Eb, Hpix. apply frame_bin; lia.
  - exists ifu. split; [exact Es | exact Ei].
Qed.

Lemma detect_defined_without_statistics (exp : Q -> Q) (s : Recorder)
  (t : nat) (pp : PhotonPacket) (l : Z) (tau : Q) :
  shapes_ready s -> frame_fits s -> deliverable s pp l ->
  _recordStatistics s = false ->
  exists s', detect exp s t pp l tau = Some s'.
Proof.
  intros Hr Hf Hd Hst.
  destruct (detect_flux_defined exp s pp l tau Hr Hf Hd) as (sed & ifu & Es & Ei).
  unfold detect. rewrite Es. cbn [obind]. rewrite Ei. cbn [obind].
  rewrite Hst. eexists; reflexivity.
Qed.

(** X12: the SED branch of [detect] for the packets that C5 leaves out.
    When only the total is recorded, the luminosity [L] of the packet (not
    attenuated by the optical depth) is added to SED[Total][ell]; when the
    components are recorded and the packet is of secondary origin,
    [Lext = L * exp(-tau)] is added to SED[SecondaryDirect][ell] for a
    packet that was not scattered and to SED[SecondaryScattered][ell]
    otherwise.  No other element of a channel that is not a Stokes channel
    changes.  In a recorder that is ready, without IFU and statistics, such
    a detection stays within the arrays (for a packet of secondary origin:
    when the medium emits). *)
Theorem detect_records_total_or_secondary_sed (exp : Q -> Q) (s : Recorder)
  (t : nat) (pp : PhotonPacket) (l : Z) (tau : Q) :
  _includeFluxDensity s = true ->
  _recordTotalOnly s = true \/ hasPrimaryOrigin pp = false ->
  let bin := ell (_lambdagrid s) (lambda pp) in
  let L := luminosity pp in
  let Lext := (L * exp (- tau))%Q in
  let ch0 := if _recordTotalOnly s then Total
             else if numScatt pp =? 0 then SecondaryDirect
                  else SecondaryScattered in
  let v := if _recordTotalOnly s then L else Lext in
  (forall s', detect exp s t pp l tau = Some s' ->
     cell (_sed s') ch0 bin = (cell (_sed s) ch0 bin + v)%Q /\
     forall ch i, isStokes ch = false -> (ch, i) <> (ch0, bin) ->
                  cell (_sed s') ch i = cell (_sed s) ch i) /\
  (shapes_ready s -> frame_fits s -> deliverable s pp l ->
   _recordStatistics s = false ->
   exists s', detect exp s t pp l tau = Some s').
Proof.
  intros Hfd Hcase bin L Lext ch0 v. split;
    [|apply detect_defined_without_statistics].
  intros s' H. apply detect_sed in H. rewrite Hfd in H.
  fold bin in H. fold L in H. fold Lext in H.
  rewrite record_flux_parts in H. unfold obind in H.
  destruct (flux_part s (_sed s) pp bin L Lext) as [a|] eqn:Ea; [|discriminate].
  destruct (stokes_part_keeps_flux s a (_sed s') pp bin Lext H) as (P & _).
  assert (Hadd : lockfree_add (_sed s) ch0 bin v = Some a).
  { unfold flux_part in Ea. unfold ch0, v.
    destruct (_recordTotalOnly s); [exact Ea|].
    destruct Hcase as [Hc|Hc]; [discriminate|]. rewrite Hc in Ea.
    destruct (numScatt pp =? 0); exact Ea. }
  assert (Hns : isStokes ch0 = false).
  { unfold ch0. destruct (_recordTotalOnly s); [reflexivity|].
    destruct (numScatt pp =? 0); reflexivity. }
  apply lockfree_add_spec in Hadd. destruct Hadd as (_ & _ & V & O & _).
  split.
  - rewrite P by exact Hns. exact V.
  - intros ch i Hch Hne. rewrite P by exact Hch. now apply O.
Qed.

(** A packet of secondary origin, with Stokes components. *)
Definition secondary_packet (lam : Q) (n : Z) (L : Q) : PhotonPacket :=
  mkPhotonPacket lam n L false (1 # 2) (1 # 4) 0 9.

(** Components, polarization and a medium that emits; SED only. *)
Definition emission_recorder : Recorder :=
  finalized (configured grid4 true true true 2 true false true false 0 0).

Lemma finalizeConfiguration_ifu_ready (s0 s : Recorder) :
  _sed s0 = [] -> _ifu s0 = [] ->
  0 <= _numScatteringLevels s0 ->
  0 <= numWavelengths (_lambdagrid s0) <= INT_MAX ->
  0 <= _numPixelsX s0 * _numPixelsY s0 <= INT_MAX ->
  finalizeConfiguration s0 = Some s -> shapes_ready s.
Proof.
  intros Hsed Hifu HS HN HP E.
  pose proof (finalizeConfiguration_sed_ready s0 s Hsed Hifu HS HN HP E) as Hs.
  assert (H1 : 0 <= lenSED s0) by (unfold lenSED; destruct _includeFluxDensity; lia).
  assert (H2 : 0 <= lenIFU s0)
    by (unfold lenIFU; destruct _includeSurfaceBrightness; nia).
  destruct (allocate_spec s0 (lenSED s0) HS H1) as (sed & Es & _).
  destruct (allocate_spec s0 (lenIFU s0) HS H2) as (ifu & Ei & _ & Ci).
  rewrite (finalizeConfiguration_in_range s0 HN HP) in E. cbv zeta in E.
  rewrite Hsed, Hifu in E.
  rewrite Es in E. cbn [obind] in E. rewrite Ei in E. cbn [obind] in E.
  injection E as <-. split; [exact Hs|]. split; [|split; reflexivity].
  intros ch. exact (Ci ch).
Qed.

Lemma emission_recorder_ready :
  shapes_ready emission_recorder /\ frame_fits emission_recorder.
Proof.
  split.
  - apply (finalizeConfiguration_ifu_ready
             (configured grid4 true true true 2 true false true false 0 0));
      try reflexivity; vm_compute; first [discriminate | split; discriminate].
  - repeat split; vm_compute; congruence.
Qed.

Lemma detect_records_total_or_secondary_sed_witness :
  exists s',
    detect exp_poly emission_recorder 0 (secondary_packet 2 3 (5 # 1)) (-1) 0
    = Some s' /\
    cell (_sed s') SecondaryScattered 2
    = (cell (_sed emission_recorder) SecondaryScattered 2
       + (5 # 1) * exp_poly (- 0))%Q.
Proof.
  destruct (detect_records_total_or_secondary_sed exp_poly emission_recorder 0
              (secondary_packet 2 3 (5 # 1)) (-1) 0 eq_refl
              (or_intror eq_refl)) as [Heff Hdef].
  destruct Hdef as [s' E].
  - apply emission_recorder_ready.
  - apply emission_recorder_ready.
  - repeat split; vm_compute; congruence.
  - reflexivity.
  - exists s'. split; [exact E|]. exact (proj1 (Heff s' E)).
Defined.

(** X13: the Stokes channels of the SEDs.  When the polarization is
    recorded, a detection adds [Lext] times the Stokes components Q, U and
    V of the packet to SED[TotalQ][ell], SED[TotalU][ell] and
    SED[TotalV][ell], whatever the origin of the packet and whether or not
    the components are recorded, and leaves the other bins of the Stokes
    channels alone; when it is not recorded, no element of a Stokes
    channel changes.  (The scatter count of the packet is not negative.) *)
Theorem detect_records_stokes_sed (exp : Q -> Q) (s : Recorder) (t : nat)
  (pp : PhotonPacket) (l : Z) (tau : Q) :
  _includeFluxDensity s = true -> 0 <= numScatt pp ->
  let bin := ell (_lambdagrid s) (lambda pp) in
  let Lext := (luminosity pp * exp (- tau))%Q in
  (forall s', detect exp s t pp l tau = Some s' ->
     (_recordPolarization s = true ->
      cell (_sed s') TotalQ bin = (cell (_sed s) TotalQ bin + Lext * stokesQ pp)%Q /\
      cell (_sed s') TotalU bin = (cell (_sed s) TotalU bin + Lext * stokesU pp)%Q /\
      cell (_sed s') TotalV bin = (cell (_sed s) TotalV bin + Lext * stokesV pp)%Q /\
      forall ch i, isStokes ch = true -> i <> bin ->
                   cell (_sed s') ch i = cell (_sed s) ch i) /\
     (_recordPolarization s = false ->
      forall ch i, isStokes ch = true ->
                   cell (_sed s') ch i = cell (_sed s) ch i)) /\
  (shapes_ready s -> frame_fits s -> deliverable s pp l ->
   _recordStatistics s = false ->
   exists s', detect exp s t pp l tau = Some s').
Proof.
  intros Hfd Hn bin Lext. split;
    [|apply detect_defined_without_statistics].
  intros s' H. apply detect_sed in H. rewrite Hfd in H.
  fold bin in H. fold Lext in H.
  rewrite record_flux_parts in H. unfold obind in H.
  destruct (flux_part s (_sed s) pp bin (luminosity pp) Lext) as [a|] eqn:Ea;
    [|discriminate].
  destruct (flux_part_keeps_stokes s (_sed s) a pp bin _ Lext Hn Ea) as (F & _).
  pose proof (stokes_part_effect s a (_sed s') pp bin Lext H) as P.
  split; intros Hp; rewrite Hp in P.
  - destruct P as (PQ & PU & PV & PO).
    rewrite <- !F by reflexivity.
    split; [exact PQ|]. split; [exact PU|]. split; [exact PV|].
    intros ch i Hch Hi. rewrite <- F by exact Hch. now apply PO.
  - subst a. intros ch i Hch. now apply F.
Qed.

Lemma detect_records_stokes_sed_witness :
  exists s',
    detect exp_poly emission_recorder 0 (secondary_packet 2 3 (5 # 1)) (-1) 0
    = Some s' /\
    cell (_sed s') TotalQ 2
    = (cell (_sed emission_recorder) TotalQ 2
       + (5 # 1) * exp_poly (- 0) * (1 # 2))%Q.
Proof.
  destruct (detect_records_stokes_sed exp_poly emission_recorder 0
              (secondary_packet 2 3 (5 # 1)) (-1) 0 eq_refl
              ltac:(vm_compute; discriminate)) as [Heff Hdef].
  destruct Hdef as [s' E].
  - apply emission_recorder_ready.
  - apply emission_recorder_ready.
  - repeat split; vm_compute; congruence.
  - reflexivity.
  - exists s'. split; [exact E|].
    destruct (Heff s' E) as [HQ _]. exact (proj1 (HQ eq_refl)).
Defined.

(** X14: the IFU branch of [detect].  A packet that misses the frame
    ([l < 0]) changes no element of any IFU array, and neither does any
    packet when the surface brightness is not recorded.  For a packet in
    the frame the rules of the SED branch apply at the bin
    [l + ell * Nx * Ny]: with the components recorded and a packet of
    primary origin that was not scattered, [L] is added to
    IFU[Transparent] and [Lext] to IFU[PrimaryDirect]; for a scattered
    one, [Lext] is added to IFU[PrimaryScattered] and, when [n <= S], to
    IFU[PrimaryScatteredLevel + n - 1]; no other element of a channel
    that is not a Stokes channel changes.  In a recorder that is ready
    the bin is the pixel [l] of the slab of wavelength [ell] and the
    detection stays within the arrays. *)
Theorem detect_records_ifu (exp : Q -> Q) (s : Recorder) (t : nat)
  (pp : PhotonPacket) (l : Z) (tau : Q) :
  let bin := ell (_lambdagrid s) (lambda pp) in
  let lell := size_t (l + bin * _numPixelsInFrame s) in
  let L := luminosity pp in
  let Lext := (L * exp (- tau))%Q in
  let n := numScatt pp in
  (forall s', detect exp s t pp l tau = Some s' ->
     (_includeSurfaceBrightness s = false \/ l < 0 -> _ifu s' = _ifu s) /\
     (_includeSurfaceBrightness s = true -> 0 <= l ->
      _recordTotalOnly s = false -> hasPrimaryOrigin pp = true -> 0 <= n ->
      (n = 0 ->
       cell (_ifu s') Transparent lell = (cell (_ifu s) Transparent lell + L)%Q /\
       cell (_ifu s') PrimaryDirect lell
       = (cell (_ifu s) PrimaryDirect lell + Lext)%Q /\
       forall ch i, isStokes ch = false ->
                    (ch, i) <> (Transparent, lell) ->
                    (ch, i) <> (PrimaryDirect, lell) ->
                    cell (_ifu s') ch i = cell (_ifu s) ch i) /\
      (1 <= n ->
       cell (_ifu s') PrimaryScattered lell
       = (cell (_ifu s) PrimaryScattered lell + Lext)%Q /\
       (n <= _numScatteringLevels s ->
        cell (_ifu s') (PrimaryScatteredLevel + n - 1) lell
        = (cell (_ifu s) (PrimaryScatteredLevel + n - 1) lell + Lext)%Q) /\
       forall ch i, isStokes ch = false ->
                    (ch, i) <> (PrimaryScattered, lell) ->
                    ~ (n <= _numScatteringLevels s /\
                       (ch, i) = (PrimaryScatteredLevel + n - 1, lell)) ->
                    cell (_ifu s') ch i = cell (_ifu s) ch i))) /\
  (shapes_ready s -> frame_fits s -> deliverable s pp l ->
   (0 <= l -> lell = l + bin * (_numPixelsX s * _numPixelsY s)) /\
   (_recordStatistics s = false ->
    exists s', detect exp s t pp l tau = Some s')).
Proof.
  intros bin lell L Lext n. split.
  - intros s' H. apply detect_ifu in H. fold bin lell L Lext in H. split.
    + intros Hcase.
      assert (E : _includeSurfaceBrightness s && (l >=? 0) = false).
      { destruct Hcase as [->|Hl]; [reflexivity|].
        apply andb_false_iff. right. destruct (Z.geb_spec l 0); [lia | reflexivity]. }
      rewrite E in H. now injection H as <-.
    + intros Hsb Hl Hrto Hprim Hn.
      assert (E : _includeSurfaceBrightness s && (l >=? 0) = true).
      { rewrite Hsb. destruct (Z.geb_spec l 0); [reflexivity | lia]. }
      rewrite E in H.
      now apply (record_flux_primary s (_ifu s) (_ifu s') pp lell L Lext).
  - intros Hr Hf Hd. split.
    + intros Hl. destruct Hr as (_ & _ & _ & Hpix).
      destruct Hf as (Hp & HnW & Hfit). destruct Hd as (_ & Hbin & Hlt & _).
      unfold lell. rewrite Hpix. fold bin in Hbin.
      assert (0 <= l + bin * (_numPixelsX s * _numPixelsY s)
              < _numPixelsX s * _numPixelsY s * numWavelengths (_lambdagrid s))
        by nia.
      unfold size_t. apply Z.mod_small. lia.
    + now apply detect_defined_without_statistics.
Qed.

(** Components and a frame of 2 x 2 pixels, no statistics. *)
Definition frame_recorder : Recorder :=
  finalized (configured grid4 true false true 2 false false true true 2 2).

Lemma frame_recorder_ready :
  shapes_ready frame_recorder /\ frame_fits frame_recorder.
Proof.
  split.
  - apply (finalizeConfiguration_ifu_ready
             (configured grid4 true false true 2 false false true true 2 2));
      try reflexivity; vm_compute; first [discriminate | split; discriminate].
  - repeat split; vm_compute; congruence.
Qed.

(** *** The moments of a photon packet history *)

(** The power [w^n]. *)
Fixpoint qpow (w : Q) (n : nat) : Q :=
  match n with
  | O => 1%Q
  | S n' => (qpow w n' * w)%Q
  end.

Lemma qpow_eq (a b : Q) (n : nat) : (a == b)%Q -> (qpow a n == qpow b n)%Q.
Proof.
  intros H. induction n as [|n IH]; cbn [qpow]; [reflexivity|].
  now rewrite IH, H.
Qed.

(** The total contribution of a history to the wavelength bin [b], and
    whether it contributes to that bin at all. *)
Definition binWeight (b : Z) (cs : list Contribution) : Q :=
  fold_right (fun c acc => if c_ell c =? b then (c_w c + acc)%Q else acc)
             0%Q cs.

Definition inBin (b : Z) (cs : list Contribution) : bool :=
  existsb (fun c => c_ell c =? b) cs.

Lemma add_moments_spec (count : nat) :
  forall (k : Z) (arrays a : list Array) (bin : Z) (w wn : Q),
    add_moments count k arrays bin w wn = Some a ->
    (forall j, (j < count)%nat ->
       (cell a (k + Z.of_nat j) bin
        == cell arrays (k + Z.of_nat j) bin + wn * qpow w (S j))%Q) /\
    (forall ch i, ~ (k <= ch < k + Z.of_nat count /\ i = bin) ->
                  cell a ch i = cell arrays ch i) /\
    (forall ch, channelLength a ch = channelLength arrays ch).
Proof.
  induction count as [|count IH]; intros k arrays a bin w wn H;
    cbn [add_moments] in H.
  - injection H as <-. repeat split. intros j Hj. lia.
  - unfold obind in H.
    destruct (lockfree_add arrays k bin (wn * w)%Q) as [a1|] eqn:E1;
      [|discriminate].
    apply lockfree_add_spec in E1. destruct E1 as (_ & _ & V1 & O1 & L1).
    destruct (IH _ _ _ _ _ _ H) as (Hj & Ho & Hl).
    split; [|split].
    + intros [|j] Hlt.
      * rewrite Z.add_0_r. rewrite Ho by lia. rewrite V1.
        cbn [qpow]. ring.
      * specialize (Hj j ltac:(lia)).
        replace (k + Z.of_nat (S j)) with (k + 1 + Z.of_nat j) by lia.
        rewrite Hj. rewrite O1 by pair_neq.
        cbn [qpow]. ring.
    + intros ch i Hne. rewrite Ho by lia. apply O1.
      intros E. injection E as -> ->. lia.
    + intros ch. now rewrite Hl, L1.
Qed.




Definition ell_sorted (cs : list Contribution) : Prop :=
  StronglySorted (fun a b => c_ell a <= c_ell b) cs.

Lemma not_inBin (b : Z) (cs : list Contribution) :
  (forall c, In c cs -> c_ell c <> b) ->
  inBin b cs = false /\ binWeight b cs = 0%Q.
Proof.
  induction cs as [|c cs IH]; intros H; [split; reflexivity|].
  destruct IH as [I W]; [intros x Hx; apply H; now right|].
  unfold inBin, binWeight in *. cbn [existsb fold_right].
  destruct (Z.eqb_spec (c_ell c) b) as [E|_];
    [exfalso; exact (H c (or_introl eq_refl) E)|].
  cbn [orb]. now split.
Qed.

Lemma fold_bins_sed (cs : list Contribution) :
  forall (w : Q) (arrays arrays' : list Array),
    ell_sorted cs ->
    fold_bins same_ell sed_bin cs w arrays = Some arrays' ->
    forall k b,
      (cell arrays' k b
       == cell arrays k b
          + (if (0 <=? k) && (k <? 4) && inBin b cs
             then qpow ((match cs with
                         | c :: _ => if c_ell c =? b then w else 0
                         | [] => 0
                         end) + binWeight b cs) (S (Z.to_nat k))
             else 0))%Q.
Proof.
  induction cs as [|c rest IH]; intros w arrays arrays' Hs H k b;
    cbn [fold_bins] in H.
  - injection H as <-. rewrite andb_false_r. ring.
  - inversion Hs as [|? ? Hs' Hall]; subst.
    assert (Hrange : (0 <=? k) && (k <? 4) = true -> (Z.to_nat k < 4)%nat /\
                     0 + Z.of_nat (Z.to_nat k) = k).
    { intros Hk. apply andb_true_iff in Hk.
      rewrite Z.leb_le, Z.ltb_lt in Hk. lia. }
    destruct (match rest with [] => true | c' :: _ => negb (same_ell c c') end)
      eqn:Hclose.
    + unfold obind in H.
      destruct (add_moments numStatMoments 0 arrays (sed_bin c)
                  (w + c_w c)%Q 1%Q) as [a|] eqn:Ea; [|discriminate].
      apply add_moments_spec in Ea. destruct Ea as (Hj & Ho & _).
      rewrite (IH _ _ _ Hs' H k b).
      assert (Hlater : forall x, In x rest -> c_ell x <> c_ell c).
      { destruct rest as [|c' rest']; [contradiction|].
        unfold same_ell in Hclose. apply negb_true_iff, Z.eqb_neq in Hclose.
        inversion Hs' as [|? ? _ Hall']; subst.
        rewrite Forall_forall in Hall, Hall'.
        pose proof (Hall c' (or_introl eq_refl)).
        intros x [<-|Hx]; [lia|]. specialize (Hall' x Hx). lia. }
      unfold sed_bin in *.
      destruct (Z.eq_dec (c_ell c) b) as [Eb|Eb].
      * subst b. destruct (not_inBin (c_ell c) rest Hlater) as [I W].
        rewrite I, andb_false_r.
        unfold inBin, binWeight in *. cbn [existsb fold_right].
        rewrite Z.eqb_refl. cbn [orb]. rewrite W, andb_true_r.
        destruct ((0 <=? k) && (k <? 4)) eqn:Hk.
        -- destruct (Hrange eq_refl) as [Hlt Ek].
           specialize (Hj (Z.to_nat k) Hlt). rewrite Ek in Hj. rewrite Hj.
           rewrite Qplus_0_r, Qmult_1_l.
           apply Qplus_inj_l. apply qpow_eq. ring.
        -- rewrite Ho; [ring|]. intros [Hr _].
           apply andb_false_iff in Hk. rewrite Z.leb_gt, Z.ltb_ge in Hk.
           cbn in Hr. lia.
      * rewrite Ho by (intros [_ E]; congruence).
        unfold inBin, binWeight. cbn [existsb fold_right].
        destruct (Z.eqb_spec (c_ell c) b) as [E|_]; [contradiction|].
        cbn [orb]. fold (inBin b rest). fold (binWeight b rest).
        destruct ((0 <=? k) && (k <? 4) && inBin b rest); [|reflexivity].
        apply Qplus_inj_l. apply qpow_eq.
        destruct rest as [|c' rest']; [reflexivity|].
        destruct (c_ell c' =? b); ring.
    + destruct rest as [|c' rest']; [discriminate|].
      unfold same_ell in Hclose. apply negb_false_iff, Z.eqb_eq in Hclose.
      rewrite (IH _ _ _ Hs' H k b).
      unfold inBin, binWeight. cbn [existsb fold_right].
      rewrite <- Hclose.
      destruct (Z.eqb_spec (c_ell c) b) as [E|E]; cbn [orb].
      * rewrite !andb_true_r.
        destruct ((0 <=? k) && (k <? 4)); [|reflexivity].
        apply Qplus_inj_l. apply qpow_eq. ring.
      * reflexivity.
Qed.

Lemma contribution_lt_asym (a b : Contribution) :
  contribution_lt a b = true -> contribution_lt b a = false.
Proof.
  unfold contribution_lt. intros H.
  apply orb_true_iff in H. apply orb_false_iff.
  rewrite andb_true_iff, Z.ltb_lt, Z.eqb_eq, Z.ltb_lt in H.
  rewrite andb_false_iff, Z.ltb_ge, Z.eqb_neq, Z.ltb_ge. lia.
Qed.

Lemma contribution_lt_trans_neg (a b c : Contribution) :
  contribution_lt b a = false -> contribution_lt c b = false ->
  contribution_lt c a = false.
Proof.
  unfold contribution_lt. intros H1 H2.
  apply orb_false_iff in H1, H2. apply orb_false_iff.
  rewrite andb_false_iff, Z.ltb_ge, Z.eqb_neq, Z.ltb_ge in *. lia.
Qed.

Lemma sorted_contributions_ell_sorted (cl : ContributionList) :
  ell_sorted (sorted_contributions cl).
Proof.
  unfold ell_sorted, sorted_contributions.
  pose proof (sort_by_ordered contribution_lt contribution_lt_asym
                contribution_lt_trans_neg (_contributions cl)) as H.
  unfold ordered_by in H.
  induction H as [|a l Hl IH Ha]; constructor; [exact IH|].
  eapply Forall_impl; [|exact Ha]. cbn beta. intros b Hb.
  unfold contribution_lt in Hb. apply orb_false_iff in Hb.
  rewrite Z.ltb_ge in Hb. tauto.
Qed.

Lemma binWeight_perm (b : Z) (cs cs' : list Contribution) :
  Permutation cs cs' ->
  (binWeight b cs == binWeight b cs')%Q /\ inBin b cs = inBin b cs'.
Proof.
  unfold binWeight, inBin.
  induction 1 as [|x l l' _ [IHw IHi]|x y l|l l' l'' _ [IH1 I1] _ [IH2 I2]];
    cbn [fold_right existsb].
  - split; reflexivity.
  - rewrite IHi. split; [|reflexivity].
    destruct (c_ell x =? b); [now rewrite IHw | exact IHw].
  - split; [|destruct (c_ell x =? b), (c_ell y =? b); reflexivity].
    destruct (c_ell x =? b), (c_ell y =? b); try reflexivity. ring.
  - split; [now rewrite IH1 | now rewrite I1].
Qed.

(** X15: the statistics of the SEDs are taken per photon packet history
    and per wavelength bin.  When [recordContributions] folds the list of
    a history, then for every wavelength bin [b] to which the history
    contributed, with [w] the sum of its contributions to that bin, the
    four moment arrays [k = 0, 1, 2, 3] receive [w], [w^2], [w^3] and [w^4]
    at [b], however the contributions are ordered in the list; no other
    element of the SED statistics changes, and the flux arrays are not
    touched. *)
Theorem recordContributions_adds_moments_per_bin (s s' : Recorder)
  (cl : ContributionList) :
  _includeFluxDensity s = true ->
  recordContributions s cl = Some s' ->
  (forall k b,
     (cell (_wsed s') k b
      == cell (_wsed s) k b
         + (if (0 <=? k) && (k <? 4) && inBin b (_contributions cl)
            then qpow (binWeight b (_contributions cl)) (S (Z.to_nat k))
            else 0))%Q) /\
  _sed s' = _sed s /\ _ifu s' = _ifu s.
Proof.
  intros Hfd H.
  destruct (recordContributions_keeps_flux s s' cl H) as (Es & Ei & _).
  split; [|now split].
  unfold recordContributions in H. rewrite Hfd in H. unfold obind in H.
  destruct (fold_bins same_ell sed_bin (sorted_contributions cl) 0%Q (_wsed s))
    as [wsed|] eqn:Ew; [|discriminate].
  destruct (if _includeSurfaceBrightness s then _ else _) as [wifu|];
    [|discriminate].
  injection H as <-. cbn [_wsed with_arrays].
  intros k b.
  rewrite (fold_bins_sed _ _ _ _ (sorted_contributions_ell_sorted cl) Ew k b).
  destruct (binWeight_perm b (_contributions cl) (sorted_contributions cl)
              (sort_by_perm contribution_lt (_contributions cl))) as [Pw Pi].
  rewrite <- Pi.
  destruct ((0 <=? k) && (k <? 4) && inBin b (_contributions cl));
    [|reflexivity].
  apply Qplus_inj_l. apply qpow_eq. rewrite Pw.
  destruct (sorted_contributions cl) as [|c rest]; [ring|].
  destruct (c_ell c =? b); ring.
Qed.

Lemma recordContributions_adds_moments_per_bin_witness :
  exists s',
    recordContributions full_recorder
      (mkContributionList 7 [mkContribution 1 3 3; mkContribution 2 1 1;
                             mkContribution 1 0 2]) = Some s' /\
    (cell (_wsed s') 1 1 == 25)%Q /\ (cell (_wsed s') 3 2 == 1)%Q.
Proof.
  destruct (recordContributions full_recorder
              (mkContributionList 7 [mkContribution 1 3 3; mkContribution 2 1 1;
                                     mkContribution 1 0 2])) as [s'|] eqn:E;
    [|vm_compute in E; discriminate].
  exists s'. split; [reflexivity|].
  destruct (recordContributions_adds_moments_per_bin full_recorder s' _
              eq_refl E) as (H & _).
  split.
  - rewrite (H 1 1). vm_compute. reflexivity.
  - rewrite (H 3 2). vm_compute. reflexivity.
Defined.

(** *** What recording leaves as it is *)

(** The data members that the setters and [finalizeConfiguration] set. *)
Definition config (s : Recorder) :=
  (_lambdagrid s, _hasMedium s, _hasMediumEmission s, _recordComponents s,
   _numScatteringLevels s, _recordPolarization s, _recordStatistics s,
   _includeFluxDensity s, _includeSurfaceBrightness s,
   _numPixelsX s, _numPixelsY s, _recordTotalOnly s, _numPixelsInFrame s).

Definition same_lengths (a b : list Array) : Prop :=
  length a = length b /\ forall ch, channelLength a ch = channelLength b ch.

Lemma same_lengths_refl (a : list Array) : same_lengths a a.
Proof. split; reflexivity. Qed.

Lemma same_lengths_trans (a b c : list Array) :
  same_lengths a b -> same_lengths b c -> same_lengths a c.
Proof.
  intros [L1 H1] [L2 H2]. split; [congruence|].
  intros ch. now rewrite H1, H2.
Qed.

Lemma lockfree_add_lengths (arrays arrays' : list Array) (ch i : Z) (v : Q) :
  lockfree_add arrays ch i v = Some arrays' -> same_lengths arrays' arrays.
Proof.
  intros H. apply lockfree_add_spec in H.
  destruct H as (L & _ & _ & _ & C). now split.
Qed.

Lemma record_flux_lengths (s : Recorder) (arrays arrays' : list Array)
  (pp : PhotonPacket) (bin : Z) (L Lext : Q) :
  record_flux s arrays pp bin L Lext = Some arrays' ->
  same_lengths arrays' arrays.
Proof.
  unfold record_flux, obind. intros H.
  destruct (if _recordTotalOnly s then _ else _) as [a|] eqn:Ea; [|discriminate].
  assert (Hb : same_lengths arrays' a).
  { destruct (_recordPolarization s); [|injection H as <-; apply same_lengths_refl].
    destruct (lockfree_add a TotalQ bin _) as [a1|] eqn:E1; [|discriminate].
    destruct (lockfree_add a1 TotalU bin _) as [a2|] eqn:E2; [|discriminate].
    apply lockfree_add_lengths in E1, E2, H.
    eapply same_lengths_trans; [exact H|].
    eapply same_lengths_trans; [exact E2 | exact E1]. }
  apply (same_lengths_trans _ _ _ Hb). clear H Hb.
  destruct (_recordTotalOnly s); [now apply lockfree_add_lengths in Ea|].
  destruct (hasPrimaryOrigin pp).
  - destruct (numScatt pp =? 0).
    + destruct (lockfree_add arrays Transparent bin L) as [a1|] eqn:E1;
        [|discriminate].
      apply lockfree_add_lengths in E1, Ea.
      eapply same_lengths_trans; [exact Ea | exact E1].
    + destruct (lockfree_add arrays PrimaryScattered bin Lext) as [a1|] eqn:E1;
        [|discriminate].
      apply lockfree_add_lengths in E1.
      destruct (numScatt pp <=? _numScatteringLevels s).
      * apply lockfree_add_lengths in Ea.
        eapply same_lengths_trans; [exact Ea | exact E1].
      * now injection Ea as <-.
  - destruct (numScatt pp =? 0); now apply lockfree_add_lengths in Ea.
Qed.

Lemma add_moments_lengths (count : nat) :
  forall (k : Z) (arrays a : list Array) (bin : Z) (w wn : Q),
    add_moments count k arrays bin w wn = Some a -> same_lengths a arrays.
Proof.
  induction count as [|count IH]; intros k arrays a bin w wn H;
    cbn [add_moments] in H.
  - injection H as <-. apply same_lengths_refl.
  - unfold obind in H.
    destruct (lockfree_add arrays k bin (wn * w)%Q) as [a1|] eqn:E1;
      [|discriminate].
    apply lockfree_add_lengths in E1. apply IH in H.
    eapply same_lengths_trans; [exact H | exact E1].
Qed.

Lemma fold_bins_lengths (same : Contribution -> Contribution -> bool)
  (bin : Contribution -> Z) (cs : list Contribution) :
  forall (w : Q) (arrays arrays' : list Array),
    fold_bins same bin cs w arrays = Some arrays' -> same_lengths arrays' arrays.
Proof.
  induction cs as [|c rest IH]; intros w arrays arrays' H; cbn [fold_bins] in H.
  - injection H as <-. apply same_lengths_refl.
  - destruct (match rest with [] => true | c' :: _ => negb (same c c') end).
    + unfold obind in H.
      destruct (add_moments numStatMoments 0 arrays (bin c) (w + c_w c)%Q 1%Q)
        as [a|] eqn:Ea; [|discriminate].
      apply add_moments_lengths in Ea. apply IH in H.
      eapply same_lengths_trans; [exact H | exact Ea].
    + now apply IH in H.
Qed.

Lemma recordContributions_shapes (s s' : Recorder) (cl : ContributionList) :
  recordContributions s cl = Some s' ->
  config s' = config s /\ _sed s' = _sed s /\ _ifu s' = _ifu s /\
  same_lengths (_wsed s') (_wsed s) /\ same_lengths (_wifu s') (_wifu s) /\
  _contributionLists s' = _contributionLists s.
Proof.
  unfold recordContributions, obind. intros H.
  destruct (if _includeFluxDensity s then _ else _) as [wsed|] eqn:E1;
    [|discriminate].
  destruct (if _includeSurfaceBrightness s then _ else _) as [wifu|] eqn:E2;
    [|discriminate].
  injection H as <-. cbn.
  repeat split; try reflexivity.
  - destruct (_includeFluxDensity s);
      [apply fold_bins_lengths in E1; apply E1 | now injection E1 as <-].
  - destruct (_includeFluxDensity s);
      [apply fold_bins_lengths in E1; apply E1 | now injection E1 as <-].
  - destruct (_includeSurfaceBrightness s);
      [apply fold_bins_lengths in E2; apply E2 | now injection E2 as <-].
  - destruct (_includeSurfaceBrightness s);
      [apply fold_bins_lengths in E2; apply E2 | now injection E2 as <-].
Qed.

(** The thread-local lists after a detection by thread [t]. *)
Lemma local_set_local_other (ls : list (nat * ContributionList)) (t u : nat)
  (cl : ContributionList) :
  u <> t -> local (set_local ls t cl) u = local ls u.
Proof.
  intros Hne. induction ls as [|[v cl'] ls IH]; cbn [set_local local].
  - destruct (Nat.eqb_spec u t); [contradiction | reflexivity].
  - destruct (Nat.eqb_spec t v) as [->|Hv]; cbn [local].
    + destruct (Nat.eqb_spec u v); [contradiction | reflexivity].
    + destruct (Nat.eqb u v); [reflexivity | exact IH].
Qed.

Lemma detect_shapes (exp : Q -> Q) (s s' : Recorder) (t : nat)
  (pp : PhotonPacket) (l : Z) (tau : Q) :
  detect exp s t pp l tau = Some s' ->
  config s' = config s /\
  same_lengths (_sed s') (_sed s) /\ same_lengths (_ifu s') (_ifu s) /\
  same_lengths (_wsed s') (_wsed s) /\ same_lengths (_wifu s') (_wifu s).
Proof.
  intros H.
  pose proof (detect_sed exp s s' t pp l tau H) as Hs.
  pose proof (detect_ifu exp s s' t pp l tau H) as Hi.
  assert (Ls : same_lengths (_sed s') (_sed s)).
  { destruct (_includeFluxDensity s);
      [now apply record_flux_lengths in Hs|].
    injection Hs as <-. apply same_lengths_refl. }
  assert (Li : same_lengths (_ifu s') (_ifu s)).
  { destruct (_includeSurfaceBrightness s && (l >=? 0));
      [now apply record_flux_lengths in Hi|].
    injection Hi as <-. apply same_lengths_refl. }
  split; [|split; [exact Ls|split; [exact Li|]]].
  - unfold detect, obind in H.
    destruct (if _includeFluxDensity s then _ else _) as [sed|]; [|discriminate].
    destruct (if _includeSurfaceBrightness s && (l >=? 0) then _ else _)
      as [ifu|]; [|discriminate].
    destruct (_recordStatistics s); [|now injection H as <-].
    destruct (negb _) in H.
    + destruct (recordContributions _ _) as [s2|] eqn:E2 in H; [|discriminate].
      injection H as <-. apply recordContributions_shapes in E2.
      destruct E2 as (Hc & _). cbn [fst].
      transitivity (config s2); [reflexivity|]. rewrite Hc. reflexivity.
    + now injection H as <-.
  - unfold detect, obind in H.
    destruct (if _includeFluxDensity s then _ else _) as [sed|]; [|discriminate].
    destruct (if _includeSurfaceBrightness s && (l >=? 0) then _ else _)
      as [ifu|]; [|discriminate].
    destruct (_recordStatistics s);
      [|injection H as <-; split; apply same_lengths_refl].
    destruct (negb _) in H.
    + destruct (recordContributions _ _) as [s2|] eqn:E2 in H; [|discriminate].
      injection H as <-. apply recordContributions_shapes in E2.
      destruct E2 as (_ & _ & _ & Lw & Lf & _). cbn in *. now split.
    + injection H as <-. split; apply same_lengths_refl.
Qed.

(** *** A recorder that is ready stays ready *)

(** A contribution to a bin of the statistics arrays: a wavelength bin of
    the grid and, when the surface brightness is recorded, a pixel of the
    frame. *)
Definition in_frame (s : Recorder) (c : Contribution) : Prop :=
  0 <= c_ell c < numWavelengths (_lambdagrid s) /\
  (_includeSurfaceBrightness s = true ->
   0 <= c_l c < _numPixelsX s * _numPixelsY s).




Ltac use_config H :=
  unfold config in H; injection H; intros;
  repeat match goal with
         | E : ?f ?a = ?f ?b |- _ => try rewrite E; clear E
         end.

Lemma config_lenSED (s s' : Recorder) :
  config s' = config s -> lenSED s' = lenSED s.
Proof. intros H. unfold lenSED. use_config H. reflexivity. Qed.

Lemma config_lenIFU (s s' : Recorder) :
  config s' = config s -> lenIFU s' = lenIFU s.
Proof. intros H. unfold lenIFU. use_config H. reflexivity. Qed.

Lemma config_channelAllocated (s s' : Recorder) (ch : Z) :
  config s' = config s -> channelAllocated s' ch = channelAllocated s ch.
Proof. intros H. unfold channelAllocated. use_config H. reflexivity. Qed.

Lemma config_frame_fits (s s' : Recorder) :
  config s' = config s -> frame_fits s -> frame_fits s'.
Proof. intros H. unfold frame_fits. use_config H. trivial. Qed.


Lemma config_flags (s s' : Recorder) :
  config s' = config s ->
  _recordStatistics s' = _recordStatistics s /\
  _recordTotalOnly s' = _recordTotalOnly s /\
  _numPixelsInFrame s' = _numPixelsInFrame s /\
  negb (_recordComponents s') || negb (_hasMedium s')
  = negb (_recordComponents s) || negb (_hasMedium s) /\
  _numPixelsX s' * _numPixelsY s' = _numPixelsX s * _numPixelsY s /\
  _includeFluxDensity s' = _includeFluxDensity s /\
  _includeSurfaceBrightness s' = _includeSurfaceBrightness s.
Proof. intros H. use_config H. repeat split. Qed.

Lemma shapes_ready_transfer (s s' : Recorder) :
  config s' = config s ->
  same_lengths (_sed s') (_sed s) -> same_lengths (_ifu s') (_ifu s) ->
  shapes_ready s -> shapes_ready s'.
Proof.
  intros Hc [_ Ls] [_ Li] (Hs & Hi & Hf & Hp).
  destruct (config_flags s s' Hc) as (_ & F2 & F3 & F4 & F5 & _).
  split; [|split; [|split]].
  - intros ch. rewrite Ls, (config_channelAllocated s s' ch Hc),
      (config_lenSED s s' Hc). apply Hs.
  - intros ch. rewrite Li, (config_channelAllocated s s' ch Hc),
      (config_lenIFU s s' Hc). apply Hi.
  - now rewrite F2, F4.
  - now rewrite F3, F5.
Qed.




Lemma recordContributions_nil (s : Recorder) (cl : ContributionList) :
  _contributions cl = [] -> recordContributions s cl = Some s.
Proof.
  intros H. unfold recordContributions, sorted_contributions. rewrite H.
  cbn [sort_by fold_right fold_bins].
  destruct (_includeFluxDensity s), (_includeSurfaceBrightness s); cbn [obind];
    now destruct s.
Qed.




(** The contribution lists after a detection. *)
Lemma detect_lists (exp : Q -> Q) (s s' : Recorder) (t : nat)
  (pp : PhotonPacket) (l : Z) (tau : Q) :
  detect exp s t pp l tau = Some s' ->
  _contributionLists s'
  = if _recordStatistics s then
      set_local (_contributionLists s) t
        (addContribution
           (if hasHistoryIndex (local (_contributionLists s) t) (historyIndex pp)
            then local (_contributionLists s) t
            else reset (historyIndex pp))
           (ell (_lambdagrid s) (lambda pp)) l
           (luminosity pp * exp (- tau))%Q)
    else _contributionLists s.
Proof.
  unfold detect, obind. intros H.
  destruct (if _includeFluxDensity s then _ else _) as [sed|]; [|discriminate].
  destruct (if _includeSurfaceBrightness s && (l >=? 0) then _ else _)
    as [ifu|]; [|discriminate].
  destruct (_recordStatistics s); [|now injection H as <-].
  cbn [_contributionLists with_arrays] in H.
  destruct (hasHistoryIndex (local (_contributionLists s) t) (historyIndex pp));
    cbn [negb] in H.
  - now injection H as <-.
  - destruct (recordContributions _ _) as [s2|] eqn:E2 in H; [|discriminate].
    injection H as <-. apply recordContributions_keeps_flux in E2.
    destruct E2 as (_ & _ & El). cbn [fst snd _contributionLists with_lists].
    rewrite El. reflexivity.
Qed.








(** *** What [flush] changes *)

Lemma flush_lists_shapes (ls : list (nat * ContributionList)) :
  forall s s' ls',
    flush_lists s ls = Some (s', ls') ->
    config s' = config s /\ _sed s' = _sed s /\ _ifu s' = _ifu s /\
    same_lengths (_wsed s') (_wsed s) /\ same_lengths (_wifu s') (_wifu s) /\
    ls' = map (fun p => (fst p, reset 0)) ls /\
    (Forall (fun p => _contributions (snd p) = []) ls ->
     _wsed s' = _wsed s /\ _wifu s' = _wifu s).
Proof.
  induction ls as [|[t cl] ls IH]; intros s s' ls' H; cbn [flush_lists] in H.
  - injection H as <- <-. repeat split; reflexivity.
  - unfold obind in H.
    destruct (recordContributions s cl) as [s1|] eqn:E1; [|discriminate].
    destruct (flush_lists s1 ls) as [[s2 ls2]|] eqn:E2; [|discriminate].
    cbn [fst snd] in H. injection H as <- <-.
    destruct (recordContributions_shapes s s1 cl E1)
      as (Hc & Es & Ei & Lw & Li & _).
    destruct (IH _ _ _ E2) as (Hc' & Es' & Ei' & Lw' & Li' & -> & Hnil).
    split; [congruence|]. split; [congruence|]. split; [congruence|].
    split; [eapply same_lengths_trans; eassumption|].
    split; [eapply same_lengths_trans; eassumption|].
    split; [reflexivity|].
    intros Hall. inversion Hall as [|? ? Hcl Hrest]; subst. cbn [snd] in Hcl.
    rewrite (recordContributions_nil s cl Hcl) in E1. injection E1 as <-.
    now apply Hnil.
Qed.

Lemma local_map_reset (ls : list (nat * ContributionList)) (t : nat) :
  local (map (fun p => (fst p, reset 0)) ls) t = reset 0.
Proof.
  induction ls as [|[u cl] ls IH]; cbn [map local fst]; [reflexivity|].
  destruct (Nat.eqb t u); [reflexivity | exact IH].
Qed.

(** X17: [flush] changes nothing but the statistics arrays and the
    contribution lists.  The settings, the SED arrays and the IFU arrays
    are as before and the statistics arrays keep their lengths; every
    thread keeps its list, reset to no contributions and history index 0;
    and when no contribution is pending, the statistics arrays are as
    before as well. *)
Theorem flush_resets_lists_and_keeps_flux (s s' : Recorder) :
  flush s = Some s' ->
  config s' = config s /\ _sed s' = _sed s /\ _ifu s' = _ifu s /\
  same_lengths (_wsed s') (_wsed s) /\ same_lengths (_wifu s') (_wifu s) /\
  _contributionLists s'
  = map (fun p => (fst p, reset 0)) (_contributionLists s) /\
  (forall t, local (_contributionLists s') t = reset 0) /\
  (Forall (fun p => _contributions (snd p) = []) (_contributionLists s) ->
   _wsed s' = _wsed s /\ _wifu s' = _wifu s).
Proof.
  unfold flush, obind. intros H.
  destruct (flush_lists s (_contributionLists s)) as [[s1 ls1]|] eqn:E;
    [|discriminate].
  cbn [fst snd] in H. injection H as <-.
  destruct (flush_lists_shapes _ _ _ _ E)
    as (Hc & Es & Ei & Lw & Li & -> & Hnil).
  cbn [_sed _ifu _wsed _wifu _contributionLists with_lists].
  split; [exact Hc|]. split; [exact Es|]. split; [exact Ei|].
  split; [exact Lw|]. split; [exact Li|]. split; [reflexivity|].
  split; [|exact Hnil].
  intros t. apply local_map_reset.
Qed.

Lemma flush_resets_lists_and_keeps_flux_witness :
  exists s s',
    after_three_detections = Some s /\ flush s = Some s' /\
    _sed s' = _sed s /\ _ifu s' = _ifu s /\
    _contributionLists s' = [(0%nat, reset 0); (1%nat, reset 0)].
Proof.
  destruct after_three_detections as [s|] eqn:Es;
    [|vm_compute in Es; discriminate].
  destruct (flush s) as [s'|] eqn:E;
    [|vm_compute in Es; injection Es as <-; vm_compute in E; discriminate].
  exists s, s'. split; [reflexivity|]. split; [exact E|].
  destruct (flush_resets_lists_and_keeps_flux s s' E)
    as (_ & H1 & H2 & _ & _ & H3 & _).
  split; [exact H1|]. split; [exact H2|].
  rewrite H3. vm_compute in Es. injection Es as <-. reflexivity.
Defined.

(** *** Histories *)

Lemma recordContributions_statistics (s : Recorder) (sed ifu : list Array)
  (cl : ContributionList) (s2 : Recorder) :
  recordContributions (with_arrays s sed ifu (_wsed s) (_wifu s)) cl = Some s2 ->
  exists s2',
    recordContributions s cl = Some s2' /\
    _wsed s2 = _wsed s2' /\ _wifu s2 = _wifu s2'.
Proof.
  unfold recordContributions, obind.
  cbn [_includeFluxDensity _includeSurfaceBrightness _numPixelsInFrame
       _wsed _wifu with_arrays].
  intros H.
  destruct (if _includeFluxDensity s then _ else _) as [wsed|]; [|discriminate].
  destruct (if _includeSurfaceBrightness s then _ else _) as [wifu|];
    [|discriminate].
  injection H as <-. eexists. split; [reflexivity|]. split; reflexivity.
Qed.

(** X18: the contributions of a photon packet history are folded into the
    statistics when the thread detects a packet of another history, not
    before.  With statistics recorded, a detection by thread [t] of a
    packet with the history index of the list of [t] appends its
    contribution [(ell, l, Lext)] to the list and leaves the statistics
    arrays as they are; a detection of a packet with another history index
    first folds the list into the statistics arrays and then starts the
    list afresh, with the new history index and that single contribution.
    The lists of the other threads are not touched. *)
Theorem detect_folds_history_when_next_begins (exp : Q -> Q)
  (s s' : Recorder) (t : nat) (pp : PhotonPacket) (l : Z) (tau : Q) :
  _recordStatistics s = true ->
  detect exp s t pp l tau = Some s' ->
  let cl := local (_contributionLists s) t in
  let c := mkContribution (ell (_lambdagrid s) (lambda pp)) l
                          (luminosity pp * exp (- tau))%Q in
  (historyIndex pp = _historyIndex cl ->
   _wsed s' = _wsed s /\ _wifu s' = _wifu s /\
   local (_contributionLists s') t
   = mkContributionList (_historyIndex cl) (_contributions cl ++ [c])) /\
  (historyIndex pp <> _historyIndex cl ->
   exists s2,
     recordContributions s cl = Some s2 /\
     _wsed s' = _wsed s2 /\ _wifu s' = _wifu s2 /\
     local (_contributionLists s') t
     = mkContributionList (historyIndex pp) [c]) /\
  (forall u, u <> t ->
             local (_contributionLists s') u = local (_contributionLists s) u).
Proof.
  intros Hst H cl c.
  pose proof (detect_lists exp s s' t pp l tau H) as Hl. rewrite Hst in Hl.
  fold cl in Hl.
  split; [|split].
  - intros Hh.
    assert (Eh : hasHistoryIndex cl (historyIndex pp) = true)
      by (unfold hasHistoryIndex; apply Z.eqb_eq; congruence).
    rewrite Eh in Hl. rewrite Hl, local_set_local.
    split; [|split; [|reflexivity]].
    + unfold detect, obind in H.
      destruct (if _includeFluxDensity s then _ else _); [|discriminate].
      destruct (if _includeSurfaceBrightness s && (l >=? 0) then _ else _);
        [|discriminate].
      rewrite Hst in H. cbn [_contributionLists with_arrays] in H.
      fold cl in H. rewrite Eh in H. cbn [negb] in H. now injection H as <-.
    + unfold detect, obind in H.
      destruct (if _includeFluxDensity s then _ else _); [|discriminate].
      destruct (if _includeSurfaceBrightness s && (l >=? 0) then _ else _);
        [|discriminate].
      rewrite Hst in H. cbn [_contributionLists with_arrays] in H.
      fold cl in H. rewrite Eh in H. cbn [negb] in H. now injection H as <-.
  - intros Hh.
    assert (Eh : hasHistoryIndex cl (historyIndex pp) = false)
      by (unfold hasHistoryIndex; apply Z.eqb_neq; congruence).
    rewrite Eh in Hl.
    unfold detect, obind in H.
    destruct (if _includeFluxDensity s then _ else _) as [sed|]; [|discriminate].
    destruct (if _includeSurfaceBrightness s && (l >=? 0) then _ else _)
      as [ifu|]; [|discriminate].
    rewrite Hst in H. cbn [_contributionLists with_arrays] in H.
    fold cl in H. rewrite Eh in H. cbn [negb] in H.
    destruct (recordContributions _ cl) as [s2|] eqn:E2; [|discriminate].
    injection H as <-.
    destruct (recordContributions_statistics s sed ifu cl s2 E2)
      as (s2' & E' & Ew & Ei).
    exists s2'. split; [exact E'|].
    cbn [fst snd _wsed _wifu with_lists].
    split; [exact Ew|]. split; [exact Ei|].
    cbn [_contributionLists with_lists] in Hl |- *.
    apply recordContributions_keeps_flux in E2. destruct E2 as (_ & _ & El).
    cbn [_contributionLists with_arrays] in El. rewrite El.
    rewrite local_set_local. reflexivity.
  - intros u Hu. rewrite Hl. now apply local_set_local_other.
Qed.

Lemma detect_folds_history_when_next_begins_witness :
  exists s s',
    detect exp_poly full_recorder 0 (packet 3 0 2 5) 3 0 = Some s /\
    detect exp_poly s 0 (packet 1 0 1 6) 0 0 = Some s' /\
    local (_contributionLists s') 0
    = mkContributionList 6 [mkContribution 1 0 (1 * exp_poly (- 0))%Q] /\
    exists s2,
      recordContributions s (local (_contributionLists s) 0) = Some s2 /\
      _wsed s' = _wsed s2.
Proof.
  destruct (detect exp_poly full_recorder 0 (packet 3 0 2 5) 3 0) as [s|] eqn:E1;
    [|vm_compute in E1; discriminate].
  destruct (detect exp_poly s 0 (packet 1 0 1 6) 0 0) as [s'|] eqn:E2;
    [|vm_compute in E1; injection E1 as <-; vm_compute in E2; discriminate].
  exists s, s'. split; [reflexivity|]. split; [exact E2|].
  assert (Hst : _recordStatistics s = true)
    by (vm_compute in E1; injection E1 as <-; reflexivity).
  destruct (detect_folds_history_when_next_begins exp_poly s s' 0
              (packet 1 0 1 6) 0 0 Hst E2) as (_ & Hnew & _).
  destruct Hnew as (s2 & Er & Ew & _ & Hl).
  - vm_compute in E1. injection E1 as <-. vm_compute. discriminate.
  - split.
    + rewrite Hl. vm_compute in E1. injection E1 as <-. reflexivity.
    + exists s2. split; [exact Er | exact Ew].
Defined.


Lemma detect_records_ifu_witness :
  exists s',
    detect exp_poly frame_recorder 0 (packet 3 0 2 5) 1 0 = Some s' /\
    cell (_ifu s') Transparent 13 = (cell (_ifu frame_recorder) Transparent 13 + 2)%Q.
Proof.
  destruct (detect_records_ifu exp_poly frame_recorder 0 (packet 3 0 2 5) 1 0)
    as (Heff & Hdef).
  destruct Hdef as (_ & Hex);
    [apply frame_recorder_ready | apply frame_recorder_ready
     | repeat split; vm_compute; congruence |].
  destruct Hex as (s' & E); [reflexivity|].
  exists s'. split; [exact E|].
  destruct (Heff s' E) as (_ & Hin).
  destruct Hin as (H0 & _); [reflexivity | lia | reflexivity | reflexivity
                             | cbn; lia |].
  destruct H0 as (Ht & _); [reflexivity|]. exact Ht.
Defined.

(** *** Calibration and output *)

(** The sum of two arrays, element by element; the sum of two [valarray]s
    of different sizes is undefined. *)
Fixpoint aplus (a b : Array) : option Array :=
  match a, b with
  | [], [] => Some []
  | x :: a', y :: b' => option_map (cons (x + y)%Q) (aplus a' b')
  | _, _ => None
  end.

(** The columns of the SED file and the IFU files, by the flux that they
    hold. *)
Inductive OutputName : Type :=
| TotalFlux
| TransparentFlux
| DirectPrimaryFlux
| ScatteredPrimaryFlux
| DirectSecondaryFlux
| ScatteredSecondaryFlux
| TotalStokesQ
| TotalStokesU
| TotalStokesV
| TimesScatteredPrimaryFlux (n : Z).

(** What [calibrateAndWrite] writes: the columns and the rows of the SED
    file, when there is one, and the IFU files with their data. *)
Record Output : Type := mkOutput {
  sedOutput : option (list OutputName * list (list Q));
  ifuOutput : list (OutputName * Array)
}.

(** The element of an array at an index, for statements (zero where there
    is no such element). *)
Definition elt (a : Array) (i : Z) : Q :=
  match vget a i with Some x => x | None => 0%Q end.

Section CalibrateAndWrite.

(** For the wavelength bin [ell]: the factor
    [cFluxDensity * units->ofluxdensityFrequency(lambda(ell), 1.)], the
    factor [cSurfaceBrightness * units->osurfacebrightnessFrequency(lambda(ell), 1.)]
    and the wavelength [units->owavelength(lambda(ell))]. *)
Variable sedFactor : Z -> Q.
Variable ifuFactor : Z -> Q.
Variable owavelength : Z -> Q.

(** [array[i] *= factor]. *)
Definition scale_at (array : Array) (i : Z) (factor : Q) : option Array :=
  x <- vget array i ;; vset array i (x * factor)%Q.

Fixpoint scale_all (array : Array) (indices : list Z) (factor : Q)
  : option Array :=
  match indices with
  | [] => Some array
  | i :: rest => a <- scale_at array i factor ;; scale_all a rest factor
  end.

(** [for (auto& array : arrays) if (array.size()) body(array)]. *)
Fixpoint forArrays (body : Array -> option Array) (arrays : list Array)
  : option (list Array) :=
  match arrays with
  | [] => Some []
  | array :: rest =>
      a <- match array with
           | [] => Some []
           | _ :: _ => body array
           end ;;
      r <- forArrays body rest ;;
      Some (a :: r)
  end.

(** The values of [lell] in the loop from [begin = ell * _numPixelsInFrame]
    up to [end = begin + _numPixelsInFrame], all of them of type
    [size_t]. *)
Definition frameIndices (numPixelsInFrame ell : Z) : list Z :=
  let begin := size_t (ell * numPixelsInFrame) in
  map (fun d => size_t (begin + Z.of_nat d))
      (seq 0 (Z.to_nat (size_t numPixelsInFrame))).

(** The body of the calibration loop for one wavelength bin. *)
Definition calibrate_ell (s : Recorder) (ell : Z) : option Recorder :=
  sed <- (if _includeFluxDensity s
          then forArrays (fun array => scale_at array ell (sedFactor ell))
                         (_sed s)
          else Some (_sed s)) ;;
  ifu <- (if _includeSurfaceBrightness s
          then forArrays
                 (fun array =>
                    scale_all array (frameIndices (_numPixelsInFrame s) ell)
                              (ifuFactor ell))
                 (_ifu s)
          else Some (_ifu s)) ;;
  Some (with_arrays s sed ifu (_wsed s) (_wifu s)).

Fixpoint calibrate_loop (s : Recorder) (ells : list Z) : option Recorder :=
  match ells with
  | [] => Some s
  | ell :: rest => s' <- calibrate_ell s ell ;; calibrate_loop s' rest
  end.

(** The values of the loop variable in
    [for (int ell=0; ell!=numWavelengths; ++ell)]; with a negative number
    of wavelengths the loop does not end before the variable overflows. *)
Definition wavelengthIndices (s : Recorder) : option (list Z) :=
  let n := numWavelengths (_lambdagrid s) in
  if n <? 0 then None else Some (map Z.of_nat (seq 0 (Z.to_nat n))).

Definition calibrate (s : Recorder) : option Recorder :=
  ells <- wavelengthIndices s ;; calibrate_loop s ells.

(** The total flux: the array recorded for it, or the sum of the
    components. *)
Definition totalArray (s : Recorder) (arrays : list Array) : option Array :=
  if _recordTotalOnly s then vget arrays Total
  else
    pd <- vget arrays PrimaryDirect ;;
    ps <- vget arrays PrimaryScattered ;;
    total <- aplus pd ps ;;
    if _hasMediumEmission s then
      sd <- vget arrays SecondaryDirect ;;
      ss <- vget arrays SecondaryScattered ;;
      secondary <- aplus sd ss ;;
      aplus total secondary
    else Some total.

Definition stokesArrays (s : Recorder) (arrays : list Array)
  : option (list (OutputName * Array)) :=
  if _recordPolarization s then
    q <- vget arrays TotalQ ;;
    u <- vget arrays TotalU ;;
    v <- vget arrays TotalV ;;
    Some [(TotalStokesQ, q); (TotalStokesU, u); (TotalStokesV, v)]
  else Some [].

Fixpoint levelLoop (arrays : list Array) (i : Z) (count : nat)
  : option (list (OutputName * Array)) :=
  match count with
  | O => Some []
  | S count' =>
      a <- vget arrays (PrimaryScatteredLevel + i) ;;
      r <- levelLoop arrays (i + 1) count' ;;
      Some ((TimesScatteredPrimaryFlux (i + 1), a) :: r)
  end.

(** [if (!_recordTotalOnly) for (int i=0; i!=_numScatteringLevels; ++i)]. *)
Definition levelArrays (s : Recorder) (arrays : list Array)
  : option (list (OutputName * Array)) :=
  if _recordTotalOnly s then Some []
  else if _numScatteringLevels s <? 0 then None
       else levelLoop arrays 0 (Z.to_nat (_numScatteringLevels s)).

(** The columns of the SED file after the wavelength, with their arrays
    (which may be empty). *)
Definition sedColumns (s : Recorder) : option (list (OutputName * Array)) :=
  let sed := _sed s in
  total <- totalArray s sed ;;
  components <-
    (if _recordComponents s then
       tr <- vget sed (if _recordTotalOnly s then Total else Transparent) ;;
       pd <- vget sed PrimaryDirect ;;
       ps <- vget sed PrimaryScattered ;;
       sd <- vget sed SecondaryDirect ;;
       ss <- vget sed SecondaryScattered ;;
       Some [(TransparentFlux, tr); (DirectPrimaryFlux, pd);
             (ScatteredPrimaryFlux, ps); (DirectSecondaryFlux, sd);
             (ScatteredSecondaryFlux, ss)]
     else Some []) ;;
  stokes <- stokesArrays s sed ;;
  levels <- levelArrays s sed ;;
  Some ((TotalFlux, total) :: components ++ stokes ++ levels).

(** The values of a row: for every column the element of its array at
    [ell], and zero for an array that is empty. *)
Fixpoint rowValues (arrays : list Array) (ell : Z) : option (list Q) :=
  match arrays with
  | [] => Some []
  | array :: rest =>
      x <- match array with
           | [] => Some 0%Q
           | _ :: _ => vget array ell
           end ;;
      r <- rowValues rest ell ;;
      Some (x :: r)
  end.

Fixpoint writeRows (arrays : list Array) (ells : list Z)
  : option (list (list Q)) :=
  match ells with
  | [] => Some []
  | ell :: rest =>
      values <- rowValues arrays ell ;;
      rows <- writeRows arrays rest ;;
      Some ((owavelength ell :: values) :: rows)
  end.

Definition sedFile (s : Recorder)
  : option (list OutputName * list (list Q)) :=
  columns <- sedColumns s ;;
  ells <- wavelengthIndices s ;;
  rows <- writeRows (map snd columns) ells ;;
  Some (map fst columns, rows).

(** The IFU files that are written: one for every array that is not
    empty. *)
Definition ifuFiles (s : Recorder) : option (list (OutputName * Array)) :=
  let ifu := _ifu s in
  total <- totalArray s ifu ;;
  components <-
    (if _recordComponents s then
       transparent <-
         (if _recordTotalOnly s then Some []
          else tr <- vget ifu Transparent ;; Some [(TransparentFlux, tr)]) ;;
       pd <- vget ifu PrimaryDirect ;;
       ps <- vget ifu PrimaryScattered ;;
       sd <- vget ifu SecondaryDirect ;;
       ss <- vget ifu SecondaryScattered ;;
       Some (transparent ++
             [(DirectPrimaryFlux, pd); (ScatteredPrimaryFlux, ps);
              (DirectSecondaryFlux, sd); (ScatteredSecondaryFlux, ss)])
     else Some []) ;;
  stokes <- stokesArrays s ifu ;;
  levels <- levelArrays s ifu ;;
  Some (filter (fun file => match snd file with [] => false | _ => true end)
               ((TotalFlux, total) :: components ++ stokes ++ levels)).

(** [calibrateAndWrite] in the root process of a run with a single
    process, where [sumToRoot] leaves the arrays as they are. *)
Definition calibrateAndWrite (s : Recorder) : option (Recorder * Output) :=
  s' <- calibrate s ;;
  sedOut <- (if _includeFluxDensity s'
             then file <- sedFile s' ;; Some (Some file)
             else Some None) ;;
  ifuOut <- (if _includeSurfaceBrightness s' then ifuFiles s' else Some []) ;;
  Some (s', mkOutput sedOut ifuOut).

(** *** The calibration scales every bin once *)

(** The product of the factors [g e] over a list. *)
Definition product (g : Z -> Q) (l : list Z) : Q :=
  fold_right (fun e acc => (g e * acc)%Q) 1%Q l.

(** The factor that [scale_all] applies to the element at [j]. *)
Definition applied (indices : list Z) (factor : Q) (j : Z) : Q :=
  product (fun i => if j =? i then factor else 1%Q) indices.

Lemma product_one (g : Z -> Q) (l : list Z) :
  (forall e, In e l -> (g e == 1)%Q) -> (product g l == 1)%Q.
Proof.
  induction l as [|a l IH]; intros H; cbn [product fold_right];
    [reflexivity|].
  fold (product g l). rewrite (H a (or_introl eq_refl)), IH; [ring|].
  intros e He. apply H. now right.
Qed.

Lemma product_single (g : Z -> Q) (l : list Z) (e0 : Z) :
  NoDup l -> In e0 l ->
  (forall e, In e l -> e <> e0 -> (g e == 1)%Q) ->
  (product g l == g e0)%Q.
Proof.
  induction l as [|a l IH]; intros Hnd Hin H; [contradiction|].
  cbn [product fold_right]. fold (product g l).
  inversion Hnd as [|? ? Hna Hnd']; subst.
  destruct Hin as [->|Hin].
  - rewrite product_one; [ring|].
    intros e He. apply H; [now right|]. intros ->. contradiction.
  - rewrite (H a (or_introl eq_refl)), IH; try assumption; [ring | |].
    + intros e He. apply H. now right.
    + intros ->. contradiction.
Qed.

Lemma applied_in (indices : list Z) (factor : Q) (j : Z) :
  NoDup indices -> In j indices -> (applied indices factor j == factor)%Q.
Proof.
  intros Hnd Hin. unfold applied.
  rewrite (product_single _ indices j Hnd Hin).
  - now rewrite Z.eqb_refl.
  - intros e _ He. destruct (Z.eqb_spec j e); [congruence | reflexivity].
Qed.

Lemma applied_out (indices : list Z) (factor : Q) (j : Z) :
  ~ In j indices -> (applied indices factor j == 1)%Q.
Proof.
  intros Hout. unfold applied. apply product_one.
  intros e He. destruct (Z.eqb_spec j e); [subst; contradiction | reflexivity].
Qed.

Lemma elt_nil (j : Z) : elt [] j = 0%Q.
Proof.
  unfold elt, vget, in_range. cbn [length].
  destruct ((0 <=? j) && (j <? Z.of_nat 0)) eqn:E; [|reflexivity].
  apply andb_true_iff in E. rewrite Z.leb_le, Z.ltb_lt in E. lia.
Qed.

Lemma scale_at_spec (a : Array) (i : Z) (f : Q) :
  0 <= i < Z.of_nat (length a) ->
  exists a',
    scale_at a i f = Some a' /\ length a' = length a /\
    forall j, (elt a' j == elt a j * (if j =? i then f else 1))%Q.
Proof.
  intros Hi. unfold scale_at, obind.
  destruct (vget_some a i Hi) as [x Ex]. rewrite Ex.
  destruct (vset_some a i (x * f)%Q Hi) as [a' Es]. rewrite Es.
  exists a'. split; [reflexivity|].
  apply vset_spec in Es. destruct Es as (_ & L & G & O).
  split; [exact L|]. intros j. unfold elt.
  destruct (Z.eqb_spec j i) as [->|Hne].
  - rewrite G, Ex. reflexivity.
  - rewrite (O j Hne). ring.
Qed.

Lemma scale_all_spec (indices : list Z) (f : Q) :
  forall a,
    (forall i, In i indices -> 0 <= i < Z.of_nat (length a)) ->
    exists a',
      scale_all a indices f = Some a' /\ length a' = length a /\
      forall j, (elt a' j == elt a j * applied indices f j)%Q.
Proof.
  induction indices as [|i rest IH]; intros a Hin.
  - exists a. split; [reflexivity|]. split; [reflexivity|].
    intros j. unfold applied. cbn [product fold_right]. ring.
  - destruct (scale_at_spec a i f (Hin i (or_introl eq_refl)))
      as (a1 & E1 & L1 & H1).
    destruct (IH a1) as (a' & E' & L' & H').
    { intros k Hk. rewrite L1. apply Hin. now right. }
    exists a'. cbn [scale_all]. rewrite E1. cbn [obind].
    split; [exact E'|]. split; [congruence|].
    intros j. rewrite H', H1. unfold applied, product. cbn [fold_right].
    ring.
Qed.

Lemma vget_cons {A : Type} (a : A) (l : list A) (ch : Z) :
  vget (a :: l) ch = if ch =? 0 then Some a else vget l (ch - 1).
Proof.
  unfold vget, in_range. cbn [length].
  destruct (Z.eqb_spec ch 0) as [->|Hne]; [reflexivity|].
  destruct (Z.leb_spec 0 ch) as [Hpos|Hneg]; cbn [andb].
  - destruct (Z.leb_spec 0 (ch - 1)); [|lia]. cbn [andb].
    replace (Z.to_nat ch) with (S (Z.to_nat (ch - 1))) by lia.
    cbn [nth_error].
    destruct (Z.ltb_spec ch (Z.of_nat (S (length l))));
      destruct (Z.ltb_spec (ch - 1) (Z.of_nat (length l)));
      try reflexivity; lia.
  - destruct (Z.leb_spec 0 (ch - 1)); [lia | reflexivity].
Qed.

Lemma In_vget {A : Type} (a : A) (l : list A) :
  In a l -> exists ch, vget l ch = Some a.
Proof.
  intros H. apply In_nth_error in H. destruct H as [n Hn].
  exists (Z.of_nat n). unfold vget.
  assert (Hlt : (n < length l)%nat)
    by (apply nth_error_Some; congruence).
  rewrite (proj2 (in_range_spec l (Z.of_nat n))) by lia.
  now rewrite Nat2Z.id.
Qed.

Lemma forArrays_spec (body : Array -> option Array) (m : Z -> Q)
  (arrays : list Array) :
  (forall a, In a arrays -> a <> [] ->
     exists a', body a = Some a' /\ length a' = length a /\
                forall j, (elt a' j == elt a j * m j)%Q) ->
  exists arrays',
    forArrays body arrays = Some arrays' /\
    same_lengths arrays' arrays /\
    forall ch j, (cell arrays' ch j == cell arrays ch j * m j)%Q.
Proof.
  induction arrays as [|a rest IH]; intros H.
  - exists []. split; [reflexivity|]. split; [apply same_lengths_refl|].
    intros ch j. unfold cell, vget, in_range. cbn [length].
    destruct ((0 <=? ch) && (ch <? Z.of_nat 0)) eqn:E.
    + apply andb_true_iff in E. rewrite Z.leb_le, Z.ltb_lt in E. lia.
    + ring.
  - destruct IH as (rest' & Er & (Lr & Cr) & Hr).
    { intros b Hb. apply H. now right. }
    assert (Ha : exists a',
               match a with [] => Some [] | _ :: _ => body a end = Some a' /\
               length a' = length a /\
               forall j, (elt a' j == elt a j * m j)%Q).
    { destruct a as [|x a].
      - exists []. split; [reflexivity|]. split; [reflexivity|].
        intros j. rewrite elt_nil. ring.
      - apply H; [now left | discriminate]. }
    destruct Ha as (a' & Ea & La & Hj).
    exists (a' :: rest'). cbn [forArrays]. rewrite Ea. cbn [obind].
    rewrite Er. cbn [obind]. split; [reflexivity|].
    split; [split|].
    + cbn [length]. now rewrite Lr.
    + intros ch. unfold channelLength. rewrite !vget_cons.
      destruct (ch =? 0); [now rewrite La|]. apply (Cr (ch - 1)).
    + intros ch j. unfold cell. rewrite !vget_cons.
      destruct (ch =? 0); [apply Hj|]. apply (Hr (ch - 1) j).
Qed.

(** Every array of the family is empty or has the length [len]. *)
Definition uniform (len : Z) (arrays : list Array) : Prop :=
  forall ch, channelLength arrays ch = len \/ channelLength arrays ch = 0.

Lemma uniform_In (len : Z) (arrays : list Array) (a : Array) :
  uniform len arrays -> In a arrays -> a <> [] ->
  Z.of_nat (length a) = len.
Proof.
  intros Hu Hin Hne. destruct (In_vget a arrays Hin) as [ch Hch].
  specialize (Hu ch). unfold channelLength in Hu. rewrite Hch in Hu.
  destruct Hu as [Hu|Hu]; [exact Hu|].
  destruct a; [congruence | cbn [length] in Hu; lia].
Qed.

Lemma uniform_same (len : Z) (a b : list Array) :
  same_lengths a b -> uniform len b -> uniform len a.
Proof. intros [_ H] Hu ch. rewrite H. apply Hu. Qed.

Lemma family_ready_uniform (s : Recorder) (arrays : list Array) (len : Z) :
  family_ready s arrays len -> uniform len arrays.
Proof.
  intros H ch. rewrite (H ch). destruct (channelAllocated s ch); auto.
Qed.

Lemma frameIndices_spec (numPixelsInFrame ell : Z) :
  0 <= ell -> 0 <= numPixelsInFrame ->
  (ell + 1) * numPixelsInFrame < SIZE_MOD ->
  NoDup (frameIndices numPixelsInFrame ell) /\
  forall j, In j (frameIndices numPixelsInFrame ell) <->
            ell * numPixelsInFrame <= j < (ell + 1) * numPixelsInFrame.
Proof.
  intros He Hn Hs. unfold frameIndices.
  assert (Hsn : numPixelsInFrame < SIZE_MOD) by nia.
  rewrite (Parallel.size_t_small numPixelsInFrame) by lia.
  rewrite (Parallel.size_t_small (ell * numPixelsInFrame)) by nia.
  assert (Hmap : map (fun d => size_t (ell * numPixelsInFrame + Z.of_nat d))
                     (seq 0 (Z.to_nat numPixelsInFrame))
                 = map (fun d => ell * numPixelsInFrame + Z.of_nat d)
                       (seq 0 (Z.to_nat numPixelsInFrame))).
  { apply map_ext_in. intros d Hd. apply in_seq in Hd.
    apply Parallel.size_t_small. nia. }
  rewrite Hmap. split.
  - apply Finite.Injective_map_NoDup; [|apply seq_NoDup].
    intros a b Hab. lia.
  - intros j. rewrite in_map_iff. split.
    + intros (d & <- & Hd). apply in_seq in Hd. lia.
    + intros Hj. exists (Z.to_nat (j - ell * numPixelsInFrame)).
      split; [lia|]. apply in_seq. lia.
Qed.

Lemma calibrate_ell_spec (s : Recorder) (ell : Z) :
  shapes_ready s -> frame_fits s ->
  0 <= ell < numWavelengths (_lambdagrid s) ->
  exists s',
    calibrate_ell s ell = Some s' /\
    config s' = config s /\ _wsed s' = _wsed s /\ _wifu s' = _wifu s /\
    _contributionLists s' = _contributionLists s /\
    same_lengths (_sed s') (_sed s) /\ same_lengths (_ifu s') (_ifu s) /\
    (forall ch j,
        (cell (_sed s') ch j
         == cell (_sed s) ch j
            * (if _includeFluxDensity s
               then applied [ell] (sedFactor ell) j else 1))%Q) /\
    (forall ch j,
        (cell (_ifu s') ch j
         == cell (_ifu s) ch j
            * (if _includeSurfaceBrightness s
               then applied (frameIndices (_numPixelsInFrame s) ell)
                            (ifuFactor ell) j
               else 1))%Q).
Proof.
  intros (Hsed & Hifu & _ & Hpix) (Hp & HnW & Hfit) Hell.
  unfold calibrate_ell.
  assert (E1 : exists sed,
             (if _includeFluxDensity s
              then forArrays (fun array => scale_at array ell (sedFactor ell))
                             (_sed s)
              else Some (_sed s)) = Some sed /\
             same_lengths sed (_sed s) /\
             forall ch j,
               (cell sed ch j
                == cell (_sed s) ch j
                   * (if _includeFluxDensity s
                      then applied [ell] (sedFactor ell) j else 1))%Q).
  { destruct (_includeFluxDensity s) eqn:Ef.
    - apply forArrays_spec. intros a Ha Hne.
      pose proof (uniform_In _ _ a (family_ready_uniform s _ _ Hsed) Ha Hne)
        as La.
      unfold lenSED in La. rewrite Ef in La.
      destruct (scale_at_spec a ell (sedFactor ell)) as (a' & E & L & H);
        [lia|].
      exists a'. split; [exact E|]. split; [exact L|].
      intros j. rewrite H. unfold applied, product. cbn [fold_right]. ring.
    - exists (_sed s). split; [reflexivity|].
      split; [apply same_lengths_refl|]. intros ch j. ring. }
  assert (E2 : exists ifu,
             (if _includeSurfaceBrightness s
              then forArrays
                     (fun array =>
                        scale_all array
                                  (frameIndices (_numPixelsInFrame s) ell)
                                  (ifuFactor ell)) (_ifu s)
              else Some (_ifu s)) = Some ifu /\
             same_lengths ifu (_ifu s) /\
             forall ch j,
               (cell ifu ch j
                == cell (_ifu s) ch j
                   * (if _includeSurfaceBrightness s
                      then applied (frameIndices (_numPixelsInFrame s) ell)
                                   (ifuFactor ell) j
                      else 1))%Q).
  { destruct (_includeSurfaceBrightness s) eqn:Ef.
    - apply forArrays_spec. intros a Ha Hne.
      pose proof (uniform_In _ _ a (family_ready_uniform s _ _ Hifu) Ha Hne)
        as La.
      unfold lenIFU in La. rewrite Ef in La.
      destruct (frameIndices_spec (_numPixelsInFrame s) ell) as (_ & Hin);
        [lia | rewrite Hpix; exact Hp | rewrite Hpix; nia |].
      apply scale_all_spec. intros i Hi. apply Hin in Hi.
      rewrite Hpix in Hi. nia.
    - exists (_ifu s). split; [reflexivity|].
      split; [apply same_lengths_refl|]. intros ch j. ring. }
  destruct E1 as (sed & -> & Ls & Hs). destruct E2 as (ifu & -> & Li & Hi).
  cbn [obind]. eexists. split; [reflexivity|].
  cbn [_sed _ifu _wsed _wifu _contributionLists with_arrays].
  repeat (split; [first [reflexivity | assumption]|]). assumption.
Qed.

Lemma calibrate_loop_spec (ells : list Z) :
  forall s,
    shapes_ready s -> frame_fits s ->
    (forall e, In e ells -> 0 <= e < numWavelengths (_lambdagrid s)) ->
    exists s',
      calibrate_loop s ells = Some s' /\
      config s' = config s /\ _wsed s' = _wsed s /\ _wifu s' = _wifu s /\
      _contributionLists s' = _contributionLists s /\
      same_lengths (_sed s') (_sed s) /\ same_lengths (_ifu s') (_ifu s) /\
      (forall ch j,
          (cell (_sed s') ch j
           == cell (_sed s) ch j
              * (if _includeFluxDensity s
                 then product (fun e => applied [e] (sedFactor e) j) ells
                 else 1))%Q) /\
      (forall ch j,
          (cell (_ifu s') ch j
           == cell (_ifu s) ch j
              * (if _includeSurfaceBrightness s
                 then product
                        (fun e => applied (frameIndices (_numPixelsInFrame s) e)
                                          (ifuFactor e) j) ells
                 else 1))%Q).
Proof.
  induction ells as [|e rest IH]; intros s Hs Hf Hin.
  - exists s. split; [reflexivity|].
    repeat (split; [first [reflexivity | apply same_lengths_refl]|]).
    split; intros ch j; cbn [product fold_right];
      [destruct (_includeFluxDensity s) | destruct (_includeSurfaceBrightness s)];
      ring.
  - destruct (calibrate_ell_spec s e Hs Hf (Hin e (or_introl eq_refl)))
      as (s1 & E1 & C1 & W1 & X1 & L1 & S1 & I1 & Hs1 & Hi1).
    destruct (config_flags s s1 C1) as (_ & _ & Fp & _ & _ & Ffd & Fsb).
    assert (Hgrid : _lambdagrid s1 = _lambdagrid s)
      by (unfold config in C1; congruence).
    destruct (IH s1) as (s' & E' & C' & W' & X' & L' & S' & I' & Hs' & Hi').
    { now apply (shapes_ready_transfer s s1). }
    { now apply (config_frame_fits s s1). }
    { intros k Hk. rewrite Hgrid. apply Hin. now right. }
    exists s'. cbn [calibrate_loop]. rewrite E1. cbn [obind].
    split; [exact E'|]. split; [congruence|]. split; [congruence|].
    split; [congruence|]. split; [congruence|].
    split; [eapply same_lengths_trans; eassumption|].
    split; [eapply same_lengths_trans; eassumption|].
    split; intros ch j.
    + rewrite Hs', Hs1, Ffd. unfold product. cbn [fold_right].
      destruct (_includeFluxDensity s); ring.
    + rewrite Hi', Hi1, Fsb, Fp. unfold product. cbn [fold_right].
      destruct (_includeSurfaceBrightness s); ring.
Qed.

Lemma NoDup_wavelengths (n : nat) : NoDup (map Z.of_nat (seq 0 n)).
Proof.
  apply Finite.Injective_map_NoDup; [|apply seq_NoDup].
  intros a b. apply Nat2Z.inj.
Qed.

Lemma In_wavelengths (n : Z) (e : Z) :
  In e (map Z.of_nat (seq 0 (Z.to_nat n))) <-> 0 <= e < n.
Proof.
  rewrite in_map_iff. split.
  - intros (j & <- & Hj). apply in_seq in Hj. lia.
  - intros H. exists (Z.to_nat e). split; [lia|]. apply in_seq. lia.
Qed.

Lemma calibrate_loop_untouched (ells : list Z) :
  forall s s',
    calibrate_loop s ells = Some s' ->
    (_includeFluxDensity s = false -> _sed s' = _sed s) /\
    (_includeSurfaceBrightness s = false -> _ifu s' = _ifu s).
Proof.
  induction ells as [|e rest IH]; intros s s' H; cbn [calibrate_loop] in H.
  - injection H as <-. split; reflexivity.
  - unfold obind in H.
    destruct (calibrate_ell s e) as [s1|] eqn:E1; [|discriminate].
    destruct (IH _ _ H) as (Hs & Hi).
    unfold calibrate_ell, obind in E1.
    destruct (_includeFluxDensity s) eqn:Ef;
      destruct (_includeSurfaceBrightness s) eqn:Eb;
      repeat match type of E1 with
             | match ?c with Some _ => _ | None => _ end = _ =>
                 destruct c; [|discriminate]
             end;
      injection E1 as <-;
      cbn [_includeFluxDensity _includeSurfaceBrightness _sed _ifu
           with_arrays] in Hs, Hi;
      split; intros Hfalse; try discriminate; auto.
Qed.

Lemma calibrate_spec (s : Recorder) :
  shapes_ready s -> frame_fits s ->
  exists s',
    calibrate s = Some s' /\
    config s' = config s /\ _wsed s' = _wsed s /\ _wifu s' = _wifu s /\
    _contributionLists s' = _contributionLists s /\
    same_lengths (_sed s') (_sed s) /\ same_lengths (_ifu s') (_ifu s) /\
    (_includeFluxDensity s = true ->
     forall ch ell, 0 <= ell < numWavelengths (_lambdagrid s) ->
       (cell (_sed s') ch ell == cell (_sed s) ch ell * sedFactor ell)%Q) /\
    (_includeFluxDensity s = false -> _sed s' = _sed s) /\
    (_includeSurfaceBrightness s = true ->
     forall ch ell l,
       0 <= ell < numWavelengths (_lambdagrid s) ->
       0 <= l < _numPixelsX s * _numPixelsY s ->
       let lell := l + ell * (_numPixelsX s * _numPixelsY s) in
       (cell (_ifu s') ch lell == cell (_ifu s) ch lell * ifuFactor ell)%Q) /\
    (_includeSurfaceBrightness s = false -> _ifu s' = _ifu s).
Proof.
  intros Hs Hf. pose proof Hf as (Hp & HnW & Hfit).
    pose proof Hs as (_ & _ & _ & Hpix).
    unfold calibrate, wavelengthIndices.
    destruct (Z.ltb_spec (numWavelengths (_lambdagrid s)) 0) as [|_]; [lia|].
    cbn [obind].
    set (ells := map Z.of_nat (seq 0 (Z.to_nat (numWavelengths (_lambdagrid s))))).
    assert (Hin : forall e, In e ells <-> 0 <= e < numWavelengths (_lambdagrid s))
      by (intros e; apply In_wavelengths).
    assert (Hnd : NoDup ells) by apply NoDup_wavelengths.
    destruct (calibrate_loop_spec ells s Hs Hf (fun e He => proj1 (Hin e) He))
      as (s' & E & C & W & X & L & Ss & Si & Hsed & Hifu).
    destruct (calibrate_loop_untouched ells s s' E) as (Us & Ui).
    exists s'. split; [exact E|].
    repeat (split; [assumption|]).
    split; [|split; [exact Us|split; [|exact Ui]]].
    + intros Ef ch ell Hell. rewrite Hsed, Ef.
      rewrite (product_single _ ells ell Hnd (proj2 (Hin ell) Hell)).
      * rewrite applied_in; [reflexivity | repeat constructor; auto | now left].
      * intros e _ Hne. apply applied_out. intros [->|[]]. congruence.
    + intros Eb ch ell l Hell Hl. rewrite Hifu, Eb, Hpix.
      set (P := _numPixelsX s * _numPixelsY s) in *.
      set (lell := l + ell * P).
      rewrite (product_single _ ells ell Hnd (proj2 (Hin ell) Hell)).
      * destruct (frameIndices_spec P ell) as (Hnd' & Hin'); [lia | lia | nia|].
        rewrite applied_in; [reflexivity | exact Hnd'|].
        apply Hin'. unfold lell. nia.
      * intros e He Hne. apply Hin in He.
        destruct (frameIndices_spec P e) as (_ & Hin'); [lia | lia | nia|].
        apply applied_out. intros Hj. apply Hin' in Hj. unfold lell in Hj.
        nia.
Qed.

(** X21: the calibration of [calibrateAndWrite] multiplies every recorded
    value by the factor of its wavelength bin, exactly once.  In a recorder
    that is ready the loops stay within the arrays; afterwards the element
    [ell] of every SED array is the recorded value times the flux density
    factor of [ell], and the element of pixel [l] and wavelength bin [ell]
    of every IFU array is the recorded value times the surface brightness
    factor of [ell]; a family that is not recorded is left alone.  The
    settings, the lengths of the arrays, the statistics arrays and the
    contribution lists are as before.  With a negative number of
    wavelengths the loop over the wavelengths does not end. *)
Theorem calibrate_scales_every_bin_once (s : Recorder) :
  (shapes_ready s -> frame_fits s ->
   exists s',
     calibrate s = Some s' /\
     config s' = config s /\ _wsed s' = _wsed s /\ _wifu s' = _wifu s /\
     _contributionLists s' = _contributionLists s /\
     same_lengths (_sed s') (_sed s) /\ same_lengths (_ifu s') (_ifu s) /\
     (_includeFluxDensity s = true ->
      forall ch ell, 0 <= ell < numWavelengths (_lambdagrid s) ->
        (cell (_sed s') ch ell == cell (_sed s) ch ell * sedFactor ell)%Q) /\
     (_includeFluxDensity s = false -> _sed s' = _sed s) /\
     (_includeSurfaceBrightness s = true ->
      forall ch ell l,
        0 <= ell < numWavelengths (_lambdagrid s) ->
        0 <= l < _numPixelsX s * _numPixelsY s ->
        let lell := l + ell * (_numPixelsX s * _numPixelsY s) in
        (cell (_ifu s') ch lell == cell (_ifu s) ch lell * ifuFactor ell)%Q) /\
     (_includeSurfaceBrightness s = false -> _ifu s' = _ifu s)) /\
  (numWavelengths (_lambdagrid s) < 0 -> calibrate s = None).
Proof.
  split.
  - apply calibrate_spec.
  - intros Hneg. unfold calibrate, wavelengthIndices.
    destruct (Z.ltb_spec (numWavelengths (_lambdagrid s)) 0) as [_|]; [|lia].
    reflexivity.
Qed.

(** *** The SED file and the IFU files *)

(** The vectors of detector arrays have an entry for every channel. *)
Definition channels_present (s : Recorder) : Prop :=
  0 <= _numScatteringLevels s /\
  Z.of_nat (length (_sed s)) = PrimaryScatteredLevel + _numScatteringLevels s /\
  Z.of_nat (length (_ifu s)) = PrimaryScatteredLevel + _numScatteringLevels s.

(** The channel from which a column other than the total flux is taken. *)
Definition outputChannel (s : Recorder) (name : OutputName) : Z :=
  match name with
  | TotalFlux => Total
  | TransparentFlux => if _recordTotalOnly s then Total else Transparent
  | DirectPrimaryFlux => PrimaryDirect
  | ScatteredPrimaryFlux => PrimaryScattered
  | DirectSecondaryFlux => SecondaryDirect
  | ScatteredSecondaryFlux => SecondaryScattered
  | TotalStokesQ => TotalQ
  | TotalStokesU => TotalU
  | TotalStokesV => TotalV
  | TimesScatteredPrimaryFlux n => PrimaryScatteredLevel + n - 1
  end.

Definition stokesNames (s : Recorder) : list OutputName :=
  if _recordPolarization s then [TotalStokesQ; TotalStokesU; TotalStokesV]
  else [].

Definition levelNames (s : Recorder) : list OutputName :=
  if _recordTotalOnly s then []
  else map (fun i => TimesScatteredPrimaryFlux (Z.of_nat i + 1))
           (seq 0 (Z.to_nat (_numScatteringLevels s))).

(** The columns of the SED file after the wavelength and the total flux. *)
Definition sedNames (s : Recorder) : list OutputName :=
  (if _recordComponents s
   then [TransparentFlux; DirectPrimaryFlux; ScatteredPrimaryFlux;
         DirectSecondaryFlux; ScatteredSecondaryFlux]
   else [])
  ++ stokesNames s ++ levelNames s.

(** The candidates for an IFU file after the total flux. *)
Definition ifuNames (s : Recorder) : list OutputName :=
  (if _recordComponents s
   then (if _recordTotalOnly s then [] else [TransparentFlux])
        ++ [DirectPrimaryFlux; ScatteredPrimaryFlux;
            DirectSecondaryFlux; ScatteredSecondaryFlux]
   else [])
  ++ stokesNames s ++ levelNames s.

(** The column or file holds the array of its channel. *)
Definition holds (s : Recorder) (arrays : list Array)
  (c : OutputName * Array) : Prop :=
  vget arrays (outputChannel s (fst c)) = Some (snd c).

Lemma elt_cons (x : Q) (a : Array) (j : Z) :
  elt (x :: a) j = if j =? 0 then x else elt a (j - 1).
Proof. unfold elt. rewrite vget_cons. now destruct (j =? 0). Qed.

Lemma aplus_spec (a : Array) :
  forall b, length a = length b ->
    exists c, aplus a b = Some c /\ length c = length a /\
              forall j, (elt c j == elt a j + elt b j)%Q.
Proof.
  induction a as [|x a IH]; intros [|y b] L; try discriminate.
  - exists []. split; [reflexivity|]. split; [reflexivity|].
    intros j. rewrite elt_nil. ring.
  - destruct (IH b) as (c & E & Lc & H); [now injection L|].
    exists ((x + y)%Q :: c). cbn [aplus]. rewrite E. cbn [option_map].
    split; [reflexivity|]. split; [cbn [length]; now rewrite Lc|].
    intros j. rewrite !elt_cons. destruct (j =? 0); [reflexivity | apply H].
Qed.

Lemma cell_vget (arrays : list Array) (ch : Z) (a : Array) (j : Z) :
  vget arrays ch = Some a -> cell arrays ch j = elt a j.
Proof. intros H. unfold cell, elt. now rewrite H. Qed.

Section Family.

Variable s : Recorder.
Variable arrays : list Array.
Variable len : Z.

Hypothesis levels_nonneg : 0 <= _numScatteringLevels s.
Hypothesis arrays_present :
  Z.of_nat (length arrays) = PrimaryScatteredLevel + _numScatteringLevels s.
Hypothesis arrays_ready : family_ready s arrays len.
Hypothesis total_only :
  _recordTotalOnly s = negb (_recordComponents s) || negb (_hasMedium s).

Lemma channel_array (ch : Z) :
  0 <= ch < PrimaryScatteredLevel + _numScatteringLevels s ->
  exists a, vget arrays ch = Some a /\
            Z.of_nat (length a) = if channelAllocated s ch then len else 0.
Proof.
  intros Hch. destruct (vget_some arrays ch) as [a Ha]; [lia|].
  exists a. split; [exact Ha|].
  pose proof (arrays_ready ch) as H. unfold channelLength in H.
  now rewrite Ha in H.
Qed.

Lemma fixed_channel (ch : Z) :
  0 <= ch < PrimaryScatteredLevel ->
  exists a, vget arrays ch = Some a /\
            Z.of_nat (length a) = if channelAllocated s ch then len else 0.
Proof. intros H. apply channel_array. lia. Qed.

Lemma empty_channel (ch : Z) (a : Array) (j : Z) :
  vget arrays ch = Some a ->
  Z.of_nat (length a) = (if channelAllocated s ch then len else 0) ->
  channelAllocated s ch = false -> a = [] /\ cell arrays ch j = 0%Q.
Proof.
  intros Ha La Hf. rewrite Hf in La.
  assert (a = []) as -> by (destruct a; [reflexivity | cbn [length] in La; lia]).
  split; [reflexivity|]. rewrite (cell_vget _ _ _ _ Ha). apply elt_nil.
Qed.

Lemma totalArray_spec :
  exists t,
    totalArray s arrays = Some t /\
    Z.of_nat (length t) = len /\
    (_recordTotalOnly s = true ->
     vget arrays Total = Some t /\
     forall j, cell arrays PrimaryDirect j = 0%Q /\
               cell arrays PrimaryScattered j = 0%Q /\
               cell arrays SecondaryDirect j = 0%Q /\
               cell arrays SecondaryScattered j = 0%Q) /\
    (_recordTotalOnly s = false ->
     forall j, (elt t j == cell arrays PrimaryDirect j
                           + cell arrays PrimaryScattered j
                           + cell arrays SecondaryDirect j
                           + cell arrays SecondaryScattered j)%Q).
Proof.
  destruct (fixed_channel Total) as (t0 & Et0 & Lt0); [cbv; split; congruence|].
  destruct (fixed_channel PrimaryDirect) as (pd & Epd & Lpd);
    [cbv; split; congruence|].
  destruct (fixed_channel PrimaryScattered) as (ps & Eps & Lps);
    [cbv; split; congruence|].
  destruct (fixed_channel SecondaryDirect) as (sd & Esd & Lsd);
    [cbv; split; congruence|].
  destruct (fixed_channel SecondaryScattered) as (ss & Ess & Lss);
    [cbv; split; congruence|].
  unfold totalArray.
  change (channelAllocated s Total)
    with (negb (_recordComponents s) || negb (_hasMedium s)) in Lt0.
  change (channelAllocated s PrimaryDirect)
    with (negb (negb (_recordComponents s) || negb (_hasMedium s))) in Lpd.
  change (channelAllocated s PrimaryScattered)
    with (negb (negb (_recordComponents s) || negb (_hasMedium s))) in Lps.
  change (channelAllocated s SecondaryDirect)
    with (negb (negb (_recordComponents s) || negb (_hasMedium s))
          && _hasMediumEmission s) in Lsd.
  change (channelAllocated s SecondaryScattered)
    with (negb (negb (_recordComponents s) || negb (_hasMedium s))
          && _hasMediumEmission s) in Lss.
  rewrite <- total_only in Lt0, Lpd, Lps, Lsd, Lss.
  destruct (_recordTotalOnly s) eqn:Erto; cbn [negb andb] in *.
  - exists t0. split; [exact Et0|]. split; [exact Lt0|].
    split; [|discriminate]. intros _. split; [exact Et0|].
    intros j.
    assert (Hnil : forall a : Array, Z.of_nat (length a) = 0 -> a = [])
      by (intros [|? ?] H; [reflexivity | cbn [length] in H; lia]).
    rewrite (cell_vget _ _ _ j Epd), (cell_vget _ _ _ j Eps),
      (cell_vget _ _ _ j Esd), (cell_vget _ _ _ j Ess).
    rewrite (Hnil _ Lpd), (Hnil _ Lps), (Hnil _ Lsd), (Hnil _ Lss).
    rewrite elt_nil. repeat split.
  - rewrite Epd, Eps. cbn [obind].
    destruct (aplus_spec pd ps) as (t1 & E1 & L1 & H1); [lia|].
    rewrite E1. cbn [obind].
    destruct (_hasMediumEmission s) eqn:Eem.
    + rewrite Esd, Ess. cbn [obind].
      destruct (aplus_spec sd ss) as (t2 & E2 & L2 & H2); [lia|].
      rewrite E2. cbn [obind].
      destruct (aplus_spec t1 t2) as (t & E & L & H); [lia|].
      exists t. split; [exact E|]. split; [lia|].
      split; [discriminate|]. intros _ j.
      rewrite H, H1, H2.
      rewrite (cell_vget _ _ _ j Epd), (cell_vget _ _ _ j Eps),
        (cell_vget _ _ _ j Esd), (cell_vget _ _ _ j Ess). ring.
    + exists t1. split; [reflexivity|]. split; [lia|].
      split; [discriminate|]. intros _ j.
      assert (Hnil : forall a : Array, Z.of_nat (length a) = 0 -> a = [])
        by (intros [|? ?] H; [reflexivity | cbn [length] in H; lia]).
      rewrite H1.
      rewrite (cell_vget _ _ _ j Epd), (cell_vget _ _ _ j Eps),
        (cell_vget _ _ _ j Esd), (cell_vget _ _ _ j Ess).
      rewrite (Hnil _ Lsd), (Hnil _ Lss), elt_nil. ring.
Qed.

Lemma stokesArrays_spec :
  exists cols,
    stokesArrays s arrays = Some cols /\
    map fst cols = stokesNames s /\ Forall (holds s arrays) cols.
Proof.
  unfold stokesArrays, stokesNames.
  destruct (_recordPolarization s); [|exists []; repeat split; constructor].
  destruct (fixed_channel TotalQ) as (q & Eq & _); [cbv; split; congruence|].
  destruct (fixed_channel TotalU) as (u & Eu & _); [cbv; split; congruence|].
  destruct (fixed_channel TotalV) as (v & Ev & _); [cbv; split; congruence|].
  rewrite Eq, Eu, Ev. cbn [obind]. eexists. split; [reflexivity|].
  split; [reflexivity|]. repeat constructor; assumption.
Qed.

Lemma levelLoop_spec (count : nat) :
  forall i,
    0 <= i -> i + Z.of_nat count <= _numScatteringLevels s ->
    exists cols,
      levelLoop arrays i count = Some cols /\
      map fst cols
      = map (fun d => TimesScatteredPrimaryFlux (i + Z.of_nat d + 1))
            (seq 0 count) /\
      Forall (holds s arrays) cols.
Proof.
  induction count as [|count IH]; intros i Hi Hc.
  - exists []. repeat split. constructor.
  - destruct (channel_array (PrimaryScatteredLevel + i)) as (a & Ea & _);
      [unfold PrimaryScatteredLevel; lia|].
    destruct (IH (i + 1)) as (cols & E & Hn & Hh); [lia | lia|].
    exists ((TimesScatteredPrimaryFlux (i + 1), a) :: cols).
    cbn [levelLoop]. rewrite Ea. cbn [obind]. rewrite E. cbn [obind].
    split; [reflexivity|]. split.
    + cbn [map fst seq]. rewrite Hn. f_equal; [f_equal; lia|].
      rewrite <- seq_shift, map_map. apply map_ext. intros d.
      f_equal. lia.
    + constructor; [|exact Hh]. unfold holds. cbn [fst snd outputChannel].
      rewrite <- Ea. f_equal. lia.
Qed.

Lemma levelArrays_spec :
  exists cols,
    levelArrays s arrays = Some cols /\
    map fst cols = levelNames s /\ Forall (holds s arrays) cols.
Proof.
  unfold levelArrays, levelNames.
  destruct (_recordTotalOnly s); [exists []; repeat split; constructor|].
  destruct (Z.ltb_spec (_numScatteringLevels s) 0) as [|_]; [lia|].
  destruct (levelLoop_spec (Z.to_nat (_numScatteringLevels s)) 0)
    as (cols & E & Hn & Hh); [lia | lia|].
  exists cols. split; [exact E|]. split; [|exact Hh].
  rewrite Hn. apply map_ext. intros d. f_equal.
Qed.

End Family.

Lemma rowValues_spec (n ell : Z) (arrays : list Array) :
  Forall (fun a : Array => a = [] \/ Z.of_nat (length a) = n) arrays ->
  0 <= ell < n ->
  rowValues arrays ell = Some (map (fun a => elt a ell) arrays).
Proof.
  intros Hall Hell. induction Hall as [|a rest Ha _ IH]; [reflexivity|].
  cbn [rowValues map]. rewrite IH.
  destruct a as [|x a]; [now rewrite elt_nil|].
  destruct Ha as [Ha|Ha]; [discriminate|].
  destruct (vget_some (x :: a) ell) as [y Ey]; [lia|].
  rewrite Ey. cbn [obind]. unfold elt. now rewrite Ey.
Qed.

Lemma writeRows_spec (n : Z) (arrays : list Array) (ells : list Z) :
  Forall (fun a : Array => a = [] \/ Z.of_nat (length a) = n) arrays ->
  (forall ell, In ell ells -> 0 <= ell < n) ->
  writeRows arrays ells
  = Some (map (fun ell => owavelength ell :: map (fun a => elt a ell) arrays)
              ells).
Proof.
  intros Hall. induction ells as [|ell rest IH]; intros Hin; [reflexivity|].
  cbn [writeRows map].
  rewrite (rowValues_spec n ell arrays Hall (Hin ell (or_introl eq_refl))).
  cbn [obind]. rewrite IH; [reflexivity|].
  intros e He. apply Hin. now right.
Qed.

Lemma nth_error_wavelengths {A : Type} (f : Z -> A) (n ell : Z) :
  0 <= ell < n ->
  nth_error (map f (map Z.of_nat (seq 0 (Z.to_nat n)))) (Z.to_nat ell)
  = Some (f ell).
Proof.
  intros H. rewrite map_map.
  rewrite (nth_error_map (fun x => f (Z.of_nat x))).
  rewrite nth_error_seq.
  destruct (Nat.ltb_spec (Z.to_nat ell) (Z.to_nat n)) as [_|]; [|lia].
  cbn [option_map Nat.add]. f_equal. f_equal. lia.
Qed.

Lemma held_lengths (s : Recorder) (arrays : list Array) (len : Z)
  (cols : list (OutputName * Array)) :
  family_ready s arrays len ->
  Forall (holds s arrays) cols ->
  Forall (fun c =>
            Z.of_nat (length (snd c))
            = if channelAllocated s (outputChannel s (fst c)) then len else 0)
         cols.
Proof.
  intros Hr Hh. induction Hh as [|c rest Hc _ IH]; constructor; [|exact IH].
  pose proof (Hr (outputChannel s (fst c))) as H.
  unfold channelLength in H. unfold holds in Hc. now rewrite Hc in H.
Qed.

Lemma held_values (s : Recorder) (arrays : list Array)
  (cols : list (OutputName * Array)) (j : Z) :
  Forall (holds s arrays) cols ->
  map (fun a => elt a j) (map snd cols)
  = map (fun name => cell arrays (outputChannel s name) j) (map fst cols).
Proof.
  intros Hh. induction Hh as [|c rest Hc _ IH]; [reflexivity|].
  cbn [map]. rewrite IH. f_equal. symmetry. now apply cell_vget.
Qed.

Lemma sedColumns_spec (s : Recorder) :
  shapes_ready s -> channels_present s ->
  exists t cols,
    sedColumns s = Some ((TotalFlux, t) :: cols) /\
    map fst cols = sedNames s /\ Forall (holds s (_sed s)) cols /\
    Z.of_nat (length t) = lenSED s /\
    (_recordTotalOnly s = true ->
     vget (_sed s) Total = Some t /\
     forall j, cell (_sed s) PrimaryDirect j = 0%Q /\
               cell (_sed s) PrimaryScattered j = 0%Q /\
               cell (_sed s) SecondaryDirect j = 0%Q /\
               cell (_sed s) SecondaryScattered j = 0%Q) /\
    (_recordTotalOnly s = false ->
     forall j, (elt t j == cell (_sed s) PrimaryDirect j
                           + cell (_sed s) PrimaryScattered j
                           + cell (_sed s) SecondaryDirect j
                           + cell (_sed s) SecondaryScattered j)%Q).
Proof.
  intros (Hsed & _ & Hrto & _) (HS & Ls & _).
  destruct (totalArray_spec s (_sed s) (lenSED s) HS Ls Hsed Hrto)
    as (t & Et & Lt & Ht1 & Ht2).
  destruct (stokesArrays_spec s (_sed s) (lenSED s) HS Ls Hsed)
    as (st & Est & Nst & Hst).
  destruct (levelArrays_spec s (_sed s) (lenSED s) HS Ls Hsed Hrto)
    as (lv & Elv & Nlv & Hlv).
  assert (Ec : exists comps,
             (if _recordComponents s then
                tr <- vget (_sed s)
                        (if _recordTotalOnly s then Total else Transparent) ;;
                pd <- vget (_sed s) PrimaryDirect ;;
                ps <- vget (_sed s) PrimaryScattered ;;
                sd <- vget (_sed s) SecondaryDirect ;;
                ss <- vget (_sed s) SecondaryScattered ;;
                Some [(TransparentFlux, tr); (DirectPrimaryFlux, pd);
                      (ScatteredPrimaryFlux, ps); (DirectSecondaryFlux, sd);
                      (ScatteredSecondaryFlux, ss)]
              else Some []) = Some comps /\
             map fst comps
             = (if _recordComponents s
                then [TransparentFlux; DirectPrimaryFlux; ScatteredPrimaryFlux;
                      DirectSecondaryFlux; ScatteredSecondaryFlux]
                else []) /\
             Forall (holds s (_sed s)) comps).
  { destruct (_recordComponents s);
      [|exists []; repeat split; constructor].
    destruct (fixed_channel s (_sed s) (lenSED s) HS Ls Hsed
                (if _recordTotalOnly s then Total else Transparent))
      as (tr & Etr & _); [destruct (_recordTotalOnly s); cbv; split; congruence|].
    destruct (fixed_channel s (_sed s) (lenSED s) HS Ls Hsed PrimaryDirect)
      as (pd & Epd & _); [cbv; split; congruence|].
    destruct (fixed_channel s (_sed s) (lenSED s) HS Ls Hsed PrimaryScattered)
      as (ps & Eps & _); [cbv; split; congruence|].
    destruct (fixed_channel s (_sed s) (lenSED s) HS Ls Hsed SecondaryDirect)
      as (sd & Esd & _); [cbv; split; congruence|].
    destruct (fixed_channel s (_sed s) (lenSED s) HS Ls Hsed SecondaryScattered)
      as (ss & Ess & _); [cbv; split; congruence|].
    rewrite Etr, Epd, Eps, Esd, Ess. cbn [obind].
    eexists. split; [reflexivity|]. split; [reflexivity|].
    repeat constructor; assumption. }
  destruct Ec as (comps & Ec & Nc & Hc).
  exists t, (comps ++ st ++ lv). unfold sedColumns.
  rewrite Et. cbn [obind]. rewrite Ec. cbn [obind].
  rewrite Est. cbn [obind]. rewrite Elv. cbn [obind].
  split; [reflexivity|]. split.
  - rewrite !map_app, Nc, Nst, Nlv. reflexivity.
  - split; [|split; [exact Lt | split; assumption]].
    apply Forall_app. split; [exact Hc|].
    apply Forall_app. split; assumption.
Qed.

Lemma sedFile_spec (s : Recorder) :
  shapes_ready s -> frame_fits s -> channels_present s ->
  _includeFluxDensity s = true ->
  exists rows,
    sedFile s = Some (TotalFlux :: sedNames s, rows) /\
    Z.of_nat (length rows) = numWavelengths (_lambdagrid s) /\
    forall ell, 0 <= ell < numWavelengths (_lambdagrid s) ->
      exists total,
        nth_error rows (Z.to_nat ell)
        = Some (owavelength ell :: total
                  :: map (fun name => cell (_sed s) (outputChannel s name) ell)
                         (sedNames s)) /\
        (_recordTotalOnly s = true ->
         total = cell (_sed s) Total ell /\
         cell (_sed s) PrimaryDirect ell = 0%Q /\
         cell (_sed s) PrimaryScattered ell = 0%Q /\
         cell (_sed s) SecondaryDirect ell = 0%Q /\
         cell (_sed s) SecondaryScattered ell = 0%Q) /\
        (_recordTotalOnly s = false ->
         (total == cell (_sed s) PrimaryDirect ell
                   + cell (_sed s) PrimaryScattered ell
                   + cell (_sed s) SecondaryDirect ell
                   + cell (_sed s) SecondaryScattered ell)%Q).
Proof.
  intros Hs (Hp & HnW & Hfit) Hc Hfd.
  destruct (sedColumns_spec s Hs Hc) as (t & cols & E & Hn & Hh & Lt & Ht1 & Ht2).
  destruct Hs as (Hsed & _).
  unfold lenSED in Lt. rewrite Hfd in Lt.
  set (n := numWavelengths (_lambdagrid s)) in *.
  assert (Hall : Forall (fun a : Array => a = [] \/ Z.of_nat (length a) = n)
                        (map snd ((TotalFlux, t) :: cols))).
  { cbn [map snd]. constructor; [now right|].
    pose proof (held_lengths s (_sed s) (lenSED s) cols Hsed Hh) as Hl.
    unfold lenSED in Hl. rewrite Hfd in Hl. fold n in Hl.
    clear -Hl. induction Hl as [|[name a] rest Hc _ IH]; cbn [map];
      constructor; [|exact IH].
    cbn [fst snd] in *.
    destruct (channelAllocated s (outputChannel s name)); [now right|].
    left. destruct a; [reflexivity | cbn [length] in Hc; lia]. }
  unfold sedFile. rewrite E. cbn [obind]. unfold wavelengthIndices. fold n.
  destruct (Z.ltb_spec n 0) as [|_]; [lia|]. cbn [obind].
  rewrite (writeRows_spec n _ _ Hall); [|intros e; apply In_wavelengths].
  cbn [obind]. eexists. split; [cbn [map fst]; rewrite Hn; reflexivity|].
  split; [rewrite !length_map, length_seq; lia|].
  intros ell Hell. exists (elt t ell).
  rewrite (nth_error_wavelengths _ n ell Hell).
  split; [|split].
  - cbn [map snd]. rewrite (held_values s (_sed s) cols ell Hh), Hn.
    reflexivity.
  - intros Hr. destruct (Ht1 Hr) as (Et & Hz).
    split; [symmetry; now apply cell_vget | apply Hz].
  - intros Hr. apply (Ht2 Hr).
Qed.

(** The IFU files that are written: those of the total flux and of the
    channels with an array, unless the frame has no bins. *)
Definition written (s : Recorder) (name : OutputName) : bool :=
  (0 <? lenIFU s)
  && match name with
     | TotalFlux => true
     | _ => channelAllocated s (outputChannel s name)
     end.

Lemma filter_map_fst {A B : Type} (p : A * B -> bool) (q : A -> bool)
  (l : list (A * B)) :
  (forall c, In c l -> p c = q (fst c)) ->
  map fst (filter p l) = filter q (map fst l).
Proof.
  induction l as [|c l IH]; intros H; [reflexivity|].
  cbn [filter map]. rewrite <- (H c (or_introl eq_refl)).
  destruct (p c); cbn [map]; rewrite IH; try reflexivity;
    intros d Hd; apply H; now right.
Qed.

Lemma ifuFiles_spec (s : Recorder) :
  shapes_ready s -> frame_fits s -> channels_present s ->
  exists files,
    ifuFiles s = Some files /\
    map fst files = filter (written s) (TotalFlux :: ifuNames s) /\
    forall name data, In (name, data) files ->
      0 < lenIFU s /\ Z.of_nat (length data) = lenIFU s /\
      match name with
      | TotalFlux =>
          (_recordTotalOnly s = true -> vget (_ifu s) Total = Some data) /\
          (_recordTotalOnly s = false ->
           forall j, (elt data j == cell (_ifu s) PrimaryDirect j
                                    + cell (_ifu s) PrimaryScattered j
                                    + cell (_ifu s) SecondaryDirect j
                                    + cell (_ifu s) SecondaryScattered j)%Q)
      | _ => vget (_ifu s) (outputChannel s name) = Some data
      end.
Proof.
  intros (_ & Hifu & Hrto & _) (Hp & HnW & Hfit) (HS & _ & Li).
  destruct (totalArray_spec s (_ifu s) (lenIFU s) HS Li Hifu Hrto)
    as (t & Et & Lt & Ht1 & Ht2).
  destruct (stokesArrays_spec s (_ifu s) (lenIFU s) HS Li Hifu)
    as (st & Est & Nst & Hst).
  destruct (levelArrays_spec s (_ifu s) (lenIFU s) HS Li Hifu Hrto)
    as (lv & Elv & Nlv & Hlv).
  assert (Ec : exists comps,
             (if _recordComponents s then
                transparent <-
                  (if _recordTotalOnly s then Some []
                   else tr <- vget (_ifu s) Transparent ;;
                        Some [(TransparentFlux, tr)]) ;;
                pd <- vget (_ifu s) PrimaryDirect ;;
                ps <- vget (_ifu s) PrimaryScattered ;;
                sd <- vget (_ifu s) SecondaryDirect ;;
                ss <- vget (_ifu s) SecondaryScattered ;;
                Some (transparent ++
                      [(DirectPrimaryFlux, pd); (ScatteredPrimaryFlux, ps);
                       (DirectSecondaryFlux, sd); (ScatteredSecondaryFlux, ss)])
              else Some []) = Some comps /\
             map fst comps
             = (if _recordComponents s
                then (if _recordTotalOnly s then [] else [TransparentFlux])
                     ++ [DirectPrimaryFlux; ScatteredPrimaryFlux;
                         DirectSecondaryFlux; ScatteredSecondaryFlux]
                else []) /\
             Forall (holds s (_ifu s)) comps).
  { destruct (_recordComponents s);
      [|exists []; repeat split; constructor].
    destruct (fixed_channel s (_ifu s) (lenIFU s) HS Li Hifu Transparent)
      as (tr & Etr & _); [cbv; split; congruence|].
    destruct (fixed_channel s (_ifu s) (lenIFU s) HS Li Hifu PrimaryDirect)
      as (pd & Epd & _); [cbv; split; congruence|].
    destruct (fixed_channel s (_ifu s) (lenIFU s) HS Li Hifu PrimaryScattered)
      as (ps & Eps & _); [cbv; split; congruence|].
    destruct (fixed_channel s (_ifu s) (lenIFU s) HS Li Hifu SecondaryDirect)
      as (sd & Esd & _); [cbv; split; congruence|].
    destruct (fixed_channel s (_ifu s) (lenIFU s) HS Li Hifu SecondaryScattered)
      as (ss & Ess & _); [cbv; split; congruence|].
    rewrite Etr, Epd, Eps, Esd, Ess.
    destruct (_recordTotalOnly s) eqn:Er; cbn [obind app];
      (eexists; split; [reflexivity|]; split; [reflexivity|]);
      repeat constructor; unfold holds; cbn [fst snd outputChannel];
      try rewrite Er; assumption. }
  destruct Ec as (comps & Ec & Nc & Hc).
  assert (Hh : Forall (holds s (_ifu s)) (comps ++ st ++ lv)).
  { apply Forall_app. split; [exact Hc|]. apply Forall_app. now split. }
  assert (Hn : map fst (comps ++ st ++ lv) = ifuNames s).
  { rewrite !map_app, Nc, Nst, Nlv. reflexivity. }
  pose proof (held_lengths s (_ifu s) (lenIFU s) _ Hifu Hh) as Hl.
  assert (Hlen : 0 <= lenIFU s)
    by (unfold lenIFU; destruct (_includeSurfaceBrightness s); nia).
  unfold ifuFiles. rewrite Et. cbn [obind]. rewrite Ec. cbn [obind].
  rewrite Est. cbn [obind]. rewrite Elv. cbn [obind].
  eexists. split; [reflexivity|]. split.
  - rewrite (filter_map_fst _ (written s)); [cbn [map fst]; now rewrite Hn|].
    intros c [<-|Hin].
    + unfold written. cbn [snd fst].
      destruct t; cbn [length] in Lt;
        destruct (Z.ltb_spec 0 (lenIFU s)); try reflexivity; lia.
    + rewrite Forall_forall in Hl, Hh. specialize (Hl c Hin).
      assert (Hname : fst c <> TotalFlux).
      { assert (Hin' : In (fst c) (ifuNames s))
          by (rewrite <- Hn; now apply in_map).
        unfold ifuNames, stokesNames, levelNames in Hin'.
        intros Ec'. rewrite Ec' in Hin'.
        repeat (apply in_app_or in Hin'; destruct Hin' as [Hin'|Hin']);
          repeat match type of Hin' with
                 | In _ (if ?b then _ else _) => destruct b
                 | In _ (_ ++ _) =>
                     apply in_app_or in Hin'; destruct Hin' as [Hin'|Hin']
                 | In _ (map _ _) =>
                     apply in_map_iff in Hin';
                     destruct Hin' as (? & Hin' & _); discriminate
                 | In _ (_ :: _) => destruct Hin' as [Hin'|Hin'];
                                    [discriminate|]
                 | In _ [] => contradiction
                 end. }
      unfold written.
      destruct c as [name a]. cbn [fst snd] in *.
      destruct name; try congruence;
        (destruct (channelAllocated s (outputChannel s _));
         destruct a; cbn [length] in Hl;
         destruct (Z.ltb_spec 0 (lenIFU s)); cbn [andb]; try reflexivity;
         lia).
  - intros name data Hin. apply filter_In in Hin. destruct Hin as (Hin & Hne).
    cbn [snd] in Hne.
    destruct Hin as [[= <- <-]|Hin].
    + split; [destruct t; [discriminate | cbn [length] in Lt; lia]|].
      split; [exact Lt|]. split; [intros Hr; apply (Ht1 Hr) | exact Ht2].
    + rewrite Forall_forall in Hl, Hh.
      pose proof (Hl _ Hin) as Hlc. pose proof (Hh _ Hin) as Hhc.
      cbn [fst snd] in Hlc. unfold holds in Hhc. cbn [fst snd] in Hhc.
      assert (Hd : 0 < lenIFU s /\ Z.of_nat (length data) = lenIFU s).
      { destruct (channelAllocated s (outputChannel s name));
          destruct data; try discriminate; cbn [length] in Hlc |- *; lia. }
      destruct Hd as (Hd1 & Hd2). split; [exact Hd1|]. split; [exact Hd2|].
      destruct name; try exact Hhc.
      exfalso.
      assert (Hin' : In TotalFlux (ifuNames s))
        by (rewrite <- Hn; apply (in_map fst _ _ Hin)).
      unfold ifuNames, stokesNames, levelNames in Hin'.
      repeat match type of Hin' with
             | In _ (if ?b then _ else _) => destruct b
             | In _ (_ ++ _) =>
                 apply in_app_or in Hin'; destruct Hin' as [Hin'|Hin']
             | In _ (map _ _) =>
                 apply in_map_iff in Hin';
                 destruct Hin' as (? & Hin' & _); discriminate
             | In _ (_ :: _) => destruct Hin' as [Hin'|Hin'];
                                [discriminate|]
             | In _ [] => contradiction
             end.
Qed.

Lemma config_outputs (s s' : Recorder) :
  config s' = config s ->
  sedNames s' = sedNames s /\ ifuNames s' = ifuNames s /\
  (forall name, outputChannel s' name = outputChannel s name) /\
  (forall name, written s' name = written s name) /\
  _numScatteringLevels s' = _numScatteringLevels s /\
  _lambdagrid s' = _lambdagrid s.
Proof.
  intros H.
  pose proof (config_lenIFU s s' H) as Hl.
  assert (Ha : forall ch, channelAllocated s' ch = channelAllocated s ch)
    by (intros ch; now apply config_channelAllocated).
  assert (Hc : forall name, outputChannel s' name = outputChannel s name)
    by (intros name; unfold outputChannel; use_config H; reflexivity).
  split; [|split; [|split; [exact Hc|split; [|split]]]].
  - unfold sedNames, stokesNames, levelNames. use_config H. reflexivity.
  - unfold ifuNames, stokesNames, levelNames. use_config H. reflexivity.
  - intros name. unfold written. rewrite Hl, Hc.
    destruct name; try reflexivity; now rewrite Ha.
  - use_config H. reflexivity.
  - use_config H. reflexivity.
Qed.

Lemma calibrated_ready (s s' : Recorder) :
  shapes_ready s -> frame_fits s -> channels_present s ->
  config s' = config s ->
  same_lengths (_sed s') (_sed s) -> same_lengths (_ifu s') (_ifu s) ->
  shapes_ready s' /\ frame_fits s' /\ channels_present s'.
Proof.
  intros Hs Hf (HS & Ls & Li) C Ss Si.
  split; [now apply (shapes_ready_transfer s s')|].
  split; [now apply (config_frame_fits s s')|].
  destruct (config_outputs s s' C) as (_ & _ & _ & _ & ES & _).
  destruct Ss as [Ss _]. destruct Si as [Si _].
  unfold channels_present. rewrite ES, Ss, Si. repeat split; assumption.
Qed.

Lemma calibrateAndWrite_spec (s : Recorder) :
  shapes_ready s -> frame_fits s -> channels_present s ->
  exists s' out,
    calibrateAndWrite s = Some (s', out) /\ calibrate s = Some s' /\
    config s' = config s /\
    shapes_ready s' /\ frame_fits s' /\ channels_present s' /\
    sedOutput out
    = (if _includeFluxDensity s
       then match sedFile s' with Some file => Some file | None => None end
       else None) /\
    (_includeFluxDensity s = true -> sedFile s' <> None) /\
    (if _includeSurfaceBrightness s
     then ifuFiles s' = Some (ifuOutput out)
     else ifuOutput out = []).
Proof.
  intros Hs Hf Hc.
  destruct (calibrate_spec s Hs Hf)
    as (s' & E & C & _ & _ & _ & Ss & Si & _).
  destruct (calibrated_ready s s' Hs Hf Hc C Ss Si) as (Hs' & Hf' & Hc').
  destruct (config_flags s s' C) as (_ & _ & _ & _ & _ & Ffd & Fsb).
  destruct (ifuFiles_spec s' Hs' Hf' Hc') as (files & Ei & _).
  unfold calibrateAndWrite. rewrite E. cbn [obind]. rewrite Ffd, Fsb.
  assert (Hfile : _includeFluxDensity s = true -> sedFile s' <> None).
  { intros Hfd. destruct (sedFile_spec s' Hs' Hf' Hc') as (rows & Er & _);
      [congruence|]. rewrite Er. discriminate. }
  destruct (_includeFluxDensity s) eqn:Efd.
  - destruct (sedFile s') as [file|] eqn:Er; [|now contradiction Hfile].
    cbn [obind].
    destruct (_includeSurfaceBrightness s).
    + rewrite Ei. cbn [obind]. eexists _, _. split; [reflexivity|].
      cbn [sedOutput ifuOutput]. rewrite ?Er.
      repeat (split; [first [reflexivity | assumption]|]).
      first [reflexivity | exact Ei].
    + cbn [obind]. eexists _, _. split; [reflexivity|].
      cbn [sedOutput ifuOutput]. rewrite ?Er.
      repeat (split; [first [reflexivity | assumption]|]).
      first [reflexivity | exact Ei].
  - cbn [obind]. destruct (_includeSurfaceBrightness s).
    + rewrite Ei. cbn [obind]. eexists _, _. split; [reflexivity|].
      cbn [sedOutput ifuOutput]. rewrite ?Er.
      repeat (split; [first [reflexivity | assumption]|]).
      first [reflexivity | exact Ei].
    + cbn [obind]. eexists _, _. split; [reflexivity|].
      cbn [sedOutput ifuOutput]. rewrite ?Er.
      repeat (split; [first [reflexivity | assumption]|]).
      first [reflexivity | exact Ei].
Qed.

(** X22: the rows of the SED file.  In a recorder that is ready and
    records flux densities, [calibrateAndWrite] is defined and writes an SED
    file with one row for every wavelength bin; the row of bin [ell] holds
    the wavelength, the total flux and, for every further column, the
    calibrated value of its channel at [ell] (zero for a channel that has no
    array).  When the components are recorded ([_recordTotalOnly] is not
    set), the total flux is the sum of the columns of the direct primary,
    scattered primary, direct secondary and scattered secondary flux; when
    only the total is recorded, it is the value of the total channel, the
    transparent flux column repeats it and the four component columns are
    zero. *)
Theorem sed_file_total_is_sum_of_components (s : Recorder) :
  shapes_ready s -> frame_fits s -> channels_present s ->
  _includeFluxDensity s = true ->
  exists s' out rows,
    calibrateAndWrite s = Some (s', out) /\ calibrate s = Some s' /\
    sedOutput out = Some (TotalFlux :: sedNames s, rows) /\
    Z.of_nat (length rows) = numWavelengths (_lambdagrid s) /\
    forall ell, 0 <= ell < numWavelengths (_lambdagrid s) ->
      exists total,
        nth_error rows (Z.to_nat ell)
        = Some (owavelength ell :: total
                  :: map (fun name => cell (_sed s') (outputChannel s name) ell)
                         (sedNames s)) /\
        (_recordTotalOnly s = true ->
         total = cell (_sed s') Total ell /\
         outputChannel s TransparentFlux = Total /\
         cell (_sed s') PrimaryDirect ell = 0%Q /\
         cell (_sed s') PrimaryScattered ell = 0%Q /\
         cell (_sed s') SecondaryDirect ell = 0%Q /\
         cell (_sed s') SecondaryScattered ell = 0%Q) /\
        (_recordTotalOnly s = false ->
         (total == cell (_sed s') PrimaryDirect ell
                   + cell (_sed s') PrimaryScattered ell
                   + cell (_sed s') SecondaryDirect ell
                   + cell (_sed s') SecondaryScattered ell)%Q).
Proof.
  intros Hs Hf Hc Hfd.
  destruct (calibrateAndWrite_spec s Hs Hf Hc)
    as (s' & out & E & Ec & C & Hs' & Hf' & Hc' & Eo & _ & _).
  destruct (config_flags s s' C) as (_ & Frto & _ & _ & _ & Ffd & _).
  destruct (config_outputs s s' C) as (Nsed & _ & Hch & _ & _ & Eg).
  destruct (sedFile_spec s' Hs' Hf' Hc') as (rows & Er & Lr & Hrows);
    [congruence|].
  rewrite Hfd, Er in Eo. rewrite Nsed in Er, Eo, Hrows.
  rewrite Eg in Lr, Hrows.
  exists s', out, rows. split; [exact E|]. split; [exact Ec|].
  split; [exact Eo|]. split; [exact Lr|].
  intros ell Hell. destruct (Hrows ell Hell) as (total & Hn & H1 & H2).
  exists total. split; [|split].
  - rewrite Hn. do 3 f_equal. apply map_ext. intros name. now rewrite Hch.
  - intros Hr. rewrite <- Frto in Hr. destruct (H1 Hr) as (T & Z1 & Z2 & Z3 & Z4).
    rewrite Frto in Hr.
    repeat (split; [first [assumption | cbn [outputChannel]; now rewrite Hr]|]).
    assumption.
  - intros Hr. apply H2. congruence.
Qed.

(** X23: the IFU files.  In a recorder that is ready and records the
    surface brightness, [calibrateAndWrite] writes one file for the total
    flux and one for every other channel that has an array, in the order
    transparent, components, Stokes, scattering levels, and no file at all
    when the frame has no bins; it never writes an empty array.  The data of
    a file other than the total is the calibrated array of its channel, with
    one value for every pixel and wavelength bin; the data of the total is
    the array of the total channel when only the total is recorded, and
    otherwise, bin by bin, the sum of the direct primary, scattered primary,
    direct secondary and scattered secondary flux. *)
Theorem ifu_files_hold_allocated_channels (s : Recorder) :
  shapes_ready s -> frame_fits s -> channels_present s ->
  _includeSurfaceBrightness s = true ->
  exists s' out,
    calibrateAndWrite s = Some (s', out) /\ calibrate s = Some s' /\
    map fst (ifuOutput out) = filter (written s) (TotalFlux :: ifuNames s) /\
    forall name data, In (name, data) (ifuOutput out) ->
      0 < lenIFU s /\ Z.of_nat (length data) = lenIFU s /\
      match name with
      | TotalFlux =>
          (_recordTotalOnly s = true -> vget (_ifu s') Total = Some data) /\
          (_recordTotalOnly s = false ->
           forall j, (elt data j == cell (_ifu s') PrimaryDirect j
                                    + cell (_ifu s') PrimaryScattered j
                                    + cell (_ifu s') SecondaryDirect j
                                    + cell (_ifu s') SecondaryScattered j)%Q)
      | _ => vget (_ifu s') (outputChannel s name) = Some data
      end.
Proof.
  intros Hs Hf Hc Hsb.
  destruct (calibrateAndWrite_spec s Hs Hf Hc)
    as (s' & out & E & Ec & C & Hs' & Hf' & Hc' & _ & _ & Eo).
  rewrite Hsb in Eo.
  destruct (config_flags s s' C) as (_ & Frto & _).
  destruct (config_outputs s s' C) as (_ & Nifu & Hch & Hw & _).
  pose proof (config_lenIFU s s' C) as Hl.
  destruct (ifuFiles_spec s' Hs' Hf' Hc') as (files & Ei & Hn & Hfiles).
  rewrite Eo in Ei. injection Ei as <-.
  exists s', out. split; [exact E|]. split; [exact Ec|]. split.
  - rewrite Hn, Nifu. apply filter_ext. exact Hw.
  - intros name data Hin. destruct (Hfiles name data Hin) as (H1 & H2 & H3).
    rewrite Hl in H1, H2. split; [exact H1|]. split; [exact H2|].
    destruct name; try (rewrite <- Hch; exact H3).
    rewrite <- Frto. exact H3.
Qed.

End CalibrateAndWrite.

Lemma finalizeConfiguration_channels_present (s0 s : Recorder) :
  _sed s0 = [] -> _ifu s0 = [] ->
  0 <= _numScatteringLevels s0 ->
  0 <= numWavelengths (_lambdagrid s0) <= INT_MAX ->
  0 <= _numPixelsX s0 * _numPixelsY s0 <= INT_MAX ->
  finalizeConfiguration s0 = Some s -> channels_present s.
Proof.
  intros Hsed Hifu HS HN HP E.
  assert (H1 : 0 <= lenSED s0) by (unfold lenSED; destruct _includeFluxDensity; lia).
  assert (H2 : 0 <= lenIFU s0)
    by (unfold lenIFU; destruct _includeSurfaceBrightness; nia).
  destruct (allocate_spec s0 (lenSED s0) HS H1) as (sed & Es & Ls & _).
  destruct (allocate_spec s0 (lenIFU s0) HS H2) as (ifu & Ei & Li & _).
  rewrite (finalizeConfiguration_in_range s0 HN HP) in E. cbv zeta in E.
  rewrite Hsed, Hifu in E.
  rewrite Es in E. cbn [obind] in E. rewrite Ei in E. cbn [obind] in E.
  injection E as <-. repeat split; assumption.
Qed.

Lemma detect_output_ready (exp : Q -> Q) (s s' : Recorder) (t : nat)
  (pp : PhotonPacket) (l : Z) (tau : Q) :
  detect exp s t pp l tau = Some s' ->
  shapes_ready s -> frame_fits s -> channels_present s ->
  shapes_ready s' /\ frame_fits s' /\ channels_present s'.
Proof.
  intros H Hs Hf Hc.
  destruct (detect_shapes exp s s' t pp l tau H) as (C & Ss & Si & _).
  now apply (calibrated_ready s s').
Qed.

Lemma frame_recorder_channels_present : channels_present frame_recorder.
Proof.
  apply (finalizeConfiguration_channels_present
           (configured grid4 true false true 2 false false true true 2 2));
    try reflexivity; vm_compute; first [discriminate | split; discriminate].
Qed.

Lemma calibrate_scales_every_bin_once_witness :
  exists s s',
    detect exp_poly frame_recorder 0 (packet 3 0 2 5) 1 0 = Some s /\
    calibrate (fun _ => 2%Q) (fun _ => 3%Q) s = Some s' /\
    (cell (_sed s') Transparent 3 == cell (_sed s) Transparent 3 * 2)%Q /\
    (cell (_ifu s') Transparent 13 == cell (_ifu s) Transparent 13 * 3)%Q.
Proof.
  destruct (detect exp_poly frame_recorder 0 (packet 3 0 2 5) 1 0) as [s|] eqn:E;
    [|vm_compute in E; discriminate].
  destruct frame_recorder_ready as (Hs0 & Hf0).
  destruct (detect_output_ready _ _ _ _ _ _ _ E Hs0 Hf0
              frame_recorder_channels_present) as (Hs & Hf & Hc).
  destruct (calibrate_scales_every_bin_once (fun _ => 2%Q) (fun _ => 3%Q) s)
    as (Hcal & _).
  destruct (Hcal Hs Hf)
    as (s' & Ec & _ & _ & _ & _ & _ & _ & Hsed & _ & Hifu & _).
  assert (Efd : _includeFluxDensity s = true)
    by (vm_compute in E; injection E as <-; reflexivity).
  assert (Esb : _includeSurfaceBrightness s = true)
    by (vm_compute in E; injection E as <-; reflexivity).
  assert (Eg : numWavelengths (_lambdagrid s) = 4)
    by (vm_compute in E; injection E as <-; reflexivity).
  assert (Ex : _numPixelsX s * _numPixelsY s = 4)
    by (vm_compute in E; injection E as <-; reflexivity).
  exists s, s'. split; [reflexivity|]. split; [exact Ec|]. split.
  - apply (Hsed Efd). lia.
  - specialize (Hifu Esb Transparent 3 1). rewrite Ex in Hifu.
    apply Hifu; lia.
Defined.

Lemma sed_file_total_is_sum_of_components_witness :
  exists s s' out rows total,
    detect exp_poly frame_recorder 0 (packet 3 0 2 5) 1 0 = Some s /\
    calibrateAndWrite (fun _ => 2%Q) (fun _ => 3%Q) inject_Z s = Some (s', out) /\
    sedOutput out
    = Some ([TotalFlux; TransparentFlux; DirectPrimaryFlux; ScatteredPrimaryFlux;
             DirectSecondaryFlux; ScatteredSecondaryFlux;
             TimesScatteredPrimaryFlux 1; TimesScatteredPrimaryFlux 2], rows) /\
    nth_error rows 3
    = Some (inject_Z 3 :: total
              :: map (fun name => cell (_sed s') (outputChannel s name) 3)
                     (sedNames s)) /\
    (total == cell (_sed s') PrimaryDirect 3 + cell (_sed s') PrimaryScattered 3
              + cell (_sed s') SecondaryDirect 3
              + cell (_sed s') SecondaryScattered 3)%Q.
Proof.
  destruct (detect exp_poly frame_recorder 0 (packet 3 0 2 5) 1 0) as [s|] eqn:E;
    [|vm_compute in E; discriminate].
  destruct frame_recorder_ready as (Hs0 & Hf0).
  destruct (detect_output_ready _ _ _ _ _ _ _ E Hs0 Hf0
              frame_recorder_channels_present) as (Hs & Hf & Hc).
  assert (Efd : _includeFluxDensity s = true)
    by (vm_compute in E; injection E as <-; reflexivity).
  assert (Eg : numWavelengths (_lambdagrid s) = 4)
    by (vm_compute in E; injection E as <-; reflexivity).
  assert (Er : _recordTotalOnly s = false)
    by (vm_compute in E; injection E as <-; reflexivity).
  assert (En : TotalFlux :: sedNames s
               = [TotalFlux; TransparentFlux; DirectPrimaryFlux;
                  ScatteredPrimaryFlux; DirectSecondaryFlux;
                  ScatteredSecondaryFlux;
                  TimesScatteredPrimaryFlux 1; TimesScatteredPrimaryFlux 2])
    by (vm_compute in E; injection E as <-; reflexivity).
  destruct (sed_file_total_is_sum_of_components
              (fun _ => 2%Q) (fun _ => 3%Q) inject_Z s Hs Hf Hc Efd)
    as (s' & out & rows & Ec & _ & Eo & _ & Hrows).
  destruct (Hrows 3) as (total & Hn & _ & Hsum); [lia|].
  exists s, s', out, rows, total.
  split; [reflexivity|]. split; [exact Ec|].
  split; [rewrite <- En; exact Eo|]. split; [exact Hn|]. exact (Hsum Er).
Defined.

Lemma ifu_files_hold_allocated_channels_witness :
  exists s s' out,
    detect exp_poly frame_recorder 0 (packet 3 0 2 5) 1 0 = Some s /\
    calibrateAndWrite (fun _ => 2%Q) (fun _ => 3%Q) inject_Z s = Some (s', out) /\
    map fst (ifuOutput out)
    = [TotalFlux; TransparentFlux; DirectPrimaryFlux; ScatteredPrimaryFlux;
       TimesScatteredPrimaryFlux 1; TimesScatteredPrimaryFlux 2].
Proof.
  destruct (detect exp_poly frame_recorder 0 (packet 3 0 2 5) 1 0) as [s|] eqn:E;
    [|vm_compute in E; discriminate].
  destruct frame_recorder_ready as (Hs0 & Hf0).
  destruct (detect_output_ready _ _ _ _ _ _ _ E Hs0 Hf0
              frame_recorder_channels_present) as (Hs & Hf & Hc).
  assert (Esb : _includeSurfaceBrightness s = true)
    by (vm_compute in E; injection E as <-; reflexivity).
  assert (En : filter (written s) (TotalFlux :: ifuNames s)
               = [TotalFlux; TransparentFlux; DirectPrimaryFlux;
                  ScatteredPrimaryFlux;
                  TimesScatteredPrimaryFlux 1; TimesScatteredPrimaryFlux 2])
    by (vm_compute in E; injection E as <-; reflexivity).
  destruct (ifu_files_hold_allocated_channels
              (fun _ => 2%Q) (fun _ => 3%Q) inject_Z s Hs Hf Hc Esb)
    as (s' & out & Ec & _ & Eo & _).
  exists s, s', out. split; [reflexivity|]. split; [exact Ec|].
  rewrite <- En. exact Eo.
Defined.

(** *** The total flux of the recorded detections *)

(** The total flux that the arrays of a family hold for a bin: the total
    channel, or the sum of the four components. *)
Definition totalFlux (s : Recorder) (arrays : list Array) (i : Z) : Q :=
  if _recordTotalOnly s then cell arrays Total i
  else (cell arrays PrimaryDirect i + cell arrays PrimaryScattered i
        + cell arrays SecondaryDirect i + cell arrays SecondaryScattered i)%Q.

Lemma lockfree_add_cell (arrays arrays' : list Array) (ch bin : Z) (v : Q)
  (ch' i : Z) :
  lockfree_add arrays ch bin v = Some arrays' ->
  cell arrays' ch' i
  = (if (ch' =? ch) && (i =? bin) then cell arrays ch' i + v
     else cell arrays ch' i)%Q.
Proof.
  intros H. apply lockfree_add_spec in H.
  destruct H as (_ & _ & Hv & Ho & _).
  destruct (Z.eqb_spec ch' ch) as [->|Hc]; cbn [andb].
  - destruct (Z.eqb_spec i bin) as [->|Hi]; [exact Hv|].
    apply Ho. congruence.
  - apply Ho. congruence.
Qed.

Lemma flux_part_total (s : Recorder) (arrays arrays' : list Array)
  (pp : PhotonPacket) (bin : Z) (L Lext : Q) (i : Z) :
  flux_part s arrays pp bin L Lext = Some arrays' ->
  0 <= numScatt pp ->
  (totalFlux s arrays' i
   == totalFlux s arrays i
      + (if i =? bin then (if _recordTotalOnly s then L else Lext) else 0))%Q.
Proof.
  unfold flux_part, totalFlux, obind. intros H Hn.
  destruct (_recordTotalOnly s).
  - rewrite (lockfree_add_cell _ _ _ _ _ Total i H). cbn [Z.eqb andb Total].
    destruct (i =? bin); ring.
  - destruct (hasPrimaryOrigin pp).
    + destruct (Z.eqb_spec (numScatt pp) 0) as [E0|E0].
      * destruct (lockfree_add arrays Transparent bin L) as [a1|] eqn:E1;
          [|discriminate].
        rewrite !(lockfree_add_cell _ _ _ _ _ _ i H).
        rewrite !(lockfree_add_cell _ _ _ _ _ _ i E1).
        cbn [Z.eqb andb PrimaryDirect PrimaryScattered SecondaryDirect
             SecondaryScattered Transparent Pos.eqb].
        destruct (i =? bin); ring.
      * destruct (lockfree_add arrays PrimaryScattered bin Lext) as [a1|] eqn:E1;
          [|discriminate].
        assert (Hlev : forall ch, 0 <= ch < PrimaryScatteredLevel ->
                   cell arrays' ch i = cell a1 ch i).
        { intros ch Hch.
          destruct (numScatt pp <=? _numScatteringLevels s);
            [|now injection H as <-].
          rewrite (lockfree_add_cell _ _ _ _ _ ch i H).
          destruct (Z.eqb_spec ch (PrimaryScatteredLevel + numScatt pp - 1));
            [lia | reflexivity]. }
        rewrite !Hlev by (cbv; split; congruence).
        rewrite !(lockfree_add_cell _ _ _ _ _ _ i E1).
        cbn [Z.eqb andb PrimaryDirect PrimaryScattered SecondaryDirect
             SecondaryScattered Pos.eqb].
        destruct (i =? bin); ring.
    + destruct (numScatt pp =? 0);
        rewrite !(lockfree_add_cell _ _ _ _ _ _ i H);
        cbn [Z.eqb andb PrimaryDirect PrimaryScattered SecondaryDirect
             SecondaryScattered Pos.eqb];
        destruct (i =? bin); ring.
Qed.

Lemma record_flux_total (s : Recorder) (arrays arrays' : list Array)
  (pp : PhotonPacket) (bin : Z) (L Lext : Q) (i : Z) :
  record_flux s arrays pp bin L Lext = Some arrays' ->
  0 <= numScatt pp ->
  (totalFlux s arrays' i
   == totalFlux s arrays i
      + (if i =? bin then (if _recordTotalOnly s then L else Lext) else 0))%Q.
Proof.
  rewrite record_flux_parts. unfold obind. intros H Hn.
  destruct (flux_part s arrays pp bin L Lext) as [a|] eqn:E; [|discriminate].
  destruct (stokes_part_keeps_flux s a arrays' pp bin Lext H) as (Hk & _).
  rewrite <- (flux_part_total s arrays a pp bin L Lext i E Hn).
  unfold totalFlux. rewrite !Hk by reflexivity. reflexivity.
Qed.

(** X26: what a detection adds to the total flux.  A detection changes
    the total flux that the SED arrays hold (the total channel, or the sum
    of the direct and scattered, primary and secondary components) at the
    wavelength bin of the packet only, and the total flux of the IFU arrays
    at the bin of its pixel and wavelength only (not at all for a packet
    that misses the frame).  When the components are recorded it adds the
    luminosity attenuated by the optical depth, [L * exp(-tau)]; when only
    the total is recorded it adds the luminosity [L] itself. *)
Theorem detect_adds_to_total_flux (exp : Q -> Q) (s s' : Recorder) (t : nat)
  (pp : PhotonPacket) (l : Z) (tau : Q) :
  detect exp s t pp l tau = Some s' ->
  0 <= numScatt pp ->
  let bin := ell (_lambdagrid s) (lambda pp) in
  let lell := size_t (l + bin * _numPixelsInFrame s) in
  let added := if _recordTotalOnly s then luminosity pp
               else (luminosity pp * exp (- tau))%Q in
  (_includeFluxDensity s = true ->
   forall i, (totalFlux s (_sed s') i
              == totalFlux s (_sed s) i + (if i =? bin then added else 0))%Q) /\
  (_includeSurfaceBrightness s = true ->
   forall i, (totalFlux s (_ifu s') i
              == totalFlux s (_ifu s) i
                 + (if (0 <=? l) && (i =? lell) then added else 0))%Q).
Proof.
  intros H Hn bin lell added.
  pose proof (detect_sed exp s s' t pp l tau H) as Hs.
  pose proof (detect_ifu exp s s' t pp l tau H) as Hi.
  split.
  - intros Ef i. rewrite Ef in Hs.
    apply (record_flux_total s _ _ pp bin _ _ i Hs Hn).
  - intros Eb i. rewrite Eb in Hi. cbn [andb] in Hi.
    destruct (Z.leb_spec 0 l) as [Hl|Hl].
    + destruct (Z.geb_spec l 0) as [_|]; [|lia]. cbn [andb].
      apply (record_flux_total s _ _ pp lell _ _ i Hi Hn).
    + destruct (Z.geb_spec l 0) as [|_]; [lia|]. cbn [andb].
      injection Hi as <-. ring.
Qed.

Lemma detect_adds_to_total_flux_witness :
  exists s',
    detect exp_poly frame_recorder 0 (packet 3 0 2 5) 1 1 = Some s' /\
    (totalFlux frame_recorder (_sed s') 3
     == totalFlux frame_recorder (_sed frame_recorder) 3
        + 2 * exp_poly (- 1))%Q.
Proof.
  destruct (detect exp_poly frame_recorder 0 (packet 3 0 2 5) 1 1) as [s'|] eqn:E;
    [|vm_compute in E; discriminate].
  exists s'. split; [reflexivity|].
  destruct (detect_adds_to_total_flux exp_poly frame_recorder s' 0
              (packet 3 0 2 5) 1 1 E) as (Hsed & _); [cbn; lia|].
  apply (Hsed eq_refl 3).
Defined.

(** *** The moments of a photon packet history in the IFU statistics *)

(** The total contribution of a history to the pixel [l] of the wavelength
    bin [ell], and whether it contributes to that pixel at all. *)
Definition pixelWeight (ell l : Z) (cs : list Contribution) : Q :=
  fold_right (fun c acc => if (c_ell c =? ell) && (c_l c =? l)
                           then (c_w c + acc)%Q else acc)
             0%Q cs.

Definition inPixel (ell l : Z) (cs : list Contribution) : bool :=
  existsb (fun c => (c_ell c =? ell) && (c_l c =? l)) cs.

(** A contribution to a frame of [P] pixels, as a contribution to the bin
    that it has in the IFU statistics. *)
Definition binned (P : Z) (c : Contribution) : Contribution :=
  mkContribution (ifu_bin P c) 0 (c_w c).

Definition in_pixels (P N : Z) (c : Contribution) : Prop :=
  0 <= c_ell c < N /\ 0 <= c_l c < P.

Lemma ifu_bin_in_pixels (P N : Z) (c : Contribution) :
  P * N < SIZE_MOD -> in_pixels P N c ->
  ifu_bin P c = c_l c + c_ell c * P.
Proof.
  intros Hfit (He & Hl). unfold ifu_bin.
  apply Parallel.size_t_small. nia.
Qed.

Lemma fold_bins_binned (P N : Z) (cs : list Contribution) :
  P * N < SIZE_MOD -> Forall (in_pixels P N) cs ->
  forall w arrays,
    fold_bins same_ell_l (ifu_bin P) cs w arrays
    = fold_bins same_ell sed_bin (map (binned P) cs) w arrays.
Proof.
  intros Hfit Hall. induction Hall as [|c rest Hc Hrest IH]; intros w arrays;
    [reflexivity|].
  cbn [fold_bins map].
  assert (Eclose : match rest with
                   | [] => true
                   | c' :: _ => negb (same_ell_l c c')
                   end
                   = match map (binned P) rest with
                     | [] => true
                     | c' :: _ => negb (same_ell (binned P c) c')
                     end).
  { destruct rest as [|c' rest']; [reflexivity|]. cbn [map]. f_equal.
    inversion Hrest as [|? ? Hc' _]; subst.
    unfold same_ell_l, same_ell, binned. cbn [c_ell].
    rewrite (ifu_bin_in_pixels P N c Hfit Hc),
      (ifu_bin_in_pixels P N c' Hfit Hc').
    destruct Hc as (He & Hl), Hc' as (He' & Hl').
    destruct (Z.eqb_spec (c_ell c) (c_ell c')) as [E1|E1];
      destruct (Z.eqb_spec (c_l c) (c_l c')) as [E2|E2];
      destruct (Z.eqb_spec (c_l c + c_ell c * P) (c_l c' + c_ell c' * P))
        as [E3|E3]; cbn [andb]; try reflexivity; exfalso; nia. }
  rewrite <- Eclose. cbn [c_w binned sed_bin c_ell].
  destruct (match rest with [] => true | c' :: _ => negb (same_ell_l c c') end).
  - unfold obind.
    destruct (add_moments numStatMoments 0 arrays (ifu_bin P c) (w + c_w c) 1);
      [apply IH | reflexivity].
  - apply IH.
Qed.

Lemma binned_sorted (P N : Z) (cs : list Contribution) :
  0 <= P -> Forall (in_pixels P N) cs ->
  ordered_by contribution_lt cs ->
  P * N < SIZE_MOD ->
  ell_sorted (map (binned P) cs).
Proof.
  intros HP Hall Hs Hfit. unfold ell_sorted, ordered_by in *.
  induction Hs as [|a l Hl IH Ha]; cbn [map]; [constructor|].
  inversion Hall as [|? ? Hina Hinl]; subst.
  constructor; [now apply IH|].
  rewrite Forall_forall in Ha, Hinl |- *.
  intros b' Hb'. apply in_map_iff in Hb'. destruct Hb' as (b & <- & Hb).
  specialize (Ha b Hb). specialize (Hinl b Hb).
  unfold binned. cbn [c_ell].
  rewrite (ifu_bin_in_pixels P N a Hfit Hina),
    (ifu_bin_in_pixels P N b Hfit Hinl).
  unfold contribution_lt in Ha. apply orb_false_iff in Ha.
  rewrite andb_false_iff, Z.ltb_ge, Z.eqb_neq, Z.ltb_ge in Ha.
  destruct Hina as (He & Hla), Hinl as (He' & Hlb). nia.
Qed.

Lemma binned_weights (P N ell l : Z) (cs : list Contribution) :
  P * N < SIZE_MOD -> 0 <= ell -> 0 <= l < P ->
  Forall (in_pixels P N) cs ->
  binWeight (l + ell * P) (map (binned P) cs) = pixelWeight ell l cs /\
  inBin (l + ell * P) (map (binned P) cs) = inPixel ell l cs.
Proof.
  intros Hfit He Hl Hall.
  induction Hall as [|c rest Hc _ [IHw IHi]]; [split; reflexivity|].
  unfold binWeight, inBin, pixelWeight, inPixel in *.
  cbn [map fold_right existsb binned c_ell c_w].
  rewrite IHw, IHi.
  rewrite (ifu_bin_in_pixels P N c Hfit Hc).
  destruct Hc as (Hce & Hcl).
  assert (E : (c_l c + c_ell c * P =? l + ell * P)
              = (c_ell c =? ell) && (c_l c =? l)).
  { destruct (Z.eqb_spec (c_ell c) ell) as [E1|E1];
      destruct (Z.eqb_spec (c_l c) l) as [E2|E2];
      destruct (Z.eqb_spec (c_l c + c_ell c * P) (l + ell * P)) as [E3|E3];
      cbn [andb]; try reflexivity; exfalso; nia. }
  rewrite E. split; reflexivity.
Qed.

Lemma pixelWeight_perm (ell l : Z) (cs cs' : list Contribution) :
  Permutation cs cs' ->
  (pixelWeight ell l cs == pixelWeight ell l cs')%Q /\
  inPixel ell l cs = inPixel ell l cs'.
Proof.
  unfold pixelWeight, inPixel.
  induction 1 as [|x a b _ [IHw IHi]|x y a|a b c _ [IH1 I1] _ [IH2 I2]];
    cbn [fold_right existsb].
  - split; reflexivity.
  - rewrite IHi. split; [|reflexivity].
    destruct ((c_ell x =? ell) && (c_l x =? l)); [now rewrite IHw | exact IHw].
  - split.
    + destruct ((c_ell x =? ell) && (c_l x =? l)),
        ((c_ell y =? ell) && (c_l y =? l)); try reflexivity. ring.
    + destruct ((c_ell x =? ell) && (c_l x =? l)),
        ((c_ell y =? ell) && (c_l y =? l)); reflexivity.
  - split; [now rewrite IH1 | now rewrite I1].
Qed.

(** X27: the statistics of the IFUs are taken per photon packet history
    and per pixel of a wavelength bin.  When [recordContributions] folds the
    list of a history whose contributions all lie in the frame, then for
    every pixel [l] of a wavelength bin [ell] to which the history
    contributed, with [w] the sum of its contributions to that pixel and
    bin, the four moment arrays receive [w], [w^2], [w^3] and [w^4] at the
    bin [l + ell * Nx * Ny], however the contributions are ordered in the
    list; no other bin of the frame changes. *)
Theorem recordContributions_adds_moments_per_pixel (s s' : Recorder)
  (cl : ContributionList) :
  _includeSurfaceBrightness s = true ->
  frame_fits s -> _numPixelsInFrame s = _numPixelsX s * _numPixelsY s ->
  Forall (in_frame s) (_contributions cl) ->
  recordContributions s cl = Some s' ->
  forall k ell l,
    0 <= ell < numWavelengths (_lambdagrid s) ->
    0 <= l < _numPixelsX s * _numPixelsY s ->
    let lell := l + ell * (_numPixelsX s * _numPixelsY s) in
    (cell (_wifu s') k lell
     == cell (_wifu s) k lell
        + (if (0 <=? k) && (k <? 4) && inPixel ell l (_contributions cl)
           then qpow (pixelWeight ell l (_contributions cl)) (S (Z.to_nat k))
           else 0))%Q.
Proof.
  intros Hsb (Hp & HnW & Hfit) Hpix Hin H k ell l Hell Hl lell.
  set (P := _numPixelsX s * _numPixelsY s) in *.
  set (N := numWavelengths (_lambdagrid s)) in *.
  assert (Hall : Forall (in_pixels P N) (sorted_contributions cl)).
  { apply (Permutation_Forall (sort_by_perm contribution_lt _)).
    eapply Forall_impl; [|exact Hin]. intros c (Hc1 & Hc2).
    split; [exact Hc1 | exact (Hc2 Hsb)]. }
  unfold recordContributions in H. rewrite Hsb, Hpix in H. unfold obind in H.
  destruct (if _includeFluxDensity s then _ else _) as [wsed|]; [|discriminate].
  fold P in H.
  destruct (fold_bins same_ell_l (ifu_bin P) (sorted_contributions cl) 0%Q
                      (_wifu s)) as [wifu|] eqn:Ew; [|discriminate].
  injection H as <-. cbn [_wifu with_arrays].
  rewrite (fold_bins_binned P N _ Hfit Hall) in Ew.
  assert (Hsorted : ell_sorted (map (binned P) (sorted_contributions cl))).
  { apply (binned_sorted P N); try assumption.
    apply (sort_by_ordered contribution_lt contribution_lt_asym
             contribution_lt_trans_neg). }
  rewrite (fold_bins_sed _ _ _ _ Hsorted Ew k lell).
  destruct (binned_weights P N ell l (sorted_contributions cl) Hfit
              (proj1 Hell) Hl Hall) as (Ww & Wi).
  fold lell in Ww, Wi. rewrite Ww, Wi.
  destruct (pixelWeight_perm ell l (_contributions cl) (sorted_contributions cl)
              (sort_by_perm contribution_lt (_contributions cl))) as [Pw Pi].
  rewrite <- Pi.
  destruct ((0 <=? k) && (k <? 4) && inPixel ell l (_contributions cl));
    [|reflexivity].
  apply Qplus_inj_l. apply qpow_eq. rewrite Pw.
  destruct (map (binned P) (sorted_contributions cl)) as [|c rest]; [ring|].
  destruct (c_ell c =? lell); ring.
Qed.

Lemma recordContributions_adds_moments_per_pixel_witness :
  exists s',
    recordContributions full_recorder
      (mkContributionList 5 [mkContribution 1 2 3; mkContribution 0 1 1;
                             mkContribution 1 2 4]) = Some s' /\
    (cell (_wifu s') 1 6 == cell (_wifu full_recorder) 1 6 + 49)%Q.
Proof.
  set (cl := mkContributionList 5 [mkContribution 1 2 3; mkContribution 0 1 1;
                                   mkContribution 1 2 4]).
  destruct (recordContributions full_recorder cl) as [s'|] eqn:E;
    [|vm_compute in E; discriminate].
  exists s'. split; [reflexivity|].
  assert (Hf : frame_fits full_recorder)
    by (repeat split; vm_compute; congruence).
  assert (Hin : Forall (in_frame full_recorder) (_contributions cl)).
  { repeat constructor; cbn; try lia; intros _; vm_compute; split; congruence. }
  pose proof (recordContributions_adds_moments_per_pixel full_recorder s' cl
                eq_refl Hf eq_refl Hin E 1 1 2) as H.
  cbv zeta in H. rewrite H; [|vm_compute; split; congruence
                             |vm_compute; split; congruence].
  vm_compute. reflexivity.
Defined.

(** *** The first moment of the statistics and the recorded flux *)

(** What the pending contribution lists of all threads hold for a
    wavelength bin. *)
Definition pendingWeight (ls : list (nat * ContributionList)) (b : Z) : Q :=
  fold_right (fun p acc => (binWeight b (_contributions (snd p)) + acc)%Q)
             0%Q ls.

(** The first moment of the SED statistics, together with what is still
    pending, is the total flux that the SED arrays hold. *)
Definition accounted (s : Recorder) : Prop :=
  forall b, (cell (_wsed s) 0 b + pendingWeight (_contributionLists s) b
             == totalFlux s (_sed s) b)%Q.

Definition zero_cells (arrays : list Array) : Prop :=
  forall ch i, cell arrays ch i = 0%Q.

Lemma vget_repeat {A : Type} (a x : A) (n : nat) (i : Z) :
  vget (repeat a n) i = Some x -> x = a.
Proof.
  unfold vget. destruct (in_range (repeat a n) i); [|discriminate].
  intros H. apply nth_error_In in H. now apply repeat_spec in H.
Qed.

Lemma zero_cells_empty (n : nat) : zero_cells (repeat ([] : Array) n).
Proof.
  intros ch i. unfold cell.
  destruct (vget (repeat ([] : Array) n) ch) as [a|] eqn:E; [|reflexivity].
  apply vget_repeat in E. subst a.
  unfold vget, in_range. cbn [length].
  destruct ((0 <=? i) && (i <? Z.of_nat 0)) eqn:Ei; [|reflexivity].
  apply andb_true_iff in Ei. rewrite Z.leb_le, Z.ltb_lt in Ei. lia.
Qed.

Lemma zero_cells_resize (arrays a : list Array) (ch len : Z) :
  zero_cells arrays -> resize_channel arrays ch len = Some a -> zero_cells a.
Proof.
  intros Hz H ch' i. unfold resize_channel in H.
  apply vset_spec in H. destruct H as (_ & _ & G & O).
  unfold cell. destruct (Z.eq_dec ch' ch) as [->|Hne].
  - rewrite G. unfold aresize.
    destruct (vget (repeat 0%Q (Z.to_nat len)) i) as [x|] eqn:E;
      [|reflexivity].
    now apply vget_repeat in E.
  - rewrite (O ch' Hne). apply Hz.
Qed.

Lemma zero_cells_levels (count : nat) :
  forall arrays a i len,
    zero_cells arrays -> resize_levels arrays i count len = Some a ->
    zero_cells a.
Proof.
  induction count as [|count IH]; intros arrays a i len Hz H;
    cbn [resize_levels] in H.
  - now injection H as <-.
  - unfold obind in H.
    destruct (resize_channel arrays (PrimaryScatteredLevel + i) len)
      as [a1|] eqn:E1; [|discriminate].
    eapply IH; [|exact H]. eapply zero_cells_resize; eassumption.
Qed.

Lemma zero_cells_allocate (s : Recorder) (rto : bool) (a : list Array)
  (len : Z) :
  allocate s rto [] len = Some a -> zero_cells a.
Proof.
  unfold allocate, obind. intros H.
  assert (H0 : zero_cells
                 (vresize [] (PrimaryScatteredLevel + _numScatteringLevels s)))
    by (unfold vresize; rewrite firstn_nil; apply zero_cells_empty).
  set (v := vresize [] (PrimaryScatteredLevel + _numScatteringLevels s)) in *.
  assert (H1 : forall a1,
             (if rto then resize_channel v Total len
              else
                match resize_channel v Transparent len with
                | Some a2 =>
                    match resize_channel a2 PrimaryDirect len with
                    | Some a3 =>
                        match resize_channel a3 PrimaryScattered len with
                        | Some a4 =>
                            match resize_all_levels a4
                                    (_numScatteringLevels s) len with
                            | Some a5 =>
                                if _hasMediumEmission s
                                then match resize_channel a5 SecondaryDirect len with
                                     | Some a6 =>
                                         resize_channel a6 SecondaryScattered len
                                     | None => None
                                     end
                                else Some a5
                            | None => None
                            end
                        | None => None
                        end
                    | None => None
                    end
                | None => None
                end) = Some a1 -> zero_cells a1).
  { intros a1 E. destruct rto; [eapply zero_cells_resize; eassumption|].
    destruct (resize_channel v Transparent len) as [a2|] eqn:E2; [|discriminate].
    destruct (resize_channel a2 PrimaryDirect len) as [a3|] eqn:E3;
      [|discriminate].
    destruct (resize_channel a3 PrimaryScattered len) as [a4|] eqn:E4;
      [|discriminate].
    destruct (resize_all_levels a4 (_numScatteringLevels s) len)
      as [a5|] eqn:E5; [|discriminate].
    apply resize_all_levels_some in E5. destruct E5 as [_ E5].
    assert (Z5 : zero_cells a5).
    { eapply zero_cells_levels; [|exact E5].
      eapply zero_cells_resize; [|exact E4].
      eapply zero_cells_resize; [|exact E3].
      eapply zero_cells_resize; eassumption. }
    destruct (_hasMediumEmission s); [|now injection E as <-].
    destruct (resize_channel a5 SecondaryDirect len) as [a6|] eqn:E6;
      [|discriminate].
    eapply zero_cells_resize; [|exact E].
    eapply zero_cells_resize; eassumption. }
  match type of H with
  | match ?c with Some _ => _ | None => _ end = _ =>
      destruct c as [a1|] eqn:E1; [|discriminate]
  end.
  specialize (H1 a1 eq_refl).
  destruct (_recordPolarization s); [|now injection H as <-].
  destruct (resize_channel a1 TotalQ len) as [a2|] eqn:E2; [|discriminate].
  destruct (resize_channel a2 TotalU len) as [a3|] eqn:E3; [|discriminate].
  eapply zero_cells_resize; [|exact H].
  eapply zero_cells_resize; [|exact E3].
  eapply zero_cells_resize; eassumption.
Qed.

Lemma zero_cells_statistics (s : Recorder) (len : Z) :
  zero_cells (allocate_statistics s [] len).
Proof.
  unfold allocate_statistics. intros ch i. unfold cell.
  destruct (_recordStatistics s).
  - destruct (vget _ ch) as [a|] eqn:E; [|reflexivity].
    unfold vget in E. destruct (in_range _ ch); [|discriminate].
    apply nth_error_In in E. apply in_map_iff in E.
    destruct E as (a0 & <- & _). unfold aresize.
    destruct (vget (repeat 0%Q (Z.to_nat len)) i) as [y|] eqn:Ey;
      [|reflexivity].
    now apply vget_repeat in Ey.
  - unfold vget, in_range. cbn [length].
    destruct ((0 <=? ch) && (ch <? Z.of_nat 0)) eqn:Ec; [|reflexivity].
    apply andb_true_iff in Ec. rewrite Z.leb_le, Z.ltb_lt in Ec. lia.
Qed.

Lemma inBin_false (b : Z) (cs : list Contribution) :
  inBin b cs = false -> binWeight b cs = 0%Q.
Proof.
  intros H. apply not_inBin. intros c Hc Ec.
  unfold inBin in H.
  assert (Ht : existsb (fun c => c_ell c =? b) cs = true).
  { apply existsb_exists. exists c. split; [exact Hc | now apply Z.eqb_eq]. }
  congruence.
Qed.

Lemma recordContributions_first_moment (s s' : Recorder)
  (cl : ContributionList) :
  _includeFluxDensity s = true -> recordContributions s cl = Some s' ->
  forall b, (cell (_wsed s') 0 b
             == cell (_wsed s) 0 b + binWeight b (_contributions cl))%Q.
Proof.
  intros Hfd H b.
  unfold recordContributions in H. rewrite Hfd in H. unfold obind in H.
  destruct (fold_bins same_ell sed_bin (sorted_contributions cl) 0%Q (_wsed s))
    as [wsed|] eqn:Ew; [|discriminate].
  destruct (if _includeSurfaceBrightness s then _ else _) as [wifu|];
    [|discriminate].
  injection H as <-. cbn [_wsed with_arrays].
  rewrite (fold_bins_sed _ _ _ _ (sorted_contributions_ell_sorted cl) Ew 0 b).
  destruct (binWeight_perm b (_contributions cl) (sorted_contributions cl)
              (sort_by_perm contribution_lt (_contributions cl))) as [Pw Pi].
  rewrite <- Pi. cbn [Z.leb Z.ltb Z.compare andb Z.to_nat qpow].
  destruct (inBin b (_contributions cl)) eqn:Ei.
  - apply Qplus_inj_l. rewrite Pw.
    destruct (sorted_contributions cl) as [|c rest]; [ring|].
    destruct (c_ell c =? b); ring.
  - rewrite (inBin_false _ _ Ei). reflexivity.
Qed.

Lemma binWeight_app (b : Z) (cs : list Contribution) (c : Contribution) :
  (binWeight b (cs ++ [c])
   == binWeight b cs + (if c_ell c =? b then c_w c else 0))%Q.
Proof.
  unfold binWeight. induction cs as [|x cs IH]; cbn [app fold_right].
  - destruct (c_ell c =? b); ring.
  - destruct (c_ell x =? b); rewrite IH; ring.
Qed.

Lemma pendingWeight_set_local (ls : list (nat * ContributionList)) (t : nat)
  (cl : ContributionList) (b : Z) :
  (pendingWeight (set_local ls t cl) b
   == pendingWeight ls b - binWeight b (_contributions (local ls t))
      + binWeight b (_contributions cl))%Q.
Proof.
  unfold pendingWeight.
  induction ls as [|[u cl'] ls IH]; cbn [set_local local fold_right snd].
  - cbn [reset _contributions binWeight fold_right]. ring.
  - destruct (Nat.eqb t u); cbn [fold_right snd]; [ring|].
    rewrite IH. ring.
Qed.

Lemma flush_lists_first_moment (ls : list (nat * ContributionList)) :
  forall s s' ls',
    _includeFluxDensity s = true ->
    flush_lists s ls = Some (s', ls') ->
    forall b, (cell (_wsed s') 0 b == cell (_wsed s) 0 b + pendingWeight ls b)%Q
              /\ pendingWeight ls' b = 0%Q.
Proof.
  induction ls as [|[t cl] ls IH]; intros s s' ls' Hfd H b;
    cbn [flush_lists] in H.
  - injection H as <- <-. split; [cbn [pendingWeight fold_right]; ring|].
    reflexivity.
  - unfold obind in H.
    destruct (recordContributions s cl) as [s1|] eqn:E1; [|discriminate].
    destruct (flush_lists s1 ls) as [[s2 ls2]|] eqn:E2; [|discriminate].
    cbn [fst snd] in H. injection H as <- <-.
    destruct (recordContributions_shapes s s1 cl E1) as (C & _).
    destruct (config_flags s s1 C) as (_ & _ & _ & _ & _ & Ffd & _).
    destruct (IH s1 s2 ls2 (eq_trans Ffd Hfd) E2 b) as (Hw & Hp).
    split.
    + rewrite Hw, (recordContributions_first_moment s s1 cl Hfd E1 b).
      unfold pendingWeight. cbn [fold_right snd]. ring.
    + unfold pendingWeight in *. cbn [fold_right snd reset _contributions].
      rewrite Hp. reflexivity.
Qed.

(** X28: the first moment of the SED statistics accounts for the recorded
    flux.  With flux densities, components and statistics recorded, the
    sum of the first moment array at a wavelength bin and of the
    contributions to that bin that are pending in the lists of the threads
    is the total flux that the SED arrays hold for the bin (the sum of the
    direct and scattered, primary and secondary components): this holds in
    a recorder that [finalizeConfiguration] has set up, every detection
    keeps it, and so does [flush], after which nothing is pending and the
    first moment array is the total flux. *)
Theorem first_moment_accounts_for_total_flux (exp : Q -> Q) :
  (forall s0 s,
     _sed s0 = [] -> _ifu s0 = [] -> _wsed s0 = [] ->
     _contributionLists s0 = [] ->
     finalizeConfiguration s0 = Some s -> accounted s) /\
  (forall s t pp l tau s',
     _includeFluxDensity s = true -> _recordStatistics s = true ->
     _recordTotalOnly s = false -> 0 <= numScatt pp ->
     detect exp s t pp l tau = Some s' ->
     accounted s -> accounted s') /\
  (forall s s',
     _includeFluxDensity s = true ->
     flush s = Some s' -> accounted s ->
     accounted s' /\
     forall b, (cell (_wsed s') 0 b == totalFlux s' (_sed s') b)%Q).
Proof.
  split; [|split].
  - intros s0 s Hsed Hifu Hw Hl E b.
    unfold finalizeConfiguration, obind in E. rewrite Hsed, Hifu, Hw, Hl in E.
    destruct (allocate s0 _ [] _) as [sed|] eqn:Es; [|discriminate].
    destruct (allocate s0 _ [] _) as [ifu|] eqn:Ei in E; [|discriminate].
    injection E as <-.
    unfold totalFlux.
    cbn [_wsed _sed _contributionLists _recordTotalOnly pendingWeight fold_right].
    rewrite (zero_cells_statistics s0 _ 0 b).
    pose proof (zero_cells_allocate _ _ _ _ Es) as Hz.
    rewrite !Hz. destruct (negb _ || negb _); ring.
  - intros s t pp l tau s' Hfd Hst Hrto Hn H Hacc b.
    pose proof (detect_sed exp s s' t pp l tau H) as Hs. rewrite Hfd in Hs.
    pose proof (record_flux_total s _ _ pp _ _ _ b Hs Hn) as Ht.
    rewrite Hrto in Ht.
    destruct (detect_shapes exp s s' t pp l tau H) as (C & _).
    destruct (config_flags s s' C) as (_ & Frto & _).
    assert (Etot : totalFlux s' (_sed s') b = totalFlux s (_sed s') b)
      by (unfold totalFlux; now rewrite Frto).
    rewrite Etot, Ht, <- (Hacc b).
    pose proof (detect_lists exp s s' t pp l tau H) as Hl. rewrite Hst in Hl.
    rewrite Hl, pendingWeight_set_local.
    unfold detect, obind in H. cbv zeta in H. rewrite Hfd, Hs in H.
    set (cl := local (_contributionLists s) t) in *.
    set (bin := ell (_lambdagrid s) (lambda pp)) in *.
    set (Lext := (luminosity pp * exp (- tau))%Q) in *.
    destruct (if _includeSurfaceBrightness s && (l >=? 0) then _ else _)
      as [ifu|]; [|discriminate].
    rewrite Hst in H. cbn [_contributionLists with_arrays] in H. fold cl in H.
    destruct (hasHistoryIndex cl (historyIndex pp)); cbn [negb] in H.
    + injection H as <-. cbn [_wsed with_arrays with_lists fst snd].
      unfold addContribution. cbn [_contributions].
      rewrite binWeight_app. cbn [c_ell c_w].
      rewrite (Z.eqb_sym bin b). ring.
    + destruct (recordContributions _ cl) as [s2|] eqn:E2; [|discriminate].
      injection H as <-. cbn [_wsed with_lists fst snd].
      pose proof (fun Hx => recordContributions_first_moment _ s2 cl Hx E2 b)
        as Hm.
      specialize (Hm Hfd). rewrite Hm. cbn [_wsed with_arrays].
      unfold addContribution, reset. cbn [_contributions app].
      unfold binWeight at 3. cbn [fold_right c_ell c_w].
      rewrite (Z.eqb_sym bin b). destruct (b =? bin); ring.
  - intros s s' Hfd H Hacc.
    unfold flush, obind in H.
    destruct (flush_lists s (_contributionLists s)) as [[s1 ls1]|] eqn:E;
      [|discriminate].
    cbn [fst snd] in H. injection H as <-.
    destruct (flush_lists_shapes _ _ _ _ E) as (C & Es & _).
    destruct (config_flags s s1 C) as (_ & Frto & _).
    assert (Hb : forall b,
               (cell (_wsed s1) 0 b == totalFlux s1 (_sed s1) b)%Q).
    { intros b. destruct (flush_lists_first_moment _ _ _ _ Hfd E b) as (Hw & _).
      rewrite Hw, (Hacc b). unfold totalFlux. now rewrite Frto, Es. }
    split.
    + intros b. cbn [_wsed _sed _contributionLists with_lists].
      destruct (flush_lists_first_moment _ _ _ _ Hfd E b) as (_ & Hp).
      rewrite Hp, Qplus_0_r.
      change (totalFlux (with_lists s1 ls1) (_sed s1) b)
        with (totalFlux s1 (_sed s1) b).
      apply Hb.
    + intros b. cbn [_wsed _sed with_lists].
      change (totalFlux (with_lists s1 ls1) (_sed s1) b)
        with (totalFlux s1 (_sed s1) b).
      apply Hb.
Qed.

Lemma first_moment_accounts_for_total_flux_witness :
  exists s1 s',
    detect exp_poly full_recorder 0 (packet 3 0 2 5) 3 1 = Some s1 /\
    flush s1 = Some s' /\
    (cell (_wsed s') 0 3 == totalFlux s' (_sed s') 3)%Q /\
    (cell (_wsed s') 0 3 == 2 * exp_poly (- 1))%Q.
Proof.
  destruct (first_moment_accounts_for_total_flux exp_poly) as (A & B & C).
  assert (H0 : accounted full_recorder).
  { apply (A (configured grid4 true false true 2 false true true true 2 2));
      reflexivity. }
  destruct (detect exp_poly full_recorder 0 (packet 3 0 2 5) 3 1)
    as [s1|] eqn:E1; [|vm_compute in E1; discriminate].
  assert (H1 : accounted s1).
  { apply (B full_recorder 0%nat (packet 3 0 2 5) 3 1%Q s1
               eq_refl eq_refl eq_refl);
      [unfold packet; cbn; lia | exact E1 | exact H0]. }
  assert (Hfd : _includeFluxDensity s1 = true)
    by (vm_compute in E1; injection E1 as <-; reflexivity).
  destruct (flush s1) as [s'|] eqn:E2;
    [|vm_compute in E1; injection E1 as <-; vm_compute in E2; discriminate].
  destruct (C s1 s' Hfd E2 H1) as (_ & Hb).
  exists s1, s'. split; [reflexivity|]. split; [exact E2|].
  split; [apply Hb|].
  vm_compute in E1. injection E1 as <-. vm_compute in E2. injection E2 as <-.
  vm_compute. reflexivity.
Defined.

End FluxRecorder.

(** ** Comparisons of doubles *)

Definition Qltb (a b : Q) : bool := negb (Qle_bool b a).

Lemma Qltb_lt (a b : Q) : Qltb a b = true <-> (a < b)%Q.
Proof.
  unfold Qltb. rewrite negb_true_iff. split; intros H.
  - apply Qnot_le_lt. intros Hle. apply Qle_bool_iff in Hle. congruence.
  - destruct (Qle_bool b a) eqn:E; [|reflexivity].
    apply Qle_bool_iff in E. exfalso. now apply (Qlt_not_le a b).
Qed.

Lemma Qltb_ge (a b : Q) : Qltb a b = false <-> (b <= a)%Q.
Proof.
  unfold Qltb. rewrite negb_false_iff. apply Qle_bool_iff.
Qed.

(** [DBL_MAX], the largest finite double. *)
Definition DBL_MAX : Q := inject_Z (2 ^ 1024 - 2 ^ 971).

(** ** The Voronoi mesh snapshot *)

Module VoronoiMeshSnapshot.

Local Open Scope Q_scope.

Record Vec : Type := mkVec { vx : Q; vy : Q; vz : Q }.

Definition vadd (a b : Vec) : Vec := mkVec (vx a + vx b) (vy a + vy b) (vz a + vz b).
Definition vsub (a b : Vec) : Vec := mkVec (vx a - vx b) (vy a - vy b) (vz a - vz b).
Definition norm2 (a : Vec) : Q := vx a * vx a + vy a * vy a + vz a * vz a.


Record Box : Type := mkBox {
  xmin : Q; ymin : Q; zmin : Q;
  xmax : Q; ymax : Q; zmax : Q
}.

Definition widths (b : Box) : Vec :=
  mkVec (xmax b - xmin b) (ymax b - ymin b) (zmax b - zmin b).

(** Modelled from the spec: [Box::contains] (the class [Box] is not part of
    the sources); a point is inside the domain when it lies in the closed
    box. *)
Definition contains (b : Box) (r : Vec) : bool :=
  Qle_bool (xmin b) (vx r) && Qle_bool (vx r) (xmax b)
  && Qle_bool (ymin b) (vy r) && Qle_bool (vy r) (ymax b)
  && Qle_bool (zmin b) (vz r) && Qle_bool (vz r) (zmax b).

(** [setExtent]: the tolerance is [1e-12] times the diagonal of the domain;
    [sqrt] is the square root of the C library. *)
Definition setExtent (sqrt : Q -> Q) (extent : Box) : Box * Q :=
  (extent, (1 # 1000000000000) * sqrt (norm2 (widths extent))).

(** The information about a Voronoi cell that is relevant for paths and
    densities: the site, and what the tessellation computed for it. *)
Record VoronoiCell : Type := mkVoronoiCell {
  _r : Vec;
  _c : Vec;
  _volume : Q;
  _neighbors : list Z;
  rmin : Vec;
  rmax : Vec
}.

Definition position (cells : list VoronoiCell) (m : nat) : Vec :=
  _r (nth m cells (mkVoronoiCell (mkVec 0 0 0) (mkVec 0 0 0) 0 []
                                 (mkVec 0 0 0) (mkVec 0 0 0))).

Definition squaredDistanceTo (cells : list VoronoiCell) (m : nat) (r : Vec) : Q :=
  norm2 (vsub r (position cells m)).

(** [lessthan]: the comparison of two points according to an axis. *)
Definition lessthan (p1 p2 : Vec) (axis : Z) : bool :=
  if (axis =? 0)%Z then
    if Qltb (vx p1) (vx p2) then true
    else if Qltb (vx p2) (vx p1) then false
    else if Qltb (vy p1) (vy p2) then true
    else if Qltb (vy p2) (vy p1) then false
    else Qltb (vz p1) (vz p2)
  else if (axis =? 1)%Z then
    if Qltb (vy p1) (vy p2) then true
    else if Qltb (vy p2) (vy p1) then false
    else if Qltb (vz p1) (vz p2) then true
    else if Qltb (vz p2) (vz p1) then false
    else Qltb (vx p1) (vx p2)
  else if (axis =? 2)%Z then
    if Qltb (vz p1) (vz p2) then true
    else if Qltb (vz p2) (vz p1) then false
    else if Qltb (vx p1) (vx p2) then true
    else if Qltb (vx p2) (vx p1) then false
    else Qltb (vy p1) (vy p2)
  else false.

(** A node of the binary search tree, or the null pointer.  The parent
    pointer of the source is the context of the recursion here. *)
Inductive Node : Type :=
| Null : Node
| MkNode (_m : nat) (_axis : Z) (_left _right : Node) : Node.

Definition sqr (x : Q) : Q := x * x.

Definition squaredDistanceToSplitPlane (cells : list VoronoiCell) (m : nat)
  (axis : Z) (bfr : Vec) : Q :=
  if (axis =? 0)%Z then sqr (vx (position cells m) - vx bfr)
  else if (axis =? 1)%Z then sqr (vy (position cells m) - vy bfr)
  else if (axis =? 2)%Z then sqr (vz (position cells m) - vz bfr)
  else 0.

(** [Node::nearest].  The source descends from the node to a leaf along
    [child] and then climbs back to the node; at every node on the way up
    it compares the node with the best so far, and searches the other
    child when the split plane is closer than the best so far.  Here the
    descent below the appropriate child and the climb back up to it are
    the recursive call on that child: its result [below] is the best so
    far when the climb reaches the node ([None] when the node has no such
    child and is itself the leaf of the descent).  [other] is the result of
    the search of the other child, which is used only when the split plane
    is closer than the best so far. *)
Definition nearest_body (cells : list VoronoiCell) (bfr : Vec) (m : nat)
  (axis : Z) (below other : option nat) : option nat :=
  let best := match below with Some b => b | None => m end in
  let bestSD := squaredDistanceTo cells best bfr in
  let currentSD := squaredDistanceTo cells m bfr in
  let best := if Qltb currentSD bestSD then m else best in
  let bestSD := if Qltb currentSD bestSD then currentSD else bestSD in
  let splitSD := squaredDistanceToSplitPlane cells m axis bfr in
  if Qltb splitSD bestSD then
    match other with
    | Some otherBest =>
        if Qltb (squaredDistanceTo cells otherBest bfr) bestSD
        then Some otherBest else Some best
    | None => Some best
    end
  else Some best.

Fixpoint nearest (cells : list VoronoiCell) (bfr : Vec) (t : Node)
  : option nat :=
  match t with
  | Null => None
  | MkNode m axis _left _right =>
      let down := lessthan bfr (position cells m) axis in
      nearest_body cells bfr m axis
        (nearest cells bfr (if down then _left else _right))
        (nearest cells bfr (if down then _right else _left))
  end.

(** The linear scan of [cellIndex] over the index list of a block. *)
Fixpoint scan (cells : list VoronoiCell) (bfr : Vec) (ids : list nat)
  (m : Z) (mdist : Q) : Z :=
  match ids with
  | [] => m
  | id :: ids' =>
      let idist := squaredDistanceTo cells id bfr in
      if Qltb idist mdist then scan cells bfr ids' (Z.of_nat id) idist
      else scan cells bfr ids' m mdist
  end.

(** The integers [i1 .. i2] of a loop [for (i = i1; i <= i2; i++)]. *)
Definition zrange (i1 i2 : Z) : list Z :=
  map (fun d => (i1 + Z.of_nat d)%Z) (seq 0 (Z.to_nat (i2 - i1 + 1))).

(** [_blocklists[b].push_back(m)]. *)
Fixpoint push_at (lists : list (list nat)) (b : nat) (m : nat)
  : list (list nat) :=
  match lists, b with
  | [], _ => []
  | l :: lists', O => (l ++ [m]) :: lists'
  | l :: lists', S b' => l :: push_at lists' b' m
  end.

(** The search structures that [buildSearch] constructs. *)
Record Search : Type := mkSearch {
  _nb : Z;
  _blocklists : list (list nat);
  _blocktrees : list Node
}.

Section Search.

(** [Box::cellIndices], which is not part of the sources: the indices of
    the block of a regular grid that contains a point (clipped to the
    grid). *)
Variable cellIndices : Box -> Vec -> Z -> Z -> Z -> Z * Z * Z.

(** [std::nth_element] with a comparison function. *)
Variable nth_element : (nat -> nat -> bool) -> list nat -> nat -> list nat.

(** [static_cast<int>(3.*pow(numCells,1./3.))]. *)
Variable cbrt3 : Z -> Z.

Variable extent : Box.
Variable eps : Q.

(** The comparison that [buildTree] passes to [std::nth_element]. *)
Definition site_lessthan (cells : list VoronoiCell) (depth : nat)
  (m1 m2 : nat) : bool :=
  negb (Nat.eqb m1 m2)
  && lessthan (position cells m1) (position cells m2)
              (Z.of_nat depth mod 3).

(** [buildTree] on the sequence [first .. last) of indices.  The recursion
    of the source is on a strictly shorter sequence; [fuel] bounds its
    depth and the length of the sequence is always enough. *)
Fixpoint buildTree (fuel : nat) (cells : list VoronoiCell) (ids : list nat)
  (depth : nat) : Node :=
  match fuel with
  | O => Null
  | S fuel' =>
      match ids with
      | [] => Null
      | _ :: _ =>
          let median := Nat.div2 (length ids) in
          let ids := nth_element (site_lessthan cells depth) ids median in
          MkNode (nth median ids O) (Z.of_nat depth mod 3)
                 (buildTree fuel' cells (firstn median ids) (S depth))
                 (buildTree fuel' cells (skipn (S median) ids) (S depth))
      end
  end.

Definition blockNumber (nb i j k : Z) : nat :=
  Z.to_nat (i * (nb * nb) + j * nb + k).

(** The loops that add cell [m] to the lists of all blocks that its
    enclosing box, grown by [eps], may overlap. *)
Definition addToBlocks (nb : Z) (lists : list (list nat)) (m : nat)
  (cell : VoronoiCell) : list (list nat) :=
  let '(i1, j1, k1) :=
    cellIndices extent (vsub (rmin cell) (mkVec eps eps eps)) nb nb nb in
  let '(i2, j2, k2) :=
    cellIndices extent (vadd (rmax cell) (mkVec eps eps eps)) nb nb nb in
  fold_left (fun lists i =>
    fold_left (fun lists j =>
      fold_left (fun lists k => push_at lists (blockNumber nb i j k) m)
                (zrange k1 k2) lists)
      (zrange j1 j2) lists)
    (zrange i1 i2) lists.

Fixpoint addAllToBlocks (nb : Z) (lists : list (list nat)) (m : nat)
  (cells : list VoronoiCell) : list (list nat) :=
  match cells with
  | [] => lists
  | cell :: cells' =>
      addAllToBlocks nb (addToBlocks nb lists m cell) (S m) cells'
  end.

(** [buildSearch] (nothing is built when there are no cells).  A list
    that gets a tree is reordered in place by [buildTree] in the source;
    it is not read again by [cellIndex], and is kept as it is here. *)
Definition buildSearch (cells : list VoronoiCell) : option Search :=
  match cells with
  | [] => None
  | _ :: _ =>
      let numCells := Z.of_nat (length cells) in
      let nb := Z.max 3 (Z.min 1000 (cbrt3 numCells)) in
      let lists := addAllToBlocks nb (repeat [] (Z.to_nat (nb * nb * nb)))
                                  O cells in
      let trees := map (fun ids => if (5 <? length ids)%nat
                                   then buildTree (length ids) cells ids O
                                   else Null) lists in
      Some (mkSearch nb lists trees)
  end.

(** [cellIndex]. *)
Definition cellIndex (cells : list VoronoiCell) (s : Search) (bfr : Vec) : Z :=
  if negb (contains extent bfr) then (-1)%Z
  else
    let '(i, j, k) := cellIndices extent bfr (_nb s) (_nb s) (_nb s) in
    let b := blockNumber (_nb s) i j k in
    match nearest cells bfr (nth b (_blocktrees s) Null) with
    | Some m => Z.of_nat m
    | None => scan cells bfr (nth b (_blocklists s) []) (-1)%Z DBL_MAX
    end.

End Search.

(** *** The nearest site in a search tree *)

Lemma Qsqr_nonneg (a : Q) : 0 <= a * a.
Proof. nra. Qed.

Fixpoint elems (t : Node) : list nat :=
  match t with
  | Null => []
  | MkNode m _ l r => m :: elems l ++ elems r
  end.

Definition coord (axis : Z) (p : Vec) : Q :=
  if (axis =? 0)%Z then vx p else if (axis =? 1)%Z then vy p else vz p.

(** The ordering that [buildTree] establishes: the sites in the left
    subtree are not above the site of the node, and the sites in the right
    subtree are not below it, in the order of [lessthan] for the axis of
    the node. *)
Fixpoint kd_ok (cells : list VoronoiCell) (t : Node) : Prop :=
  match t with
  | Null => True
  | MkNode m axis l r =>
      (0 <= axis <= 2)%Z /\
      (forall e, In e (elems l) ->
                 lessthan (position cells m) (position cells e) axis = false) /\
      (forall e, In e (elems r) ->
                 lessthan (position cells e) (position cells m) axis = false) /\
      kd_ok cells l /\ kd_ok cells r
  end.

Lemma nearest_unfold (cells : list VoronoiCell) (bfr : Vec) (m : nat)
  (axis : Z) (l r : Node) :
  nearest cells bfr (MkNode m axis l r)
  = let down := lessthan bfr (position cells m) axis in
    nearest_body cells bfr m axis
      (nearest cells bfr (if down then l else r))
      (nearest cells bfr (if down then r else l)).
Proof. reflexivity. Qed.

Ltac qcases :=
  repeat match goal with
         | |- context [Qltb ?a ?b] =>
             let E := fresh "E" in
             destruct (Qltb a b) eqn:E;
             [apply Qltb_lt in E | apply Qltb_ge in E]
         | H : context [Qltb ?a ?b] |- _ =>
             let E := fresh "E" in
             destruct (Qltb a b) eqn:E;
             [apply Qltb_lt in E | apply Qltb_ge in E]
         end.

Lemma lessthan_true_coord (p q : Vec) (axis : Z) :
  lessthan p q axis = true -> coord axis p <= coord axis q.
Proof.
  unfold lessthan, coord.
  destruct (axis =? 0)%Z; [|destruct (axis =? 1)%Z; [|destruct (axis =? 2)%Z]];
    intros H; qcases; try discriminate; lra.
Qed.

Lemma lessthan_false_coord (p q : Vec) (axis : Z) :
  (0 <= axis <= 2)%Z ->
  lessthan p q axis = false -> coord axis q <= coord axis p.
Proof.
  intros Ha. unfold lessthan, coord.
  destruct (Z.eqb_spec axis 0); [|destruct (Z.eqb_spec axis 1);
                                   [|destruct (Z.eqb_spec axis 2); [|lia]]];
    intros H; qcases; try discriminate; lra.
Qed.

Lemma lessthan_irrefl (p : Vec) (axis : Z) : lessthan p p axis = false.
Proof.
  unfold lessthan.
  destruct (axis =? 0)%Z; [|destruct (axis =? 1)%Z; [|destruct (axis =? 2)%Z]];
    qcases; try reflexivity; lra.
Qed.

Lemma sqr_between (a b c : Q) :
  a <= b <= c \/ c <= b <= a -> (b - a) * (b - a) <= (a - c) * (a - c).
Proof. intros [H|H]; nra. Qed.

Lemma split_plane_below (cells : list VoronoiCell) (bfr : Vec) (m e : nat)
  (axis : Z) :
  (0 <= axis <= 2)%Z ->
  (coord axis bfr <= coord axis (position cells m) <= coord axis (position cells e)
   \/ coord axis (position cells e) <= coord axis (position cells m)
      <= coord axis bfr) ->
  squaredDistanceToSplitPlane cells m axis bfr <= squaredDistanceTo cells e bfr.
Proof.
  intros Ha H.
  unfold squaredDistanceToSplitPlane, squaredDistanceTo, norm2, vsub, sqr, coord
    in *. cbn [vx vy vz].
  set (p := position cells m) in *. set (q := position cells e) in *.
  pose proof (Qsqr_nonneg (vx bfr - vx q)) as Hx.
  pose proof (Qsqr_nonneg (vy bfr - vy q)) as Hy.
  pose proof (Qsqr_nonneg (vz bfr - vz q)) as Hz.
  destruct (Z.eqb_spec axis 0); [|destruct (Z.eqb_spec axis 1);
                                   [|destruct (Z.eqb_spec axis 2); [|lia]]].
  - pose proof (sqr_between (vx bfr) (vx p) (vx q) H). lra.
  - pose proof (sqr_between (vy bfr) (vy p) (vy q) H). lra.
  - pose proof (sqr_between (vz bfr) (vz p) (vz q) H). lra.
Qed.

(** One node of the search: when the results for the two children are
    nearest sites of the children, and no site of the other child is closer
    than the split plane, the result is a nearest site of the node. *)
Lemma nearest_body_spec (cells : list VoronoiCell) (bfr : Vec) (m : nat)
  (axis : Z) (below other : option nat) (A B : list nat) :
  (below = None /\ A = [] \/
   exists b, below = Some b /\ In b A /\
             forall e, In e A ->
                       squaredDistanceTo cells b bfr <= squaredDistanceTo cells e bfr) ->
  (other = None /\ B = [] \/
   exists b, other = Some b /\ In b B /\
             forall e, In e B ->
                       squaredDistanceTo cells b bfr <= squaredDistanceTo cells e bfr) ->
  (forall e, In e B ->
             squaredDistanceToSplitPlane cells m axis bfr
             <= squaredDistanceTo cells e bfr) ->
  exists b, nearest_body cells bfr m axis below other = Some b /\
            In b (m :: A ++ B) /\
            forall e, In e (m :: A ++ B) ->
                      squaredDistanceTo cells b bfr <= squaredDistanceTo cells e bfr.
Proof.
  intros HA HB Hsplit. unfold nearest_body. cbv zeta.
  destruct HA as [[-> ->]|(b0 & -> & Hb0 & Hmin)];
    destruct HB as [[-> ->]|(ob & -> & Hob & Hmino)];
    qcases;
    eexists; (split; [reflexivity|]); (split; [simpl; rewrite ?in_app_iff; tauto|]);
    intros e [<-|He]; try lra;
    apply in_app_or in He; destruct He as [He|He]; try contradiction;
    try (specialize (Hmin e He)); try (specialize (Hmino e He));
    try (specialize (Hsplit e He)); lra.
Qed.

Lemma nearest_spec (cells : list VoronoiCell) (bfr : Vec) (t : Node) :
  kd_ok cells t ->
  (t = Null /\ nearest cells bfr t = None) \/
  exists b, nearest cells bfr t = Some b /\ In b (elems t) /\
            forall e, In e (elems t) ->
                      squaredDistanceTo cells b bfr <= squaredDistanceTo cells e bfr.
Proof.
  induction t as [|m axis l IHl r IHr]; intros Hok; [now left|].
  right. destruct Hok as (Ha & Hl & Hr & Hokl & Hokr).
  specialize (IHl Hokl). specialize (IHr Hokr).
  assert (Nl : forall t', (t' = Null /\ nearest cells bfr t' = None) \/
                 (exists b, nearest cells bfr t' = Some b /\ In b (elems t') /\
                    forall e, In e (elems t') ->
                      squaredDistanceTo cells b bfr <= squaredDistanceTo cells e bfr) ->
               (nearest cells bfr t' = None /\ elems t' = [] \/
                exists b, nearest cells bfr t' = Some b /\ In b (elems t') /\
                    forall e, In e (elems t') ->
                      squaredDistanceTo cells b bfr <= squaredDistanceTo cells e bfr)).
  { intros t' [[-> H]|H]; [left; now split | now right]. }
  rewrite nearest_unfold. cbv zeta.
  destruct (lessthan bfr (position cells m) axis) eqn:Ed.
  - destruct (nearest_body_spec cells bfr m axis
                (nearest cells bfr l) (nearest cells bfr r) (elems l) (elems r)
                (Nl l IHl) (Nl r IHr)) as (b & E & Hin & Hmin).
    + intros e He. apply split_plane_below; [assumption|]. left.
      split; [now apply lessthan_true_coord|].
      apply lessthan_false_coord; [assumption | now apply Hr].
    + exists b. split; [exact E|]. split; assumption.
  - destruct (nearest_body_spec cells bfr m axis
                (nearest cells bfr r) (nearest cells bfr l) (elems r) (elems l)
                (Nl r IHr) (Nl l IHl)) as (b & E & Hin & Hmin).
    + intros e He. apply split_plane_below; [assumption|]. right.
      split; [apply lessthan_false_coord; [assumption | now apply Hl]|].
      now apply lessthan_false_coord.
    + exists b. split; [exact E|].
      assert (Hperm : forall e, In e (m :: elems r ++ elems l) <->
                                In e (m :: elems l ++ elems r)).
      { intros e. simpl. rewrite !in_app_iff. tauto. }
      split; [now apply Hperm|]. intros e He. apply Hmin. now apply Hperm.
Qed.

(** *** What is assumed of the library functions *)

(** [std::nth_element]: the result is a rearrangement of the sequence in
    which no element before position [n] is above the element at position
    [n], and no element after it is below, for the comparison. *)
Definition nth_element_ok
  (nth_element : (nat -> nat -> bool) -> list nat -> nat -> list nat) : Prop :=
  forall (cells : list VoronoiCell) (depth : nat) (ids : list nat) (n : nat),
    (n < length ids)%nat ->
    Permutation ids (nth_element (site_lessthan cells depth) ids n) /\
    (forall i, (i < n)%nat ->
       site_lessthan cells depth
         (nth n (nth_element (site_lessthan cells depth) ids n) O)
         (nth i (nth_element (site_lessthan cells depth) ids n) O) = false) /\
    (forall j, (n < j < length ids)%nat ->
       site_lessthan cells depth
         (nth j (nth_element (site_lessthan cells depth) ids n) O)
         (nth n (nth_element (site_lessthan cells depth) ids n) O) = false).

(** [Box::cellIndices] for the domain on a grid of [nb] blocks per axis:
    the indices are indices of the grid, and they grow with the coordinates
    of the point. *)
Definition cellIndices_ok
  (cellIndices : Box -> Vec -> Z -> Z -> Z -> Z * Z * Z) (b : Box) : Prop :=
  forall (nb : Z),
    (0 < nb)%Z ->
    (forall r, (0 <= fst (fst (cellIndices b r nb nb nb)) < nb)%Z /\
               (0 <= snd (fst (cellIndices b r nb nb nb)) < nb)%Z /\
               (0 <= snd (cellIndices b r nb nb nb) < nb)%Z) /\
    (forall r1 r2,
        (vx r1 <= vx r2 ->
         (fst (fst (cellIndices b r1 nb nb nb))
          <= fst (fst (cellIndices b r2 nb nb nb)))%Z) /\
        (vy r1 <= vy r2 ->
         (snd (fst (cellIndices b r1 nb nb nb))
          <= snd (fst (cellIndices b r2 nb nb nb)))%Z) /\
        (vz r1 <= vz r2 ->
         (snd (cellIndices b r1 nb nb nb)
          <= snd (cellIndices b r2 nb nb nb))%Z)).

(** *** The search trees that [buildTree] constructs *)

Lemma skipn_nth {A : Type} (l : list A) (n : nat) (d : A) :
  (n < length l)%nat -> skipn n l = nth n l d :: skipn (S n) l.
Proof.
  revert n. induction l as [|a l IH]; intros [|n] H; simpl in *; try lia.
  - reflexivity.
  - apply IH. lia.
Qed.

Lemma In_firstn_nth {A : Type} (l : list A) (n : nat) (d e : A) :
  In e (firstn n l) -> exists i, (i < n)%nat /\ nth i l d = e.
Proof.
  revert n. induction l as [|a l IH]; intros [|n] H; simpl in *;
    try contradiction.
  destruct H as [<-|H].
  - exists O. split; [lia | reflexivity].
  - destruct (IH n H) as (i & Hi & E). exists (S i). split; [lia | exact E].
Qed.

Lemma In_skipn_nth {A : Type} (l : list A) (n : nat) (d e : A) :
  In e (skipn n l) -> exists j, (n <= j < length l)%nat /\ nth j l d = e.
Proof.
  revert n. induction l as [|a l IH]; intros [|n] H; simpl in *;
    try contradiction.
  - destruct H as [<-|H].
    + exists O. split; [lia | reflexivity].
    + destruct (IH O) as (j & Hj & E); [now destruct l|].
      exists (S j). split; [lia | exact E].
  - destruct (IH n H) as (j & Hj & E). exists (S j). split; [lia | exact E].
Qed.

Lemma site_lessthan_false (cells : list VoronoiCell) (depth a b : nat) :
  site_lessthan cells depth a b = false ->
  lessthan (position cells a) (position cells b) (Z.of_nat depth mod 3) = false.
Proof.
  unfold site_lessthan. destruct (Nat.eqb_spec a b) as [->|_]; simpl.
  - intros _. apply lessthan_irrefl.
  - trivial.
Qed.

Section Trees.

Variable nth_element : (nat -> nat -> bool) -> list nat -> nat -> list nat.
Hypothesis nth_element_spec : nth_element_ok nth_element.

Lemma buildTree_spec (cells : list VoronoiCell) (fuel : nat) :
  forall (ids : list nat) (depth : nat),
    (length ids <= fuel)%nat ->
    kd_ok cells (buildTree nth_element fuel cells ids depth) /\
    Permutation ids (elems (buildTree nth_element fuel cells ids depth)).
Proof.
  induction fuel as [|fuel IH]; intros ids depth Hlen.
  - destruct ids; [|simpl in Hlen; lia]. simpl. split; [exact I | constructor].
  - destruct ids as [|a ids0]; [simpl; split; [exact I | constructor]|].
    set (ids := a :: ids0) in *.
    cbn [buildTree]. fold ids.
    set (median := Nat.div2 (length ids)).
    assert (Hmed : (median < length ids)%nat)
      by (apply Nat.lt_div2; unfold ids; simpl; lia).
    destruct (nth_element_spec cells depth ids median Hmed)
      as (Hperm & Hleft & Hright).
    set (ids' := nth_element (site_lessthan cells depth) ids median) in *.
    assert (Hlen' : length ids' = length ids)
      by (symmetry; now apply Permutation_length).
    destruct (IH (firstn median ids') (S depth)) as (Hokl & Hpl).
    { rewrite length_firstn. lia. }
    destruct (IH (skipn (S median) ids') (S depth)) as (Hokr & Hpr).
    { rewrite length_skipn. lia. }
    split.
    + cbn [kd_ok]. repeat split; try assumption.
      * apply Z.mod_pos_bound. lia.
      * pose proof (Z.mod_pos_bound (Z.of_nat depth) 3). lia.
      * intros e He.
        apply (Permutation_in _ (Permutation_sym Hpl)) in He.
        destruct (In_firstn_nth _ _ O _ He) as (i & Hi & <-).
        apply site_lessthan_false. now apply Hleft.
      * intros e He.
        apply (Permutation_in _ (Permutation_sym Hpr)) in He.
        destruct (In_skipn_nth _ _ O _ He) as (j & Hj & <-).
        apply site_lessthan_false. apply Hright. lia.
    + cbn [elems]. apply (Permutation_trans Hperm).
      assert (E : firstn median ids' ++ nth median ids' O
                                     :: skipn (S median) ids' = ids').
      { rewrite <- skipn_nth by lia. apply firstn_skipn. }
      apply Permutation_trans
        with (firstn median ids' ++ nth median ids' O :: skipn (S median) ids').
      * rewrite E. apply Permutation_refl.
      * apply Permutation_sym, Permutation_cons_app, Permutation_sym.
        now apply Permutation_app.
Qed.

End Trees.

(** *** The block lists that [buildSearch] constructs *)

(** A step on the block lists that only adds the cell [m] to lists. *)
Definition adds_only (m : nat) (f : list (list nat) -> list (list nat)) : Prop :=
  forall lists,
    length (f lists) = length lists /\
    (forall b x, In x (nth b lists []) -> In x (nth b (f lists) [])) /\
    (forall b x, In x (nth b (f lists) []) -> x = m \/ In x (nth b lists [])).

(** A step on the block lists after which the list of block [b] holds [m]. *)
Definition reaches (m b : nat) (f : list (list nat) -> list (list nat)) : Prop :=
  forall lists, (b < length lists)%nat -> In m (nth b (f lists) []).

Lemma push_at_length (lists : list (list nat)) (b m : nat) :
  length (push_at lists b m) = length lists.
Proof.
  revert b. induction lists as [|l lists IH]; intros [|b]; simpl; auto.
Qed.

Lemma push_at_nth (lists : list (list nat)) (b b' m : nat) :
  nth b' (push_at lists b m) []
  = if Nat.eqb b' b && (b <? length lists)%nat
    then nth b lists [] ++ [m] else nth b' lists [].
Proof.
  revert b b'. induction lists as [|l lists IH]; intros [|b] [|b']; simpl;
    try reflexivity.
  - now destruct (Nat.eqb b' b).
  - rewrite IH. reflexivity.
Qed.

Lemma adds_only_push (m b : nat) : adds_only m (fun lists => push_at lists b m).
Proof.
  intros lists. split; [apply push_at_length|]. split; intros b' x H.
  - rewrite push_at_nth.
    destruct (Nat.eqb_spec b' b) as [->|]; simpl; [|assumption].
    destruct (b <? length lists)%nat; [|assumption].
    apply in_or_app. now left.
  - rewrite push_at_nth in H.
    destruct (Nat.eqb_spec b' b) as [->|]; simpl in H; [|now right].
    destruct (b <? length lists)%nat; [|now right].
    apply in_app_or in H. destruct H as [H|[<-|[]]]; [now right | now left].
Qed.

Lemma reaches_push (m b : nat) : reaches m b (fun lists => push_at lists b m).
Proof.
  intros lists Hb. rewrite push_at_nth, Nat.eqb_refl.
  apply Nat.ltb_lt in Hb. rewrite Hb. simpl.
  apply in_or_app. right. now left.
Qed.

Lemma adds_only_fold {X : Type} (m : nat)
  (f : list (list nat) -> X -> list (list nat)) (xs : list X) :
  (forall x, adds_only m (fun lists => f lists x)) ->
  adds_only m (fun lists => fold_left f xs lists).
Proof.
  intros Hf. induction xs as [|x xs IH]; intros lists; simpl.
  - repeat split; auto.
  - destruct (Hf x lists) as (L1 & M1 & O1).
    destruct (IH (f lists x)) as (L2 & M2 & O2).
    split; [congruence|]. split; intros b y H.
    + apply M2, M1, H.
    + destruct (O2 b y H) as [->|H']; [now left | now apply O1].
Qed.

Lemma reaches_fold {X : Type} (m b : nat)
  (f : list (list nat) -> X -> list (list nat)) (xs : list X) (x0 : X) :
  (forall x, adds_only m (fun lists => f lists x)) ->
  In x0 xs ->
  reaches m b (fun lists => f lists x0) ->
  reaches m b (fun lists => fold_left f xs lists).
Proof.
  intros Hf Hin Hr. induction xs as [|x xs IH]; [contradiction|].
  intros lists Hb. simpl.
  destruct (Hf x lists) as (L1 & M1 & O1).
  destruct Hin as [->|Hin].
  - destruct (adds_only_fold m f xs Hf (f lists x0)) as (_ & M2 & _).
    apply M2. now apply Hr.
  - apply (IH Hin). now rewrite L1.
Qed.

Lemma In_zrange (i1 i2 i : Z) : (i1 <= i <= i2)%Z -> In i (zrange i1 i2).
Proof.
  intros H. unfold zrange. apply in_map_iff.
  exists (Z.to_nat (i - i1)). split; [lia|].
  apply in_seq. lia.
Qed.

Lemma blockNumber_bound (nb i j k : Z) :
  (0 <= i < nb)%Z -> (0 <= j < nb)%Z -> (0 <= k < nb)%Z ->
  (blockNumber nb i j k < Z.to_nat (nb * nb * nb))%nat.
Proof.
  intros Hi Hj Hk. unfold blockNumber.
  apply Z2Nat.inj_lt; nia.
Qed.

Section Blocks.

Variable cellIndices : Box -> Vec -> Z -> Z -> Z -> Z * Z * Z.
Variable extent : Box.
Variable eps : Q.

Lemma addToBlocks_adds_only (nb : Z) (m : nat) (cell : VoronoiCell) :
  adds_only m (fun lists => addToBlocks cellIndices extent eps nb lists m cell).
Proof.
  unfold addToBlocks.
  destruct (cellIndices extent (vsub (rmin cell) _) nb nb nb) as [[i1 j1] k1].
  destruct (cellIndices extent (vadd (rmax cell) _) nb nb nb) as [[i2 j2] k2].
  apply adds_only_fold. intros i.
  apply adds_only_fold. intros j.
  apply adds_only_fold. intros k.
  apply adds_only_push.
Qed.

Lemma addToBlocks_reaches (nb : Z) (m : nat) (cell : VoronoiCell) (i j k : Z) :
  let lo := cellIndices extent (vsub (rmin cell) (mkVec eps eps eps)) nb nb nb in
  let hi := cellIndices extent (vadd (rmax cell) (mkVec eps eps eps)) nb nb nb in
  (fst (fst lo) <= i <= fst (fst hi))%Z ->
  (snd (fst lo) <= j <= snd (fst hi))%Z ->
  (snd lo <= k <= snd hi)%Z ->
  reaches m (blockNumber nb i j k)
    (fun lists => addToBlocks cellIndices extent eps nb lists m cell).
Proof.
  unfold addToBlocks.
  destruct (cellIndices extent (vsub (rmin cell) _) nb nb nb) as [[i1 j1] k1].
  destruct (cellIndices extent (vadd (rmax cell) _) nb nb nb) as [[i2 j2] k2].
  cbn [fst snd]. intros Hi Hj Hk.
  apply reaches_fold with (x0 := i); [|now apply In_zrange|].
  { intros i'. apply adds_only_fold. intros j'.
    apply adds_only_fold. intros k'. apply adds_only_push. }
  apply reaches_fold with (x0 := j); [|now apply In_zrange|].
  { intros j'. apply adds_only_fold. intros k'. apply adds_only_push. }
  apply reaches_fold with (x0 := k); [|now apply In_zrange|].
  { intros k'. apply adds_only_push. }
  apply reaches_push.
Qed.

Lemma addAllToBlocks_spec (nb : Z) (cells : list VoronoiCell) :
  forall (lists : list (list nat)) (m0 : nat),
    let R := addAllToBlocks cellIndices extent eps nb lists m0 cells in
    length R = length lists /\
    (forall b x, In x (nth b lists []) -> In x (nth b R [])) /\
    (forall b x, In x (nth b R []) ->
                 In x (nth b lists []) \/ (m0 <= x < m0 + length cells)%nat) /\
    (forall n cell i j k,
        nth_error cells n = Some cell ->
        let lo := cellIndices extent (vsub (rmin cell) (mkVec eps eps eps))
                              nb nb nb in
        let hi := cellIndices extent (vadd (rmax cell) (mkVec eps eps eps))
                              nb nb nb in
        (fst (fst lo) <= i <= fst (fst hi))%Z ->
        (snd (fst lo) <= j <= snd (fst hi))%Z ->
        (snd lo <= k <= snd hi)%Z ->
        (blockNumber nb i j k < length lists)%nat ->
        In (m0 + n)%nat (nth (blockNumber nb i j k) R [])).
Proof.
  induction cells as [|c cells IH]; intros lists m0; cbn zeta.
  - simpl. repeat split; auto.
    intros [|n] cell i j k H; discriminate.
  - cbn [addAllToBlocks].
    destruct (addToBlocks_adds_only nb m0 c lists) as (L1 & M1 & O1).
    destruct (IH (addToBlocks cellIndices extent eps nb lists m0 c) (S m0))
      as (L2 & M2 & O2 & R2).
    split; [congruence|]. split; [|split].
    + intros b x H. apply M2, M1, H.
    + intros b x H. destruct (O2 b x H) as [H'|H']; [|simpl; lia].
      destruct (O1 b x H') as [->|H'']; [simpl; lia | now left].
    + intros [|n] cell i j k Hn Hi Hj Hk Hb.
      * injection Hn as <-. apply M2. rewrite Nat.add_0_r.
        now apply (addToBlocks_reaches nb m0 c i j k Hi Hj Hk).
      * replace (m0 + S n)%nat with (S m0 + n)%nat by lia.
        apply (R2 n cell i j k Hn Hi Hj Hk). now rewrite L1.
Qed.

End Blocks.

(** *** Point location *)

(** The enclosing boxes that the tessellation reports are those of Voronoi
    cells: a point of the domain lies in the enclosing box of every cell
    whose site is nearest to it. *)
Definition boxes_enclose_cells (extent : Box) (cells : list VoronoiCell) : Prop :=
  forall (p : Vec) (m : nat) (cell : VoronoiCell),
    contains extent p = true ->
    nth_error cells m = Some cell ->
    (forall m', (m' < length cells)%nat ->
                squaredDistanceTo cells m p <= squaredDistanceTo cells m' p) ->
    (vx (rmin cell) <= vx p <= vx (rmax cell)) /\
    (vy (rmin cell) <= vy p <= vy (rmax cell)) /\
    (vz (rmin cell) <= vz p <= vz (rmax cell)).

(** The squared distances within the domain are below [DBL_MAX]. *)
Definition distances_finite (extent : Box) (cells : list VoronoiCell) : Prop :=
  forall (p : Vec) (m : nat),
    contains extent p = true -> (m < length cells)%nat ->
    squaredDistanceTo cells m p < DBL_MAX.

Lemma scan_spec (cells : list VoronoiCell) (bfr : Vec) (ids : list nat) :
  forall (m : Z) (mdist : Q),
    (scan cells bfr ids m mdist = m /\
     forall e, In e ids -> mdist <= squaredDistanceTo cells e bfr) \/
    (exists b, scan cells bfr ids m mdist = Z.of_nat b /\ In b ids /\
               squaredDistanceTo cells b bfr < mdist /\
               forall e, In e ids ->
                         squaredDistanceTo cells b bfr
                         <= squaredDistanceTo cells e bfr).
Proof.
  induction ids as [|id ids IH]; intros m mdist; simpl.
  - left. split; [reflexivity | contradiction].
  - destruct (Qltb (squaredDistanceTo cells id bfr) mdist) eqn:E.
    + apply Qltb_lt in E. right.
      destruct (IH (Z.of_nat id) (squaredDistanceTo cells id bfr))
        as [[-> Hall]|(b & -> & Hb & Hlt & Hall)].
      * exists id. repeat split; [now left | assumption|].
        intros e [<-|He]; [lra | now apply Hall].
      * exists b. repeat split; [now right | lra|].
        intros e [<-|He]; [lra | now apply Hall].
    + apply Qltb_ge in E.
      destruct (IH m mdist) as [[-> Hall]|(b & -> & Hb & Hlt & Hall)].
      * left. split; [reflexivity|]. intros e [<-|He]; [lra | now apply Hall].
      * right. exists b. repeat split; [now right | assumption|].
        intros e [<-|He]; [lra | now apply Hall].
Qed.

Lemma exists_nearest (f : nat -> Q) (n : nat) :
  (0 < n)%nat ->
  exists m, (m < n)%nat /\ forall m', (m' < n)%nat -> f m <= f m'.
Proof.
  induction n as [|n IH]; [lia|]. intros _.
  destruct n as [|n].
  - exists O. split; [lia|]. intros m' H. replace m' with O by lia. lra.
  - destruct IH as (m & Hm & Hmin); [lia|].
    destruct (Qlt_le_dec (f (S n)) (f m)) as [Hlt|Hle].
    + exists (S n). split; [lia|]. intros m' H.
      destruct (Nat.eq_dec m' (S n)) as [->|]; [lra|].
      specialize (Hmin m' ltac:(lia)). lra.
    + exists m. split; [lia|]. intros m' H.
      destruct (Nat.eq_dec m' (S n)) as [->|]; [lra|].
      apply Hmin. lia.
Qed.

Lemma nth_repeat_nil (b n : nat) : nth b (repeat (@nil nat) n) [] = [].
Proof.
  revert b. induction n as [|n IH]; intros [|b]; simpl; auto.
Qed.

Section PointLocation.

Variable cellIndices : Box -> Vec -> Z -> Z -> Z -> Z * Z * Z.
Variable nth_element : (nat -> nat -> bool) -> list nat -> nat -> list nat.
Variable cbrt3 : Z -> Z.
Variable extent : Box.
Variable eps : Q.

Hypothesis cellIndices_spec : cellIndices_ok cellIndices extent.
Hypothesis nth_element_spec : nth_element_ok nth_element.
Hypothesis eps_nonneg : 0 <= eps.

(** The block of a point of the domain lists valid cells only, and a
    nearest site of the point among them. *)
Lemma block_holds_nearest (cells : list VoronoiCell) (s : Search) (p : Vec) :
  boxes_enclose_cells extent cells ->
  buildSearch cellIndices nth_element cbrt3 extent eps cells = Some s ->
  contains extent p = true ->
  let '(i, j, k) := cellIndices extent p (_nb s) (_nb s) (_nb s) in
  let b := blockNumber (_nb s) i j k in
  let ids := nth b (_blocklists s) [] in
  (forall x, In x ids -> (x < length cells)%nat) /\
  (exists m, In m ids /\ (m < length cells)%nat /\
             forall m', (m' < length cells)%nat ->
                        squaredDistanceTo cells m p
                        <= squaredDistanceTo cells m' p) /\
  nth b (_blocktrees s) Null
  = (if (5 <? length ids)%nat
     then buildTree nth_element (length ids) cells ids O else Null).
Proof.
  intros Hbox Hs Hp. unfold buildSearch in Hs.
  destruct cells as [|c0 cells0] eqn:Ec; [discriminate|]. rewrite <- Ec in *.
  injection Hs as <-. cbn [_nb _blocklists _blocktrees].
  set (nb := Z.max 3 (Z.min 1000 (cbrt3 (Z.of_nat (length cells))))).
  assert (Hnb : (0 < nb)%Z) by (unfold nb; lia).
  destruct (cellIndices_spec nb Hnb) as (Hrange & Hmono).
  destruct (addAllToBlocks_spec cellIndices extent eps nb cells
              (repeat [] (Z.to_nat (nb * nb * nb))) O)
    as (HL & _ & HO & HR).
  set (lists := addAllToBlocks cellIndices extent eps nb
                  (repeat [] (Z.to_nat (nb * nb * nb))) O cells) in *.
  rewrite repeat_length in HL.
  destruct (Hrange p) as (Hi & Hj & Hk).
  destruct (cellIndices extent p nb nb nb) as [[i j] k] eqn:Eijk.
  cbn [fst snd] in Hi, Hj, Hk.
  pose proof (blockNumber_bound nb i j k Hi Hj Hk) as Hb.
  split; [|split].
  - intros x Hx. destruct (HO _ _ Hx) as [H|H]; [|lia].
    rewrite nth_repeat_nil in H. contradiction.
  - destruct (exists_nearest (fun m => squaredDistanceTo cells m p)
                             (length cells)) as (m & Hm & Hmin).
    { rewrite Ec. simpl. lia. }
    exists m. split; [|split; assumption].
    destruct (nth_error cells m) as [cell|] eqn:Ecell;
      [|apply nth_error_None in Ecell; lia].
    destruct (Hbox p m cell Hp Ecell Hmin) as (Bx & By & Bz).
    destruct (Hmono (vsub (rmin cell) (mkVec eps eps eps)) p) as (Lx & Ly & Lz).
    destruct (Hmono p (vadd (rmax cell) (mkVec eps eps eps))) as (Ux & Uy & Uz).
    rewrite Eijk in Lx, Ly, Lz, Ux, Uy, Uz. cbn [fst snd vx vy vz vsub vadd] in *.
    apply (HR m cell i j k Ecell); try (split; [apply Lx || apply Ly || apply Lz
                                               | apply Ux || apply Uy || apply Uz]);
      try lra.
    rewrite repeat_length. exact Hb.
  - exact (map_nth (fun ids : list nat =>
                      if (5 <? length ids)%nat
                      then buildTree nth_element (length ids) cells ids O
                      else Null) lists [] (blockNumber nb i j k)).
Qed.

(** C1: for every grid with at least one cell, [cellIndex] returns -1
    for a point outside the domain, and for a point inside the domain it
    returns the index of a cell whose site minimizes the squared distance
    to the point over all cells, whether the block of the point is
    searched through its tree (more than five cells) or by the scan of
    its list. *)
Theorem cellIndex_nearest_site (cells : list VoronoiCell) :
  cells <> [] ->
  boxes_enclose_cells extent cells ->
  distances_finite extent cells ->
  exists s,
    buildSearch cellIndices nth_element cbrt3 extent eps cells = Some s /\
    forall p,
      (contains extent p = false ->
       cellIndex cellIndices extent cells s p = (-1)%Z) /\
      (contains extent p = true ->
       exists m,
         cellIndex cellIndices extent cells s p = Z.of_nat m /\
         (m < length cells)%nat /\
         forall m', (m' < length cells)%nat ->
                    squaredDistanceTo cells m p
                    <= squaredDistanceTo cells m' p).
Proof.
  intros Hne Hbox Hfin.
  destruct (buildSearch cellIndices nth_element cbrt3 extent eps cells)
    as [s|] eqn:Es; [|destruct cells; [congruence | discriminate]].
  exists s. split; [reflexivity|]. intros p. split; intros Hp.
  - unfold cellIndex. now rewrite Hp.
  - pose proof (block_holds_nearest cells s p Hbox Es Hp) as H.
    unfold cellIndex. rewrite Hp. cbn [negb].
    destruct (cellIndices extent p (_nb s) (_nb s) (_nb s)) as [[i j] k].
    cbv zeta in H. destruct H as (Hvalid & (m0 & Hin0 & Hm0 & Hmin0) & Htree).
    set (ids := nth (blockNumber (_nb s) i j k) (_blocklists s) []) in *.
    rewrite Htree.
    destruct (5 <? length ids)%nat.
    + destruct (buildTree_spec nth_element nth_element_spec cells
                  (length ids) ids O (Nat.le_refl _)) as (Hok & Hperm).
      destruct (nearest_spec cells p _ Hok) as [[En _]|(b & -> & Hb & Hmin)].
      * rewrite En in Hperm. apply Permutation_sym, Permutation_nil in Hperm.
        rewrite Hperm in Hin0. contradiction.
      * exists b. split; [reflexivity|].
        apply (Permutation_in _ (Permutation_sym Hperm)) in Hb.
        split; [now apply Hvalid|]. intros m' Hm'.
        specialize (Hmin m0 (Permutation_in _ Hperm Hin0)).
        specialize (Hmin0 m' Hm'). lra.
    + cbn [nearest].
      destruct (scan_spec cells p ids (-1)%Z DBL_MAX)
        as [[_ Hall]|(b & -> & Hb & _ & Hmin)].
      * specialize (Hall m0 Hin0). specialize (Hfin p m0 Hp Hm0). lra.
      * exists b. split; [reflexivity|]. split; [now apply Hvalid|].
        intros m' Hm'. specialize (Hmin m0 Hin0).
        specialize (Hmin0 m' Hm'). lra.
Qed.

End PointLocation.

(** *** Library functions for the examples *)

(** The comparison of [lessthan] is the lexicographic order on the
    coordinates, starting at the axis and cycling. *)
Definition lexltb (a b : Q * Q * Q) : bool :=
  if Qltb (fst (fst a)) (fst (fst b)) then true
  else if Qltb (fst (fst b)) (fst (fst a)) then false
  else if Qltb (snd (fst a)) (snd (fst b)) then true
  else if Qltb (snd (fst b)) (snd (fst a)) then false
  else Qltb (snd a) (snd b).

Definition key (axis : Z) (p : Vec) : Q * Q * Q :=
  if (axis =? 0)%Z then (vx p, vy p, vz p)
  else if (axis =? 1)%Z then (vy p, vz p, vx p)
  else (vz p, vx p, vy p).

Lemma lessthan_lex (p q : Vec) (axis : Z) :
  (0 <= axis <= 2)%Z -> lessthan p q axis = lexltb (key axis p) (key axis q).
Proof.
  intros Ha. unfold lessthan, key, lexltb.
  destruct (Z.eqb_spec axis 0); [reflexivity|].
  destruct (Z.eqb_spec axis 1); [reflexivity|].
  destruct (Z.eqb_spec axis 2); [reflexivity | lia].
Qed.

Ltac qstep :=
  match goal with
  | H : context [if Qltb ?a ?b then _ else _] |- _ =>
      let E := fresh "E" in
      destruct (Qltb a b) eqn:E;
      [apply Qltb_lt in E | apply Qltb_ge in E]; cbv iota in H
  | |- context [if Qltb ?a ?b then _ else _] =>
      let E := fresh "E" in
      destruct (Qltb a b) eqn:E;
      [apply Qltb_lt in E | apply Qltb_ge in E]; cbv iota
  | H : Qltb ?a ?b = _ |- _ =>
      first [apply Qltb_lt in H | apply Qltb_ge in H]
  | |- Qltb ?a ?b = true => apply Qltb_lt
  | |- Qltb ?a ?b = false => apply Qltb_ge
  end.

Lemma lexltb_asym (a b : Q * Q * Q) : lexltb a b = true -> lexltb b a = false.
Proof.
  destruct a as [[a1 a2] a3], b as [[b1 b2] b3]. unfold lexltb. cbn [fst snd].
  intros H. repeat qstep; try discriminate; try reflexivity; lra.
Qed.

Lemma lexltb_trans_neg (a b c : Q * Q * Q) :
  lexltb b a = false -> lexltb c b = false -> lexltb c a = false.
Proof.
  destruct a as [[a1 a2] a3], b as [[b1 b2] b3], c as [[c1 c2] c3].
  unfold lexltb. cbn [fst snd].
  intros H1 H2. repeat qstep; try discriminate; try reflexivity; lra.
Qed.

Lemma site_lessthan_asym (cells : list VoronoiCell) (depth a b : nat) :
  site_lessthan cells depth a b = true -> site_lessthan cells depth b a = false.
Proof.
  unfold site_lessthan. intros H. apply andb_true_iff in H.
  destruct H as [_ H]. apply andb_false_iff. right.
  pose proof (Z.mod_pos_bound (Z.of_nat depth) 3 ltac:(lia)) as Hax.
  rewrite lessthan_lex in * by lia. now apply lexltb_asym.
Qed.

Lemma site_lessthan_trans_neg (cells : list VoronoiCell) (depth a b c : nat) :
  site_lessthan cells depth b a = false ->
  site_lessthan cells depth c b = false ->
  site_lessthan cells depth c a = false.
Proof.
  intros H1 H2. apply site_lessthan_false in H1, H2.
  unfold site_lessthan. apply andb_false_iff. right.
  pose proof (Z.mod_pos_bound (Z.of_nat depth) 3 ltac:(lia)) as Hax.
  rewrite lessthan_lex in * by lia.
  now apply lexltb_trans_neg with (b := key (Z.of_nat depth mod 3) (position cells b)).
Qed.

Lemma StronglySorted_nth {A : Type} (R : A -> A -> Prop) (l : list A) (d : A) :
  StronglySorted R l ->
  forall i j, (i < j < length l)%nat -> R (nth i l d) (nth j l d).
Proof.
  induction 1 as [|a l Hs IH Hall]; intros i j Hij; simpl in *; [lia|].
  destruct j as [|j]; [lia|]. destruct i as [|i].
  - rewrite Forall_forall in Hall. apply Hall, nth_In. lia.
  - apply IH. lia.
Qed.

(** [std::nth_element] realised by a full sort. *)
Definition sorting_nth_element (lt : nat -> nat -> bool) (ids : list nat)
  (n : nat) : list nat := sort_by lt ids.

Lemma sorting_nth_element_ok : nth_element_ok sorting_nth_element.
Proof.
  intros cells depth ids n Hn. unfold sorting_nth_element.
  pose proof (sort_by_perm (site_lessthan cells depth) ids) as Hperm.
  pose proof (sort_by_ordered (site_lessthan cells depth)
                (site_lessthan_asym cells depth)
                (site_lessthan_trans_neg cells depth) ids) as Hsorted.
  pose proof (Permutation_length Hperm) as Hlen.
  split; [assumption|]. split.
  - intros i Hi.
    apply (StronglySorted_nth _ _ O Hsorted i n). lia.
  - intros j Hj.
    apply (StronglySorted_nth _ _ O Hsorted n j). lia.
Qed.

(** The block of a coordinate on a regular grid: the relative position
    times the number of blocks, truncated and clipped to the grid. *)
Definition gridIndex (n : Z) (lo hi x : Q) : Z :=
  Z.max 0 (Z.min (n - 1) (Qfloor (inject_Z n * (x - lo) / (hi - lo)))).

Definition gridCellIndices (b : Box) (r : Vec) (nx ny nz : Z) : Z * Z * Z :=
  (gridIndex nx (xmin b) (xmax b) (vx r),
   gridIndex ny (ymin b) (ymax b) (vy r),
   gridIndex nz (zmin b) (zmax b) (vz r)).

Lemma gridIndex_range (n : Z) (lo hi x : Q) :
  (0 < n)%Z -> (0 <= gridIndex n lo hi x < n)%Z.
Proof. unfold gridIndex. lia. Qed.

Lemma gridIndex_mono (n : Z) (lo hi x1 x2 : Q) :
  (0 < n)%Z -> lo < hi -> x1 <= x2 ->
  (gridIndex n lo hi x1 <= gridIndex n lo hi x2)%Z.
Proof.
  intros Hn Hw Hx. unfold gridIndex.
  assert (H : (Qfloor (inject_Z n * (x1 - lo) / (hi - lo))
               <= Qfloor (inject_Z n * (x2 - lo) / (hi - lo)))%Z).
  { apply Qfloor_resp_le. unfold Qdiv. apply Qmult_le_compat_r.
    - assert (0 < inject_Z n) by (change 0 with (inject_Z 0);
                                  rewrite <- Zlt_Qlt; exact Hn).
      nra.
    - apply Qinv_le_0_compat. lra. }
  lia.
Qed.

Lemma gridCellIndices_ok (b : Box) :
  xmin b < xmax b -> ymin b < ymax b -> zmin b < zmax b ->
  cellIndices_ok gridCellIndices b.
Proof.
  intros Hx Hy Hz nb Hnb. unfold gridCellIndices. cbn [fst snd]. split.
  - intros r. repeat split; apply gridIndex_range; assumption.
  - intros r1 r2. repeat split; intros H; now apply gridIndex_mono.
Qed.

(** A value of the parameter [cbrt3] for the examples: [3 * n^(1/3)]
    truncated to an integer in exact arithmetic, that is the largest [k]
    with [k^3 <= 27 * n], searched upwards.  The computation of the code
    in doubles can give one less where the exact value is an integer and
    the cube root is rounded downwards; for the numbers of cells of the
    examples, 8 and 12, it gives the same value, 6. *)
Fixpoint cbrt3_search (fuel : nat) (n k : Z) : Z :=
  match fuel with
  | O => k
  | S fuel' => if ((k + 1) * (k + 1) * (k + 1) <=? 27 * n)%Z
               then cbrt3_search fuel' n (k + 1)%Z else k
  end.

Definition cbrt3_floor (n : Z) : Z := cbrt3_search 3000 n 0.

(** *** An example grid: eight cells in slabs along the x axis

    The domain is [0,12] x [0,4] x [0,3] (diagonal 13).  Seven sites are
    packed in the first block of the search grid, so that this block is
    searched through a tree, and one site lies further out. *)

Definition example_extent : Box := mkBox 0 0 0 12 4 3.
Definition example_eps : Q := 13 # 1000000000000.

Definition slab (x lo hi : Q) (neighbors : list Z) : VoronoiCell :=
  mkVoronoiCell (mkVec x 2 (3 # 2)) (mkVec ((lo + hi) / 2) 2 (3 # 2))
                ((hi - lo) * 12) neighbors (mkVec lo 0 0) (mkVec hi 4 3).

Definition example_cells : list VoronoiCell :=
  [ slab (1 # 8) 0 (2 # 8) [1; -1; -3; -4; -5; -6]%Z;
    slab (3 # 8) (2 # 8) (4 # 8) [0; 2; -3; -4; -5; -6]%Z;
    slab (5 # 8) (4 # 8) (6 # 8) [1; 3; -3; -4; -5; -6]%Z;
    slab (7 # 8) (6 # 8) (8 # 8) [2; 4; -3; -4; -5; -6]%Z;
    slab (9 # 8) (8 # 8) (10 # 8) [3; 5; -3; -4; -5; -6]%Z;
    slab (11 # 8) (10 # 8) (12 # 8) [4; 6; -3; -4; -5; -6]%Z;
    slab (13 # 8) (12 # 8) (77 # 16) [5; 7; -3; -4; -5; -6]%Z;
    slab 8 (77 # 16) 12 [6; -2; -3; -4; -5; -6]%Z ].

Lemma contains_spec (b : Box) (r : Vec) :
  contains b r = true <->
  (xmin b <= vx r <= xmax b) /\ (ymin b <= vy r <= ymax b)
  /\ (zmin b <= vz r <= zmax b).
Proof.
  unfold contains. rewrite !andb_true_iff, !Qle_bool_iff. tauto.
Qed.

Lemma DBL_MAX_large : 1000 < DBL_MAX.
Proof. vm_compute. reflexivity. Qed.

Ltac sd_unfold :=
  unfold squaredDistanceTo, position, norm2, vsub, example_cells, slab in *;
  cbn [nth _r rmin rmax vx vy vz] in *.

Lemma example_boxes_enclose_cells :
  boxes_enclose_cells example_extent example_cells.
Proof.
  intros p m cell Hp Hcell Hmin.
  apply contains_spec in Hp. cbn [example_extent xmin xmax ymin ymax zmin zmax] in Hp.
  assert (H8 : length example_cells = 8%nat) by reflexivity.
  rewrite H8 in Hmin.
  pose proof (Hmin 0%nat ltac:(lia)) as M0. pose proof (Hmin 1%nat ltac:(lia)) as M1.
  pose proof (Hmin 2%nat ltac:(lia)) as M2. pose proof (Hmin 3%nat ltac:(lia)) as M3.
  pose proof (Hmin 4%nat ltac:(lia)) as M4. pose proof (Hmin 5%nat ltac:(lia)) as M5.
  pose proof (Hmin 6%nat ltac:(lia)) as M6. pose proof (Hmin 7%nat ltac:(lia)) as M7.
  clear Hmin.
  do 8 (destruct m as [|m];
        [injection Hcell as <-; sd_unfold; repeat split; lra|]).
  destruct m; discriminate.
Qed.

Lemma example_distances_finite :
  distances_finite example_extent example_cells.
Proof.
  intros p m Hp Hm.
  apply contains_spec in Hp. cbn [example_extent xmin xmax ymin ymax zmin zmax] in Hp.
  pose proof DBL_MAX_large as HD.
  assert (H8 : length example_cells = 8%nat) by reflexivity. rewrite H8 in Hm.
  do 8 (destruct m as [|m]; [sd_unfold; nra|]). lia.
Qed.

Lemma cellIndex_nearest_site_witness :
  exists s,
    buildSearch gridCellIndices sorting_nth_element cbrt3_floor
                example_extent example_eps example_cells = Some s /\
    forall p,
      (contains example_extent p = false ->
       cellIndex gridCellIndices example_extent example_cells s p = (-1)%Z) /\
      (contains example_extent p = true ->
       exists m,
         cellIndex gridCellIndices example_extent example_cells s p = Z.of_nat m /\
         (m < length example_cells)%nat /\
         forall m', (m' < length example_cells)%nat ->
                    squaredDistanceTo example_cells m p
                    <= squaredDistanceTo example_cells m' p).
Proof.
  apply (cellIndex_nearest_site gridCellIndices sorting_nth_element cbrt3_floor
           example_extent example_eps).
  - apply gridCellIndices_ok; reflexivity.
  - exact sorting_nth_element_ok.
  - discriminate.
  - discriminate.
  - exact example_boxes_enclose_cells.
  - exact example_distances_finite.
Defined.

(** *** The ray walk: [path] *)






Section Path.

Variable cellIndices : Box -> Vec -> Z -> Z -> Z -> Z * Z * Z.
Variable extent : Box.
Variable eps : Q.
Variable cells : list VoronoiCell.
Variable search : Search.

(** The direction of the path. *)
Variable bfk : Vec.





End Path.


Definition veq (a b : Vec) : Prop :=
  vx a == vx b /\ vy a == vy b /\ vz a == vz b.


(** *** An example walk: twelve slabs in a row

    The domain is [0,24] x [0,8] x [0,6], with diagonal 26, so that [eps]
    is [26e-12].  The sites are (1,4,3), (3,4,3), ..., (23,4,3); the cells
    are the slabs between the planes x = 0, 2, 4, ..., 24. *)





(** *** The progress of the walk *)



Section PathProgress.

Variable cellIndices : Box -> Vec -> Z -> Z -> Z -> Z * Z * Z.
Variable extent : Box.
Variable eps : Q.
Variable cells : list VoronoiCell.
Variable search : Search.
Variable bfk : Vec.

Hypothesis bfk_nonzero : 0 < norm2 bfk.








End PathProgress.

(** *** The cells that a walk traverses *)


Section PathCells.

Variable cellIndices : Box -> Vec -> Z -> Z -> Z -> Z * Z * Z.
Variable extent : Box.
Variable eps : Q.
Variable cells : list VoronoiCell.
Variable search : Search.
Variable bfk : Vec.

(** The starting point of the walk. *)
Variable r0 : Vec.






































End PathCells.



(** *** The walk through the twelve slabs *)












(** *** The filtering of the sites in [buildMesh] *)

Definition site (sites : list Vec) (m : nat) : Vec := nth m sites (mkVec 0 0 0).

(** The comparison that [buildMesh] passes to [std::sort]. *)
Definition x_lessthan (sites : list Vec) (m1 m2 : nat) : bool :=
  Qltb (vx (site sites m1)) (vx (site sites m2)).

(** [std::sort] with that comparison: a rearrangement that is in order. *)
Definition sort_ok (sort : (nat -> nat -> bool) -> list nat -> list nat) : Prop :=
  forall (sites : list Vec) (l : list nat),
    Permutation l (sort (x_lessthan sites) l) /\
    ordered_by (x_lessthan sites) (sort (x_lessthan sites) l).

Section BuildMesh.

Variable sort : (nat -> nat -> bool) -> list nat -> list nat.
Variable extent : Box.
Variable eps : Q.
Variable sites : list Vec.

(** The site [rj] is too near to the site [ri]. *)
Definition within (ri : Vec) (j : nat) : bool :=
  Qltb (norm2 (vsub (site sites j) ri)) (eps * eps).

(** The inner loop for the site [ri = sites[indices[i]]] over the
    positions [j > i] of the sorted indices: it stops at the first site
    whose x coordinate is [eps] or more beyond, and reports whether it
    met a site that is too near. *)
Fixpoint tooNearby (ri : Vec) (later : list nat) : bool :=
  match later with
  | [] => false
  | j :: later' =>
      if Qltb (vx (site sites j) - vx ri) eps then
        if within ri j then true else tooNearby ri later'
      else false
  end.

(** The outer loop over the sorted indices: [None] is the tag [-1]. *)
Fixpoint tagSites (indices : list nat) : list (option nat) :=
  match indices with
  | [] => []
  | i :: later =>
      (if negb (contains extent (site sites i)) then None
       else if tooNearby (site sites i) later then None
       else Some i) :: tagSites later
  end.

Fixpoint untagged (tags : list (option nat)) : list nat :=
  match tags with
  | [] => []
  | Some i :: tags' => i :: untagged tags'
  | None :: tags' => untagged tags'
  end.

(** The indices of the sites for which [buildMesh] creates a cell, in the
    order of the cells. *)
Definition retainedIndices (ignoreNearbyAndOutliers : bool) : list nat :=
  let indices := seq 0 (length sites) in
  if ignoreNearbyAndOutliers
  then untagged (tagSites (sort (x_lessthan sites) indices))
  else indices.

Definition cellSites (ignoreNearbyAndOutliers : bool) : list Vec :=
  map (site sites) (retainedIndices ignoreNearbyAndOutliers).

(** What the loops compute: a site is kept when it is inside the domain
    and no site later in the sorted order is too near to it. *)
Fixpoint keptSites (indices : list nat) : list nat :=
  match indices with
  | [] => []
  | i :: later =>
      if contains extent (site sites i)
         && negb (existsb (within (site sites i)) later)
      then i :: keptSites later else keptSites later
  end.

(** The sweep of the specification: a site is discarded when it lies
    outside the domain or within [eps] of a site that was kept earlier. *)
Fixpoint specSweep (kept indices : list nat) : list nat :=
  match indices with
  | [] => []
  | i :: later =>
      if contains extent (site sites i)
         && negb (existsb (within (site sites i)) kept)
      then i :: specSweep (i :: kept) later else specSweep kept later
  end.

Hypothesis eps_nonneg : 0 <= eps.

Lemma within_close_in_x (ri : Vec) (j : nat) :
  within ri j = true -> vx ri <= vx (site sites j) ->
  vx (site sites j) - vx ri < eps.
Proof.
  unfold within, norm2, vsub. cbn [vx vy vz]. intros H Hx.
  apply Qltb_lt in H.
  set (d := vx (site sites j) - vx ri) in *.
  pose proof (Qsqr_nonneg (vy (site sites j) - vy ri)).
  pose proof (Qsqr_nonneg (vz (site sites j) - vz ri)).
  assert (Hd : 0 <= d) by (unfold d; lra).
  destruct (Qlt_le_dec d eps) as [|Hge]; [assumption|].
  assert (eps * eps <= d * d) by nra. lra.
Qed.

Lemma tooNearby_existsb (ri : Vec) (later : list nat) :
  Forall (fun j => vx ri <= vx (site sites j)) later ->
  ordered_by (x_lessthan sites) later ->
  tooNearby ri later = existsb (within ri) later.
Proof.
  induction later as [|j later IH]; intros Hge Hord; [reflexivity|].
  inversion Hge as [|? ? Hj Hge']; subst.
  inversion Hord as [|? ? Hord' Hall]; subst.
  cbn [tooNearby existsb].
  destruct (within ri j) eqn:Ew.
  - rewrite (proj2 (Qltb_lt _ _) (within_close_in_x ri j Ew Hj)). reflexivity.
  - cbn [orb].
    destruct (Qltb (vx (site sites j) - vx ri) eps) eqn:Ex;
      [now apply IH|].
    apply Qltb_ge in Ex. symmetry.
    destruct (existsb (within ri) later) eqn:Ee; [|reflexivity].
    apply existsb_exists in Ee. destruct Ee as (j' & Hin & Hw).
    rewrite Forall_forall in Hall, Hge'.
    specialize (Hall j' Hin). unfold x_lessthan in Hall.
    apply Qltb_ge in Hall.
    pose proof (within_close_in_x ri j' Hw (Hge' j' Hin)). lra.
Qed.

Lemma untagged_tagSites (indices : list nat) :
  ordered_by (x_lessthan sites) indices ->
  untagged (tagSites indices) = keptSites indices.
Proof.
  induction indices as [|i later IH]; intros Hord; [reflexivity|].
  inversion Hord as [|? ? Hord' Hall]; subst.
  cbn [tagSites keptSites].
  rewrite tooNearby_existsb; [|
    rewrite Forall_forall in *; intros j Hj; specialize (Hall j Hj);
    unfold x_lessthan in Hall; now apply Qltb_ge in Hall | assumption].
  destruct (contains extent (site sites i)); cbn [negb andb].
  - destruct (existsb (within (site sites i)) later); cbn [negb untagged];
      now rewrite IH.
  - cbn [untagged]. now apply IH.
Qed.

End BuildMesh.

Lemma keptSites_subset (extent : Box) (eps : Q) (sites : list Vec)
  (l : list nat) (x : nat) :
  In x (keptSites extent eps sites l) -> In x l.
Proof.
  induction l as [|i l IH]; simpl; [trivial|].
  destruct (contains extent (site sites i) && _); simpl; intuition.
Qed.

Lemma keptSites_drops_earlier (extent : Box) (eps : Q) (sites : list Vec)
  (before : list nat) :
  forall (l : list nat) (i j : nat) (rest : list nat),
    NoDup l -> l = before ++ i :: rest -> In j rest ->
    within eps sites (site sites i) j = true ->
    ~ In i (keptSites extent eps sites l).
Proof.
  induction before as [|b before IH]; intros l i j rest Hnd -> Hj Hw Hin.
  - cbn [app keptSites] in Hin.
    assert (He : existsb (within eps sites (site sites i)) rest = true)
      by (apply existsb_exists; now exists j).
    rewrite He, andb_false_r in Hin.
    apply keptSites_subset in Hin. now inversion Hnd.
  - cbn [app keptSites] in Hin. inversion Hnd as [|? ? Hb Hnd']; subst.
    assert (Hne : b <> i).
    { intros ->. apply Hb, in_or_app. right. now left. }
    destruct (contains extent (site sites b) && _) in Hin.
    + destruct Hin as [E|Hin]; [contradiction|].
      exact (IH _ i j rest Hnd' eq_refl Hj Hw Hin).
    + exact (IH _ i j rest Hnd' eq_refl Hj Hw Hin).
Qed.

(** The tolerance of the scenario with coincident sites. *)
Definition coincidence : Q := 1 # 1000000000000000.

(** C7, amended: with [ignoreNearbyAndOutliers] set, a site gets a cell
    exactly when it lies inside the domain and no site that comes later in
    the order of the x coordinates lies within [eps] of it; so of two
    sites within [eps] of each other it is the earlier one in that order
    that is discarded (of a group of sites mutually within [eps] only the
    last one can be retained, and it is retained only when no other later
    site is within [eps] of it); and for three sites inside the domain that
    coincide within [1e-15], with [1e-15 <= eps], exactly one cell is
    built. *)
Theorem buildMesh_discards_earlier_of_nearby_sites
  (sort : (nat -> nat -> bool) -> list nat -> list nat) (extent : Box)
  (eps : Q) (sites : list Vec) :
  sort_ok sort -> 0 <= eps ->
  let sorted := sort (x_lessthan sites) (seq 0 (length sites)) in
  retainedIndices sort extent eps sites true = keptSites extent eps sites sorted /\
  (forall before i mid j after,
      sorted = before ++ i :: mid ++ j :: after ->
      within eps sites (site sites i) j = true ->
      ~ In i (retainedIndices sort extent eps sites true)) /\
  (length sites = 3%nat ->
   (forall i, (i < 3)%nat -> contains extent (site sites i) = true) ->
   (forall i j, (i < 3)%nat -> (j < 3)%nat ->
                norm2 (vsub (site sites j) (site sites i))
                < coincidence * coincidence) ->
   coincidence <= eps ->
   length (cellSites sort extent eps sites true) = 1%nat).
Proof.
  intros Hsort Heps sorted.
  destruct (Hsort sites (seq 0 (length sites))) as (Hperm & Hord).
  fold sorted in Hperm, Hord.
  assert (Hkept : retainedIndices sort extent eps sites true
                  = keptSites extent eps sites sorted).
  { unfold retainedIndices. fold sorted. now apply untagged_tagSites. }
  split; [exact Hkept|]. split.
  - intros before i mid j after Hs Hw. rewrite Hkept.
    apply (keptSites_drops_earlier extent eps sites before sorted i j
             (mid ++ j :: after)); try assumption.
    + apply (Permutation_NoDup Hperm), seq_NoDup.
    + apply in_or_app. right. now left.
  - intros Hlen Hin Hclose Htol. unfold cellSites. rewrite length_map, Hkept.
    rewrite Hlen in Hperm. cbn [seq] in Hperm.
    pose proof (Permutation_length Hperm) as Hl.
    destruct sorted as [|a [|b [|c [|d rest]]]]; try discriminate.
    assert (Hlt : forall x, In x [a; b; c] -> (x < 3)%nat).
    { intros x Hx. apply (Permutation_in _ (Permutation_sym Hperm)) in Hx.
      simpl in Hx. lia. }
    assert (Hw : forall x y, (x < 3)%nat -> (y < 3)%nat ->
                             within eps sites (site sites x) y = true).
    { intros x y Hx Hy. unfold within. apply Qltb_lt.
      specialize (Hclose x y Hx Hy).
      assert (0 < coincidence) by reflexivity.
      assert (coincidence * coincidence <= eps * eps) by nra. lra. }
    pose proof (Hlt a ltac:(simpl; tauto)) as Ha.
    pose proof (Hlt b ltac:(simpl; tauto)) as Hb.
    pose proof (Hlt c ltac:(simpl; tauto)) as Hc.
    cbn [keptSites existsb].
    rewrite (Hw a b Ha Hb), (Hw b c Hb Hc), (Hin c Hc).
    cbn [orb negb andb]. rewrite !andb_false_r. reflexivity.
Qed.

(** [std::sort] realised by the insertion sort. *)
Lemma sort_by_ok : sort_ok (@sort_by nat).
Proof.
  intros sites l. split; [apply sort_by_perm|].
  apply sort_by_ordered; unfold x_lessthan.
  - intros a b H. apply Qltb_lt in H. apply Qltb_ge. lra.
  - intros a b c H1 H2. apply Qltb_ge in H1, H2. apply Qltb_ge. lra.
Qed.

(** Three sites in a row, at distances [0.6 * eps] from one to the next, in
    the domain of the example grid. *)
Definition chain_sites : list Vec :=
  [ mkVec 1 1 1;
    mkVec (1 + (78 # 10000000000000)) 1 1;
    mkVec (1 + (156 # 10000000000000)) 1 1 ].

(** C7, as stated, fails: the first two sites of the chain are within
    [eps] of each other, and the sweep of the specification keeps the
    first site (and the third, which is further than [eps] from it); the
    code discards both the first and the second site, each for the site
    that follows it, and builds a cell for the third site only.  So of the
    group of the first two sites none is retained. *)
Lemma buildMesh_chain_of_nearby_sites :
  within example_eps chain_sites (site chain_sites 0) 1 = true /\
  within example_eps chain_sites (site chain_sites 0) 2 = false /\
  specSweep example_extent example_eps chain_sites []
            (sort_by (x_lessthan chain_sites) (seq 0 3)) = [0; 2]%nat /\
  retainedIndices (@sort_by nat) example_extent example_eps chain_sites true
  = [2]%nat.
Proof. repeat split; vm_compute; reflexivity. Qed.

Lemma buildMesh_discards_earlier_of_nearby_sites_witness :
  length (cellSites (@sort_by nat) example_extent example_eps
                    [mkVec 1 1 1; mkVec 1 1 1; mkVec 1 1 1] true) = 1%nat.
Proof.
  destruct (buildMesh_discards_earlier_of_nearby_sites
              (@sort_by nat) example_extent example_eps
              [mkVec 1 1 1; mkVec 1 1 1; mkVec 1 1 1] sort_by_ok
              ltac:(discriminate)) as (_ & _ & H).
  apply H.
  - reflexivity.
  - intros i Hi. do 3 (destruct i as [|i]; [reflexivity|]). lia.
  - intros i j Hi Hj.
    do 3 (destruct i as [|i];
          [do 3 (destruct j as [|j]; [reflexivity|]); lia|]). lia.
  - discriminate.
Defined.

(** *** The import of the masses in [readAndClose] *)

(** The columns of the imported rows and the multiplier, as configured
    through the snapshot (the column indices are those that [massIndex()],
    [densityIndex()] and [metallicityIndex()] return). *)
Record MassPolicy : Type := mkMassPolicy {
  massIndex : Z;
  densityIndex : Z;
  metallicityIndex : Z;
  multiplier : Q
}.

Inductive LogEntry : Type :=
| InfoTotalOriginalMass (mass : Q)
| InfoTotalMetallicMass (mass : Q)
| InfoTotalEffectiveMass (mass : Q)
| WarningNegativeMass.

(** The data members that the mass part of [readAndClose] sets, the mass
    statistics that it logs, and what it hands to [NR::cdf] and whether it
    calls [buildSearch]. *)
Record MassImport : Type := mkMassImport {
  _mass : Q;
  _propv : list Array;
  _rhov : Array;
  _cells : list VoronoiCell;
  totalOriginalMass : Q;
  totalMetallicMass : Q;
  totalEffectiveMass : Q;
  cumulated : option Array;
  searchBuilt : bool;
  log : list LogEntry
}.

(** [std::max]. *)
Definition dmax (a b : Q) : Q := if Qltb a b then b else a.

(** The masses of one site: original, metallic and effective. *)
Definition siteMasses (policy : MassPolicy) (prop : Array) (volume : Q)
  : option (Q * Q * Q) :=
  originalMass <-
    (if (massIndex policy =? 0)%Z
     then d <- vget prop (densityIndex policy) ;; Some (d * volume)
     else vget prop (massIndex policy)) ;;
  metallicity <-
    (if (0 <=? metallicityIndex policy)%Z
     then vget prop (metallicityIndex policy) else Some 1) ;;
  let metallicMass := dmax 0 (originalMass * metallicity) in
  Some (originalMass, metallicMass, metallicMass * multiplier policy).

(** The loop over all sites: the effective masses, the densities and the
    three totals. *)
Fixpoint massLoop (policy : MassPolicy) (propv : list Array)
  (cells : list VoronoiCell) (Mv rhov : Array) (totals : Q * Q * Q)
  : option (Array * Array * (Q * Q * Q)) :=
  match propv with
  | [] => Some (Mv, rhov, totals)
  | prop :: propv' =>
      match cells with
      | [] => None
      | cell :: cells' =>
          m <- siteMasses policy prop (_volume cell) ;;
          let '(originalMass, metallicMass, effectiveMass) := m in
          let '(totalOriginal, totalMetallic, totalEffective) := totals in
          massLoop policy propv' cells'
                   (Mv ++ [effectiveMass])
                   (rhov ++ [effectiveMass / _volume cell])
                   (totalOriginal + originalMass,
                    totalMetallic + metallicMass,
                    totalEffective + effectiveMass)
      end
  end.

(** The part of [readAndClose] that is executed when a mass density policy
    has been set, after the mesh has been built for the rows [propv]. *)
Definition importMasses (policy : MassPolicy) (propv : list Array)
  (cells : list VoronoiCell) : option MassImport :=
  r <- massLoop policy propv cells [] [] (0, 0, 0) ;;
  let '(Mv, rhov, (totalOriginal, totalMetallic, totalEffective)) := r in
  let infos := [InfoTotalOriginalMass totalOriginal;
                InfoTotalMetallicMass totalMetallic;
                InfoTotalEffectiveMass totalEffective] in
  let suppress := Qltb totalOriginal 0 || Qltb totalMetallic 0
                  || Qltb totalEffective 0 in
  let mass := if suppress then 0 else totalEffective in
  let propv' := if suppress then [] else propv in
  let rhov' := if suppress then [] else rhov in
  let cells' := if suppress then [] else cells in
  let log := if suppress then infos ++ [WarningNegativeMass] else infos in
  let nonempty := match propv' with [] => false | _ :: _ => true end in
  Some (mkMassImport mass propv' rhov' cells'
                     totalOriginal totalMetallic totalEffective
                     (if nonempty then Some Mv else None) nonempty log).

(** The rows have the columns that the policy reads. *)
Definition columnsPresent (policy : MassPolicy) (prop : Array) : Prop :=
  (if (massIndex policy =? 0)%Z
   then (0 <= densityIndex policy < Z.of_nat (length prop))%Z
   else (0 <= massIndex policy < Z.of_nat (length prop))%Z) /\
  ((0 <= metallicityIndex policy)%Z ->
   (metallicityIndex policy < Z.of_nat (length prop))%Z).

Lemma siteMasses_defined (policy : MassPolicy) (prop : Array) (volume : Q) :
  columnsPresent policy prop ->
  exists m, siteMasses policy prop volume = Some m.
Proof.
  intros [Hm Hz]. unfold siteMasses.
  destruct (massIndex policy =? 0)%Z.
  - destruct (vget_some prop _ Hm) as [d ->]. cbn [obind].
    destruct (Z.leb_spec 0 (metallicityIndex policy)) as [H|H].
    + destruct (vget_some prop (metallicityIndex policy)) as [z ->];
        [split; [assumption | now apply Hz]|].
      eexists; reflexivity.
    + eexists; reflexivity.
  - destruct (vget_some prop _ Hm) as [d ->]. cbn [obind].
    destruct (Z.leb_spec 0 (metallicityIndex policy)) as [H|H].
    + destruct (vget_some prop (metallicityIndex policy)) as [z ->];
        [split; [assumption | now apply Hz]|].
      eexists; reflexivity.
    + eexists; reflexivity.
Qed.

Lemma massLoop_defined (policy : MassPolicy) (propv : list Array) :
  forall (cells : list VoronoiCell) (Mv rhov : Array) (totals : Q * Q * Q),
    Forall (columnsPresent policy) propv ->
    length cells = length propv ->
    exists r, massLoop policy propv cells Mv rhov totals = Some r.
Proof.
  induction propv as [|prop propv IH]; intros cells Mv rhov totals Hc Hl.
  - eexists; reflexivity.
  - destruct cells as [|cell cells]; [discriminate|].
    inversion Hc as [|? ? Hp Hc']; subst.
    destruct (siteMasses_defined policy prop (_volume cell) Hp)
      as [[[o m] e] E].
    cbn [massLoop]. rewrite E. cbn [obind]. destruct totals as [[tO tM] tE].
    apply IH; [assumption | simpl in Hl; lia].
Qed.

(** C8, as stated, fails: for a single site of mass zero the three totals
    are zero, hence not positive, and the mass distribution is neither
    suppressed nor warned about: the row, the cell and the density are
    kept and the search structures are requested. *)
Lemma zero_total_mass_is_not_suppressed :
  exists r,
    importMasses (mkMassPolicy 3 0 (-1) 1) [[1; 1; 1; 0]]
                 [nth 0 example_cells (slab 0 0 0 [])] = Some r /\
    totalOriginalMass r <= 0 /\ totalMetallicMass r <= 0 /\
    totalEffectiveMass r <= 0 /\
    ~ In WarningNegativeMass (log r) /\
    _propv r = [[1; 1; 1; 0]] /\ length (_rhov r) = 1%nat /\
    length (_cells r) = 1%nat /\ searchBuilt r = true.
Proof.
  eexists. split; [vm_compute; reflexivity|].
  repeat split; try discriminate.
  cbn. intros [H|[H|[H|[]]]]; discriminate.
Qed.

(** C8, amended: when a mass density policy is set and the rows have the
    columns it reads, the import never aborts; whenever one of the total
    masses (original, metallic or effective) is negative, it warns and
    suppresses the whole mass distribution (the mass is set to zero and the
    rows, densities and cells are cleared); and whenever the three totals
    are zero or positive, the distribution is kept without a warning. *)
Theorem negative_total_mass_is_suppressed (policy : MassPolicy)
  (propv : list Array) (cells : list VoronoiCell) :
  Forall (columnsPresent policy) propv ->
  length cells = length propv ->
  exists r,
    importMasses policy propv cells = Some r /\
    (totalOriginalMass r < 0 \/ totalMetallicMass r < 0
     \/ totalEffectiveMass r < 0 ->
     In WarningNegativeMass (log r) /\ _mass r = 0 /\ _propv r = [] /\
     _rhov r = [] /\ _cells r = [] /\ searchBuilt r = false) /\
    (0 <= totalOriginalMass r /\ 0 <= totalMetallicMass r
     /\ 0 <= totalEffectiveMass r ->
     ~ In WarningNegativeMass (log r) /\ _mass r = totalEffectiveMass r /\
     _propv r = propv /\ _cells r = cells).
Proof.
  intros Hc Hl.
  destruct (massLoop_defined policy propv cells [] [] (0, 0, 0) Hc Hl)
    as [[[Mv rhov] [[tO tM] tE]] E].
  unfold importMasses. rewrite E. cbn [obind].
  eexists. split; [reflexivity|].
  cbn [totalOriginalMass totalMetallicMass totalEffectiveMass log _mass _propv
       _rhov _cells searchBuilt].
  split.
  - intros H.
    assert (Hs : Qltb tO 0 || Qltb tM 0 || Qltb tE 0 = true).
    { rewrite !orb_true_iff, !Qltb_lt. tauto. }
    rewrite Hs. repeat split. apply in_or_app. right. now left.
  - intros (H1 & H2 & H3).
    assert (Hs : Qltb tO 0 || Qltb tM 0 || Qltb tE 0 = false).
    { rewrite !orb_false_iff, !Qltb_ge. tauto. }
    rewrite Hs. repeat split.
    intros [H|[H|[H|[]]]]; discriminate.
Qed.

Lemma negative_total_mass_is_suppressed_witness :
  exists r,
    importMasses (mkMassPolicy 3 0 4 1)
                 [[1; 1; 1; - (5 # 1); 1]; [2; 1; 1; 2; 1]]
                 (firstn 2 example_cells) = Some r /\
    In WarningNegativeMass (log r) /\ _mass r = 0 /\ _propv r = [] /\
    _rhov r = [] /\ _cells r = [] /\ searchBuilt r = false.
Proof.
  destruct (negative_total_mass_is_suppressed (mkMassPolicy 3 0 4 1)
              [[1; 1; 1; - (5 # 1); 1]; [2; 1; 1; 2; 1]]
              (firstn 2 example_cells)) as (r & E & Hneg & _).
  - repeat constructor; cbn; lia.
  - reflexivity.
  - exists r. split; [exact E|]. apply Hneg. left.
    vm_compute in E. injection E as <-. reflexivity.
Defined.

(** *** The order of [lessthan] *)

Lemma lexltb_trans (a b c : Q * Q * Q) :
  lexltb a b = true -> lexltb b c = true -> lexltb a c = true.
Proof.
  destruct a as [[a1 a2] a3], b as [[b1 b2] b3], c as [[c1 c2] c3].
  unfold lexltb. cbn [fst snd].
  intros H1 H2. repeat qstep; try discriminate; try reflexivity; lra.
Qed.

Lemma lexltb_total (a b : Q * Q * Q) :
  lexltb a b = false -> lexltb b a = false ->
  fst (fst a) == fst (fst b) /\ snd (fst a) == snd (fst b) /\ snd a == snd b.
Proof.
  destruct a as [[a1 a2] a3], b as [[b1 b2] b3].
  unfold lexltb. cbn [fst snd].
  intros H1 H2. repeat qstep; try discriminate; repeat split; lra.
Qed.

(** X3: for each of the axes 0, 1 and 2, [lessthan] is a strict total
    order on the points: no point is below itself, the comparison is
    asymmetric and transitive, and two points neither of which is below
    the other have the same coordinates.  For any other axis it holds of
    no pair of points. *)
Theorem lessthan_strict_total_order (axis : Z) (p q r : Vec) :
  ((0 <= axis <= 2)%Z ->
   lessthan p p axis = false /\
   (lessthan p q axis = true -> lessthan q p axis = false) /\
   (lessthan p q axis = true -> lessthan q r axis = true ->
    lessthan p r axis = true) /\
   (lessthan p q axis = false -> lessthan q p axis = false -> veq p q)) /\
  (~ (0 <= axis <= 2)%Z -> lessthan p q axis = false).
Proof.
  split.
  - intros Ha. rewrite !lessthan_lex by assumption.
    split; [rewrite <- lessthan_lex by assumption; apply lessthan_irrefl|].
    split; [apply lexltb_asym|]. split; [apply lexltb_trans|].
    intros H1 H2. destruct (lexltb_total _ _ H1 H2) as (A & B & C).
    unfold key in A, B, C. unfold veq.
    destruct (axis =? 0)%Z; [|destruct (axis =? 1)%Z];
      cbn [fst snd] in A, B, C; repeat split; assumption.
  - intros Ha. unfold lessthan.
    destruct (Z.eqb_spec axis 0); [lia|].
    destruct (Z.eqb_spec axis 1); [lia|].
    destruct (Z.eqb_spec axis 2); [lia | reflexivity].
Qed.

(** *** The enclosing box of a cell: [VoronoiCell::init] *)

(** [std::min] and [std::max] (the first argument is returned when the
    two are equivalent). *)
Definition dmin (a b : Q) : Q := if Qltb b a then b else a.

(** What [init] takes from the fully computed cell of the tessellation:
    the centroid relative to the site, the volume, the coordinates of the
    vertices for a given site position (x, y and z of one vertex after
    those of another) and the neighbor ids. *)
Record FullCell : Type := mkFullCell {
  centroid : Vec;
  volume : Q;
  vertices : Vec -> list Q;
  neighbors : list Z
}.

(** The loop over the coordinates, three at a time; a last vertex with
    fewer than three coordinates is read beyond the end of the vector. *)
Fixpoint boundsLoop (coords : list Q) (b : Box) : option Box :=
  match coords with
  | [] => Some b
  | x :: y :: z :: rest =>
      boundsLoop rest
        (mkBox (dmin (xmin b) x) (dmin (ymin b) y) (dmin (zmin b) z)
               (dmax (xmax b) x) (dmax (ymax b) y) (dmax (zmax b) z))
  | _ => None
  end.

(** [init], for the cell that the constructor made for the site [r]. *)
Definition init (r : Vec) (cell : FullCell) : option VoronoiCell :=
  b <- boundsLoop (vertices cell r)
         (mkBox DBL_MAX DBL_MAX DBL_MAX (- DBL_MAX) (- DBL_MAX) (- DBL_MAX)) ;;
  Some (mkVoronoiCell r (vadd (centroid cell) r) (volume cell) (neighbors cell)
                      (mkVec (xmin b) (ymin b) (zmin b))
                      (mkVec (xmax b) (ymax b) (zmax b))).

(** A box lies within another one. *)
Definition encloses (outer inner : Box) : Prop :=
  xmin outer <= xmin inner /\ ymin outer <= ymin inner /\
  zmin outer <= zmin inner /\ xmax inner <= xmax outer /\
  ymax inner <= ymax outer /\ zmax inner <= zmax outer.

Lemma dmin_le (a b : Q) : dmin a b <= a /\ dmin a b <= b.
Proof.
  unfold dmin. destruct (Qltb b a) eqn:E;
    [apply Qltb_lt in E | apply Qltb_ge in E]; split; lra.
Qed.

Lemma dmax_ge (a b : Q) : a <= dmax a b /\ b <= dmax a b.
Proof.
  unfold dmax. destruct (Qltb a b) eqn:E;
    [apply Qltb_lt in E | apply Qltb_ge in E]; split; lra.
Qed.

Lemma list_ind3 {A : Type} (P : list A -> Prop) :
  P [] -> (forall x, P [x]) -> (forall x y, P [x; y]) ->
  (forall x y z l, P l -> P (x :: y :: z :: l)) ->
  forall l, P l.
Proof.
  intros H0 H1 H2 H3 l.
  assert (H : P l /\ (forall a, P (a :: l)) /\ (forall a b, P (a :: b :: l))).
  { induction l as [|c l (IH0 & IH1 & IH2)]; [repeat split; auto|].
    split; [apply IH1|]. split; [intros a; apply IH2|].
    intros a b. apply H3. exact IH0. }
  apply H.
Qed.

(** The vertex number [k] of a vector of coordinates. *)
Definition vertex (coords : list Q) (k : nat) : Vec :=
  mkVec (nth (3 * k) coords 0) (nth (3 * k + 1) coords 0)
        (nth (3 * k + 2) coords 0).

Lemma boundsLoop_spec (coords : list Q) :
  forall b : Box,
    match boundsLoop coords b with
    | Some b' =>
        (exists n, length coords = (3 * n)%nat) /\ encloses b' b /\
        forall k, (3 * k < length coords)%nat ->
                  contains b' (vertex coords k) = true
    | None => forall n, length coords <> (3 * n)%nat
    end.
Proof.
  induction coords as [| x | x y | x y z rest IH] using list_ind3; intros b.
  - cbn [boundsLoop]. split; [exists O; reflexivity|].
    split; [unfold encloses; repeat split; lra|].
    intros k Hk. simpl in Hk. lia.
  - cbn [boundsLoop]. intros n. simpl. lia.
  - cbn [boundsLoop]. intros n. simpl. lia.
  - cbn [boundsLoop]. specialize (IH
      (mkBox (dmin (xmin b) x) (dmin (ymin b) y) (dmin (zmin b) z)
             (dmax (xmax b) x) (dmax (ymax b) y) (dmax (zmax b) z))).
    destruct (boundsLoop rest _) as [b'|].
    + destruct IH as ((n & Hn) & Henc & Hall).
      unfold encloses in Henc. cbn [xmin ymin zmin xmax ymax zmax] in Henc.
      destruct Henc as (E1 & E2 & E3 & E4 & E5 & E6).
      pose proof (dmin_le (xmin b) x). pose proof (dmin_le (ymin b) y).
      pose proof (dmin_le (zmin b) z). pose proof (dmax_ge (xmax b) x).
      pose proof (dmax_ge (ymax b) y). pose proof (dmax_ge (zmax b) z).
      split; [exists (S n); simpl; lia|].
      split; [unfold encloses; repeat split; lra|].
      intros [|k] Hk.
      * apply contains_spec. unfold vertex. cbn [Nat.mul Nat.add nth vx vy vz].
        repeat split; lra.
      * specialize (Hall k ltac:(simpl in Hk; lia)).
        unfold vertex in *.
        replace (3 * S k)%nat with (S (S (S (3 * k)))) by lia.
        exact Hall.
    + intros n Hn. destruct n as [|n]; [discriminate|].
      apply (IH n). simpl in Hn. lia.
Qed.

(** X4: [init] computes a box that encloses every vertex of the cell: when
    the vector of coordinates holds whole vertices, each vertex lies
    between the corners [rmin] and [rmax] in the three coordinates, and the
    site, the centroid (moved by the site), the volume and the neighbors
    are taken over; the corners stay within the range of the doubles.  For
    a cell without vertices the box is the inverted box from [DBL_MAX] to
    [-DBL_MAX].  When the number of coordinates is not a multiple of
    three, the loop reads beyond the end of the vector. *)
Theorem init_encloses_vertices (r : Vec) (cell : FullCell) :
  ((exists n, length (vertices cell r) = (3 * n)%nat) ->
   exists c,
     init r cell = Some c /\
     _r c = r /\ _c c = vadd (centroid cell) r /\ _volume c = volume cell /\
     _neighbors c = neighbors cell /\
     (forall k, (3 * k < length (vertices cell r))%nat ->
        let v := vertex (vertices cell r) k in
        vx (rmin c) <= vx v <= vx (rmax c) /\
        vy (rmin c) <= vy v <= vy (rmax c) /\
        vz (rmin c) <= vz v <= vz (rmax c)) /\
     (vx (rmin c) <= DBL_MAX /\ - DBL_MAX <= vx (rmax c)) /\
     (vertices cell r = [] ->
      rmin c = mkVec DBL_MAX DBL_MAX DBL_MAX /\
      rmax c = mkVec (- DBL_MAX) (- DBL_MAX) (- DBL_MAX))) /\
  ((forall n, length (vertices cell r) <> (3 * n)%nat) -> init r cell = None).
Proof.
  unfold init.
  pose proof (boundsLoop_spec (vertices cell r)
                (mkBox DBL_MAX DBL_MAX DBL_MAX
                       (- DBL_MAX) (- DBL_MAX) (- DBL_MAX))) as H.
  split.
  - intros [n Hn].
    destruct (boundsLoop (vertices cell r) _) as [b|] eqn:E;
      [|exfalso; exact (H n Hn)].
    destruct H as (_ & Henc & Hall). cbn [obind].
    eexists. split; [reflexivity|].
    cbn [_r _c _volume _neighbors rmin rmax vx vy vz].
    repeat split; try reflexivity.
    + specialize (Hall k H). apply contains_spec in Hall. tauto.
    + specialize (Hall k H). apply contains_spec in Hall. tauto.
    + specialize (Hall k H). apply contains_spec in Hall. tauto.
    + specialize (Hall k H). apply contains_spec in Hall. tauto.
    + specialize (Hall k H). apply contains_spec in Hall. tauto.
    + specialize (Hall k H). apply contains_spec in Hall. tauto.
    + unfold encloses in Henc. cbn [xmin] in Henc. tauto.
    + unfold encloses in Henc. cbn [xmax] in Henc. tauto.
    + rewrite H in E. cbn [boundsLoop] in E. injection E as <-. reflexivity.
    + rewrite H in E. cbn [boundsLoop] in E. injection E as <-. reflexivity.
  - intros Hn.
    destruct (boundsLoop (vertices cell r) _) as [b|]; [|reflexivity].
    destruct H as ((n & Hlen) & _). exfalso. exact (Hn n Hlen).
Qed.

(** *** What the filter of [buildMesh] retains *)

Lemma keptSites_in (extent : Box) (eps : Q) (sites : list Vec) (l : list nat)
  (i : nat) :
  In i (keptSites extent eps sites l) ->
  In i l /\ contains extent (site sites i) = true.
Proof.
  induction l as [|a l IH]; cbn [keptSites]; [contradiction|].
  destruct (contains extent (site sites a)) eqn:Ec; cbn [andb].
  - destruct (negb _); [|intros H; destruct (IH H); split; [now right | assumption]].
    intros [<-|H]; [split; [now left | assumption]|].
    destruct (IH H); split; [now right | assumption].
  - intros H; destruct (IH H); split; [now right | assumption].
Qed.

Lemma keptSites_NoDup (extent : Box) (eps : Q) (sites : list Vec) (l : list nat) :
  NoDup l -> NoDup (keptSites extent eps sites l).
Proof.
  induction 1 as [|a l Ha Hl IH]; cbn [keptSites]; [constructor|].
  destruct (contains extent (site sites a) && _); [|exact IH].
  constructor; [|exact IH]. intros H. apply keptSites_in in H. tauto.
Qed.

Lemma keptSites_separated (extent : Box) (eps : Q) (sites : list Vec)
  (l : list nat) :
  ForallOrdPairs (fun i j => within eps sites (site sites i) j = false)
                 (keptSites extent eps sites l).
Proof.
  induction l as [|a l IH]; cbn [keptSites]; [constructor|].
  destruct (contains extent (site sites a)); cbn [andb]; [|exact IH].
  destruct (existsb (within eps sites (site sites a)) l) eqn:E; cbn [negb];
    [exact IH|].
  constructor; [|exact IH].
  apply Forall_forall. intros j Hj. apply keptSites_in in Hj.
  destruct (within eps sites (site sites a) j) eqn:Ew; [|reflexivity].
  assert (existsb (within eps sites (site sites a)) l = true)
    by (apply existsb_exists; exists j; tauto).
  congruence.
Qed.

Lemma keptSites_complete (extent : Box) (eps : Q) (sites : list Vec)
  (l : list nat) (i : nat) :
  In i l -> contains extent (site sites i) = true ->
  (forall j, In j l -> j <> i -> within eps sites (site sites i) j = false) ->
  NoDup l ->
  In i (keptSites extent eps sites l).
Proof.
  intros Hin Hc Hfar Hnd. induction Hnd as [|a l Ha Hl IH]; [contradiction|].
  cbn [keptSites]. destruct Hin as [->|Hin].
  - rewrite Hc. cbn [andb].
    assert (E : existsb (within eps sites (site sites i)) l = false).
    { destruct (existsb _ l) eqn:E; [|reflexivity].
      apply existsb_exists in E. destruct E as (j & Hj & Hw).
      rewrite Hfar in Hw; [discriminate | now right |].
      intros ->. contradiction. }
    rewrite E. now left.
  - assert (In i (keptSites extent eps sites l)).
    { apply IH; [assumption|]. intros j Hj. apply Hfar. now right. }
    destruct (contains extent (site sites a) && _); [now right | assumption].
Qed.

Lemma norm2_vsub_sym (a b : Vec) : norm2 (vsub a b) == norm2 (vsub b a).
Proof. unfold norm2, vsub. cbn [vx vy vz]. ring. Qed.

(** X5: with [ignoreNearbyAndOutliers] set, the sites for which
    [buildMesh] creates a cell are distinct sites of the input, every one
    of them lies inside the domain, and any two of them are at least
    [eps] apart; and a site inside the domain that has no other site
    within [eps] is never discarded.  The number of sites ignored and the
    number retained add up to the number of sites. *)
Theorem buildMesh_retains_separated_sites
  (sort : (nat -> nat -> bool) -> list nat -> list nat) (extent : Box)
  (eps : Q) (sites : list Vec) :
  sort_ok sort -> 0 <= eps ->
  let kept := retainedIndices sort extent eps sites true in
  NoDup kept /\
  (length kept <= length sites)%nat /\
  (forall i, In i kept ->
             (i < length sites)%nat /\ contains extent (site sites i) = true) /\
  (forall i j, In i kept -> In j kept -> i <> j ->
               eps * eps <= norm2 (vsub (site sites j) (site sites i))) /\
  (forall i, (i < length sites)%nat ->
             contains extent (site sites i) = true ->
             (forall j, (j < length sites)%nat -> j <> i ->
                        eps * eps <= norm2 (vsub (site sites j) (site sites i))) ->
             In i kept).
Proof.
  intros Hsort Heps kept.
  destruct (Hsort sites (seq 0 (length sites))) as (Hperm & Hord).
  set (sorted := sort (x_lessthan sites) (seq 0 (length sites))) in *.
  assert (Hkept : kept = keptSites extent eps sites sorted).
  { unfold kept, retainedIndices. fold sorted. now apply untagged_tagSites. }
  assert (Hnd : NoDup sorted) by (apply (Permutation_NoDup Hperm), seq_NoDup).
  assert (Hin : forall i, In i sorted <-> (i < length sites)%nat).
  { intros i. split; intros H.
    - apply (Permutation_in _ (Permutation_sym Hperm)), in_seq in H. lia.
    - apply (Permutation_in _ Hperm), in_seq. lia. }
  rewrite Hkept. split; [now apply keptSites_NoDup|]. split; [|split; [|split]].
  - apply Nat.le_trans with (m := length (seq 0 (length sites)));
      [|rewrite length_seq; lia].
    apply NoDup_incl_length; [now apply keptSites_NoDup|].
    intros i Hi. apply keptSites_in in Hi. apply in_seq.
    destruct Hi as [Hi _]. apply Hin in Hi. lia.
  - intros i Hi. apply keptSites_in in Hi. destruct Hi as [Hi Hc].
    split; [now apply Hin | assumption].
  - intros i j Hi Hj Hne.
    destruct (ForallOrdPairs_In (keptSites_separated extent eps sites sorted)
                i j Hi Hj) as [E|[H|H]]; [contradiction| |];
      unfold within in H; apply Qltb_ge in H.
    + exact H.
    + rewrite norm2_vsub_sym. exact H.
  - intros i Hi Hc Hfar. apply keptSites_complete; try assumption.
    + now apply Hin.
    + intros j Hj Hne. unfold within. apply Qltb_ge.
      apply Hfar; [now apply Hin | assumption].
Qed.

Lemma buildMesh_retains_separated_sites_witness :
  retainedIndices (@sort_by nat) example_extent example_eps
                  [mkVec 2 1 1; mkVec 1 1 1; mkVec 20 1 1; mkVec 1 1 1] true
  = [3; 0]%nat
  /\ In 0%nat (retainedIndices (@sort_by nat) example_extent example_eps
                 [mkVec 2 1 1; mkVec 1 1 1; mkVec 20 1 1; mkVec 1 1 1] true).
Proof.
  split; [vm_compute; reflexivity|].
  destruct (buildMesh_retains_separated_sites (@sort_by nat) example_extent
              example_eps [mkVec 2 1 1; mkVec 1 1 1; mkVec 20 1 1; mkVec 1 1 1]
              sort_by_ok ltac:(discriminate)) as (_ & _ & _ & _ & H).
  apply H.
  - simpl. lia.
  - reflexivity.
  - intros j Hj Hne. simpl in Hj.
    destruct j as [|[|[|[|j]]]]; try lia; vm_compute; discriminate.
Defined.

(** *** The depth of the search trees *)

Fixpoint height (t : Node) : nat :=
  match t with
  | Null => O
  | MkNode _ _ l r => S (Nat.max (height l) (height r))
  end.

Lemma buildTree_height
  (nth_element : (nat -> nat -> bool) -> list nat -> nat -> list nat)
  (cells : list VoronoiCell) (fuel : nat) :
  nth_element_ok nth_element ->
  forall (ids : list nat) (depth : nat),
    (length ids <= fuel)%nat ->
    (ids = [] -> buildTree nth_element fuel cells ids depth = Null) /\
    (ids <> [] ->
     (2 ^ height (buildTree nth_element fuel cells ids depth)
      <= 2 * length ids)%nat).
Proof.
  intros Hnth. induction fuel as [|fuel IH]; intros ids depth Hlen.
  - destruct ids; [|simpl in Hlen; lia]. split; [reflexivity | congruence].
  - destruct ids as [|a ids0]; [split; [reflexivity | congruence]|].
    split; [discriminate|]. intros _.
    set (ids := a :: ids0) in *.
    cbn [buildTree]. fold ids.
    set (median := Nat.div2 (length ids)).
    assert (Hpos : (1 <= length ids)%nat) by (unfold ids; simpl; lia).
    assert (Hmed : (median < length ids)%nat) by (apply Nat.lt_div2; lia).
    assert (Hhalf : (2 * median <= length ids <= 2 * median + 1)%nat).
    { unfold median. rewrite Nat.div2_div.
      pose proof (Nat.div_mod_eq (length ids) 2).
      pose proof (Nat.mod_upper_bound (length ids) 2). lia. }
    destruct (Hnth cells depth ids median Hmed) as (Hperm & _).
    set (ids' := nth_element (site_lessthan cells depth) ids median) in *.
    assert (Hlen' : length ids' = length ids)
      by (symmetry; now apply Permutation_length).
    assert (Hl : length (firstn median ids') = median)
      by (rewrite length_firstn; lia).
    assert (Hr : length (skipn (S median) ids') = (length ids - S median)%nat)
      by (rewrite length_skipn; lia).
    destruct (IH (firstn median ids') (S depth) ltac:(lia)) as (HLn & HLh).
    destruct (IH (skipn (S median) ids') (S depth) ltac:(lia)) as (HRn & HRh).
    unfold ids at 1. cbn [height]. rewrite Nat.pow_succ_r'.
    assert (HL : (2 ^ height (buildTree nth_element fuel cells
                                (firstn median ids') (S depth))
                  <= Nat.max 1 (2 * median))%nat).
    { destruct (firstn median ids') as [|x xs] eqn:E.
      - rewrite HLn by reflexivity. cbn [height Nat.pow]. lia.
      - rewrite <- Hl. specialize (HLh ltac:(discriminate)). lia. }
    assert (HR : (2 ^ height (buildTree nth_element fuel cells
                                (skipn (S median) ids') (S depth))
                  <= Nat.max 1 (2 * median))%nat).
    { destruct (skipn (S median) ids') as [|x xs] eqn:E.
      - rewrite HRn by reflexivity. cbn [height Nat.pow]. lia.
      - specialize (HRh ltac:(discriminate)). rewrite Hr in HRh. lia. }
    destruct (Nat.max_spec
                (height (buildTree nth_element fuel cells
                           (firstn median ids') (S depth)))
                (height (buildTree nth_element fuel cells
                           (skipn (S median) ids') (S depth))))
      as [[_ ->]|[_ ->]].
    + destruct median as [|median']; [|lia].
      rewrite HRn; [cbn [height Nat.pow]; lia|].
      apply length_zero_iff_nil. lia.
    + destruct median as [|median']; [|lia].
      rewrite HLn; [cbn [height Nat.pow]; lia|].
      apply length_zero_iff_nil. lia.
Qed.

(** X6: for a sequence of indices, [buildTree] constructs a tree that
    holds every index of the sequence exactly once (its nodes are a
    rearrangement of the sequence), that is ordered as a k-d tree (no site
    of a left subtree is above the site of the node in the order of
    [lessthan] for the axis of the node, no site of a right subtree is
    below it, the axes cycling with the depth), and that is balanced: a
    tree for [n >= 1] indices is at most [log2 n + 1] nodes deep
    ([2 ^ height <= 2 * n]).  For the empty sequence there is no tree. *)
Theorem buildTree_balanced_kd_tree
  (nth_element : (nat -> nat -> bool) -> list nat -> nat -> list nat)
  (cells : list VoronoiCell) (ids : list nat) (depth : nat) :
  nth_element_ok nth_element ->
  let t := buildTree nth_element (length ids) cells ids depth in
  Permutation ids (elems t) /\ kd_ok cells t /\
  (ids = [] -> t = Null) /\
  (ids <> [] -> (2 ^ height t <= 2 * length ids)%nat).
Proof.
  intros Hnth t.
  destruct (buildTree_spec nth_element Hnth cells (length ids) ids depth
              (Nat.le_refl _)) as (Hok & Hperm).
  destruct (buildTree_height nth_element cells (length ids) Hnth ids depth
              (Nat.le_refl _)) as (Hnil & Hh).
  repeat split; assumption.
Qed.

Lemma buildTree_balanced_kd_tree_witness :
  let t := buildTree sorting_nth_element 8 example_cells
                     [7; 3; 0; 5; 1; 6; 2; 4]%nat 0 in
  Permutation [7; 3; 0; 5; 1; 6; 2; 4]%nat (elems t) /\
  (2 ^ height t <= 16)%nat.
Proof.
  destruct (buildTree_balanced_kd_tree sorting_nth_element example_cells
              [7; 3; 0; 5; 1; 6; 2; 4]%nat 0 sorting_nth_element_ok)
    as (Hp & _ & _ & Hh).
  split; [exact Hp|]. apply Hh. discriminate.
Defined.

(** *** Random positions in a cell: [generatePosition] *)

(** The loop of [isPointClosestTo] over the ids: negative ids (the walls
    of the domain) are skipped. *)
Fixpoint closestLoop (cells : list VoronoiCell) (r : Vec) (target : Q)
  (ids : list Z) : option bool :=
  match ids with
  | [] => Some true
  | id :: ids' =>
      if (0 <=? id)%Z then
        c <- vget cells id ;;
        if Qltb (norm2 (vsub r (_r c))) target then Some false
        else closestLoop cells r target ids'
      else closestLoop cells r target ids'
  end.

Definition isPointClosestTo (cells : list VoronoiCell) (r : Vec) (m : Z)
  (ids : list Z) : option bool :=
  c <- vget cells m ;;
  closestLoop cells r (norm2 (vsub r (_r c))) ids.

Inductive Generated : Type :=
| Found (r : Vec)
| CannotFindPosition
| UndefinedAccess.

Section GeneratePosition.

(** [random()->position(box)]: the position drawn by the call number
    [i] of the generator. *)
Variable draw : nat -> Box -> Vec.
Variable cells : list VoronoiCell.

Fixpoint generateLoop (m : Z) (box : Box) (ids : list Z) (count i : nat)
  : Generated :=
  match count with
  | O => CannotFindPosition
  | S count' =>
      let r := draw i box in
      match isPointClosestTo cells r m ids with
      | None => UndefinedAccess
      | Some true => Found r
      | Some false => generateLoop m box ids count' (S i)
      end
  end.

(** The enclosing box of a cell. *)
Definition cellExtent (c : VoronoiCell) : Box :=
  mkBox (vx (rmin c)) (vy (rmin c)) (vz (rmin c))
        (vx (rmax c)) (vy (rmax c)) (vz (rmax c)).

Definition generatePosition (m : Z) : Generated :=
  match vget cells m with
  | None => UndefinedAccess
  | Some c => generateLoop m (cellExtent c) (_neighbors c) (Z.to_nat 10000) O
  end.

Lemma closestLoop_true (r : Vec) (target : Q) (ids : list Z) :
  closestLoop cells r target ids = Some true ->
  forall id, In id ids -> (0 <= id)%Z ->
             exists c, vget cells id = Some c /\
                       target <= norm2 (vsub r (_r c)).
Proof.
  induction ids as [|a ids IH]; cbn [closestLoop]; [contradiction|].
  intros H id [->|Hin] Hid.
  - destruct (Z.leb_spec 0 id); [|lia].
    destruct (vget cells id) as [c|]; [|discriminate]. cbn [obind] in H.
    exists c. split; [reflexivity|].
    destruct (Qltb _ target) eqn:E; [discriminate|]. now apply Qltb_ge.
  - apply IH; try assumption.
    destruct (0 <=? a)%Z; [|assumption].
    destruct (vget cells a) as [c|]; [|discriminate]. cbn [obind] in H.
    destruct (Qltb _ target); [discriminate | assumption].
Qed.

Lemma closestLoop_defined (r : Vec) (target : Q) (ids : list Z) :
  (forall id, In id ids -> (0 <= id < Z.of_nat (length cells))%Z \/ (id < 0)%Z) ->
  closestLoop cells r target ids <> None.
Proof.
  induction ids as [|a ids IH]; cbn [closestLoop]; intros H; [discriminate|].
  destruct (Z.leb_spec 0 a).
  - destruct (vget_some cells a) as [c ->].
    { destruct (H a (or_introl eq_refl)); lia. }
    cbn [obind]. destruct (Qltb _ target); [discriminate|].
    apply IH. intros id Hid. apply H. now right.
  - apply IH. intros id Hid. apply H. now right.
Qed.

Lemma generateLoop_spec (m : Z) (box : Box) (ids : list Z) (count : nat) :
  forall i,
    match generateLoop m box ids count i with
    | Found r =>
        exists n, (n < count)%nat /\ r = draw (i + n) box /\
                  isPointClosestTo cells r m ids = Some true /\
                  forall k, (k < n)%nat ->
                            isPointClosestTo cells (draw (i + k) box) m ids
                            = Some false
    | CannotFindPosition =>
        forall k, (k < count)%nat ->
                  isPointClosestTo cells (draw (i + k) box) m ids = Some false
    | UndefinedAccess =>
        exists n, (n < count)%nat /\
                  isPointClosestTo cells (draw (i + n) box) m ids = None
    end.
Proof.
  induction count as [|count IH]; intros i; cbn [generateLoop].
  - intros k Hk. lia.
  - destruct (isPointClosestTo cells (draw i box) m ids) as [[|]|] eqn:E.
    + exists O. rewrite Nat.add_0_r.
      split; [lia|]. split; [reflexivity|]. split; [assumption|].
      intros k Hk. lia.
    + specialize (IH (S i)).
      destruct (generateLoop m box ids count (S i)) as [r| |].
      * destruct IH as (n & Hn & Hr & Hc & Hall).
        exists (S n). rewrite Nat.add_succ_r.
        split; [lia|]. split; [assumption|]. split; [assumption|].
        intros [|k] Hk; [now rewrite Nat.add_0_r|].
        rewrite Nat.add_succ_r. apply Hall. lia.
      * intros [|k] Hk; [now rewrite Nat.add_0_r|].
        rewrite Nat.add_succ_r. apply IH. lia.
      * destruct IH as (n & Hn & Hu).
        exists (S n). rewrite Nat.add_succ_r. split; [lia | assumption].
    + exists O. rewrite Nat.add_0_r. split; [lia | assumption].
Qed.

End GeneratePosition.

(** X7: [generatePosition(m)] returns the first among the first 10000
    positions drawn in the enclosing box of cell [m] that is not closer to
    the site of any neighboring cell than to the site of cell [m] (the
    walls of the domain, with negative ids, are not considered); when
    every one of the 10000 positions is closer to some neighbor, it fails
    with the fatal error.  When [m] and the neighbor ids that are not
    negative are indices of cells, no access is out of bounds. *)
Theorem generatePosition_first_accepted (draw : nat -> Box -> Vec)
  (cells : list VoronoiCell) (m : Z) :
  (forall r, generatePosition draw cells m = Found r ->
     exists c n,
       vget cells m = Some c /\ (n < Z.to_nat 10000)%nat /\
       r = draw n (cellExtent c) /\
       (forall k, (k < n)%nat ->
          isPointClosestTo cells (draw k (cellExtent c)) m (_neighbors c)
          = Some false) /\
       forall id, In id (_neighbors c) -> (0 <= id)%Z ->
         exists c', vget cells id = Some c' /\
                    norm2 (vsub r (_r c)) <= norm2 (vsub r (_r c'))) /\
  (generatePosition draw cells m = CannotFindPosition ->
   exists c,
     vget cells m = Some c /\
     forall k, (k < Z.to_nat 10000)%nat ->
       isPointClosestTo cells (draw k (cellExtent c)) m (_neighbors c)
       = Some false) /\
  (forall c,
     vget cells m = Some c ->
     (forall id, In id (_neighbors c) ->
                 (0 <= id < Z.of_nat (length cells))%Z \/ (id < 0)%Z) ->
     generatePosition draw cells m <> UndefinedAccess).
Proof.
  unfold generatePosition.
  destruct (vget cells m) as [c|] eqn:Ec.
  - pose proof (generateLoop_spec draw cells m (cellExtent c) (_neighbors c)
                  (Z.to_nat 10000) O) as H.
    split; [|split].
    + intros r Hr. rewrite Hr in H. destruct H as (n & Hn & -> & Hc & Hall).
      exists c, n. split; [reflexivity|]. split; [lia|].
      split; [reflexivity|]. split; [exact Hall|].
      unfold isPointClosestTo in Hc. rewrite Ec in Hc. cbn [obind] in Hc.
      intros id Hid Hpos. exact (closestLoop_true cells _ _ _ Hc id Hid Hpos).
    + intros Hr. rewrite Hr in H. exists c. split; [reflexivity|].
      intros k Hk. apply (H k). lia.
    + intros c' Hc' Hids Hr. injection Hc' as <-. rewrite Hr in H.
      destruct H as (n & _ & Hu).
      unfold isPointClosestTo in Hu. rewrite Ec in Hu. cbn [obind] in Hu.
      exact (closestLoop_defined cells _ _ _ Hids Hu).
  - split; [discriminate|]. split; [discriminate|].
    intros c Hc. discriminate.
Qed.

(** *** The masses and densities that [readAndClose] computes *)

Definition sumQ (v : list Q) : Q := fold_right Qplus 0 v.

Lemma sumQ_app (a b : list Q) : sumQ (a ++ b) == sumQ a + sumQ b.
Proof.
  unfold sumQ. induction a as [|x a IH]; simpl.
  - now rewrite Qplus_0_l.
  - rewrite IH. now rewrite Qplus_assoc.
Qed.

Lemma dmax_nonneg (a : Q) : 0 <= dmax 0 a.
Proof.
  unfold dmax. destruct (Qltb 0 a) eqn:E;
    [apply Qltb_lt in E | apply Qltb_ge in E]; lra.
Qed.

Lemma siteMasses_metallic (policy : MassPolicy) (prop : Array) (volume : Q)
  (o m e : Q) :
  siteMasses policy prop volume = Some (o, m, e) ->
  0 <= m /\ e = m * multiplier policy.
Proof.
  unfold siteMasses, obind. intros H.
  destruct (if (massIndex policy =? 0)%Z then _ else _) as [om|]; [|discriminate].
  destruct (if (0 <=? metallicityIndex policy)%Z then _ else _) as [z|];
    [|discriminate].
  injection H as <- <- <-. split; [apply dmax_nonneg | reflexivity].
Qed.

(** What the loop over the sites adds to its accumulators. *)
Lemma massLoop_spec (policy : MassPolicy) (propv : list Array) :
  forall (cells : list VoronoiCell) (Mv rhov Mv' rhov' : Array)
         (tO tM tE tO' tM' tE' : Q),
    massLoop policy propv cells Mv rhov (tO, tM, tE)
    = Some (Mv', rhov', (tO', tM', tE')) ->
    exists newM newR,
      Mv' = Mv ++ newM /\ rhov' = rhov ++ newR /\
      length newM = length propv /\ length newR = length propv /\
      (forall m cell, nth_error cells m = Some cell -> (m < length propv)%nat ->
                      nth m newR 0 = nth m newM 0 / _volume cell) /\
      tE' == tE + sumQ newM /\ tM <= tM' /\
      (0 <= multiplier policy -> tE <= tE').
Proof.
  induction propv as [|prop propv IH];
    intros cells Mv rhov Mv' rhov' tO tM tE tO' tM' tE' H.
  - cbn [massLoop] in H. injection H as <- <- <- <- <-.
    exists [], []. rewrite !app_nil_r. repeat split; try reflexivity; try lra.
    + intros m cell _ Hm. simpl in Hm. lia.
    + cbn [sumQ fold_right]. ring.
  - cbn [massLoop] in H. destruct cells as [|cell cells]; [discriminate|].
    destruct (siteMasses policy prop (_volume cell)) as [[[o mm] e]|] eqn:Es;
      [|discriminate].
    cbn [obind] in H.
    destruct (siteMasses_metallic _ _ _ _ _ _ Es) as (Hmm & He).
    destruct (IH _ _ _ _ _ _ _ _ _ _ _ H)
      as (newM & newR & -> & -> & HlM & HlR & Hrho & HtE & HtM & HtE').
    exists (e :: newM), (e / _volume cell :: newR).
    rewrite <- !app_assoc. cbn [app length].
    split; [reflexivity|]. split; [reflexivity|].
    split; [lia|]. split; [lia|]. split; [|split; [|split]].
    + intros [|m] c Hc Hm; cbn [nth_error nth] in *.
      * now injection Hc as <-.
      * apply Hrho; [assumption | lia].
    + rewrite HtE. cbn [sumQ fold_right]. fold (sumQ newM). ring.
    + lra.
    + intros Hmult. specialize (HtE' Hmult).
      assert (0 <= e) by (rewrite He; apply Qmult_le_0_compat; assumption).
      lra.
Qed.

(** X8: the metallic mass of a site is clipped at zero, so the total
    metallic mass that [readAndClose] computes is never negative; with a
    multiplier that is not negative the total effective mass and the mass
    of the snapshot are not negative either, and the mass distribution is
    suppressed exactly when the total original mass is negative. *)
Theorem import_metallic_mass_is_not_negative (policy : MassPolicy)
  (propv : list Array) (cells : list VoronoiCell) (r : MassImport) :
  importMasses policy propv cells = Some r ->
  0 <= totalMetallicMass r /\
  (0 <= multiplier policy ->
   0 <= totalEffectiveMass r /\ 0 <= _mass r /\
   (In WarningNegativeMass (log r) <-> totalOriginalMass r < 0)).
Proof.
  unfold importMasses. intros H.
  destruct (massLoop policy propv cells [] [] (0, 0, 0))
    as [[[Mv rhov] [[tO tM] tE]]|] eqn:E; [|discriminate].
  cbn [obind] in H. injection H as <-.
  cbn [totalMetallicMass totalEffectiveMass totalOriginalMass _mass log].
  destruct (massLoop_spec _ _ _ _ _ _ _ _ _ _ _ _ _ E)
    as (newM & newR & _ & _ & _ & _ & _ & _ & HtM & HtE).
  split; [exact HtM|]. intros Hmult. specialize (HtE Hmult).
  split; [exact HtE|].
  assert (EM : Qltb tM 0 = false) by (apply Qltb_ge; lra).
  assert (EE : Qltb tE 0 = false) by (apply Qltb_ge; lra).
  rewrite EM, EE, !orb_false_r.
  destruct (Qltb tO 0) eqn:EO; [apply Qltb_lt in EO | apply Qltb_ge in EO].
  - split; [lra|]. split; [intros _; exact EO|].
    intros _. cbn. tauto.
  - split; [exact HtE|]. split; [|lra].
    intros [H|[H|[H|[]]]]; discriminate.
Qed.

Lemma import_metallic_mass_is_not_negative_witness :
  exists r,
    importMasses (mkMassPolicy 3 0 4 1)
                 [[1; 1; 1; - (5 # 1); 1]; [2; 1; 1; 2; - (1 # 1)]]
                 (firstn 2 example_cells) = Some r /\
    0 <= totalMetallicMass r /\ totalOriginalMass r < 0.
Proof.
  destruct (importMasses (mkMassPolicy 3 0 4 1)
              [[1; 1; 1; - (5 # 1); 1]; [2; 1; 1; 2; - (1 # 1)]]
              (firstn 2 example_cells)) as [r|] eqn:E;
    [|vm_compute in E; discriminate].
  exists r. split; [reflexivity|]. split.
  - exact (proj1 (import_metallic_mass_is_not_negative _ _ _ r E)).
  - vm_compute in E. injection E as <-. reflexivity.
Defined.

(** X9: when the mass distribution is not suppressed, [readAndClose]
    keeps one density per imported row, hands one effective mass per row
    to the cumulative distribution, the mass of the snapshot is the sum of
    these effective masses, and the density of every cell with a volume
    other than zero times that volume is the effective mass of the cell. *)
Theorem import_density_times_volume_is_mass (policy : MassPolicy)
  (propv : list Array) (cells : list VoronoiCell) (r : MassImport) :
  importMasses policy propv cells = Some r ->
  ~ In WarningNegativeMass (log r) -> propv <> [] ->
  exists Mv,
    cumulated r = Some Mv /\ searchBuilt r = true /\
    length Mv = length propv /\ length (_rhov r) = length propv /\
    _mass r == sumQ Mv /\
    forall m cell,
      nth_error cells m = Some cell -> (m < length propv)%nat ->
      ~ _volume cell == 0 ->
      nth m (_rhov r) 0 * _volume cell == nth m Mv 0.
Proof.
  unfold importMasses. intros H Hlog Hne.
  destruct (massLoop policy propv cells [] [] (0, 0, 0))
    as [[[Mv rhov] [[tO tM] tE]]|] eqn:E; [|discriminate].
  cbn [obind] in H. injection H as <-.
  cbn [log cumulated searchBuilt _rhov _mass] in *.
  destruct (massLoop_spec _ _ _ _ _ _ _ _ _ _ _ _ _ E)
    as (newM & newR & -> & -> & HlM & HlR & Hrho & HtE & _ & _).
  cbn [app] in *.
  destruct (Qltb tO 0 || Qltb tM 0 || Qltb tE 0).
  { exfalso. apply Hlog. cbn. tauto. }
  destruct propv as [|prop propv]; [congruence|].
  exists newM. repeat split; try assumption; try reflexivity.
  - rewrite HtE. ring.
  - intros m cell Hc Hm Hvol. rewrite (Hrho m cell Hc Hm). field. exact Hvol.
Qed.

Lemma import_density_times_volume_is_mass_witness :
  exists r Mv,
    importMasses (mkMassPolicy 0 3 (-1) 2)
                 [[1; 1; 1; 5]; [2; 1; 1; 7]]
                 (firstn 2 example_cells) = Some r /\
    cumulated r = Some Mv /\ _mass r == sumQ Mv.
Proof.
  destruct (importMasses (mkMassPolicy 0 3 (-1) 2)
              [[1; 1; 1; 5]; [2; 1; 1; 7]] (firstn 2 example_cells))
    as [r|] eqn:E; [|vm_compute in E; discriminate].
  destruct (import_density_times_volume_is_mass _ _ _ r E)
    as (Mv & Hc & _ & _ & _ & Hm & _).
  - vm_compute in E. injection E as <-. cbn.
    intros [H|[H|[H|[]]]]; discriminate.
  - discriminate.
  - exists r, Mv. split; [reflexivity|]. split; assumption.
Defined.

(** *** The rows that [readAndClose] retains *)

(** The columns and the temperature cutoff as configured through the
    snapshot ([positionIndex()], [temperatureIndex()],
    [hasTemperatureCutoff()] and [maxTemperature()]). *)
Record ImportOptions : Type := mkImportOptions {
  positionIndex : Z;
  temperatureIndex : Z;
  hasTemperatureCutoff : bool;
  maxTemperature : Q
}.

Definition rowPosition (opts : ImportOptions) (prop : Array) : option Vec :=
  x <- vget prop (positionIndex opts + 0)%Z ;;
  y <- vget prop (positionIndex opts + 1)%Z ;;
  z <- vget prop (positionIndex opts + 2)%Z ;;
  Some (mkVec x y z).

(** The test [!_extent.contains(r) || (maxT && prop[temperatureIndex()] >
    maxT)]; the temperature is read only for a row inside the domain and
    a cutoff other than zero. *)
Definition rowIgnored (extent : Box) (opts : ImportOptions) (maxT : Q)
  (prop : Array) : option bool :=
  r <- rowPosition opts prop ;;
  if negb (contains extent r) then Some true
  else if Qeq_bool maxT 0 then Some false
  else T <- vget prop (temperatureIndex opts) ;; Some (Qltb maxT T).

(** The loop over the rows of the file. *)
Fixpoint readRows (extent : Box) (opts : ImportOptions) (maxT : Q)
  (rows propv : list Array) (numIgnored : Z) : option (list Array * Z) :=
  match rows with
  | [] => Some (propv, numIgnored)
  | prop :: rows' =>
      ignored <- rowIgnored extent opts maxT prop ;;
      if ignored then readRows extent opts maxT rows' propv (numIgnored + 1)
      else readRows extent opts maxT rows' (propv ++ [prop]) numIgnored
  end.

Definition cutoff (opts : ImportOptions) : Q :=
  if hasTemperatureCutoff opts then maxTemperature opts else 0.

Definition readSites (extent : Box) (opts : ImportOptions) (rows : list Array)
  : option (list Array * Z) :=
  readRows extent opts (cutoff opts) rows [] 0%Z.

(** A retained row: inside the domain and not hotter than the cutoff. *)
Definition rowAccepted (extent : Box) (opts : ImportOptions) (prop : Array)
  : Prop :=
  exists r, rowPosition opts prop = Some r /\ contains extent r = true /\
            (~ cutoff opts == 0 ->
             exists T, vget prop (temperatureIndex opts) = Some T /\
                       T <= cutoff opts).

Lemma rowIgnored_false (extent : Box) (opts : ImportOptions) (prop : Array) :
  rowIgnored extent opts (cutoff opts) prop = Some false ->
  rowAccepted extent opts prop.
Proof.
  unfold rowIgnored, rowAccepted, obind.
  destruct (rowPosition opts prop) as [r|]; [|discriminate].
  destruct (contains extent r) eqn:Ec; cbn [negb]; [|discriminate].
  intros H. exists r. split; [reflexivity|]. split; [exact Ec|].
  destruct (Qeq_bool (cutoff opts) 0) eqn:E0.
  - apply Qeq_bool_iff in E0. intros Hne. contradiction.
  - intros _. destruct (vget prop (temperatureIndex opts)) as [T|];
      [|discriminate].
    exists T. split; [reflexivity|]. injection H as H. now apply Qltb_ge.
Qed.

Lemma readRows_spec (extent : Box) (opts : ImportOptions) (rows : list Array) :
  forall propv n propv' n',
    readRows extent opts (cutoff opts) rows propv n = Some (propv', n') ->
    exists kept,
      propv' = propv ++ kept /\
      (n' - n + Z.of_nat (length kept) = Z.of_nat (length rows))%Z /\
      kept = filter (fun prop =>
                       match rowIgnored extent opts (cutoff opts) prop with
                       | Some false => true
                       | _ => false
                       end) rows /\
      Forall (rowAccepted extent opts) kept.
Proof.
  induction rows as [|prop rows IH]; intros propv n propv' n' H;
    cbn [readRows] in H.
  - injection H as <- <-. exists []. rewrite app_nil_r.
    repeat split; [simpl; lia | constructor].
  - destruct (rowIgnored extent opts (cutoff opts) prop) as [[|]|] eqn:E;
      [| |discriminate]; cbn [obind] in H.
    + destruct (IH _ _ _ _ H) as (kept & -> & Hn & Hk & Hall).
      exists kept. cbn [filter length]. rewrite E.
      repeat split; try assumption. lia.
    + destruct (IH _ _ _ _ H) as (kept & -> & Hn & Hk & Hall).
      exists (prop :: kept). cbn [filter length]. rewrite E, <- app_assoc.
      repeat split; try lia; try (now f_equal).
      constructor; [now apply (rowIgnored_false extent) | assumption].
Qed.

(** X10: the rows that [readAndClose] retains are the rows of the file,
    in the order of the file, whose site lies inside the domain and,
    when a cutoff temperature other than zero is configured, whose
    temperature does not exceed it; every other row is counted as
    ignored, so that the rows ignored and retained add up to the rows
    read.  A cutoff temperature of zero switches the temperature test
    off: then every row with its site inside the domain is retained. *)
Theorem readAndClose_retains_rows_inside_domain (extent : Box)
  (opts : ImportOptions) (rows propv : list Array) (numIgnored : Z) :
  readSites extent opts rows = Some (propv, numIgnored) ->
  (numIgnored + Z.of_nat (length propv) = Z.of_nat (length rows))%Z /\
  propv = filter (fun prop =>
                    match rowIgnored extent opts (cutoff opts) prop with
                    | Some false => true
                    | _ => false
                    end) rows /\
  Forall (rowAccepted extent opts) propv /\
  (cutoff opts == 0 ->
   forall prop r, In prop rows -> rowPosition opts prop = Some r ->
                  contains extent r = true -> In prop propv).
Proof.
  unfold readSites. intros H.
  destruct (readRows_spec extent opts rows [] 0%Z propv numIgnored H)
    as (kept & E & Hn & Hk & Hall).
  cbn [app] in E. subst kept.
  split; [lia|]. split; [exact Hk|]. split; [exact Hall|].
  intros H0 prop r Hin Hr Hc. rewrite Hk. apply filter_In.
  split; [exact Hin|].
  unfold rowIgnored. rewrite Hr. cbn [obind]. rewrite Hc. cbn [negb].
  apply Qeq_bool_iff in H0. now rewrite H0.
Qed.

Lemma readAndClose_retains_rows_inside_domain_witness :
  readSites example_extent (mkImportOptions 0 3 true 100)
            [[1; 1; 1; 50]; [20; 1; 1; 50]; [2; 1; 1; 500]; [3; 1; 1; 100]]
  = Some ([[1; 1; 1; 50]; [3; 1; 1; 100]], 2%Z)
  /\ Forall (rowAccepted example_extent (mkImportOptions 0 3 true 100))
            [[1; 1; 1; 50]; [3; 1; 1; 100]].
Proof.
  split; [vm_compute; reflexivity|].
  apply (readAndClose_retains_rows_inside_domain example_extent
           (mkImportOptions 0 3 true 100)
           [[1; 1; 1; 50]; [20; 1; 1; 50]; [2; 1; 1; 500]; [3; 1; 1; 100]]
           [[1; 1; 1; 50]; [3; 1; 1; 100]] 2%Z).
  vm_compute. reflexivity.
Defined.

(** *** The segments of a path *)






(** The generator that always draws the same corner of the box. *)
Definition corner (n : nat) (b : Box) : Vec :=
  mkVec (xmax b) (ymin b) (zmin b).

Lemma generatePosition_first_accepted_witness :
  exists r c n,
    generatePosition corner example_cells 0 = Found r /\
    vget example_cells 0 = Some c /\ r = corner n (cellExtent c).
Proof.
  destruct (generatePosition_first_accepted corner example_cells 0)
    as (Hfound & _ & _).
  destruct (Hfound (mkVec (2 # 8) 0 0)) as (c & n & Hc & _ & Hr & _);
    [reflexivity|].
  exists (mkVec (2 # 8) 0 0), c, n. repeat split; assumption.
Defined.

(** A cell with the four vertices of a tetrahedron at its site. *)
Definition tetrahedron : FullCell :=
  mkFullCell (mkVec (1 # 4) (1 # 4) (1 # 4)) (1 # 6)
             (fun r => [vx r; vy r; vz r;
                        vx r + 1; vy r; vz r;
                        vx r; vy r + 1; vz r;
                        vx r; vy r; vz r + 1])
             [1; 2; 3; -1]%Z.

Lemma init_encloses_vertices_witness :
  exists c,
    init (mkVec 1 2 3) tetrahedron = Some c /\
    vx (rmin c) <= 2 <= vx (rmax c).
Proof.
  destruct (init_encloses_vertices (mkVec 1 2 3) tetrahedron) as (Hok & _).
  destruct Hok as (c & Ec & _ & _ & _ & _ & Hv & _);
    [exists 4%nat; reflexivity|].
  exists c. split; [exact Ec|].
  destruct (Hv 1%nat) as (Hx & _); [cbn; lia|]. exact Hx.
Defined.

(** *** The density at a position *)

Section Density.

Variable cellIndices : Box -> Vec -> Z -> Z -> Z -> Z * Z * Z.
Variable nth_element : (nat -> nat -> bool) -> list nat -> nat -> list nat.
Variable cbrt3 : Z -> Z.
Variable extent : Box.
Variable eps : Q.

Hypothesis cellIndices_spec : cellIndices_ok cellIndices extent.
Hypothesis nth_element_spec : nth_element_ok nth_element.
Hypothesis eps_nonneg : 0 <= eps.

(** [cellIndex] in a snapshot whose search structures may not have been
    built: the vector of block trees is empty then, and for a position
    inside the domain the access [_blocktrees[b]] is outside of it. *)
Definition snapshotCellIndex (cells : list VoronoiCell)
  (search : option Search) (bfr : Vec) : option Z :=
  if negb (contains extent bfr) then Some (-1)%Z
  else match search with
       | None => None
       | Some s => Some (cellIndex cellIndices extent cells s bfr)
       end.

(** [density(Position)]. *)
Definition density (cells : list VoronoiCell) (search : option Search)
  (rhov : Array) (bfr : Vec) : option Q :=
  m <- snapshotCellIndex cells search bfr ;;
  if (0 <=? m)%Z then vget rhov m else Some 0.

(** The search structures after [readAndClose]. *)
Definition importedSearch (r : MassImport) : option Search :=
  if searchBuilt r
  then buildSearch cellIndices nth_element cbrt3 extent eps (_cells r)
  else None.

Definition importedDensity (r : MassImport) (bfr : Vec) : option Q :=
  density (_cells r) (importedSearch r) (_rhov r) bfr.

Lemma cellIndex_spec (cells : list VoronoiCell) (s : Search) (p : Vec) :
  boxes_enclose_cells extent cells ->
  distances_finite extent cells ->
  buildSearch cellIndices nth_element cbrt3 extent eps cells = Some s ->
  contains extent p = true ->
  exists m,
    cellIndex cellIndices extent cells s p = Z.of_nat m /\
    (m < length cells)%nat /\
    forall m', (m' < length cells)%nat ->
               squaredDistanceTo cells m p <= squaredDistanceTo cells m' p.
Proof.
  intros Hbox Hfin Es Hp.
  pose proof (block_holds_nearest cellIndices nth_element cbrt3 extent eps
                cellIndices_spec eps_nonneg cells s p Hbox Es Hp) as H.
  unfold cellIndex. rewrite Hp. cbn [negb].
  destruct (cellIndices extent p (_nb s) (_nb s) (_nb s)) as [[i j] k].
  cbv zeta in H. destruct H as (Hvalid & (m0 & Hin0 & Hm0 & Hmin0) & Htree).
  set (ids := nth (blockNumber (_nb s) i j k) (_blocklists s) []) in *.
  rewrite Htree.
  destruct (5 <? length ids)%nat.
  - destruct (buildTree_spec nth_element nth_element_spec cells
                (length ids) ids O (Nat.le_refl _)) as (Hok & Hperm).
    destruct (nearest_spec cells p _ Hok) as [[En _]|(b & -> & Hb & Hmin)].
    + rewrite En in Hperm. apply Permutation_sym, Permutation_nil in Hperm.
      rewrite Hperm in Hin0. contradiction.
    + exists b. split; [reflexivity|].
      apply (Permutation_in _ (Permutation_sym Hperm)) in Hb.
      split; [now apply Hvalid|]. intros m' Hm'.
      specialize (Hmin m0 (Permutation_in _ Hperm Hin0)).
      specialize (Hmin0 m' Hm'). lra.
  - cbn [nearest].
    destruct (scan_spec cells p ids (-1)%Z DBL_MAX)
      as [[_ Hall]|(b & -> & Hb & _ & Hmin)].
    + specialize (Hall m0 Hin0). specialize (Hfin p m0 Hp Hm0). lra.
    + exists b. split; [reflexivity|]. split; [now apply Hvalid|].
      intros m' Hm'. specialize (Hmin m0 Hin0).
      specialize (Hmin0 m' Hm'). lra.
Qed.

(** X24: the density at a position is that of the cell with the nearest
    site.  After [readAndClose] with a mass density policy, for a mesh with
    one cell for every imported row: [density(Position)] is zero for every
    position outside the domain; for a position inside the domain it is the
    density kept for a cell whose site is nearest to the position among all
    sites; and when the mass distribution has been suppressed, or no row was
    imported, the search structures have not been built and for a position
    inside the domain the function reads outside the empty vector of search
    trees. *)
Theorem density_is_that_of_nearest_site (policy : MassPolicy)
  (propv : list Array) (cells : list VoronoiCell) (r : MassImport) :
  importMasses policy propv cells = Some r ->
  length cells = length propv ->
  boxes_enclose_cells extent cells -> distances_finite extent cells ->
  (forall p, contains extent p = false -> importedDensity r p = Some 0) /\
  (forall p, contains extent p = true ->
     (In WarningNegativeMass (log r) \/ propv = [] ->
      importedDensity r p = None) /\
     (~ In WarningNegativeMass (log r) -> propv <> [] ->
      exists m,
        (m < length cells)%nat /\
        (forall m', (m' < length cells)%nat ->
                    squaredDistanceTo cells m p
                    <= squaredDistanceTo cells m' p) /\
        length (_rhov r) = length cells /\
        importedDensity r p = Some (nth m (_rhov r) 0))).
Proof.
  unfold importMasses. intros H Hlen Hbox Hfin.
  destruct (massLoop policy propv cells [] [] (0, 0, 0))
    as [[[Mv rhov] [[tO tM] tE]]|] eqn:E; [|discriminate].
  cbn [obind] in H. injection H as <-.
  unfold importedDensity, importedSearch, density, snapshotCellIndex.
  cbn [log searchBuilt _rhov _cells].
  destruct (massLoop_spec _ _ _ _ _ _ _ _ _ _ _ _ _ E)
    as (newM & newR & -> & -> & HlM & HlR & _).
  cbn [app] in *.
  split.
  - intros p Hp. rewrite Hp. reflexivity.
  - intros p Hp. rewrite Hp. cbn [negb].
    destruct (Qltb tO 0 || Qltb tM 0 || Qltb tE 0) eqn:Esup.
    + split; [reflexivity|]. intros Hlog. exfalso. apply Hlog. cbn. tauto.
    + destruct propv as [|prop propv'] eqn:Epropv.
      * split; [reflexivity | congruence].
      * rewrite <- Epropv in *. split.
        { intros [Hlog|Hnil]; [|congruence].
          cbn in Hlog. destruct Hlog as [Hl|[Hl|[Hl|[]]]]; discriminate. }
        intros _ _.
        destruct (buildSearch cellIndices nth_element cbrt3 extent eps cells)
          as [s|] eqn:Es.
        2:{ destruct cells; [|discriminate]. rewrite Epropv in Hlen.
            discriminate. }
        destruct (cellIndex_spec cells s p Hbox Hfin Es Hp)
          as (m & Em & Hm & Hmin).
        exists m. split; [exact Hm|]. split; [exact Hmin|].
        split; [congruence|].
        cbn [obind]. rewrite Em.
        destruct (Z.leb_spec 0 (Z.of_nat m)); [|lia].
        unfold vget.
        rewrite (proj2 (in_range_spec newR (Z.of_nat m))) by lia.
        rewrite Nat2Z.id. apply nth_error_nth'. lia.
Qed.

End Density.

(** One row for every cell of the example, with a density of 5 in the
    column after the position. *)
Definition example_rows : list Array :=
  map (fun c => [vx (_r c); vy (_r c); vz (_r c); 5]) example_cells.

Lemma density_is_that_of_nearest_site_witness :
  exists r m,
    importMasses (mkMassPolicy 0 3 (-1) 2) example_rows example_cells = Some r /\
    importedDensity gridCellIndices sorting_nth_element cbrt3_floor
                    example_extent example_eps r (mkVec 13 1 1) = Some 0 /\
    importedDensity gridCellIndices sorting_nth_element cbrt3_floor
                    example_extent example_eps r (mkVec 1 1 1)
    = Some (nth m (_rhov r) 0).
Proof.
  destruct (importMasses (mkMassPolicy 0 3 (-1) 2) example_rows example_cells)
    as [r|] eqn:E; [|vm_compute in E; discriminate].
  assert (Heps : 0 <= example_eps) by discriminate.
  destruct (density_is_that_of_nearest_site
              gridCellIndices sorting_nth_element cbrt3_floor
              example_extent example_eps
              (gridCellIndices_ok example_extent eq_refl eq_refl eq_refl)
              sorting_nth_element_ok Heps
              (mkMassPolicy 0 3 (-1) 2) example_rows example_cells r E)
    as (Hout & Hin);
    [reflexivity | exact example_boxes_enclose_cells
     | exact example_distances_finite |].
  destruct (Hin (mkVec 1 1 1)) as (_ & Hd); [reflexivity|].
  destruct Hd as (m & _ & _ & _ & Hm).
  - vm_compute in E. injection E as <-. cbn.
    intros [H|[H|[H|[]]]]; discriminate.
  - discriminate.
  - exists r, m. split; [reflexivity|]. split; [|exact Hm].
    apply Hout. reflexivity.
Defined.

(** X25: the search in a tree that [buildTree] has built finds the nearest
    site.  For a sequence of indices that is not empty, [nearest] on the
    tree built for the sequence returns an index of the sequence whose site
    is at least as near to the position as the site of every index of the
    sequence, whatever the position (inside the domain or not) and however
    the sites lie; for the empty sequence there is no tree and no result. *)
Theorem nearest_in_built_tree_is_nearest
  (nth_element : (nat -> nat -> bool) -> list nat -> nat -> list nat)
  (cells : list VoronoiCell) (ids : list nat) (bfr : Vec) :
  nth_element_ok nth_element ->
  let tree := buildTree nth_element (length ids) cells ids O in
  (ids = [] -> tree = Null /\ nearest cells bfr tree = None) /\
  (ids <> [] ->
   exists b,
     nearest cells bfr tree = Some b /\ In b ids /\
     forall e, In e ids ->
               squaredDistanceTo cells b bfr <= squaredDistanceTo cells e bfr).
Proof.
  intros Hnth tree.
  destruct (buildTree_spec nth_element Hnth cells (length ids) ids O
              (Nat.le_refl _)) as (Hok & Hperm).
  fold tree in Hok, Hperm.
  split.
  - intros ->. split; reflexivity.
  - intros Hne.
    destruct (nearest_spec cells bfr tree Hok) as [[En _]|(b & Eb & Hb & Hmin)].
    + rewrite En in Hperm. apply Permutation_sym, Permutation_nil in Hperm.
      contradiction.
    + exists b. split; [exact Eb|].
      split; [exact (Permutation_in _ (Permutation_sym Hperm) Hb)|].
      intros e He. apply Hmin. exact (Permutation_in _ Hperm He).
Qed.

Lemma nearest_in_built_tree_is_nearest_witness :
  exists b,
    nearest example_cells (mkVec 1 1 1)
            (buildTree sorting_nth_element 8 example_cells (seq 0 8) O)
    = Some b /\ In b (seq 0 8) /\
    squaredDistanceTo example_cells b (mkVec 1 1 1)
    <= squaredDistanceTo example_cells 7 (mkVec 1 1 1).
Proof.
  destruct (nearest_in_built_tree_is_nearest sorting_nth_element example_cells
              (seq 0 8) (mkVec 1 1 1) sorting_nth_element_ok) as (_ & H).
  destruct H as (b & Eb & Hb & Hmin); [discriminate|].
  exists b. split; [exact Eb|]. split; [exact Hb|].
  apply Hmin. cbn. tauto.
Defined.

End VoronoiMeshSnapshot.
